(** * Scene composition and interaction engine: model and properties

    The three scene components ([ThreeDashboard], [AssemblyExplodedScene])
    and the telemetry panel ([MetricsAndLegend] in [SupportPortal]) are
    embedded as pure functions over explicit state.  JavaScript numbers are
    read as exact rationals ([Q]) in the 3D engine and as real numbers ([R])
    in the telemetry panel, whose targets are built from [Math.sin].

    Part I holds the model, one module per concern; Part II the properties. *)

From Stdlib Require Import List ZArith QArith Qround Qabs Qminmax Reals Lra Lia String Bool.
From Stdlib Require Lqa.
From stdpp Require Import base list.
Import ListNotations.

(* ===================================================================== *)
(** * Part I: the model                                                   *)
(* ===================================================================== *)

(** ** Mount effects and the ready callback *)

Module Mount.

(** What [renderer.domElement] currently shows, already encoded. *)
Record Renderer := { framebuffer : string }.

(** [HTMLCanvasElement.toDataURL(type)]. *)
Definition toDataURL (type : string) (r : Renderer) : string :=
  ("data:" ++ type ++ ";base64," ++ framebuffer r)%string.

(** The object handed to [onReady]: [{ capture: () => string }].  The
    closure reads the renderer at the time it is called. *)
Record CaptureApi := { capture : Renderer -> string }.

(** A caller-supplied [onReady] function, known by its identity only. *)
Inductive Handler := handler (id : nat).

(** Observable steps of a mount effect, in the order the source runs them. *)
Inductive Event :=
| AppendCanvas
| BuildScene
| AddPointerListeners
| StartAnimate
| AddResizeListener
| ReadyCalled (h : Handler) (api : CaptureApi)
| LoadGltfAssets
| BuildFlamePanel.

Inductive Teardown :=
| CancelFrame | RemoveResizeListener | RemovePointerListeners
| RemoveCanvas | DisposeResources.

(** A statement either falls through to the next one or leaves the effect
    callback with [return]; statements after a [return] never run. *)
Inductive Flow (A : Type) :=
| Next (a : A)
| Returned (cleanup : option (list Teardown)).
Arguments Next {A} a.
Arguments Returned {A} cleanup.

Definition Eff (A : Type) := list Event -> Flow A * list Event.

(** Sequencing uses stdpp's monad notation: [c1 ;; c2] runs [c2] only
    when [c1] fell through. *)
#[export] Instance Eff_ret : MRet Eff := fun A a log => (Next a, log).

#[export] Instance Eff_bind : MBind Eff := fun A B k c log =>
  match c log with
  | (Next a, log') => k a log'
  | (Returned cl, log') => (Returned cl, log')
  end.

Definition emit (e : Event) : Eff unit := fun log => (Next tt, log ++ [e]).

Definition return_ (cleanup : option (list Teardown)) : Eff unit :=
  fun log => (Returned cleanup, log).

Definition when (b : bool) (c : Eff unit) : Eff unit := if b then c else mret tt.

(** [try { onReady(api) } catch { }]: the call is made when a handler was
    given; whatever it throws is swallowed. *)
Definition callOnReady (onReady : option Handler) (api : CaptureApi) : Eff unit :=
  match onReady with
  | Some h => emit (ReadyCalled h api)
  | None => mret tt
  end.

Definition pngCapture : CaptureApi := {| capture := toDataURL "image/png" |}.

Definition sceneCleanup : list Teardown :=
  [CancelFrame; RemoveResizeListener; RemovePointerListeners; RemoveCanvas;
   DisposeResources].

(** [ThreeDashboard]'s scene-init effect (deps [[]]).  [el] tells whether
    [containerRef.current] is set.  The cleanup is returned before the
    "Expose capture API" block and the asset loading that follow it. *)
Definition ThreeDashboard_effect (el : bool) (onReady : option Handler) : Eff unit :=
  when (negb el) (return_ None) ;;
  emit AppendCanvas ;;
  emit BuildScene ;;
  emit AddPointerListeners ;;
  emit StartAnimate ;;
  emit AddResizeListener ;;
  return_ (Some sceneCleanup) ;;
  callOnReady onReady pngCapture ;;
  emit LoadGltfAssets ;;
  emit BuildFlamePanel.

(** [AssemblyExplodedScene]'s scene-init effect (deps [[]]); the handler
    is read from [onReadyRef.current]. *)
Definition AssemblyExplodedScene_effect (el : bool) (onReadyRef : option Handler) : Eff unit :=
  when (negb el) (return_ None) ;;
  emit AppendCanvas ;;
  emit BuildScene ;;
  emit AddPointerListeners ;;
  emit StartAnimate ;;
  emit AddResizeListener ;;
  callOnReady onReadyRef pngCapture ;;
  return_ (Some sceneCleanup).

(** One mount runs the effect once on an empty log. *)
Definition mount (effect : Eff unit) : list Event := snd (effect []).

Definition isReady (e : Event) : bool :=
  match e with ReadyCalled _ _ => true | _ => false end.

Definition readyCalls (log : list Event) : list Event := List.filter isReady log.

End Mount.


(** ** The parts of the scene-graph library the components rely on *)

Module Three.

Local Open Scope Q_scope.

(** [THREE.Color]: three channels.  The library holds a colour in its
    linear working space: [setHex] passes each byte fraction through
    [SRGBToLinear], [getHex] brings each channel back through
    [LinearToSRGB] before it rounds, and [lerp] combines the values held.
    This record keeps the sRGB fraction of each channel, which is the value
    held passed through [LinearToSRGB]: the fractions [setHex] starts from
    and [getHex] rounds.  The transfer then shows where held values are
    combined, in [Color_lerp]. *)
Record Color := { r : Q; g : Q; b : Q }.

(** The two transfer functions of the library's [ColorManagement].  They
    go through [Math.pow] and are taken as given. *)
Record ColorManagement := {
  SRGBToLinear : Q -> Q;
  LinearToSRGB : Q -> Q
}.

(** [ColorManagement.enabled = false]: nothing is converted. *)
Definition unmanaged : ColorManagement :=
  {| SRGBToLinear := fun c => c; LinearToSRGB := fun c => c |}.

(** [Color.setHex]: [r = (hex >> 16 & 255) / 255] and so on. *)
Definition hexChannel (hex shift : Z) : Q :=
  inject_Z (Z.land (Z.shiftr hex shift) 255) / 255.

Definition Color_setHex (hex : Z) : Color :=
  {| r := hexChannel hex 16; g := hexChannel hex 8; b := hexChannel hex 0 |}.

(** [Math.round] and the library's [clamp(value, min, max)]. *)
Definition Math_round (v : Q) : Z := Qfloor (v + (1#2)).

Definition clamp (value min max : Q) : Q := Qmax min (Qmin max value).

Definition toByte (v : Q) : Z := Math_round (clamp (v * 255) 0 255).

(** [Color.getHex]. *)
Definition Color_getHex (c : Color) : Z :=
  (toByte (r c) * 65536 + toByte (g c) * 256 + toByte (b c))%Z.

(** [Color.lerp(color, alpha)]: [this.r += (color.r - this.r) * alpha], on
    the values held, which are the linear ones: those [setHex] stored for
    the two colours, both being fresh from [setHex] wherever the components
    call [lerp]. *)
Definition lerpChannel (cm : ColorManagement) (this color alpha : Q) : Q :=
  LinearToSRGB cm
    (SRGBToLinear cm this + (SRGBToLinear cm color - SRGBToLinear cm this) * alpha).

Definition Color_lerp (cm : ColorManagement) (c color : Color) (alpha : Q) : Color :=
  {| r := lerpChannel cm (r c) (r color) alpha;
     g := lerpChannel cm (g c) (g color) alpha;
     b := lerpChannel cm (b c) (b color) alpha |}.

(** A [MeshStandardMaterial] as far as the highlight protocol sees it:
    the emissive colour and intensity, and the two [userData] slots in
    which the focus effects cache the original look ([__origE] / [__origEI]
    in the assembly scene, [__origEmissive] / [__origIntensity] in the
    dashboard).  [None] stands for [undefined]. *)
Record Material := {
  emissive : Color;
  emissiveIntensity : option Q;
  origE : option Z;
  origEI : option Q
}.

(** Materials live in a store and are referred to by index, so that two
    meshes can share one material object.  [Unlit] covers [ShaderMaterial]
    and [MeshBasicMaterial], which have no emissive colour. *)
Inductive AnyMaterial :=
| Standard (m : Material)
| Unlit.

Abbreviation Store := (list AnyMaterial).

(** [new THREE.MeshStandardMaterial({ emissive, emissiveIntensity })]. *)
Definition MeshStandardMaterial (emissiveHex : Z) (intensity : Q) : AnyMaterial :=
  Standard {| emissive := Color_setHex emissiveHex;
              emissiveIntensity := Some intensity;
              origE := None; origEI := None |}.

(** An [Object3D]: the material ids it carries when it is a mesh (none for
    a group) and its children. *)
#[warnings="-register-all"]
Inductive Object3D :=
| Object (material : list nat) (children : list Object3D).

(** [Object3D.traverse], reduced to the material ids met, in visiting order. *)
Fixpoint traverse (o : Object3D) : list nat :=
  match o with
  | Object ms cs => ms ++ flat_map traverse cs
  end.

(** Apply [f] to a standard material in place; other entries are skipped,
    as the [instanceof] / [.emissive] tests of the source do. *)
Definition onStandard (f : Material -> Material) (am : AnyMaterial) : AnyMaterial :=
  match am with
  | Standard m => Standard (f m)
  | Unlit => Unlit
  end.

Definition forEachMaterial (f : Material -> Material) (ids : list nat) (st : Store) : Store :=
  foldl (fun s i => alter (onStandard f) i s) st ids.

Record Vector3 := { x : Q; y : Q; z : Q }.

(** Scene construction threads the material store: [new Mesh(geo, mat)]
    with a fresh material allocates the next index. *)
Definition Build (A : Type) := Store -> A * Store.

#[export] Instance Build_ret : MRet Build := fun A a st => (a, st).

#[export] Instance Build_bind : MBind Build := fun A B k c st =>
  let (a, st') := c st in k a st'.

Definition newMesh (m : AnyMaterial) : Build Object3D :=
  fun st => (Object [length st] [], st ++ [m]).

(** [mesh.clone()]: a second mesh on the same material object. *)
Definition cloneMesh (o : Object3D) : Build Object3D := mret o.

Fixpoint times {A} (n : nat) (c : Build A) : Build (list A) :=
  match n with
  | O => mret []
  | S n' => a ← c; rest ← times n' c; mret (a :: rest)
  end.

Definition Group (children : list Object3D) : Object3D := Object [] children.

End Three.

(** ** The tween engine, as far as [toggleAssembly] uses it *)

Module Gsap.

Import Three.
Local Open Scope Q_scope.

(** A running [gsap.to(group.position, { x, y, z, duration, delay, ease })].
    [target] is the index of the part whose position it drives; [from] is
    filled when the tween first renders, from the position found then. *)
Record Tween := {
  target : nat;
  to : Vector3;
  duration : Q;
  delay : Q;
  time : Q;
  from : option Vector3
}.

(** ['power3.inOut']: [p < 0.5 ? (2p)^4 / 2 : 1 - (2(1-p))^4 / 2]. *)
Definition power3_inOut (p : Q) : Q :=
  if Qlt_le_dec p (1#2)
  then (2 * p) * (2 * p) * (2 * p) * (2 * p) / 2
  else 1 - (2 * (1 - p)) * (2 * (1 - p)) * (2 * (1 - p)) * (2 * (1 - p)) / 2.

(** Fraction of the tween played at its current [time], capped at 1. *)
Definition progress (tw : Tween) : Q :=
  Qmin 1 ((time tw - delay tw) / duration tw).

Definition interpolate (s e : Vector3) (ratio : Q) : Vector3 :=
  {| x := x s + (x e - x s) * ratio;
     y := y s + (y e - y s) * ratio;
     z := z s + (z e - z s) * ratio |}.

(** The global timeline: live tweens by id, oldest first. *)
Definition Timeline := list (nat * Tween).

(** [tween.kill()]: the tween leaves the timeline and writes no more. *)
Definition kill (id : nat) (tl : Timeline) : Timeline :=
  List.filter (fun e => negb (Nat.eqb (fst e) id)) tl.

(** One ticker step of [dt] seconds.  Every live tween advances; a tween
    still inside its delay leaves its target alone; otherwise it writes the
    eased position, and it is dropped once it has played to the end. *)
Fixpoint tick (dt : Q) (tl : Timeline) (positions : list Vector3)
  : Timeline * list Vector3 :=
  match tl with
  | [] => ([], positions)
  | (id, tw) :: rest =>
      let t1 := time tw + dt in
      if Qlt_le_dec t1 (delay tw) then
        let (rest', positions') := tick dt rest positions in
        ((id, {| target := target tw; to := to tw; duration := duration tw;
                 delay := delay tw; time := t1; from := from tw |}) :: rest',
         positions')
      else
        let start :=
          match from tw with
          | Some s => s
          | None => default (to tw) (positions !! target tw)
          end in
        let tw1 := {| target := target tw; to := to tw; duration := duration tw;
                      delay := delay tw; time := t1; from := Some start |} in
        let p := progress tw1 in
        let positions1 :=
          <[target tw := interpolate start (to tw) (power3_inOut p)]> positions in
        let (rest', positions') := tick dt rest positions1 in
        if Qlt_le_dec p 1 then ((id, tw1) :: rest', positions')
        else (rest', positions')
  end.

End Gsap.

(** ** AssemblyExplodedScene.tsx *)

Module AssemblyExplodedScene.

Import Three.
Local Open Scope Q_scope.

(** [interface Part { key; group; finalPos; explodedPos }]. *)
Record Part := {
  key : string;
  group : Object3D;
  finalPos : Vector3;
  explodedPos : Vector3
}.

Definition vec (a b c : Q) : Vector3 := {| x := a; y := b; z := c |}.

(** *** Scene construction (the part of the mount effect that fills
    [partsRef]) *)

Definition INITIAL_EXPLODED : bool := false.
Definition CENTERLINE_Y : Q := 35#10.

Definition metal := MeshStandardMaterial 0x111a20 (38#100).
Definition steel := MeshStandardMaterial 0x0d1418 (22#100).
Definition accent := MeshStandardMaterial 0x3e2500 (50#100).
Definition sealMat := MeshStandardMaterial 0x06090b (18#100).
Definition darkHardware := MeshStandardMaterial 0x101517 (25#100).
(** [recessMat = darkHardware.clone()] with [emissiveIntensity = 0.12]. *)
Definition recessMat := MeshStandardMaterial 0x101517 (12#100).

(** [addPart]: wrap the mesh in a fresh group and record the part. *)
Definition addPart (key : string) (mesh : Object3D) (finalPos explodedOffset : Vector3)
  : Part :=
  {| key := key; group := Group [mesh]; finalPos := finalPos;
     explodedPos := explodedOffset |}.

Definition buildBaseplate : Build Part :=
  basePlate ← newMesh (MeshStandardMaterial 0x3a2807 (45#100));
  pads ← times 4 (pad ← newMesh steel; recess ← newMesh recessMat; mret [pad; recess]);
  mret (addPart "baseplate" (Group (basePlate :: concat pads)) (vec 0 0 0) (vec (-20) 0 0)).

Definition buildMotor : Build Part :=
  motorBody ← newMesh accent;
  fins ← times 18 (newMesh accent);
  endBell ← newMesh accent;
  endBell2 ← cloneMesh endBell;
  motorShaft ← newMesh steel;
  mret (addPart "motor" (Group (motorBody :: fins ++ [endBell; endBell2; motorShaft]))
          (vec (-(24#10)) CENTERLINE_Y 0) (vec (-11) CENTERLINE_Y 0)).

Definition buildCoupling : Build Part :=
  hub1 ← newMesh metal;
  hub2 ← cloneMesh hub1;
  teeth ← times 12 (newMesh steel);
  sleeve ← newMesh steel;
  mret (addPart "coupling" (Group [hub1; hub2; Group teeth; sleeve])
          (vec (8#10) CENTERLINE_Y 0) (vec (-2) CENTERLINE_Y 0)).

Definition buildShaft : Build Part :=
  shaftCore ← newMesh steel;
  shaftKey ← newMesh metal;
  mret (addPart "shaft" (Group [shaftCore; shaftKey])
          (vec (455#100) CENTERLINE_Y 0) (vec (455#100) CENTERLINE_Y 0)).

Definition buildSeal : Build Part :=
  seal ← newMesh sealMat;
  gland ← newMesh steel;
  bolts ← times 6 (newMesh darkHardware);
  mret (addPart "seal" (Group (seal :: gland :: bolts))
          (vec (69#10) CENTERLINE_Y 0) (vec (105#10) CENTERLINE_Y 0)).

(** The impeller meshes hang under the inner [impellerSpin] group. *)
Definition buildImpeller : Build Part :=
  disk ← newMesh steel;
  blades ← times 7 (newMesh metal);
  hub ← newMesh metal;
  mret (addPart "impeller" (Group [Group (disk :: blades ++ [hub])])
          (vec (83#10) CENTERLINE_Y 0) (vec 17 CENTERLINE_Y 0)).

Definition buildHousing : Build Part :=
  casing ← newMesh (MeshStandardMaterial 0x141d22 (32#100));
  front ← newMesh steel;
  nozzle ← newMesh steel;
  nozzleLip ← newMesh steel;
  mret (addPart "housing" (Group [casing; front; nozzle; nozzleLip])
          (vec (114#10) CENTERLINE_Y 0) (vec 26 CENTERLINE_Y 0)).

Definition buildFasteners : Build Part :=
  boltGroups ← times 4 (shank ← newMesh darkHardware; head ← newMesh steel;
                        washer ← newMesh metal; nut ← newMesh darkHardware;
                        mret (Group [shank; head; washer; nut]));
  mret (addPart "fasteners" (Group boltGroups) (vec 0 0 0) (vec (-5) 0 4)).

Definition buildParts : Build (list Part) :=
  p1 ← buildBaseplate; p2 ← buildMotor; p3 ← buildCoupling; p4 ← buildShaft;
  p5 ← buildSeal; p6 ← buildImpeller; p7 ← buildHousing; p8 ← buildFasteners;
  mret [p1; p2; p3; p4; p5; p6; p7; p8].

(** The parts and the material store as the mount effect leaves them. *)
Definition parts : list Part := fst (buildParts []).
Definition materials : Store := snd (buildParts []).

(** [g.position.copy(INITIAL_EXPLODED ? explodedOffset : finalPos)]. *)
Definition initialPositions (ps : list Part) : list Vector3 :=
  List.map (fun p => if INITIAL_EXPLODED then explodedPos p else finalPos p) ps.

(** *** The focus-highlight effect ([useEffect(..., [focus])]) *)

Definition highlightHex : Z := 0xffa640.

(** The reset loop's body: put back what was cached, if anything was. *)
Definition restore (m : Material) : Material :=
  match origE m with
  | Some e => {| emissive := Color_setHex e; emissiveIntensity := origEI m;
                 origE := origE m; origEI := origEI m |}
  | None => m
  end.

(** [if (__origE === undefined) { __origE = emissive.getHex?.() ?? 0;
    __origEI = emissiveIntensity ?? 1 }]. *)
Definition capture (m : Material) : Material :=
  match origE m with
  | Some _ => m
  | None => {| emissive := emissive m; emissiveIntensity := emissiveIntensity m;
               origE := Some (Color_getHex (emissive m));
               origEI := Some (default 1 (emissiveIntensity m)) |}
  end.

(** The highlight loop's body: cache on first use, then blend the cached
    colour 65% toward the highlight hue ([new THREE.Color(__origE)],
    [new THREE.Color(highlightHex)], [orig.lerp(hl, 0.65)]) and bump the
    cached intensity. *)
Definition highlight (cm : ColorManagement) (m : Material) : Material :=
  let m1 := capture m in
  {| emissive := Color_lerp cm (Color_setHex (default 0%Z (origE m1)))
                            (Color_setHex highlightHex) (65#100);
     emissiveIntensity :=
       Some (Qmin (default (3#10) (origEI m1) + (25#100)) (75#100));
     origE := origE m1; origEI := origEI m1 |}.

Definition truthy (focus : option string) : option string :=
  match focus with
  | Some k => if String.eqb k "" then None else Some k
  | None => None
  end.

Definition focusEffect (cm : ColorManagement) (parts : list Part)
  (focus : option string) (st : Store) : Store :=
  let st1 := foldl (fun s p => forEachMaterial restore (traverse (group p)) s) st parts in
  match truthy focus with
  | Some k =>
      match List.find (fun p => String.eqb (key p) k) parts with
      | Some tgt => forEachMaterial (highlight cm) (traverse (group tgt)) st1
      | None => st1
      end
  | None => st1
  end.

End AssemblyExplodedScene.

(** *** Explode / assemble *)

Module AssemblyToggle.

Import Three Gsap AssemblyExplodedScene.
Local Open Scope Q_scope.

(** What [toggleAssembly] reads and writes: every [group.position], the
    tween timeline, [assemblingRef.current] (ids of the tweens made by the
    last toggle) and the [isExploded] state of the current render. *)
Record State := {
  positions : list Vector3;
  timeline : Timeline;
  nextId : nat;
  assemblingRef : option (list nat);
  isExploded : bool
}.

Definition dur : Q := 14#10.

(** [parts.forEach((p, i) => tweens.push(gsap.to(p.group.position,
    { ...target, duration: dur, delay: i * 0.08, ease })))], from index [i]
    and tween id [id] on. *)
Fixpoint makeTweens (exploded : bool) (ps : list Part) (i id : nat) : Timeline :=
  match ps with
  | [] => []
  | p :: rest =>
      let target := if exploded then finalPos p else explodedPos p in
      (id, {| Gsap.target := i; to := target; duration := dur;
              delay := inject_Z (Z.of_nat i) * (8#100); time := 0;
              from := None |})
        :: makeTweens exploded rest (S i) (S id)
  end.

Definition toggleAssembly (ps : list Part) (s : State) : State :=
  match ps with
  | [] => s
  | _ =>
      let live := foldl (fun tl id => kill id tl) (timeline s)
                        (default [] (assemblingRef s)) in
      let tweens := makeTweens (isExploded s) ps 0 (nextId s) in
      {| positions := positions s;
         timeline := live ++ tweens;
         nextId := (nextId s + length ps)%nat;
         assemblingRef := Some (List.map fst tweens);
         isExploded := negb (isExploded s) |}
  end.

(** The ticker advancing by [dt] seconds. *)
Definition advance (dt : Q) (s : State) : State :=
  let (tl, pos) := tick dt (timeline s) (positions s) in
  {| positions := pos; timeline := tl; nextId := nextId s;
     assemblingRef := assemblingRef s; isExploded := isExploded s |}.

Definition mounted (ps : list Part) : State :=
  {| positions := initialPositions ps; timeline := []; nextId := 0;
     assemblingRef := None; isExploded := INITIAL_EXPLODED |}.

Inductive Event :=
| Toggle
| Elapse (dt : Q).

Definition step (ps : list Part) (s : State) (e : Event) : State :=
  match e with
  | Toggle => toggleAssembly ps s
  | Elapse dt => advance dt s
  end.

Definition run (ps : list Part) (es : list Event) (s : State) : State :=
  foldl (step ps) s es.

(** The resting place of a part in the state named by [exploded]. *)
Definition restPos (exploded : bool) (p : Part) : Vector3 :=
  if exploded then explodedPos p else finalPos p.

Definition Vector3_eq (a b : Vector3) : Prop :=
  x a == x b /\ y a == y b /\ z a == z b.

End AssemblyToggle.

(** *** The impeller in the frame loop *)

Module AssemblyAnimate.

Local Open Scope Q_scope.

(** [animate] as far as the impeller goes.  [isExploded] is the value the
    mount effect closed over; the effect has no dependencies, so it is the
    first render's.  [t] is [clock.getElapsedTime()]. *)
Definition impellerSpeed (isExploded : bool) : Q :=
  if isExploded then 9#10 else 28#10.

Definition animate (isExploded : bool) (t : Q) (rotation_x : Q) : Q :=
  t * impellerSpeed isExploded.

Definition mountedAnimate : Q -> Q -> Q :=
  animate AssemblyExplodedScene.INITIAL_EXPLODED.

End AssemblyAnimate.

(** ** ThreeDashboard.tsx *)

Module ThreeDashboard.

Import Three.
Local Open Scope Q_scope.

(** *** The focus effect *)

(** An entry of [highlightablesRef.current]. *)
Record HighlightSet := {
  key : string;
  objects : list Object3D
}.

Definition setMaterials (s : HighlightSet) : list nat :=
  flat_map traverse (objects s).

(** The reset loop's body.  The intensity is written back only when one
    was cached. *)
Definition restore (m : Material) : Material :=
  match origE m with
  | Some e => {| emissive := Color_setHex e;
                 emissiveIntensity :=
                   match origEI m with
                   | Some i => Some i
                   | None => emissiveIntensity m
                   end;
                 origE := origE m; origEI := origEI m |}
  | None => m
  end.

Definition capture (m : Material) : Material :=
  match origE m with
  | Some _ => m
  | None => {| emissive := emissive m; emissiveIntensity := emissiveIntensity m;
               origE := Some (Color_getHex (emissive m));
               origEI := Some (default 1 (emissiveIntensity m)) |}
  end.

(** [mat.emissive.setHex(0x1d86d5); mat.emissiveIntensity = 1.2]. *)
Definition highlight (m : Material) : Material :=
  let m1 := capture m in
  {| emissive := Color_setHex 0x1d86d5;
     emissiveIntensity := Some (12#10);
     origE := origE m1; origEI := origEI m1 |}.

Definition truthy (focus : option string) : option string :=
  match focus with
  | Some k => if String.eqb k "" then None else Some k
  | None => None
  end.

(** The camera reframing between the two loops touches no material. *)
Definition focusEffect (sets : list HighlightSet) (focus : option string) (st : Store)
  : Store :=
  match sets with
  | [] => st
  | _ =>
      let st1 := foldl (fun s set => forEachMaterial restore (setMaterials set) s) st sets in
      match truthy focus with
      | None => st1
      | Some k =>
          match List.find (fun s => String.eqb (key s) k) sets with
          | None => st1
          | Some target => forEachMaterial highlight (setMaterials target) st1
          end
      end
  end.

(** Two of the nine highlight sets, built as the mount effect builds them:
    the flare (stack mesh, then the flame group with its three shader
    meshes) and the three pipeline tubes, each on its own clone of
    [pipelineMaterial].  A material given no emissive colour is black at
    intensity 1. *)
Definition buildFlare : Build HighlightSet :=
  flareStack ← newMesh (MeshStandardMaterial 0x000000 1);
  flameBillboard ← newMesh Unlit;
  coreMesh ← newMesh Unlit;
  haloMesh ← newMesh Unlit;
  mret {| key := "flare";
          objects := [flareStack; Group [flameBillboard; coreMesh; haloMesh]] |}.

Definition buildPipelines : Build HighlightSet :=
  meshes ← times 3 (newMesh (MeshStandardMaterial 0x000000 1));
  mret {| key := "pipelines"; objects := meshes |}.

Definition buildSets : Build (list HighlightSet) :=
  flare ← buildFlare; pipelines ← buildPipelines; mret [flare; pipelines].

Definition flareAndPipelines : list HighlightSet := fst (buildSets []).
Definition flareAndPipelinesMaterials : Store := snd (buildSets []).

(** *** The frame loop: fans and flare puffs *)

(** [interface Puff], with the fields of its mesh that the loop writes:
    position, uniform scale, and the material's [uLife] uniform.  A puff's
    mesh and material are its own; [mesh] is their identity. *)
Record Puff := {
  mesh : nat;
  life : Q;
  maxLife : Q;
  v : Vector3;
  startScale : Q;
  endScale : Q;
  position : Vector3;
  scale : Q;
  uLife : Q
}.

(** The mutable variables of the mount effect that the loop touches.
    [puffGroup] lists the meshes attached to the emitter group; [disposed]
    the puff materials released so far; [randoms] counts the calls made to
    [Math.random]. *)
Record Loop := {
  lastT : Q;
  fanDisc_rotation_y : Q;
  coolerFan_rotation_y : Q;
  puffs : list Puff;
  puffGroup : list nat;
  disposed : list nat;
  puffSpawnAccum : Q;
  nextMesh : nat;
  randoms : nat
}.

Definition FLARE_PUFF_THRESHOLD : Q := 14.
Definition MAX_ACTIVE_PUFFS : nat := 40.

Definition vec (a b c : Q) : Vector3 := {| x := a; y := b; z := c |}.

(** [spawnPuff(strength)].  [random k] is the value of the [k]-th call to
    [Math.random]; a spawn makes fourteen: the material seed, four for the
    uuid of the material and four for that of the mesh, then [maxLife], the
    three velocity components and [endScale]. *)
Definition spawnPuff (random : nat -> Q) (strength : Q) (s : Loop) : Loop :=
  if (MAX_ACTIVE_PUFFS <=? length (puffs s))%nat then s
  else
    let k := randoms s in
    let puff :=
      {| mesh := nextMesh s;
         life := 0;
         maxLife := (9#10) + random (k + 9)%nat * (6#10);
         v := vec ((random (k + 10)%nat - (1#2)) * (15#100))
                  ((9#10) + random (k + 11)%nat * (6#10) + strength * (5#100))
                  ((random (k + 12)%nat - (1#2)) * (15#100));
         startScale := 15#100;
         endScale := (75#100) + strength * (5#100) + random (k + 13)%nat * (15#100);
         position := vec 0 0 0;
         scale := 15#100;
         uLife := 0 |} in
    {| lastT := lastT s;
       fanDisc_rotation_y := fanDisc_rotation_y s;
       coolerFan_rotation_y := coolerFan_rotation_y s;
       puffs := puffs s ++ [puff];
       puffGroup := puffGroup s ++ [nextMesh s];
       disposed := disposed s;
       puffSpawnAccum := puffSpawnAccum s;
       nextMesh := S (nextMesh s);
       randoms := (k + 14)%nat |}.

Definition setAccum (a : Q) (s : Loop) : Loop :=
  {| lastT := lastT s;
     fanDisc_rotation_y := fanDisc_rotation_y s;
     coolerFan_rotation_y := coolerFan_rotation_y s;
     puffs := puffs s; puffGroup := puffGroup s; disposed := disposed s;
     puffSpawnAccum := a;
     nextMesh := nextMesh s; randoms := randoms s |}.

(** [while (puffSpawnAccum > 1) { spawnPuff(excess); puffSpawnAccum -= 1 }],
    unrolled at most [fuel] times. *)
Fixpoint spawnWhile (random : nat -> Q) (fuel : nat) (excess : Q) (s : Loop) : Loop :=
  match fuel with
  | O => s
  | S fuel' =>
      if Qlt_le_dec 1 (puffSpawnAccum s) then
        let s1 := spawnPuff random excess s in
        spawnWhile random fuel' excess (setAccum (puffSpawnAccum s1 - 1) s1)
      else s
  end.

Definition spawnRate (excess : Q) : Q := 2 + excess * (35#100).

(** The emission block.  The loop body runs fewer than [puffSpawnAccum]
    times, so that many unrollings are enough. *)
Definition emitPuffs (random : nat -> Q) (dt currentRate : Q) (s : Loop) : Loop :=
  if Qlt_le_dec FLARE_PUFF_THRESHOLD currentRate then
    let excess := currentRate - FLARE_PUFF_THRESHOLD in
    let s1 := setAccum (puffSpawnAccum s + dt * spawnRate excess) s in
    spawnWhile random (Z.to_nat (Qceiling (puffSpawnAccum s1))) excess s1
  else s.

(** [lf = p.maxLife > 0 ? p.life / p.maxLife : 1], after [p.life += dt]. *)
Definition lifeFraction (lifeNow maxLife : Q) : Q :=
  if Qlt_le_dec 0 maxLife then lifeNow / maxLife else 1.

(** The update loop runs from the last index down, so the tail of the list
    is handled first.  Returns the puffs kept and the meshes removed, in
    removal order. *)
Fixpoint updatePuffs (dt : Q) (ps : list Puff) : list Puff * list nat :=
  match ps with
  | [] => ([], [])
  | p :: rest =>
      let (kept, removed) := updatePuffs dt rest in
      let lifeNow := life p + dt in
      let lf := lifeFraction lifeNow (maxLife p) in
      if Qlt_le_dec lf 1 then
        ({| mesh := mesh p; life := lifeNow; maxLife := maxLife p; v := v p;
            startScale := startScale p; endScale := endScale p;
            position := vec (x (position p) + x (v p) * dt)
                            (y (position p) + y (v p) * dt)
                            (z (position p) + z (v p) * dt);
            scale := startScale p + (endScale p - startScale p) * lf;
            uLife := lf |} :: kept,
         removed)
      else (kept, removed ++ [mesh p])
  end.

(** [parentObj.remove(p.mesh)]. *)
Definition detach (removed : list nat) (children : list nat) : list nat :=
  List.filter (fun m => negb (existsb (Nat.eqb m) removed)) children.

(** [x || 0] on a number. *)
Definition orZero (x : Q) : Q := if Qeq_bool x 0 then 0 else x.

(** [min(cap, rv)] as [Math.min] computes it. *)
Definition fanSpeed (base cap gain rv : Q) : Q := base + Qmin cap rv * gain.

(** One frame.  [t] is [clock.getElapsedTime()]; [flareRate] and
    [recoveredVaporRate] are the current values of the two refs.  The
    pumpjack kinematics, lights, flame uniforms, pipeline markers, tank
    levels and the render call share no state with what is kept here. *)
Definition animate (random : nat -> Q) (t flareRate recoveredVaporRate : Q) (s : Loop)
  : Loop :=
  let dt := t - lastT s in
  let rv := orZero recoveredVaporRate in
  let fan := fanDisc_rotation_y s + dt * fanSpeed (25#10) 12 (12#100) rv in
  let cooler := coolerFan_rotation_y s + dt * fanSpeed (45#10) 18 (28#100) rv in
  let s1 := emitPuffs random dt flareRate s in
  let (kept, removed) := updatePuffs dt (puffs s1) in
  {| lastT := t;
     fanDisc_rotation_y := fan;
     coolerFan_rotation_y := cooler;
     puffs := kept;
     puffGroup := detach removed (puffGroup s1);
     disposed := disposed s1 ++ removed;
     puffSpawnAccum := puffSpawnAccum s1;
     nextMesh := nextMesh s1;
     randoms := randoms s1 |}.

(** The loop's variables when the mount effect first calls [animate]. *)
Definition mounted : Loop :=
  {| lastT := 0; fanDisc_rotation_y := 0; coolerFan_rotation_y := 0;
     puffs := []; puffGroup := []; disposed := [];
     puffSpawnAccum := 0; nextMesh := 0; randoms := 0 |}.

(** A run of frames, each with its clock reading and the two live rates. *)
Definition frames (random : nat -> Q) (inputs : list (Q * Q * Q)) (s : Loop) : Loop :=
  foldl (fun s '(t, flareRate, rv) => animate random t flareRate rv s) s inputs.

End ThreeDashboard.

(** ** SupportPortal.tsx: the live metrics panel *)

Module SupportPortal.

Local Open Scope R_scope.

(** The seven target values computed on every render of
    [MetricsAndLegend] from the [tick] counter. *)
Record Targets := {
  tOil : R;
  tGas : R;
  tWaterCut : R;
  tTank : R;
  tSepP : R;
  tFlare : R;
  tRecovered : R
}.

Definition flareTarget (tick : nat) : R := 12 + Rmax 0 (sin (INR tick * 1.1)) * 6.

Definition targets (tick : nat) : Targets :=
  {| tOil := 480 + sin (INR tick * 0.9) * 35;
     tGas := 1.8 + sin (INR tick * 0.7) * 0.12;
     tWaterCut := 0.22 + sin (INR tick * 0.5) * 0.03;
     tTank := 62 + sin (INR tick * 0.4 + 1.3) * 8;
     tSepP := 145 + sin (INR tick * 0.8) * 6;
     tFlare := flareTarget tick;
     tRecovered := 5.5 + sin (INR tick * 0.95 + 1.4) * 2
                   + Rmax 0 (10 - flareTarget tick * 0.4) * 0.15 |}.

(** The state every [smooth] callback works on: the seven smoothed values
    of [MetricsAndLegend], [window.__lastFlareDispatch], the two values the
    parent keeps for the 3D scene ([liveFlareRate], [recoveredVapors]), and
    the notifications sent so far, newest first, each with the time it was
    sent and the value passed. *)
Record Portal := {
  oilRate : R;
  gasRate : R;
  waterCut : R;
  tankLevel : R;
  sepPressure : R;
  flareRate : R;
  recovRate : R;
  lastFlareDispatch : option R;
  liveFlareRate : R;
  recoveredVapors : R;
  flareNotes : list (R * R);
  recoveredNotes : list (R * R)
}.

(** [const lerp = (a, b, f = 0.12) => a + (b - a) * f]. *)
Definition lerp (a b f : R) : R := a + (b - a) * f.

Definition smoothingFactor : R := 0.12.

(** The seven [set...(o => lerp(o, t...))] calls. *)
Definition smoothAll (tg : Targets) (p : Portal) : Portal :=
  {| oilRate := lerp (oilRate p) (tOil tg) smoothingFactor;
     gasRate := lerp (gasRate p) (tGas tg) smoothingFactor;
     waterCut := lerp (waterCut p) (tWaterCut tg) smoothingFactor;
     tankLevel := lerp (tankLevel p) (tTank tg) smoothingFactor;
     sepPressure := lerp (sepPressure p) (tSepP tg) smoothingFactor;
     flareRate := lerp (flareRate p) (tFlare tg) smoothingFactor;
     recovRate := lerp (recovRate p) (tRecovered tg) smoothingFactor;
     lastFlareDispatch := lastFlareDispatch p;
     liveFlareRate := liveFlareRate p;
     recoveredVapors := recoveredVapors p;
     flareNotes := flareNotes p;
     recoveredNotes := recoveredNotes p |}.

(** [onFlareRateChange = v => setLiveFlareRate(v)] and
    [onRecoveredChange = rv => setRecoveredVapors(rv)], as the parent passes
    them; each call is also recorded. *)
Definition setLiveFlareRate (now v : R) (p : Portal) : Portal :=
  {| oilRate := oilRate p; gasRate := gasRate p; waterCut := waterCut p;
     tankLevel := tankLevel p; sepPressure := sepPressure p;
     flareRate := flareRate p; recovRate := recovRate p;
     lastFlareDispatch := lastFlareDispatch p;
     liveFlareRate := v;
     recoveredVapors := recoveredVapors p;
     flareNotes := (now, v) :: flareNotes p;
     recoveredNotes := recoveredNotes p |}.

Definition setRecoveredVapors (now rv : R) (p : Portal) : Portal :=
  {| oilRate := oilRate p; gasRate := gasRate p; waterCut := waterCut p;
     tankLevel := tankLevel p; sepPressure := sepPressure p;
     flareRate := flareRate p; recovRate := recovRate p;
     lastFlareDispatch := lastFlareDispatch p;
     liveFlareRate := liveFlareRate p;
     recoveredVapors := rv;
     flareNotes := flareNotes p;
     recoveredNotes := (now, rv) :: recoveredNotes p |}.

Definition setLastFlareDispatch (now : R) (p : Portal) : Portal :=
  {| oilRate := oilRate p; gasRate := gasRate p; waterCut := waterCut p;
     tankLevel := tankLevel p; sepPressure := sepPressure p;
     flareRate := flareRate p; recovRate := recovRate p;
     lastFlareDispatch := Some now;
     liveFlareRate := liveFlareRate p;
     recoveredVapors := recoveredVapors p;
     flareNotes := flareNotes p;
     recoveredNotes := recoveredNotes p |}.

(** [__lastFlareDispatch === undefined || now - __lastFlareDispatch > 250]. *)
Definition throttleOpen (now : R) (p : Portal) : bool :=
  match lastFlareDispatch p with
  | None => true
  | Some last => if Rlt_dec 250 (now - last) then true else false
  end.

(** One run of the [smooth] callback whose closure holds the targets [tg]
    and the two optional props; [now] is [performance.now()]. *)
Definition smooth (tg : Targets) (onFlareRateChange onRecoveredChange : bool)
  (now : R) (p : Portal) : Portal :=
  let p1 := smoothAll tg p in
  if onFlareRateChange then
    if throttleOpen now p1 then
      let p2 := setLiveFlareRate now (tFlare tg) (setLastFlareDispatch now p1) in
      if onRecoveredChange then setRecoveredVapors now (tRecovered tg) p2 else p2
    else p1
  else p1.

(** A [smooth] callback waiting for the next animation frame: the request
    id it was registered under and the targets its closure captured. *)
Record Request := {
  id : nat;
  captured : Targets
}.

(** The component together with the browser's frame queue.  [effectId] is
    the [id] held by the cleanup of the effect's latest run: the id of the
    first request that run made. *)
Record Sys := {
  tick : nat;
  portal : Portal;
  pending : list Request;
  nextId : nat;
  effectId : nat
}.

(** An animation frame: the waiting callbacks run in registration order,
    and each ends with [requestAnimationFrame(smooth)], which queues it
    again under a fresh id that nobody keeps.  All of them read the same
    clock value. *)
Fixpoint runCallbacks (now : R) (rs : list Request) (fresh : nat) (p : Portal)
  : Portal * list Request :=
  match rs with
  | [] => (p, [])
  | r :: rest =>
      let p1 := smooth (captured r) true true now p in
      let (p2, rest') := runCallbacks now rest (S fresh) p1 in
      (p2, {| id := fresh; captured := captured r |} :: rest')
  end.

(** The effect running again because a dependency changed: first the
    previous run's cleanup, [cancelAnimationFrame(id)], then a new request
    with the targets of the current render. *)
Definition rerunEffect (s : Sys) : Sys :=
  {| tick := tick s;
     portal := portal s;
     pending :=
       List.filter (fun r => negb (Nat.eqb (id r) (effectId s))) (pending s)
       ++ [{| id := nextId s; captured := targets (tick s) |}];
     nextId := S (nextId s);
     effectId := nextId s |}.

Definition sameNumber (a b : R) : bool := if Req_dec_T a b then true else false.

(** The parent re-renders, and hands down new callback functions, when a
    notification changed one of its two values. *)
Definition parentChanged (before after : Portal) : bool :=
  negb (sameNumber (liveFlareRate before) (liveFlareRate after)
        && sameNumber (recoveredVapors before) (recoveredVapors after)).

Definition sameTargets (a b : Targets) : bool :=
  sameNumber (tOil a) (tOil b) && sameNumber (tGas a) (tGas b)
  && sameNumber (tWaterCut a) (tWaterCut b) && sameNumber (tTank a) (tTank b)
  && sameNumber (tSepP a) (tSepP b) && sameNumber (tFlare a) (tFlare b)
  && sameNumber (tRecovered a) (tRecovered b).

Inductive Event :=
| Frame (now : R)     (* the browser paints a frame *)
| Tick                (* the 1500 ms interval fires: [setTick(t => t + 1)] *)
| Rerender.           (* the parent re-renders for a reason of its own *)

Definition step (s : Sys) (e : Event) : Sys :=
  match e with
  | Frame now =>
      let (p, rs) := runCallbacks now (pending s) (nextId s) (portal s) in
      let s1 := {| tick := tick s; portal := p; pending := rs;
                   nextId := (nextId s + length (pending s))%nat;
                   effectId := effectId s |} in
      if parentChanged (portal s) p then rerunEffect s1 else s1
  | Tick =>
      let s1 := {| tick := S (tick s); portal := portal s; pending := pending s;
                   nextId := nextId s; effectId := effectId s |} in
      if sameTargets (targets (tick s)) (targets (S (tick s))) then s1
      else rerunEffect s1
  | Rerender => rerunEffect s
  end.

(** First render and first effect run: the smoothed values start at the
    targets of tick 0, the parent's two values at 12 and 6. *)
Definition mounted : Sys :=
  {| tick := 0;
     portal := {| oilRate := tOil (targets 0); gasRate := tGas (targets 0);
                  waterCut := tWaterCut (targets 0);
                  tankLevel := tTank (targets 0);
                  sepPressure := tSepP (targets 0);
                  flareRate := tFlare (targets 0);
                  recovRate := tRecovered (targets 0);
                  lastFlareDispatch := None;
                  liveFlareRate := 12; recoveredVapors := 6;
                  flareNotes := []; recoveredNotes := [] |};
     pending := [{| id := 0; captured := targets 0 |}];
     nextId := 1;
     effectId := 0 |}.

Definition run (es : list Event) : Sys := foldl step mounted es.

(** The render of the "Capture Efficiency" row, before [toFixed(0)]. *)
Definition captureEfficiencyReadout (p : Portal) : R :=
  recovRate p / (recovRate p + flareRate p) * 100.

(** [capEff] in the pulse effect. *)
Definition capEff (p : Portal) : R :=
  if Rlt_dec 0 (recovRate p + flareRate p)
  then recovRate p / (recovRate p + flareRate p) * 100
  else 0.

End SupportPortal.

(** ** Objects of the scene graph, by identity *)

Module SceneGraph.

Import Three.

(** [o.isMesh]: a mesh is an object that carries a material. *)
Definition isMesh (o : Object3D) : bool :=
  match o with
  | Object [] _ => false
  | Object (_ :: _) _ => true
  end.

Definition children (o : Object3D) : list Object3D :=
  match o with Object _ cs => cs end.

(** An object is known by where it was hung: the index of its tree among
    the roots at hand, and the child indices leading to it from the root.
    Every [new Mesh] and [new Group] of the sources is added to one parent
    only, so two places are two objects. *)
Record Ref := { tree : nat; path : list nat }.

#[global] Instance Ref_eq_dec : EqDecision Ref.
Proof. solve_decision. Defined.

Definition root (i : nat) : Ref := {| tree := i; path := [] |}.

(** [o.parent], when it lies inside the tree; the parent of a root is
    the scene, which is none of the objects at hand. *)
Definition parent (o : Ref) : option Ref :=
  match path o with
  | [] => None
  | _ :: _ => Some {| tree := tree o; path := removelast (path o) |}
  end.

(** [o.traverse(c => { if (c.isMesh) objs.push(c) })]: the object itself
    first, then its children in order. *)
Fixpoint meshPaths (o : Object3D) : list (list nat) :=
  match o with
  | Object ms cs =>
      (if isMesh (Object ms cs) then [[]] else [])
      ++ (fix below (j : nat) (cs : list Object3D) : list (list nat) :=
            match cs with
            | [] => []
            | c :: rest => (cons j <$> meshPaths c) ++ below (S j) rest
            end) 0%nat cs
  end.

Definition meshRefs (i : nat) (o : Object3D) : list Ref :=
  (fun p => {| tree := i; path := p |}) <$> meshPaths o.

(** [group.children], as objects. *)
Definition childRefs (i : nat) (o : Object3D) : list Ref :=
  imap (fun j _ => {| tree := i; path := [j] |}) (children o).

End SceneGraph.

(** ** Pointer selection in the assembly scene *)

Module AssemblyPick.

Import Three SceneGraph AssemblyExplodedScene.

(** The meshes handed to the raycaster: every mesh under every part's
    group.  The tree of part [i] is [parts[i].group]. *)
Fixpoint objsFrom (i : nat) (ps : list Part) : list Ref :=
  match ps with
  | [] => []
  | p :: rest => meshRefs i (group p) ++ objsFrom (S i) rest
  end.

Definition objs (ps : list Part) : list Ref := objsFrom 0 ps.

(** [partsRef.current.find(p => hit === p.group
      || p.group.children.includes(hit) || hit.parent === p.group)]. *)
Fixpoint findPart (hit : Ref) (i : nat) (ps : list Part) : option Part :=
  match ps with
  | [] => None
  | p :: rest =>
      if bool_decide (hit = root i)
         || bool_decide (hit ∈ childRefs i (group p))
         || bool_decide (parent hit = Some (root i))
      then Some p
      else findPart hit (S i) rest
  end.

(** [handlePointerDown].  [onSelectRef] tells whether a handler is set;
    [hits] are the objects the ray meets, nearest first, as
    [raycaster.intersectObjects(objs, false)] returns them.  The result is
    the key [onSelectRef.current] is called with, if it is called. *)
Definition handlePointerDown (onSelectRef : bool) (ps : list Part) (hits : list Ref)
  : option string :=
  if onSelectRef then
    match hits with
    | [] => None
    | hit :: _ => key <$> findPart hit 0 ps
    end
  else None.

End AssemblyPick.

(** ** DrillingRigScene.tsx *)

Module DrillingRigScene.

Import Three SceneGraph.
Local Open Scope Q_scope.

(** An entry of [highlightSetsRef.current]. *)
Record HighlightSet := {
  key : string;
  group : Object3D
}.

(** *** Scene construction (the part of the mount effect that fills
    [highlightSetsRef]) *)

(** A [MeshStandardMaterial] given no emissive colour is black at
    intensity 1. *)
Definition plain : AnyMaterial := MeshStandardMaterial 0x000000 1.

Definition derrickMat := MeshStandardMaterial 0x0e1417 (22#100).
Definition bopMat := MeshStandardMaterial 0x310a0a (48#100).

(** One level of braces: four of them, and a diagonal below the top
    level. *)
Definition buildLevel (l : nat) : Build (list Object3D) :=
  bx ← newMesh plain; bx2 ← newMesh plain; bz ← newMesh plain; bz2 ← newMesh plain;
  if (l <? 9)%nat then diag ← newMesh plain; mret [bx; bx2; bz; bz2; diag]
  else mret [bx; bx2; bz; bz2].

Fixpoint buildLevels (ls : list nat) : Build (list Object3D) :=
  match ls with
  | [] => mret []
  | l :: rest => a ← buildLevel l; b ← buildLevels rest; mret (a ++ b)
  end.

Definition buildDerrick : Build HighlightSet :=
  legs ← times 4 (newMesh derrickMat);
  braces ← buildLevels (seq 0 10);
  mret {| key := "derrick"; group := Group (legs ++ braces) |}.

Definition buildTravelingBlock : Build HighlightSet :=
  blockBody ← newMesh (MeshStandardMaterial 0x111b1f (42#100));
  hook ← newMesh (MeshStandardMaterial 0x4a3300 (55#100));
  mret {| key := "travelingblock"; group := Group [blockBody; hook] |}.

(** The drill string is a single mesh, listed as its own group. *)
Definition buildDrillString : Build HighlightSet :=
  drillString ← newMesh (MeshStandardMaterial 0x0d1418 (22#100));
  mret {| key := "drillstring"; group := drillString |}.

Definition buildPump : Build Object3D :=
  body ← newMesh (MeshStandardMaterial 0x0c1418 (25#100));
  cyls ← times 3 (cylBody ← newMesh plain; plunger ← newMesh plain;
                  mret [cylBody; plunger]);
  mret (Group (body :: concat cyls)).

Definition buildMudPumps : Build HighlightSet :=
  pumps ← times 2 buildPump;
  mret {| key := "mudpumps"; group := Group pumps |}.

Definition buildBop : Build HighlightSet :=
  secs ← times 3 (newMesh bopMat);
  mret {| key := "bop"; group := Group secs |}.

(** In the order the mount effect makes the meshes; the rotary table and
    the kelly, made between the block and the drill string, are in no
    highlight set. *)
Definition buildSets : Build (list HighlightSet) :=
  derrick ← buildDerrick;
  travelingBlock ← buildTravelingBlock;
  rotaryTable ← newMesh (MeshStandardMaterial 0x10181c (40#100));
  kelly ← newMesh (MeshStandardMaterial 0x0a3242 (60#100));
  drillString ← buildDrillString;
  mudPumpGroup ← buildMudPumps;
  bopStack ← buildBop;
  mret [derrick; travelingBlock; drillString; mudPumpGroup; bopStack].

Definition sets : list HighlightSet := fst (buildSets []).
Definition materials : Store := snd (buildSets []).

Definition setMaterials (s : HighlightSet) : list nat := traverse (group s).

(** *** The focus-highlight effect ([useEffect(..., [focus])]) *)

Definition restore (m : Material) : Material :=
  match origE m with
  | Some e => {| emissive := Color_setHex e;
                 emissiveIntensity :=
                   match origEI m with
                   | Some i => Some i
                   | None => emissiveIntensity m
                   end;
                 origE := origE m; origEI := origEI m |}
  | None => m
  end.

Definition capture (m : Material) : Material :=
  match origE m with
  | Some _ => m
  | None => {| emissive := emissive m; emissiveIntensity := emissiveIntensity m;
               origE := Some (Color_getHex (emissive m));
               origEI := Some (default 1 (emissiveIntensity m)) |}
  end.

(** [m.emissive.setHex(0x1679c2); m.emissiveIntensity = 1.2]. *)
Definition highlight (m : Material) : Material :=
  let m1 := capture m in
  {| emissive := Color_setHex 0x1679c2;
     emissiveIntensity := Some (12#10);
     origE := origE m1; origEI := origEI m1 |}.

Definition truthy (focus : option string) : option string :=
  match focus with
  | Some k => if String.eqb k "" then None else Some k
  | None => None
  end.

(** The effect as far as the materials go; the info card it also fills is
    left out. *)
Definition focusEffect (sets : list HighlightSet) (focus : option string) (st : Store)
  : Store :=
  let st1 := foldl (fun s set => forEachMaterial restore (setMaterials set) s) st sets in
  match truthy focus with
  | Some k =>
      match List.find (fun s => String.eqb (key s) k) sets with
      | Some target => forEachMaterial highlight (setMaterials target) st1
      | None => st1
      end
  | None => st1
  end.

(** *** Pointer selection *)

Fixpoint objsFrom (i : nat) (ss : list HighlightSet) : list Ref :=
  match ss with
  | [] => []
  | s :: rest => meshRefs i (group s) ++ objsFrom (S i) rest
  end.

Definition objs (ss : list HighlightSet) : list Ref := objsFrom 0 ss.

(** [highlightSetsRef.current.find(s => h === s.group
      || h.parent === s.group || s.group.children.includes(h))]. *)
Fixpoint findSet (h : Ref) (i : nat) (ss : list HighlightSet) : option HighlightSet :=
  match ss with
  | [] => None
  | s :: rest =>
      if bool_decide (h = root i)
         || bool_decide (parent h = Some (root i))
         || bool_decide (h ∈ childRefs i (group s))
      then Some s
      else findSet h (S i) rest
  end.

(** [handlePointerDown]: the key passed to [onSelectRef.current] (and to
    [populateInfo]), if the call is made. *)
Definition handlePointerDown (onSelectRef : bool) (ss : list HighlightSet)
  (hits : list Ref) : option string :=
  if onSelectRef then
    match hits with
    | [] => None
    | h :: _ => key <$> findSet h 0 ss
    end
  else None.

End DrillingRigScene.

(** ** Pointer selection in the dashboard *)

Module DashboardPick.

Import Three SceneGraph ThreeDashboard.

(** The objects the sets list, in order, each with the key of its set.
    Tree [i] is the [i]-th of them: the mount effect makes every listed
    object anew and adds it to the scene or to [pipelineGroup]. *)
Definition roots (sets : list HighlightSet) : list (string * Object3D) :=
  flat_map (fun s => pair (key s) <$> objects s) sets.

(** [sets.forEach(s => s.objects.forEach(o => o.traverse(child =>
      { if (child.isMesh) allMeshes.push({ mesh: child, key: s.key }) })))]. *)
Fixpoint allMeshesFrom (i : nat) (rs : list (string * Object3D)) : list (Ref * string) :=
  match rs with
  | [] => []
  | r :: rest =>
      ((fun m => (m, r.1)) <$> meshRefs i r.2) ++ allMeshesFrom (S i) rest
  end.

Definition allMeshes (sets : list HighlightSet) : list (Ref * string) :=
  allMeshesFrom 0 (roots sets).

(** [onPointerDown]: [hits] is what
    [raycaster.intersectObjects(allMeshes.map(o => o.mesh), false)]
    returns, nearest first; the result is the key [onSelect] is called
    with, if it is called. *)
Definition onPointerDown (onSelect : bool) (sets : list HighlightSet) (hits : list Ref)
  : option string :=
  if onSelect then
    match hits with
    | [] => None
    | hitObj :: _ =>
        snd <$> List.find (fun o => bool_decide (o.1 = hitObj)
                                    || bool_decide (parent hitObj = Some o.1))
                          (allMeshes sets)
    end
  else None.

End DashboardPick.

(** ** The scene components as React runs them *)

Module SceneComponents.

Import Three.

(** [Object.is] on the [focus] prop, as the dependency check of
    [useEffect(..., [focus])] applies it. *)
Definition sameFocus (a b : option string) : bool :=
  match a, b with
  | Some x, Some y => String.eqb x y
  | None, None => true
  | _, _ => false
  end.

(** A mounted scene: the ref its mount effect fills ([partsRef],
    [highlightSetsRef], [highlightablesRef]), the materials made so far,
    and the [focus] of the last render.  Before the mount effect has run
    the ref holds the empty array [useRef] was given and no material
    exists. *)
Record Scene (G : Type) := {
  ref : list G;
  store : Store;
  focusProp : option string
}.
Arguments ref {G} s.
Arguments store {G} s.
Arguments focusProp {G} s.

Definition firstRender {G} (focus : option string) : Scene G :=
  {| ref := []; store := []; focusProp := focus |}.

Section Hooks.

Context {G : Type}.

(** The focus effect of the component, and its scene construction. *)
Variable focusEffect : list G -> option string -> Store -> Store.
Variable build : Build (list G).

Definition focusHook (s : Scene G) : Scene G :=
  {| ref := ref s; store := focusEffect (ref s) (focusProp s) (store s);
     focusProp := focusProp s |}.

Definition mountHook (s : Scene G) : Scene G :=
  let (groups, st) := build (store s) in
  {| ref := groups; store := st; focusProp := focusProp s |}.

(** A later render: the focus effect runs when the prop has changed; the
    mount effect, whose dependency list is empty, does not run again. *)
Definition render (s : Scene G) (focus : option string) : Scene G :=
  if sameFocus (focusProp s) focus
  then s
  else focusHook {| ref := ref s; store := store s; focusProp := focus |}.

(** On mount React runs the effects in the order of their [useEffect]
    calls.  [AssemblyExplodedScene] and [DrillingRigScene] call the one
    for the focus before the one that builds the scene; [ThreeDashboard]
    builds the scene first. *)
Definition mountFocusFirst (focus : option string) : Scene G :=
  mountHook (focusHook (firstRender focus)).

Definition mountBuildFirst (focus : option string) : Scene G :=
  focusHook (mountHook (firstRender focus)).

End Hooks.

Definition AssemblyExplodedScene_mount (cm : Three.ColorManagement) :=
  mountFocusFirst (AssemblyExplodedScene.focusEffect cm) AssemblyExplodedScene.buildParts.

Definition AssemblyExplodedScene_render (cm : Three.ColorManagement) :=
  render (AssemblyExplodedScene.focusEffect cm).

Definition DrillingRigScene_mount :=
  mountFocusFirst DrillingRigScene.focusEffect DrillingRigScene.buildSets.

Definition DrillingRigScene_render :=
  render DrillingRigScene.focusEffect.

(** The dashboard with the two highlight sets modelled. *)
Definition ThreeDashboard_mount :=
  mountBuildFirst ThreeDashboard.focusEffect ThreeDashboard.buildSets.

Definition ThreeDashboard_render :=
  render ThreeDashboard.focusEffect.

End SceneComponents.

(** ** ThreeDashboard.tsx: lights, pipeline markers, tank levels *)

(** *** Brightness and the flare's fill light *)

Module DashboardLights.

Local Open Scope R_scope.

(** [renderer.toneMappingExposure] and the intensities of the four lights
    kept in [lightRefs]. *)
Record Lights := {
  toneMappingExposure : R;
  hemi : R;
  key : R;
  rim : R;
  fill : R
}.

(** What the component holds: the lights, the constant
    [baseFillIntensity] of the mount effect, and the [brightness] of the
    last render. *)
Record Scene := {
  lights : Lights;
  baseFillIntensity : R;
  brightness : R
}.

(** The mount effect: renderer and lights from the brightness of the
    first render, and [baseFillIntensity = fill.intensity] read right
    after. *)
Definition mountEffect (b : R) : Scene :=
  let l := {| toneMappingExposure := 1.15 * b; hemi := 0.7 * b; key := 1.25 * b;
              rim := 0.55 * b; fill := 1.35 * b |} in
  {| lights := l; baseFillIntensity := fill l; brightness := b |}.

(** [useEffect(..., [brightness])]. *)
Definition brightnessEffect (s : Scene) : Scene :=
  let b := brightness s in
  {| lights := {| toneMappingExposure := 1.15 * b; hemi := 0.7 * b; key := 1.25 * b;
                  rim := 0.55 * b; fill := 1.35 * b |};
     baseFillIntensity := baseFillIntensity s; brightness := b |}.

Definition flicker (t : R) : R :=
  1.0 + 0.25 * sin (t * 15.0) + 0.15 * sin (t * 7.3 + 1.0) + 0.08 * sin (t * 23.7).

(** [animate], as far as the lights go:
    [fill.intensity = baseFillIntensity * (1.0 + ...)]. *)
Definition animate (t : R) (s : Scene) : Scene :=
  {| lights := {| toneMappingExposure := toneMappingExposure (lights s);
                  hemi := hemi (lights s); key := key (lights s);
                  rim := rim (lights s);
                  fill := baseFillIntensity s * flicker t |};
     baseFillIntensity := baseFillIntensity s; brightness := brightness s |}.

(** Mounting: the mount effect, which ends by calling [animate] once, the
    clock then reading 0; then the brightness effect. *)
Definition mount (b : R) : Scene := brightnessEffect (animate 0 (mountEffect b)).

Inductive Event :=
| Render (b : R)     (* the parent renders with this brightness *)
| Frame (t : R).     (* an animation frame, the clock reading [t] *)

Definition step (s : Scene) (e : Event) : Scene :=
  match e with
  | Render b =>
      if Req_dec_T (brightness s) b then s
      else brightnessEffect {| lights := lights s;
                               baseFillIntensity := baseFillIntensity s;
                               brightness := b |}
  | Frame t => animate t s
  end.

Definition run (b : R) (es : list Event) : Scene := foldl step (mount b) es.

End DashboardLights.

(** *** Flow markers on the pipelines *)

Module PipelineFlows.

Local Open Scope Q_scope.

(** An entry of [Pipeline['flows']], without its marker mesh. *)
Record Flow := {
  speed : Q;
  progress : Q
}.

(** [x % 1] on a number: the remainder takes the sign of [x]. *)
Definition mod1 (x : Q) : Q := x - inject_Z (Z.quot (Qnum x) (Zpos (Qden x))).

Definition flowCount (idx : nat) : nat := if (idx =? 0)%nat then 14%nat else 4%nat.

Definition ofNat (n : nat) : Q := inject_Z (Z.of_nat n).

(** The marker loop of pipeline [idx]; [random k] is the [k]-th value
    [Math.random] gives during the loop. *)
Definition buildFlows (random : nat -> Q) (idx : nat) : list Flow :=
  List.map (fun i =>
              {| speed := (if (idx =? 0)%nat then 22#100 else 12#100)
                          + random i * (12#100);
                 progress := ofNat i / ofNat (flowCount idx) |})
           (seq 0 (flowCount idx)).

(** [f.progress = (f.progress + f.speed * 0.016) % 1]. *)
Definition advance (f : Flow) : Flow :=
  {| speed := speed f; progress := mod1 (progress f + speed f * (16#1000)) |}.

(** The markers of one pipeline after a frame; the frame's clock reading
    plays no part. *)
Definition animate (flows : list Flow) : list Flow := List.map advance flows.

End PipelineFlows.

(** *** The bulk fluid in the tanks *)

Module TankLevels.

Local Open Scope R_scope.

Inductive TankType := crude | water.

(** [interface TankSpec], without the colour. *)
Record TankSpec := {
  x : R;
  z : R;
  height : R;
  r : R;
  type : TankType
}.

(** What [animate] reads and writes of a tank group: [g.position.x],
    [userData.fluidLevel], [userData.fullFluidScale] ([None] while
    undefined) and the bulk mesh's [scale.y] and [position.y]. *)
Record Tank := {
  position_x : R;
  fluidLevel : R;
  fullFluidScale : option R;
  bulk_scale_y : R;
  bulk_position_y : R
}.

Definition levelFrac (spec : TankSpec) : R :=
  match type spec with water => 0.55 | crude => 0.62 end.

Definition buildTank (spec : TankSpec) : Tank :=
  {| position_x := x spec;
     fluidLevel := levelFrac spec;
     fullFluidScale := None;
     bulk_scale_y := levelFrac spec * (height spec - 0.18);
     bulk_position_y := 0.01 |}.

(** [a || b] on numbers: [a] unless it is 0 (or undefined). *)
Definition orElse (a : option R) (b : R) : R :=
  match a with
  | Some v => if Req_dec_T v 0 then b else v
  | None => b
  end.

(** The body of [tankGroups.forEach] in [animate]; [t] is the clock
    reading. *)
Definition animateTank (t : R) (g : Tank) : Tank :=
  let baseF := fluidLevel g in
  let target := baseF * (0.9 + 0.1 * sin (t * 0.25 + position_x g)) in
  let fullRef := orElse (fullFluidScale g)
                        (bulk_scale_y g / orElse (Some (fluidLevel g)) 1) in
  let desired := target * fullRef in
  let scale_y := bulk_scale_y g + (desired - bulk_scale_y g) * 0.07 in
  {| position_x := position_x g;
     fluidLevel := fluidLevel g;
     fullFluidScale := Some fullRef;
     bulk_scale_y := scale_y;
     bulk_position_y := scale_y / 2 |}.

Definition frames (ts : list R) (g : Tank) : Tank :=
  foldl (fun g t => animateTank t g) g ts.

End TankLevels.

(** ** SupportPortal.tsx: scene, mode, focus and quiz *)

Module SupportPortalNav.

Inductive SceneName := production | drilling | lifecycle | assembly.
Inductive Mode := learn | quiz.

(** [interface SceneConcept], without [category], [summary] and
    [details]. *)
Record SceneConcept := { key : string; label : string }.

Definition concept (k l : string) : SceneConcept := {| key := k; label := l |}.

Definition productionConcepts : list SceneConcept :=
  [concept "pumpjack" "Pumpjack"; concept "vru" "Vapor Recovery Unit";
   concept "wellheads" "Wellheads"; concept "separator" "Separator";
   concept "tanks" "Storage Tanks"; concept "manifold" "Manifold";
   concept "pipelines" "Pipelines"; concept "flare" "Flare Stack";
   concept "kodrum" "Knockout Drum"].

Definition drillingConcepts : list SceneConcept :=
  [concept "derrick" "Derrick / Mast"; concept "travelingblock" "Traveling Block";
   concept "drillstring" "Drill String"; concept "mudpumps" "Mud Pumps";
   concept "bop" "BOP Stack"].

Definition lifecycleConcepts : list SceneConcept :=
  [concept "upstream" "Upstream"; concept "midstream" "Midstream";
   concept "downstream" "Downstream"].

Definition assemblyConcepts : list SceneConcept :=
  [concept "baseplate" "Baseplate"; concept "motor" "Motor";
   concept "coupling" "Coupling"; concept "shaft" "Shaft"; concept "seal" "Seal";
   concept "impeller" "Impeller"; concept "housing" "Casing";
   concept "fasteners" "Fasteners"].

(** The state of [SupportPortal] that its two navigation effects and its
    handlers read and write, with [prevModeRef] and the dependencies the
    effects last ran with ([None] before the first commit). *)
Record State := {
  scene : SceneName;
  focus : option string;
  mode : Mode;
  quizIndex : nat;
  revealed : bool;
  show3D : bool;
  prevModeRef : Mode;
  lastDeps : option (Mode * option string * SceneName)
}.

Definition activeConcepts (v : SceneName) : list SceneConcept :=
  match v with
  | production => productionConcepts
  | drilling => drillingConcepts
  | lifecycle => lifecycleConcepts
  | assembly => assemblyConcepts
  end.

Definition quizSequence (v : SceneName) : list string := List.map key (activeConcepts v).

(** [quizSequence[quizIndex]]; [None] is [undefined]. *)
Definition currentQuizKey (s : State) : option string :=
  quizSequence (scene s) !! quizIndex s.

Definition isQuiz (m : Mode) : bool := match m with quiz => true | learn => false end.

Definition sameMode (a b : Mode) : bool := Bool.eqb (isQuiz a) (isQuiz b).

Definition sameScene (a b : SceneName) : bool :=
  match a, b with
  | production, production | drilling, drilling
  | lifecycle, lifecycle | assembly, assembly => true
  | _, _ => false
  end.

(** [c.key === v], where [v] is a string, [null] or [undefined]. *)
Definition keyIs (v : option string) (c : SceneConcept) : bool :=
  match v with
  | Some k => String.eqb (key c) k
  | None => false
  end.

(** [activeConcepts.find(c => c.key === (mode === 'quiz' ? currentQuizKey
    : focus)) || activeConcepts[0]]. *)
Definition currentConcept (s : State) : option SceneConcept :=
  let wanted := if isQuiz (mode s) then currentQuizKey s else focus s in
  match List.find (keyIs wanted) (activeConcepts (scene s)) with
  | Some c => Some c
  | None => head (activeConcepts (scene s))
  end.

(** *** The two effects *)

Inductive Update :=
| setFocus (v : option string)
| setQuizIndex (i : nat)
| setRevealed (b : bool).

Definition apply (s : State) (u : Update) : State :=
  match u with
  | setFocus v =>
      {| scene := scene s; focus := v; mode := mode s; quizIndex := quizIndex s;
         revealed := revealed s; show3D := show3D s; prevModeRef := prevModeRef s;
         lastDeps := lastDeps s |}
  | setQuizIndex i =>
      {| scene := scene s; focus := focus s; mode := mode s; quizIndex := i;
         revealed := revealed s; show3D := show3D s; prevModeRef := prevModeRef s;
         lastDeps := lastDeps s |}
  | setRevealed b =>
      {| scene := scene s; focus := focus s; mode := mode s; quizIndex := quizIndex s;
         revealed := b; show3D := show3D s; prevModeRef := prevModeRef s;
         lastDeps := lastDeps s |}
  end.

(** [!focus]. *)
Definition noFocus (focus : option string) : bool :=
  match focus with
  | Some k => String.eqb k ""
  | None => true
  end.

(** The effect on [[mode, focus, scene]], apart from its last line. *)
Definition modeEffect (s : State) : list Update :=
  (if isQuiz (mode s) && negb (isQuiz (prevModeRef s))
   then [setFocus None; setRevealed false] else [])
  ++ (if negb (isQuiz (mode s)) && noFocus (focus s)
      then match scene s with
           | production => [setFocus (Some "pumpjack"%string)]
           | drilling => [setFocus (Some "derrick"%string)]
           | lifecycle => [setFocus (Some "upstream"%string)]
           | assembly => []
           end
      else []).

Definition defaultFocus (v : SceneName) : string :=
  match v with
  | production => "pumpjack"
  | drilling => "derrick"
  | lifecycle => "upstream"
  | assembly => "impeller"
  end.

(** The effect on [[scene]]. *)
Definition sceneEffect (s : State) : list Update :=
  [setFocus (Some (defaultFocus (scene s))); setQuizIndex 0; setRevealed false].

Definition sameDeps (a b : Mode * option string * SceneName) : bool :=
  sameMode a.1.1 b.1.1 && SceneComponents.sameFocus a.1.2 b.1.2 && sameScene a.2 b.2.

(** One commit: the effects whose dependencies differ from those of the
    commit before run in order, reading the state of this render; what
    they set is applied afterwards, in the order it was set. *)
Definition commit (s : State) : State :=
  let current := (mode s, focus s, scene s) in
  let run1 := match lastDeps s with
              | Some d => negb (sameDeps d current)
              | None => true
              end in
  let run2 := match lastDeps s with
              | Some d => negb (sameScene d.2 (scene s))
              | None => true
              end in
  let updates := (if run1 then modeEffect s else [])
                 ++ (if run2 then sceneEffect s else []) in
  let s1 := foldl apply s updates in
  {| scene := scene s1; focus := focus s1; mode := mode s1;
     quizIndex := quizIndex s1; revealed := revealed s1; show3D := show3D s1;
     prevModeRef := if run1 then mode s else prevModeRef s;
     lastDeps := Some current |}.

(** React renders and commits again for as long as an effect changed the
    state; three commits are always enough here (see [settle_stable]). *)
Definition settle (s : State) : State := commit (commit (commit s)).

(** *** The handlers *)

(** The header shows the mode and 3D buttons on these scenes only. *)
Definition headerButtons (s : State) : bool :=
  match scene s with
  | production | drilling => true
  | lifecycle | assembly => false
  end.

(** The quiz panel is rendered. *)
Definition quizPanel (s : State) : bool := isQuiz (mode s) && headerButtons s.

(** The keys the component on show can pass to [onSelect]: those of its
    highlight sets, stages or parts. *)
Definition highlightableKeys : list string :=
  ["pumpjack"; "flare"; "pipelines"; "separator"; "manifold"; "tanks"; "wellheads";
   "vru"; "kodrum"]%string.

Definition stageKeys : list string := ["upstream"; "midstream"; "downstream"]%string.

Definition selectable (s : State) : list string :=
  match scene s with
  | production => if show3D s then highlightableKeys else []
  | drilling =>
      if show3D s then List.map DrillingRigScene.key DrillingRigScene.sets else []
  | lifecycle => stageKeys
  | assembly =>
      if show3D s
      then List.map AssemblyExplodedScene.key AssemblyExplodedScene.parts else []
  end.

Inductive Event :=
| SelectScene (v : SceneName)   (* the scene drop-down *)
| ToggleMode                    (* "Switch to Quiz" / "Exit Quiz" *)
| ToggleShow3D                  (* "Hide 3D" / "Show 3D" *)
| ClickConcept (i : nat)        (* the [i]-th entry of the concept list *)
| Select (k : string)           (* [onSelect(k)] from the component on show *)
| Reveal
| Next
| BackToLearn.

Definition withFocusLearn (k : string) (s : State) : State :=
  {| scene := scene s; focus := Some k; mode := learn; quizIndex := quizIndex s;
     revealed := revealed s; show3D := show3D s; prevModeRef := prevModeRef s;
     lastDeps := lastDeps s |}.

Definition withMode (m : Mode) (s : State) : State :=
  {| scene := scene s; focus := focus s; mode := m; quizIndex := quizIndex s;
     revealed := revealed s; show3D := show3D s; prevModeRef := prevModeRef s;
     lastDeps := lastDeps s |}.

(** What a handler sets; a control that is not rendered cannot be used. *)
Definition handle (s : State) (e : Event) : State :=
  match e with
  | SelectScene v =>
      {| scene := v; focus := focus s; mode := mode s; quizIndex := quizIndex s;
         revealed := revealed s; show3D := show3D s; prevModeRef := prevModeRef s;
         lastDeps := lastDeps s |}
  | ToggleMode =>
      if headerButtons s
      then withMode (if isQuiz (mode s) then learn else quiz) s
      else s
  | ToggleShow3D =>
      if headerButtons s
      then {| scene := scene s; focus := focus s; mode := mode s;
              quizIndex := quizIndex s; revealed := revealed s;
              show3D := negb (show3D s); prevModeRef := prevModeRef s;
              lastDeps := lastDeps s |}
      else s
  | ClickConcept i =>
      match activeConcepts (scene s) !! i with
      | Some c => withFocusLearn (key c) s
      | None => s
      end
  | Select k =>
      if existsb (String.eqb k) (selectable s) then withFocusLearn k s else s
  | Reveal =>
      if quizPanel s && negb (revealed s)
      then apply (apply s (setRevealed true)) (setFocus (currentQuizKey s))
      else s
  | Next =>
      if quizPanel s && revealed s
      then apply (apply s (setRevealed false))
                 (setQuizIndex ((quizIndex s + 1) mod length (quizSequence (scene s))))
      else s
  | BackToLearn => if quizPanel s then withMode learn s else s
  end.

Definition step (s : State) (e : Event) : State := settle (handle s e).

(** The first render and its commits. *)
Definition mounted : State :=
  settle {| scene := production; focus := Some "pumpjack"%string; mode := learn;
            quizIndex := 0; revealed := false; show3D := true;
            prevModeRef := learn; lastDeps := None |}.

Definition run (es : list Event) : State := foldl step mounted es.

End SupportPortalNav.

(** ** SupportPortal.tsx: the 3D component on show and the Snapshot button *)

Module DrillingMount.

Import Mount.

(** [DrillingRigScene]'s scene-init effect (deps [[]]); the handler is read
    from [onReadyRef.current], before the cleanup is returned. *)
Definition DrillingRigScene_effect (el : bool) (onReadyRef : option Handler) : Eff unit :=
  when (negb el) (return_ None) ;;
  emit AppendCanvas ;;
  emit BuildScene ;;
  emit AddPointerListeners ;;
  emit StartAnimate ;;
  emit AddResizeListener ;;
  callOnReady onReadyRef pngCapture ;;
  return_ (Some sceneCleanup).

End DrillingMount.

Module SupportPortalStage.

Import SupportPortalNav.

(** [ThreeDashboard], [DrillingRigScene], [AssemblyExplodedScene]. *)
Inductive Kind := dashboard | rig | pump.

Definition sameKind (a b : Kind) : bool :=
  match a, b with
  | dashboard, dashboard | rig, rig | pump, pump => true
  | _, _ => false
  end.

Definition effectOf (k : Kind) : bool -> option Mount.Handler -> Mount.Eff unit :=
  match k with
  | dashboard => Mount.ThreeDashboard_effect
  | rig => DrillingMount.DrillingRigScene_effect
  | pump => Mount.AssemblyExplodedScene_effect
  end.

(** [(api) => { captureApiRef.current = api; }], the [onReady] the portal
    passes to all three components. *)
Definition storeApi : Mount.Handler := Mount.handler 0.

(** Component instances are numbered in the order they are mounted;
    [kinds] lists what each one is.  The API in [captureApiRef] goes with
    the number of the instance whose renderer its closure holds. *)
Record State := {
  scene : SceneName;
  show3D : bool;
  onShow : option (Kind * nat);
  kinds : list Kind;
  captureApiRef : option (nat * Mount.CaptureApi);
  captureUrl : option string
}.

(** The component the JSX asks for. *)
Definition wanted (v : SceneName) (show3D : bool) : option Kind :=
  if show3D
  then match v with
       | production => Some dashboard
       | drilling => Some rig
       | lifecycle => None
       | assembly => Some pump
       end
  else None.

(** What the [onReady] calls of instance [i]'s mount effect leave in
    [captureApiRef]. *)
Definition ready (i : nat) (log : list Mount.Event)
  (ref : option (nat * Mount.CaptureApi)) : option (nat * Mount.CaptureApi) :=
  foldl (fun r e => match e with
                    | Mount.ReadyCalled _ api => Some (i, api)
                    | _ => r
                    end) ref log.

Definition mountKind (k : Kind) (s : State) : State :=
  let i := length (kinds s) in
  {| scene := scene s; show3D := show3D s; onShow := Some (k, i);
     kinds := kinds s ++ [k];
     captureApiRef := ready i (Mount.mount (effectOf k true (Some storeApi)))
                        (captureApiRef s);
     captureUrl := captureUrl s |}.

(** A render and its commit: a component of another type than the one on
    show replaces it; no cleanup touches [captureApiRef].  Exit animations
    are taken as over before the next event. *)
Definition render (s : State) : State :=
  match wanted (scene s) (show3D s) with
  | Some k =>
      match onShow s with
      | Some (k', _) => if sameKind k k' then s else mountKind k s
      | None => mountKind k s
      end
  | None =>
      {| scene := scene s; show3D := show3D s; onShow := None; kinds := kinds s;
         captureApiRef := captureApiRef s; captureUrl := captureUrl s |}
  end.

Inductive Event :=
| SelectScene (v : SceneName)
| ToggleShow3D
| Snapshot (canvas : nat -> Mount.Renderer).
    (* [canvas i]: what the canvas of instance [i] holds at that moment *)

Definition handle (s : State) (e : Event) : State :=
  match e with
  | SelectScene v =>
      {| scene := v; show3D := show3D s; onShow := onShow s; kinds := kinds s;
         captureApiRef := captureApiRef s; captureUrl := captureUrl s |}
  | ToggleShow3D =>
      match scene s with
      | production | drilling =>
          {| scene := scene s; show3D := negb (show3D s); onShow := onShow s;
             kinds := kinds s; captureApiRef := captureApiRef s;
             captureUrl := captureUrl s |}
      | lifecycle | assembly => s
      end
  | Snapshot canvas =>
      match captureApiRef s with
      | Some (i, api) =>
          {| scene := scene s; show3D := show3D s; onShow := onShow s;
             kinds := kinds s; captureApiRef := captureApiRef s;
             captureUrl := Some (Mount.capture api (canvas i)) |}
      | None => s
      end
  end.

Definition step (s : State) (e : Event) : State := render (handle s e).

Definition mounted : State :=
  render {| scene := production; show3D := true; onShow := None; kinds := [];
            captureApiRef := None; captureUrl := None |}.

Definition run (es : list Event) : State := foldl step mounted es.

End SupportPortalStage.

(** ** ThreeDashboard.tsx: the hover highlight of the pipelines *)

Module DashboardHover.

Import Three ThreeDashboard.

(** [pipelines.map(p => p.mesh)], the objects of the highlight set
    ['pipelines'].  Every tube has a material of its own (a clone of
    [pipelineMaterial]), so a tube is known here by its material's index. *)
Definition objs : list nat :=
  flat_map setMaterials
    (List.filter (fun s => String.eqb (key s) "pipelines") flareAndPipelines).

(** The materials of the scene and the [highlighted] variable of the mount
    effect. *)
Record Pad := { store : Store; highlighted : option nat }.

(** [m.emissive.setHex(hex)]. *)
Definition setEmissive (hex : Z) (m : Material) : Material :=
  {| emissive := Color_setHex hex; emissiveIntensity := emissiveIntensity m;
     origE := origE m; origEI := origEI m |}.

(** [highlighted !== target], for a [highlighted] that is set. *)
Definition otherThan (h : nat) (target : option nat) : bool :=
  match target with
  | Some t => negb (Nat.eqb h t)
  | None => true
  end.

Definition setHighlight (target : option nat) (p : Pad) : Pad :=
  let st1 := match highlighted p with
             | Some h =>
                 if otherThan h target
                 then alter (onStandard (setEmissive 0x000000)) h (store p)
                 else store p
             | None => store p
             end in
  let st2 := match target with
             | Some t => alter (onStandard (setEmissive 0x18608f)) t st1
             | None => st1
             end in
  {| store := st2; highlighted := target |}.

(** [PointerMove hit]: the pointer moved, and the ray met the [hit]-th tube
    first, or no tube.  [Focus focus]: the focus effect ran with this
    [focus]. *)
Inductive Event :=
| PointerMove (hit : option nat)
| Focus (focus : option string).

Definition onPointerMove (hit : option nat) (p : Pad) : Pad :=
  setHighlight (hit ≫= (objs !!.)) p.

Definition step (p : Pad) (e : Event) : Pad :=
  match e with
  | PointerMove hit => onPointerMove hit p
  | Focus focus =>
      {| store := focusEffect flareAndPipelines focus (store p);
         highlighted := highlighted p |}
  end.

Definition mounted : Pad :=
  {| store := flareAndPipelinesMaterials; highlighted := None |}.

Definition run (es : list Event) : Pad := foldl step mounted es.

End DashboardHover.

(** ** copilotSettingsLoader.ts *)

Module CopilotSettingsLoader.

Record ConnectionSettings := {
  appClientId : string;
  tenantId : string;
  environmentId : string;
  agentIdentifier : string;
  directConnectUrl : string
}.

Definition emptySettings : ConnectionSettings :=
  {| appClientId := ""; tenantId := ""; environmentId := "";
     agentIdentifier := ""; directConnectUrl := "" |}.

(** How [import('./copilotSettings.ts')] ends: with a module, which may or
    may not export [copilotSettings], or with a rejection. *)
Inductive Import :=
| module (copilotSettings : option ConnectionSettings)
| rejected.

(** The promise a caller holds: one already resolved with a value, or one
    that follows the [p]-th import's [inflight] promise. *)
Inductive Promise :=
| resolved (v : ConnectionSettings)
| following (p : nat).

(** The module's two variables, the number of imports started so far (the
    next one's number), and what the [inflight] promises resolved with. *)
Record Loader := {
  cached : option ConnectionSettings;
  inflight : option nat;
  started : nat;
  fulfilled : list (nat * ConnectionSettings)
}.

Definition fresh : Loader :=
  {| cached := None; inflight := None; started := 0; fulfilled := [] |}.

(** [internalLoad()] up to its first [await]. *)
Definition internalLoad (l : Loader) : Promise * Loader :=
  match cached l with
  | Some c => (resolved c, l)
  | None =>
      match inflight l with
      | Some p => (following p, l)
      | None =>
          (following (started l),
           {| cached := None; inflight := Some (started l);
              started := S (started l); fulfilled := fulfilled l |})
      end
  end.

Definition loadCopilotSettings (l : Loader) : Promise * Loader := internalLoad l.

Definition getCopilotSettings (l : Loader) : ConnectionSettings * Loader :=
  match cached l with
  | Some c => (c, l)
  | None =>
      let l1 := snd (internalLoad l) in
      (emptySettings,
       {| cached := Some emptySettings; inflight := inflight l1;
          started := started l1; fulfilled := fulfilled l1 |})
  end.

(** What the import leaves in [cached]. *)
Definition found (r : Import) : ConnectionSettings :=
  match r with
  | module (Some settings) => settings
  | module None | rejected => emptySettings
  end.

(** The rest of the [inflight] function, run when the import has ended:
    [try]/[catch] set [cached], [finally] clears [inflight], and the
    promise resolves with [cached]. *)
Definition importEnded (r : Import) (l : Loader) : Loader :=
  match inflight l with
  | Some p =>
      {| cached := Some (found r); inflight := None; started := started l;
         fulfilled := (p, found r) :: fulfilled l |}
  | None => l
  end.

Inductive Call :=
| load
| get
| ended (r : Import).

Definition step (l : Loader) (c : Call) : Loader :=
  match c with
  | load => snd (loadCopilotSettings l)
  | get => snd (getCopilotSettings l)
  | ended r => importEnded r l
  end.

Definition run (cs : list Call) : Loader := foldl step fresh cs.

(** What a promise resolves with, once it has. *)
Definition outcome (l : Loader) (p : Promise) : option ConnectionSettings :=
  match p with
  | resolved v => Some v
  | following i => snd <$> List.find (fun e => Nat.eqb (fst e) i) (fulfilled l)
  end.

(** [CopilotChat]'s test on the settings it was given:
    [!appClientId || !tenantId || (!directConnectUrl && (!environmentId ||
    !agentIdentifier))]. *)
Definition blank (s : string) : bool := String.eqb s "".

Definition incomplete (s : ConnectionSettings) : bool :=
  blank (appClientId s) || blank (tenantId s)
  || (blank (directConnectUrl s)
      && (blank (environmentId s) || blank (agentIdentifier s))).

End CopilotSettingsLoader.

(** ** PowerProvider.tsx *)

Module PowerProvider.

(** The component's state, with the number of [initialize()] calls made
    and of those still pending.  State set in one continuation of [init]
    is rendered together, and the effect on [[attempt, init]] runs once per
    change of [attempt]. *)
Record State := {
  initializing : bool;
  ready : bool;
  error : option string;
  attempt : nat;
  calls : nat;
  pending : nat
}.

(** [init] up to its [await]. *)
Definition init (s : State) : State :=
  {| initializing := true; ready := ready s; error := None; attempt := attempt s;
     calls := S (calls s); pending := S (pending s) |}.

(** The first render and its effect. *)
Definition mounted : State :=
  init {| initializing := true; ready := false; error := None; attempt := 0;
          calls := 0; pending := 0 |}.

(** The two overlays. *)
Definition initOverlay (s : State) : bool :=
  initializing s && negb (ready s) && negb (bool_decide (is_Some (error s))).

Definition errorOverlay (s : State) : bool :=
  bool_decide (is_Some (error s)) && negb (initializing s) && negb (ready s).

Inductive Event :=
| Initialized                 (* a pending [initialize()] resolved *)
| Failed (message : string)   (* a pending [initialize()] rejected *)
| ClickRetry.

(** [retry], and the effect on [[attempt, init]] that follows it. *)
Definition retry (s : State) : State :=
  if initializing s then s
  else init {| initializing := initializing s; ready := ready s; error := error s;
               attempt := S (attempt s); calls := calls s; pending := pending s |}.

Definition step (s : State) (e : Event) : State :=
  match e with
  | Initialized =>
      match pending s with
      | O => s
      | S n => {| initializing := false; ready := true; error := error s;
                  attempt := attempt s; calls := calls s; pending := n |}
      end
  | Failed message =>
      match pending s with
      | O => s
      | S n => {| initializing := false; ready := false; error := Some message;
                  attempt := attempt s; calls := calls s; pending := n |}
      end
  | ClickRetry => if errorOverlay s then retry s else s
  end.

Definition run (es : list Event) : State := foldl step mounted es.

End PowerProvider.

(** ** ThreeDashboard.tsx: framing the focused set *)

Module DashboardCamera.

Local Open Scope R_scope.

Record Vector3 := { x : R; y : R; z : R }.

(** [Vector3.length]. *)
Definition length (v : Vector3) : R := sqrt (x v * x v + y v * y v + z v * z v).

(** [THREE.MathUtils.clamp(value, min, max)]:
    [Math.max(min, Math.min(max, value))]. *)
Definition clamp (value min max : R) : R := Rmax min (Rmin max value).

(** [Math.atan2(b, a)], the angle of the point [(a, b)]. *)
Definition atan2 (b a : R) : R :=
  if Rlt_dec 0 a then atan (b / a)
  else if Rlt_dec a 0
       then if Rlt_dec b 0 then atan (b / a) - PI else atan (b / a) + PI
       else if Rlt_dec 0 b then PI / 2
            else if Rlt_dec b 0 then - (PI / 2) else 0.

Record Spherical := { radius : R; phi : R; theta : R }.

(** [Spherical.setFromVector3]: [theta] is measured about the y axis from
    the z axis, [phi] from the y axis. *)
Definition setFromVector3 (v : Vector3) : Spherical :=
  let r := length v in
  if Req_dec_T r 0 then {| radius := 0; phi := 0; theta := 0 |}
  else {| radius := r;
          phi := acos (clamp (y v / r) (-1) 1);
          theta := atan2 (x v) (z v) |}.

(** The distance at which a set of largest dimension [maxDim] fits the
    vertical field of view [fov] (in degrees), padded. *)
Definition distance (maxDim fov : R) : R :=
  let safeDim := if Rlt_dec 0.0001 maxDim then maxDim else 1.5 in
  let fovRad := fov * PI / 180 in
  safeDim * 0.5 / tan (fovRad / 2) * 1.35.

(** The offset from the focused set's centre at which the focus effect
    aims the camera, when the orbit controls exist: [currentOffset] is
    [cam.position - controls.target]. *)
Definition newOffset (currentOffset : Vector3) (distance : R) : Vector3 :=
  let spherical := setFromVector3 currentOffset in
  let radius := clamp distance 2 60 in
  let sinPhi := sin (phi spherical) in
  {| x := radius * sinPhi * cos (theta spherical);
     y := radius * cos (phi spherical);
     z := radius * sinPhi * sin (theta spherical) |}.

End DashboardCamera.

(* ===================================================================== *)
(** * Part II: properties                                                 *)
(* ===================================================================== *)

(** ** The ready callback *)

Section ReadyCallback.

Import Mount.

(** The assembly scene calls the handler exactly once on a mount that finds
    its container, and the [capture] it hands over returns a PNG data URI of
    whatever the renderer shows when it is called. *)
Lemma AssemblyExplodedScene_onReady_once (h : Handler) :
  readyCalls (mount (AssemblyExplodedScene_effect true (Some h)))
    = [ReadyCalled h pngCapture]
  /\ forall r, capture pngCapture r
               = ("data:image/png;base64," ++ framebuffer r)%string.
Proof. split; [reflexivity | intros r; reflexivity]. Qed.

(** Without a container the assembly scene's effect leaves at once. *)
Lemma AssemblyExplodedScene_no_container onReady :
  mount (AssemblyExplodedScene_effect false onReady) = [].
Proof. destruct onReady; reflexivity. Qed.

(** Nothing placed after a [return_] runs. *)
Lemma return_cuts (cl : option (list Teardown)) (rest : Eff unit) (log : list Event) :
  (return_ cl ;; rest) log = (Returned cl, log).
Proof. reflexivity. Qed.

(** C1 (fails on the dashboard).  The claim asks every scene component to
    call [onReady] exactly once during its first successful mount.  In
    [ThreeDashboard] the call stands behind the effect's
    [return () => { ... }], so a mount never reaches it: whatever the
    container and the handler, the mount log holds no ready call. *)
Theorem ThreeDashboard_onReady_never_called (el : bool) (onReady : option Handler) :
  readyCalls (mount (ThreeDashboard_effect el onReady)) = [].
Proof. destruct el, onReady; reflexivity. Qed.

End ReadyCallback.

(** ** Rotating equipment *)

Section Rotation.

Import Three ThreeDashboard.
Local Open Scope Q_scope.


Lemma emitPuffs_rotation random dt rate s :
  fanDisc_rotation_y (emitPuffs random dt rate s) = fanDisc_rotation_y s
  /\ coolerFan_rotation_y (emitPuffs random dt rate s) = coolerFan_rotation_y s
  /\ lastT (emitPuffs random dt rate s) = lastT s.
Proof.
  assert (Hspawn : forall strength st,
    fanDisc_rotation_y (spawnPuff random strength st) = fanDisc_rotation_y st
    /\ coolerFan_rotation_y (spawnPuff random strength st) = coolerFan_rotation_y st
    /\ lastT (spawnPuff random strength st) = lastT st).
  { intros strength st. unfold spawnPuff.
    destruct (MAX_ACTIVE_PUFFS <=? length (puffs st))%nat; simpl; auto. }
  assert (Hloop : forall fuel excess st,
    fanDisc_rotation_y (spawnWhile random fuel excess st) = fanDisc_rotation_y st
    /\ coolerFan_rotation_y (spawnWhile random fuel excess st) = coolerFan_rotation_y st
    /\ lastT (spawnWhile random fuel excess st) = lastT st).
  { induction fuel as [|fuel IH]; intros excess st; simpl; [auto|].
    destruct (Qlt_le_dec 1 (puffSpawnAccum st)); [|auto].
    destruct (IH excess (setAccum (puffSpawnAccum (spawnPuff random excess st) - 1)
                                  (spawnPuff random excess st))) as (H1 & H2 & H3).
    destruct (Hspawn excess st) as (G1 & G2 & G3).
    rewrite H1, H2, H3. simpl. auto. }
  unfold emitPuffs. destruct (Qlt_le_dec FLARE_PUFF_THRESHOLD rate); [|auto].
  destruct (Hloop (Z.to_nat (Qceiling (puffSpawnAccum
              (setAccum (puffSpawnAccum s + dt * spawnRate (rate - FLARE_PUFF_THRESHOLD)) s))))
              (rate - FLARE_PUFF_THRESHOLD)
              (setAccum (puffSpawnAccum s + dt * spawnRate (rate - FLARE_PUFF_THRESHOLD)) s))
    as (H1 & H2 & H3).
  rewrite H1, H2, H3. simpl. auto.
Qed.






End Rotation.

(** ** The flare puff emitter *)

Section Puffs.

Import Three ThreeDashboard.
Local Open Scope Q_scope.

Variable random : nat -> Q.

Local Arguments detach : simpl never.

(** What holds of the emitter's variables between frames. *)
Record PoolInv (s : Loop) : Prop := {
  inv_cap : (length (puffs s) <= MAX_ACTIVE_PUFFS)%nat;
  inv_attached : puffGroup s = mesh <$> puffs s;
  inv_distinct : NoDup (mesh <$> puffs s);
  inv_known : forall m, m ∈ mesh <$> puffs s -> (m < nextMesh s)%nat;
  inv_accounted : forall m, (m < nextMesh s)%nat ->
                            m ∈ mesh <$> puffs s \/ m ∈ disposed s;
  inv_accum : puffSpawnAccum s <= 1
}.

(** The same without the bound on the accumulator, which the emission
    block breaks and restores. *)
Record PoolShape (s : Loop) : Prop := {
  shape_cap : (length (puffs s) <= MAX_ACTIVE_PUFFS)%nat;
  shape_attached : puffGroup s = mesh <$> puffs s;
  shape_distinct : NoDup (mesh <$> puffs s);
  shape_known : forall m, m ∈ mesh <$> puffs s -> (m < nextMesh s)%nat;
  shape_accounted : forall m, (m < nextMesh s)%nat ->
                              m ∈ mesh <$> puffs s \/ m ∈ disposed s
}.

Lemma setAccum_shape a s : PoolShape s -> PoolShape (setAccum a s).
Proof. intros [H1 H2 H3 H4 H5]. constructor; simpl; assumption. Qed.

Lemma spawnPuff_full strength s :
  (MAX_ACTIVE_PUFFS <= length (puffs s))%nat -> spawnPuff random strength s = s.
Proof.
  intros H. unfold spawnPuff.
  destruct (Nat.leb_spec MAX_ACTIVE_PUFFS (length (puffs s))); [reflexivity | lia].
Qed.

Lemma spawnPuff_accum strength s :
  puffSpawnAccum (spawnPuff random strength s) = puffSpawnAccum s.
Proof.
  unfold spawnPuff.
  destruct (MAX_ACTIVE_PUFFS <=? length (puffs s))%nat; reflexivity.
Qed.

Lemma spawnPuff_shape strength s : PoolShape s -> PoolShape (spawnPuff random strength s).
Proof.
  intros [H1 H2 H3 H4 H5]. unfold spawnPuff.
  destruct (Nat.leb_spec MAX_ACTIVE_PUFFS (length (puffs s))) as [Hfull|Hroom].
  - constructor; assumption.
  - constructor; simpl.
    + rewrite length_app. simpl. lia.
    + rewrite H2, fmap_app. reflexivity.
    + rewrite fmap_app. simpl. apply NoDup_app. split; [assumption|]. split.
      * intros m Hm Hin. apply list_elem_of_singleton in Hin. subst m.
        apply H4 in Hm. lia.
      * apply NoDup_singleton.
    + intros m Hm. rewrite fmap_app in Hm. apply elem_of_app in Hm.
      destruct Hm as [Hm|Hm]; [apply H4 in Hm; lia|].
      simpl in Hm. apply list_elem_of_singleton in Hm. lia.
    + intros m Hm. rewrite fmap_app.
      destruct (Nat.eq_dec m (nextMesh s)) as [->|Hne].
      * left. apply elem_of_app. right. simpl. apply list_elem_of_singleton. reflexivity.
      * destruct (H5 m) as [Hin|Hin]; [lia | left | right; assumption].
        apply elem_of_app. left. assumption.
Qed.

Lemma spawnWhile_shape fuel excess s :
  PoolShape s -> PoolShape (spawnWhile random fuel excess s).
Proof.
  revert s. induction fuel as [|fuel IH]; intros s Hs; simpl; [assumption|].
  destruct (Qlt_le_dec 1 (puffSpawnAccum s)); [|assumption].
  apply IH, setAccum_shape, spawnPuff_shape, Hs.
Qed.

(** The unrolling is long enough: the loop always runs until the
    accumulator is back to at most 1. *)
Lemma spawnWhile_accum fuel excess s :
  puffSpawnAccum s <= inject_Z (Z.of_nat fuel) ->
  puffSpawnAccum (spawnWhile random fuel excess s) <= 1.
Proof.
  revert s. induction fuel as [|fuel IH]; intros s Hs; simpl.
  - apply Qle_trans with (1 := Hs). discriminate.
  - destruct (Qlt_le_dec 1 (puffSpawnAccum s)) as [Hgt|Hle]; [|assumption].
    apply IH. simpl. rewrite spawnPuff_accum.
    rewrite Nat2Z.inj_succ in Hs. unfold Z.succ in Hs. rewrite inject_Z_plus in Hs.
    apply Qplus_le_l with (z := 1). ring_simplify.
    apply Qle_trans with (1 := Hs). apply Qle_lteq. right. ring.
Qed.

Lemma ceiling_fuel (a : Q) : a <= inject_Z (Z.of_nat (Z.to_nat (Qceiling a))).
Proof.
  apply Qle_trans with (inject_Z (Qceiling a)); [apply Qle_ceiling|].
  rewrite <- Zle_Qle. lia.
Qed.

Lemma emitPuffs_inv dt rate s : PoolInv s -> PoolInv (emitPuffs random dt rate s).
Proof.
  intros Hs. unfold emitPuffs.
  destruct (Qlt_le_dec FLARE_PUFF_THRESHOLD rate); [|assumption].
  set (s1 := setAccum _ s).
  assert (Hshape : PoolShape (spawnWhile random (Z.to_nat (Qceiling (puffSpawnAccum s1)))
                                         (rate - FLARE_PUFF_THRESHOLD) s1)).
  { apply spawnWhile_shape, setAccum_shape. destruct Hs. constructor; assumption. }
  destruct Hshape as [H1 H2 H3 H4 H5].
  constructor; try assumption.
  apply spawnWhile_accum, ceiling_fuel.
Qed.

(** No mesh is made in a frame whose rate does not exceed the threshold. *)
Lemma emitPuffs_gated dt rate s :
  rate <= FLARE_PUFF_THRESHOLD -> emitPuffs random dt rate s = s.
Proof.
  intros H. unfold emitPuffs.
  destruct (Qlt_le_dec FLARE_PUFF_THRESHOLD rate) as [Hlt|]; [|reflexivity].
  exfalso. apply (Qlt_irrefl rate). eapply Qle_lt_trans; eassumption.
Qed.

(** *** The update loop *)

Lemma lifeFraction_below (lifeNow maxLife : Q) :
  lifeFraction lifeNow maxLife < 1 -> lifeNow < maxLife.
Proof.
  unfold lifeFraction. destruct (Qlt_le_dec 0 maxLife) as [Hpos|Hle]; intros H.
  - assert (Hne : ~ maxLife == 0).
    { intros E. rewrite E in Hpos. discriminate. }
    assert (E : lifeNow == lifeNow / maxLife * maxLife) by (field; exact Hne).
    assert (G : lifeNow / maxLife * maxLife < 1 * maxLife)
      by (apply Qmult_lt_r; assumption).
    rewrite <- E, Qmult_1_l in G. exact G.
  - discriminate.
Qed.

Lemma lifeFraction_reached (lifeNow maxLife : Q) :
  maxLife <= lifeNow -> 1 <= lifeFraction lifeNow maxLife.
Proof.
  unfold lifeFraction. destruct (Qlt_le_dec 0 maxLife) as [Hpos|Hle]; intros H.
  - apply Qle_shift_div_l; [assumption|]. rewrite Qmult_1_l. assumption.
  - discriminate.
Qed.

Lemma existsb_eqb_elem (m : nat) (l : list nat) :
  existsb (Nat.eqb m) l = true <-> m ∈ l.
Proof.
  rewrite existsb_exists, list_elem_of_In. split.
  - intros (k & Hk & E). apply Nat.eqb_eq in E. subst k. assumption.
  - intros H. exists m. split; [assumption | apply Nat.eqb_refl].
Qed.

Lemma detach_cons_gone removed m l :
  m ∈ removed -> detach removed (m :: l) = detach removed l.
Proof.
  intros H. unfold detach. simpl.
  apply existsb_eqb_elem in H. rewrite H. reflexivity.
Qed.

Lemma detach_cons_kept removed m l :
  m ∉ removed -> detach removed (m :: l) = m :: detach removed l.
Proof.
  intros H. unfold detach. simpl.
  destruct (existsb (Nat.eqb m) removed) eqn:E; [|reflexivity].
  apply existsb_eqb_elem in E. contradiction.
Qed.

Lemma detach_snoc_absent removed m l :
  m ∉ l -> detach (removed ++ [m]) l = detach removed l.
Proof.
  induction l as [|k l IH]; intros H; [reflexivity|].
  apply not_elem_of_cons in H. destruct H as [Hne Hl].
  destruct (decide (k ∈ removed)) as [Hin|Hout].
  - rewrite !detach_cons_gone; [apply IH, Hl | assumption |].
    apply elem_of_app. left. assumption.
  - rewrite !detach_cons_kept; [rewrite (IH Hl); reflexivity | assumption |].
    intros Hk. apply elem_of_app in Hk. destruct Hk as [Hk|Hk]; [contradiction|].
    apply list_elem_of_singleton in Hk. congruence.
Qed.

(** The meshes of the pool split into those kept and those removed. *)
Lemma updatePuffs_split dt ps m :
  m ∈ mesh <$> ps <->
  m ∈ mesh <$> (updatePuffs dt ps).1 \/ m ∈ (updatePuffs dt ps).2.
Proof.
  induction ps as [|p rest IH]; simpl.
  - rewrite elem_of_nil. tauto.
  - destruct (updatePuffs dt rest) as [kept removed] eqn:E. simpl in IH.
    destruct (Qlt_le_dec (lifeFraction (life p + dt) (maxLife p)) 1); simpl.
    + rewrite !elem_of_cons, IH. simpl. tauto.
    + rewrite elem_of_cons, elem_of_app, list_elem_of_singleton, IH. tauto.
Qed.

Lemma updatePuffs_length dt ps :
  (length (updatePuffs dt ps).1 <= length ps)%nat.
Proof.
  induction ps as [|p rest IH]; simpl; [lia|].
  destruct (updatePuffs dt rest) as [kept removed]. simpl in IH.
  destruct (Qlt_le_dec (lifeFraction (life p + dt) (maxLife p)) 1); simpl; lia.
Qed.

(** Every puff that stays is younger than its [maxLife]. *)
Lemma updatePuffs_young dt ps :
  Forall (fun p => life p < maxLife p) (updatePuffs dt ps).1.
Proof.
  induction ps as [|p rest IH]; simpl; [constructor|].
  destruct (updatePuffs dt rest) as [kept removed]. simpl in IH.
  destruct (Qlt_le_dec (lifeFraction (life p + dt) (maxLife p)) 1) as [Hlt|Hge];
    simpl; [|assumption].
  constructor; [|assumption]. simpl. apply lifeFraction_below. assumption.
Qed.

(** Every puff whose age reaches its [maxLife] in this frame is removed. *)
Lemma updatePuffs_expired dt ps p :
  p ∈ ps -> maxLife p <= life p + dt -> mesh p ∈ (updatePuffs dt ps).2.
Proof.
  induction ps as [|q rest IH]; intros Hin Hold; [inversion Hin|].
  simpl. destruct (updatePuffs dt rest) as [kept removed]. simpl in IH.
  apply elem_of_cons in Hin.
  destruct (Qlt_le_dec (lifeFraction (life q + dt) (maxLife q)) 1) as [Hlt|Hge]; simpl.
  - destruct Hin as [->|Hin]; [|apply IH; assumption].
    exfalso. apply lifeFraction_below in Hlt.
    apply (Qlt_irrefl (maxLife q)). eapply Qle_lt_trans; eassumption.
  - apply elem_of_app. destruct Hin as [->|Hin]; [right | left; apply IH; assumption].
    apply list_elem_of_singleton. reflexivity.
Qed.

Lemma updatePuffs_detach dt ps :
  NoDup (mesh <$> ps) ->
  NoDup (mesh <$> (updatePuffs dt ps).1)
  /\ detach (updatePuffs dt ps).2 (mesh <$> ps) = mesh <$> (updatePuffs dt ps).1
  /\ (forall m, m ∈ (updatePuffs dt ps).2 -> m ∉ mesh <$> (updatePuffs dt ps).1).
Proof.
  induction ps as [|p rest IH]; intros Hnd.
  - simpl. split; [constructor|]. split; [reflexivity|].
    intros m Hm. inversion Hm.
  - rewrite fmap_cons in Hnd. apply NoDup_cons in Hnd. destruct Hnd as [Hp Hnd].
    specialize (IH Hnd). pose proof (updatePuffs_split dt rest) as Hsplit.
    simpl. destruct (updatePuffs dt rest) as [kept removed]. simpl in IH, Hsplit.
    destruct IH as (IH1 & IH2 & IH3).
    assert (Hpk : mesh p ∉ mesh <$> kept).
    { intros H. apply Hp, Hsplit. left. assumption. }
    assert (Hpr : mesh p ∉ removed).
    { intros H. apply Hp, Hsplit. right. assumption. }
    destruct (Qlt_le_dec (lifeFraction (life p + dt) (maxLife p)) 1); simpl.
    + split; [apply NoDup_cons; split; assumption|]. split.
      * rewrite detach_cons_kept by assumption. f_equal. exact IH2.
      * intros m Hm Hin. apply elem_of_cons in Hin. destruct Hin as [->|Hin].
        -- contradiction.
        -- apply (IH3 m); assumption.
    + split; [assumption|]. split.
      * rewrite detach_cons_gone.
        -- rewrite detach_snoc_absent by exact Hp. exact IH2.
        -- apply elem_of_app. right. apply list_elem_of_singleton. reflexivity.
      * intros m Hm Hin. apply elem_of_app in Hm. destruct Hm as [Hm|Hm].
        -- apply (IH3 m); assumption.
        -- apply list_elem_of_singleton in Hm. subst m. contradiction.
Qed.

(** One frame keeps the invariant, from any rate and any clock reading. *)
Lemma animate_inv t rate rv s : PoolInv s -> PoolInv (animate random t rate rv s).
Proof.
  intros Hs. apply (emitPuffs_inv (t - lastT s) rate) in Hs.
  unfold animate. set (s1 := emitPuffs random (t - lastT s) rate s) in *.
  pose proof (updatePuffs_length (t - lastT s) (puffs s1)) as Hlen.
  pose proof (updatePuffs_split (t - lastT s) (puffs s1)) as Hsplit.
  destruct Hs as [H1 H2 H3 H4 H5 H6].
  destruct (updatePuffs_detach (t - lastT s) (puffs s1) H3) as (D1 & D2 & D3).
  destruct (updatePuffs (t - lastT s) (puffs s1)) as [kept removed].
  simpl in *. constructor; simpl.
  - lia.
  - rewrite H2. assumption.
  - assumption.
  - intros m Hm. apply H4, Hsplit. left. assumption.
  - intros m Hm. destruct (H5 m Hm) as [Hin|Hin].
    + apply Hsplit in Hin. destruct Hin as [Hin|Hin]; [left; assumption|].
      right. apply elem_of_app. right. assumption.
    + right. apply elem_of_app. left. assumption.
  - assumption.
Qed.

Lemma mounted_inv : PoolInv mounted.
Proof.
  constructor; simpl.
  - unfold MAX_ACTIVE_PUFFS. lia.
  - reflexivity.
  - constructor.
  - intros m Hm. inversion Hm.
  - intros m Hm. lia.
  - discriminate.
Qed.

Lemma frames_snoc inputs i s :
  frames random (inputs ++ [i]) s
  = animate random i.1.1 i.1.2 i.2 (frames random inputs s).
Proof.
  unfold frames. rewrite foldl_snoc. destruct i as [[t rate] rv]. reflexivity.
Qed.

Lemma frames_inv inputs : PoolInv (frames random inputs mounted).
Proof.
  induction inputs as [|i inputs IH] using rev_ind.
  - apply mounted_inv.
  - rewrite frames_snoc. apply animate_inv, IH.
Qed.

Lemma animate_young t rate rv s :
  Forall (fun p => life p < maxLife p) (puffs (animate random t rate rv s)).
Proof.
  unfold animate.
  pose proof (updatePuffs_young (t - lastT s)
                (puffs (emitPuffs random (t - lastT s) rate s))) as H.
  destruct (updatePuffs (t - lastT s) (puffs (emitPuffs random (t - lastT s) rate s))).
  exact H.
Qed.

Lemma frames_young inputs :
  Forall (fun p => life p < maxLife p) (puffs (frames random inputs mounted)).
Proof.
  destruct inputs as [|i inputs] using rev_ind.
  - constructor.
  - rewrite frames_snoc. apply animate_young.
Qed.

(** *** Emission: what is spawned, and how much credit is carried *)

Lemma spawnPuff_grows strength s p :
  p ∈ puffs s -> p ∈ puffs (spawnPuff random strength s).
Proof.
  intros H. unfold spawnPuff.
  destruct (MAX_ACTIVE_PUFFS <=? length (puffs s))%nat; [assumption|].
  simpl. apply elem_of_app. left. assumption.
Qed.

Lemma spawnPuff_nextMesh strength s :
  (nextMesh s <= nextMesh (spawnPuff random strength s) <= S (nextMesh s))%nat.
Proof.
  unfold spawnPuff.
  destruct (MAX_ACTIVE_PUFFS <=? length (puffs s))%nat; simpl; lia.
Qed.

(** The loop takes one unit of credit per request, and makes at most one
    mesh per request. *)
Lemma spawnWhile_requests fuel excess s :
  exists n : nat,
    puffSpawnAccum (spawnWhile random fuel excess s)
      == puffSpawnAccum s - inject_Z (Z.of_nat n)
    /\ (nextMesh (spawnWhile random fuel excess s) <= nextMesh s + n)%nat
    /\ (forall p, p ∈ puffs s -> p ∈ puffs (spawnWhile random fuel excess s)).
Proof.
  revert s. induction fuel as [|fuel IH]; intros s; simpl.
  - exists 0%nat. split; [simpl; ring|]. split; [lia | auto].
  - destruct (Qlt_le_dec 1 (puffSpawnAccum s)).
    + destruct (IH (setAccum (puffSpawnAccum (spawnPuff random excess s) - 1)
                             (spawnPuff random excess s))) as (n & Ha & Hm & Hp).
      exists (S n). split; [|split].
      * rewrite Ha. simpl puffSpawnAccum. rewrite spawnPuff_accum.
        rewrite Nat2Z.inj_succ. unfold Z.succ. rewrite inject_Z_plus. ring.
      * simpl nextMesh in Hm. pose proof (spawnPuff_nextMesh excess s). lia.
      * intros p Hin. apply Hp. simpl. apply spawnPuff_grows. assumption.
    + exists 0%nat. split; [simpl; ring|]. split; [lia | auto].
Qed.

Lemma emitPuffs_requests dt rate s :
  FLARE_PUFF_THRESHOLD < rate ->
  exists n : nat,
    puffSpawnAccum (emitPuffs random dt rate s)
      == puffSpawnAccum s + dt * (2 + (rate - FLARE_PUFF_THRESHOLD) * (35#100))
         - inject_Z (Z.of_nat n)
    /\ (nextMesh (emitPuffs random dt rate s) <= nextMesh s + n)%nat.
Proof.
  intros Hrate. unfold emitPuffs.
  destruct (Qlt_le_dec FLARE_PUFF_THRESHOLD rate) as [_|Hle].
  - set (s1 := setAccum _ s).
    destruct (spawnWhile_requests (Z.to_nat (Qceiling (puffSpawnAccum s1)))
                (rate - FLARE_PUFF_THRESHOLD) s1) as (n & Ha & Hm & _).
    exists n. split; [|exact Hm]. rewrite Ha. reflexivity.
  - exfalso. apply (Qlt_irrefl rate). eapply Qle_lt_trans; eassumption.
Qed.

Lemma emitPuffs_grows dt rate s p :
  p ∈ puffs s -> p ∈ puffs (emitPuffs random dt rate s).
Proof.
  intros H. unfold emitPuffs.
  destruct (Qlt_le_dec FLARE_PUFF_THRESHOLD rate); [|assumption].
  set (s1 := setAccum _ s).
  destruct (spawnWhile_requests (Z.to_nat (Qceiling (puffSpawnAccum s1)))
              (rate - FLARE_PUFF_THRESHOLD) s1) as (n & _ & _ & Hp).
  apply Hp. exact H.
Qed.

Lemma animate_fields t rate rv s :
  nextMesh (animate random t rate rv s)
    = nextMesh (emitPuffs random (t - lastT s) rate s)
  /\ puffSpawnAccum (animate random t rate rv s)
    = puffSpawnAccum (emitPuffs random (t - lastT s) rate s)
  /\ puffs (animate random t rate rv s)
    = (updatePuffs (t - lastT s) (puffs (emitPuffs random (t - lastT s) rate s))).1
  /\ puffGroup (animate random t rate rv s)
    = detach (updatePuffs (t - lastT s) (puffs (emitPuffs random (t - lastT s) rate s))).2
             (puffGroup (emitPuffs random (t - lastT s) rate s))
  /\ disposed (animate random t rate rv s)
    = disposed (emitPuffs random (t - lastT s) rate s)
      ++ (updatePuffs (t - lastT s) (puffs (emitPuffs random (t - lastT s) rate s))).2.
Proof.
  unfold animate.
  destruct (updatePuffs (t - lastT s) (puffs (emitPuffs random (t - lastT s) rate s))).
  simpl. auto.
Qed.

Lemma animate_gated t rate rv s :
  rate <= FLARE_PUFF_THRESHOLD ->
  nextMesh (animate random t rate rv s) = nextMesh s
  /\ (length (puffs (animate random t rate rv s)) <= length (puffs s))%nat.
Proof.
  intros H. destruct (animate_fields t rate rv s) as (Hn & _ & Hp & _).
  rewrite Hn, Hp, (emitPuffs_gated _ _ _ H). split; [reflexivity|].
  apply updatePuffs_length.
Qed.

Lemma frames_gated inputs :
  Forall (fun i : Q * Q * Q => i.1.2 <= FLARE_PUFF_THRESHOLD) inputs ->
  nextMesh (frames random inputs mounted) = 0%nat
  /\ puffs (frames random inputs mounted) = [].
Proof.
  induction inputs as [|i inputs IH] using rev_ind; intros H.
  - split; reflexivity.
  - apply Forall_app in H. destruct H as [Hinit Hlast].
    apply Forall_inv in Hlast. destruct (IH Hinit) as [IHn IHp].
    rewrite frames_snoc.
    destruct (animate_gated i.1.1 i.1.2 i.2 (frames random inputs mounted) Hlast)
      as [Hn Hl].
    rewrite IHn in Hn. rewrite IHp in Hl. simpl in Hl. split; [exact Hn|].
    apply nil_length_inv. lia.
Qed.

(** *** Emission: how many requests a frame makes *)

(** The number of times [while (a > 1) { ...; a -= 1 }] runs its body. *)
Definition spawnRequests (a : Q) : nat := Z.to_nat (Qceiling a - 1).

Lemma Qceiling_unique (a : Q) (k : Z) :
  inject_Z (k - 1) < a -> a <= inject_Z k -> Qceiling a = k.
Proof.
  intros Hlo Hhi. apply Z.le_antisymm.
  - rewrite <- (Qceiling_Z k). apply Qceiling_resp_le. exact Hhi.
  - assert (H : (k - 1 < Qceiling a)%Z).
    { rewrite Zlt_Qlt. eapply Qlt_le_trans; [exact Hlo | apply Qle_ceiling]. }
    lia.
Qed.

Lemma Qceiling_minus (a : Q) (k : Z) : Qceiling (a - inject_Z k) = (Qceiling a - k)%Z.
Proof.
  apply Qceiling_unique.
  - pose proof (Qceiling_lt a) as H.
    replace (Qceiling a - k - 1)%Z with (Qceiling a - 1 - k)%Z by lia.
    unfold Z.sub at 1. rewrite inject_Z_plus, inject_Z_opp.
    apply Qplus_lt_l. exact H.
  - pose proof (Qle_ceiling a) as H.
    unfold Z.sub. rewrite inject_Z_plus, inject_Z_opp.
    apply Qplus_le_l. exact H.
Qed.

Lemma spawnRequests_comp (a a' : Q) : a == a' -> spawnRequests a = spawnRequests a'.
Proof. intros E. unfold spawnRequests. rewrite (Qceiling_comp _ _ E). reflexivity. Qed.

Lemma spawnRequests_minus (a : Q) (k : nat) :
  spawnRequests (a - inject_Z (Z.of_nat k)) = (spawnRequests a - k)%nat.
Proof. unfold spawnRequests. rewrite Qceiling_minus. lia. Qed.

Lemma spawnRequests_mono (a a' : Q) :
  a <= a' -> (spawnRequests a <= spawnRequests a')%nat.
Proof.
  intros H. unfold spawnRequests. pose proof (Qceiling_resp_le _ _ H). lia.
Qed.

Lemma spawnRequests_none (a : Q) : a <= 1 -> spawnRequests a = 0%nat.
Proof.
  intros H. unfold spawnRequests.
  assert (Hc : (Qceiling a <= 1)%Z)
    by (rewrite <- (Qceiling_Z 1); apply Qceiling_resp_le; exact H).
  lia.
Qed.

Lemma spawnRequests_some (a : Q) :
  1 < a -> spawnRequests a = S (spawnRequests (a - 1)).
Proof.
  intros H. unfold spawnRequests.
  pose proof (Qceiling_minus a 1) as E. change (inject_Z 1) with 1 in E. rewrite E.
  assert (Hc : (1 < Qceiling a)%Z).
  { rewrite Zlt_Qlt. eapply Qlt_le_trans; [exact H | apply Qle_ceiling]. }
  lia.
Qed.

(** Between one below the credit and the credit itself. *)
Lemma spawnRequests_bounds (a : Q) :
  1 < a ->
  a - 1 <= inject_Z (Z.of_nat (spawnRequests a))
  /\ inject_Z (Z.of_nat (spawnRequests a)) < a.
Proof.
  intros H. unfold spawnRequests.
  assert (Hc : (1 < Qceiling a)%Z).
  { rewrite Zlt_Qlt. eapply Qlt_le_trans; [exact H | apply Qle_ceiling]. }
  rewrite Z2Nat.id by lia. split.
  - unfold Z.sub. rewrite inject_Z_plus, inject_Z_opp.
    apply Qplus_le_l. apply Qle_ceiling.
  - apply Qceiling_lt.
Qed.

Lemma spawnPuff_setAccum a strength s :
  spawnPuff random strength (setAccum a s) = setAccum a (spawnPuff random strength s).
Proof.
  unfold spawnPuff. cbn [setAccum puffs].
  destruct (MAX_ACTIVE_PUFFS <=? length (puffs s))%nat; reflexivity.
Qed.

Lemma iter_spawnPuff_setAccum n a strength s :
  Nat.iter n (spawnPuff random strength) (setAccum a s)
  = setAccum a (Nat.iter n (spawnPuff random strength) s).
Proof.
  induction n as [|n IH]; [reflexivity|].
  cbn [Nat.iter nat_rect]. unfold Nat.iter in IH. rewrite IH.
  apply spawnPuff_setAccum.
Qed.

(** The loop calls [spawnPuff] once per unit of credit above the first. *)
Lemma spawnWhile_exact fuel excess s :
  puffSpawnAccum s <= inject_Z (Z.of_nat fuel) ->
  setAccum 0 (spawnWhile random fuel excess s)
  = setAccum 0 (Nat.iter (spawnRequests (puffSpawnAccum s)) (spawnPuff random excess) s)
  /\ puffSpawnAccum (spawnWhile random fuel excess s)
     == puffSpawnAccum s - inject_Z (Z.of_nat (spawnRequests (puffSpawnAccum s))).
Proof.
  revert s. induction fuel as [|fuel IH]; intros s Hs; cbn [spawnWhile].
  - rewrite spawnRequests_none by (eapply Qle_trans; [exact Hs | discriminate]).
    split; [reflexivity | cbn; ring].
  - destruct (Qlt_le_dec 1 (puffSpawnAccum s)) as [Hgt|Hle].
    + rewrite (spawnRequests_some _ Hgt).
      set (s1 := spawnPuff random excess s).
      assert (Ea : puffSpawnAccum s1 = puffSpawnAccum s) by apply spawnPuff_accum.
      rewrite Ea.
      destruct (IH (setAccum (puffSpawnAccum s - 1) s1)) as [IH1 IH2].
      { cbn [setAccum puffSpawnAccum].
        rewrite Nat2Z.inj_succ in Hs. unfold Z.succ in Hs. rewrite inject_Z_plus in Hs.
        change (inject_Z 1) with 1 in Hs. Lqa.lra. }
      cbn [setAccum puffSpawnAccum] in IH1, IH2. split.
      * rewrite IH1, iter_spawnPuff_setAccum, Nat.iter_succ_r. reflexivity.
      * rewrite IH2. rewrite Nat2Z.inj_succ. unfold Z.succ. rewrite inject_Z_plus. ring.
    + rewrite (spawnRequests_none _ Hle). split; [reflexivity | cbn; ring].
Qed.

(** [n] calls of [spawnPuff] append a puff each while the pool has room. *)
Lemma iter_spawnPuff n strength s :
  (length (puffs s) <= MAX_ACTIVE_PUFFS)%nat ->
  exists new : list Puff,
    puffs (Nat.iter n (spawnPuff random strength) s) = puffs s ++ new
    /\ length new = Nat.min n (MAX_ACTIVE_PUFFS - length (puffs s))
    /\ nextMesh (Nat.iter n (spawnPuff random strength) s) = (nextMesh s + length new)%nat.
Proof.
  intros Hs. induction n as [|n IH].
  - exists []. cbn [Nat.iter nat_rect]. rewrite app_nil_r. split; [reflexivity|].
    split; [reflexivity | cbn; lia].
  - destruct IH as (new & Hp & Hl & Hm). cbn [Nat.iter nat_rect].
    change (nat_rect (fun _ => Loop) s (fun _ => spawnPuff random strength) n)
      with (Nat.iter n (spawnPuff random strength) s).
    set (sn := Nat.iter n (spawnPuff random strength) s) in *.
    unfold spawnPuff.
    destruct (Nat.leb_spec MAX_ACTIVE_PUFFS (length (puffs sn))) as [Hfull|Hroom].
    + exists new. rewrite Hp, length_app in Hfull.
      split; [exact Hp|]. split; [lia | exact Hm].
    + rewrite Hp, length_app in Hroom. cbn [puffs nextMesh].
      eexists (new ++ [_]). rewrite Hp, app_assoc. split; [reflexivity|].
      rewrite length_app. cbn [length]. split; lia.
Qed.

(** The emission block of a frame above the threshold: the credit earned,
    the requests made, and the puffs they add. *)
Lemma emitPuffs_exact dt rate s :
  FLARE_PUFF_THRESHOLD < rate ->
  (length (puffs s) <= MAX_ACTIVE_PUFFS)%nat ->
  let credit := puffSpawnAccum s + dt * (2 + (rate - FLARE_PUFF_THRESHOLD) * (35#100)) in
  let requests := spawnRequests credit in
  let made := Nat.min requests (MAX_ACTIVE_PUFFS - length (puffs s)) in
  (exists new : list Puff,
      puffs (emitPuffs random dt rate s) = puffs s ++ new /\ length new = made)
  /\ nextMesh (emitPuffs random dt rate s) = (nextMesh s + made)%nat
  /\ puffSpawnAccum (emitPuffs random dt rate s)
     == credit - inject_Z (Z.of_nat requests).
Proof.
  intros Hrate Hs credit requests made.
  assert (Eemit : emitPuffs random dt rate s
                  = spawnWhile random (Z.to_nat (Qceiling credit))
                      (rate - FLARE_PUFF_THRESHOLD) (setAccum credit s)).
  { unfold emitPuffs.
    destruct (Qlt_le_dec FLARE_PUFF_THRESHOLD rate) as [_|Hle]; [reflexivity|].
    exfalso. apply (Qlt_irrefl rate). eapply Qle_lt_trans; eassumption. }
  rewrite Eemit.
  destruct (spawnWhile_exact (Z.to_nat (Qceiling credit))
              (rate - FLARE_PUFF_THRESHOLD) (setAccum credit s) (ceiling_fuel _))
    as [E Ea].
  cbn [setAccum puffSpawnAccum] in E, Ea. fold requests in E, Ea.
  rewrite iter_spawnPuff_setAccum in E.
  destruct (iter_spawnPuff requests (rate - FLARE_PUFF_THRESHOLD) s Hs)
    as (new & Hp & Hl & Hm).
  split; [|split].
  - exists new. split; [|exact Hl].
    rewrite <- Hp. apply (f_equal puffs) in E. exact E.
  - apply (f_equal nextMesh) in E. cbn [setAccum nextMesh] in E.
    rewrite E, Hm, Hl. reflexivity.
  - exact Ea.
Qed.

(** *** A run at a constant rate above the threshold *)

(** The clock readings of a run of frames never go back. *)
Fixpoint ticking (t0 : Q) (inputs : list (Q * Q * Q)) : Prop :=
  match inputs with
  | [] => True
  | i :: rest => t0 <= i.1.1 /\ ticking i.1.1 rest
  end.

Lemma animate_lastT t rate rv s : lastT (animate random t rate rv s) = t.
Proof.
  unfold animate.
  destruct (updatePuffs (t - lastT s) (puffs (emitPuffs random (t - lastT s) rate s))).
  reflexivity.
Qed.

(** What holds between frames of such a run: the requests made so far are
    those of the credit earned since the mount, and each made a puff
    unless the pool was full. *)
Record RunInv (rate : Q) (s : Loop) : Prop := {
  run_clock : 0 <= lastT s;
  run_credit :
    puffSpawnAccum s
    == lastT s * (2 + (rate - FLARE_PUFF_THRESHOLD) * (35#100))
       - inject_Z (Z.of_nat (spawnRequests
           (lastT s * (2 + (rate - FLARE_PUFF_THRESHOLD) * (35#100)))));
  run_made_le :
    (nextMesh s <= spawnRequests
       (lastT s * (2 + (rate - FLARE_PUFF_THRESHOLD) * (35#100))))%nat;
  run_made :
    (spawnRequests (lastT s * (2 + (rate - FLARE_PUFF_THRESHOLD) * (35#100)))
     <= MAX_ACTIVE_PUFFS)%nat ->
    nextMesh s = spawnRequests
                   (lastT s * (2 + (rate - FLARE_PUFF_THRESHOLD) * (35#100)));
  run_pool : (length (puffs s) <= nextMesh s)%nat;
  run_cap : (length (puffs s) <= MAX_ACTIVE_PUFFS)%nat
}.

Lemma mounted_run rate : RunInv rate mounted.
Proof.
  constructor; cbn [mounted lastT puffSpawnAccum nextMesh puffs length].
  - apply Qle_refl.
  - rewrite (spawnRequests_none (0 * _)) by (rewrite Qmult_0_l; discriminate).
    cbn. ring.
  - lia.
  - intros _. symmetry. apply spawnRequests_none. rewrite Qmult_0_l. discriminate.
  - lia.
  - unfold MAX_ACTIVE_PUFFS. lia.
Qed.

Lemma animate_run t rate rv s :
  FLARE_PUFF_THRESHOLD < rate -> lastT s <= t ->
  RunInv rate s -> RunInv rate (animate random t rate rv s).
Proof.
  intros Hrate Ht [Hc Ha Hle Hm Hp Hcap].
  set (r := 2 + (rate - FLARE_PUFF_THRESHOLD) * (35#100)) in *.
  assert (Hr : 0 < r) by (unfold r, FLARE_PUFF_THRESHOLD in *; Lqa.lra).
  destruct (emitPuffs_exact (t - lastT s) rate s Hrate Hcap) as ((new & Hnew & Hlen) & Hmesh & Hacc).
  fold r in Hlen, Hmesh, Hacc.
  destruct (animate_fields t rate rv s) as (En & Eacc & Ep & _).
  assert (Hkept : (length (updatePuffs (t - lastT s)
                             (puffs (emitPuffs random (t - lastT s) rate s))).1
                   <= length (puffs s) + length new)%nat).
  { etransitivity; [apply updatePuffs_length|]. rewrite Hnew, length_app. lia. }
  rewrite Hlen in Hkept.
  set (N := spawnRequests (lastT s * r)) in *.
  assert (Ecredit : puffSpawnAccum s + (t - lastT s) * r == t * r - inject_Z (Z.of_nat N)).
  { rewrite Ha. ring. }
  rewrite (spawnRequests_comp _ _ Ecredit), spawnRequests_minus in Hlen, Hmesh, Hkept.
  rewrite (spawnRequests_comp _ _ Ecredit), spawnRequests_minus, Ecredit in Hacc.
  assert (Hmono : (N <= spawnRequests (t * r))%nat).
  { apply spawnRequests_mono. apply Qmult_le_compat_r; [exact Ht | apply Qlt_le_weak, Hr]. }
  constructor; rewrite ?animate_lastT, ?En, ?Eacc, ?Ep; fold r.
  - eapply Qle_trans; eassumption.
  - rewrite Hacc.
    replace (Z.of_nat (spawnRequests (t * r)))
      with (Z.of_nat N + Z.of_nat (spawnRequests (t * r) - N))%Z by lia.
    rewrite inject_Z_plus. ring.
  - rewrite Hmesh. lia.
  - intros Hfew. rewrite Hmesh.
    assert (HN : nextMesh s = N) by (apply Hm; lia). lia.
  - rewrite Hmesh. lia.
  - lia.
Qed.

Lemma frames_run rate inputs s :
  FLARE_PUFF_THRESHOLD < rate ->
  ticking (lastT s) inputs -> Forall (fun i : Q * Q * Q => i.1.2 = rate) inputs ->
  RunInv rate s -> RunInv rate (frames random inputs s).
Proof.
  intros Hrate. unfold frames. revert s.
  induction inputs as [|[[t rate'] rv] inputs IH]; intros s Ht Hconst Hs; [exact Hs|].
  cbn [foldl]. destruct Ht as [Ht Hrest]. cbn [fst snd] in Ht, Hrest.
  apply Forall_cons in Hconst. destruct Hconst as [E Hconst]. cbn [fst snd] in E. subst rate'.
  apply IH; [rewrite animate_lastT; exact Hrest | exact Hconst |].
  apply animate_run; assumption.
Qed.

Lemma frames_lastT inputs i s :
  lastT (frames random (inputs ++ [i]) s) = i.1.1.
Proof. rewrite frames_snoc. apply animate_lastT. Qed.

End Puffs.

(** C4.  Over any history of frames, with any clock readings, rates and
    random draws, the arithmetic read exactly: the pool never holds more
    than [MAX_ACTIVE_PUFFS] puffs, and no spawn credit beyond one unit is
    carried from frame to frame; a frame whose flare rate is at or below
    the threshold makes no puff, so a run held at or below the threshold
    never makes one.  A frame above the threshold earns
    [dt * (2 + 0.35 * (rate - threshold))] of spawn credit, makes one spawn
    request per unit of credit above the first, spends a unit on each, and
    appends one puff per request as long as the pool has room: the puffs
    made are the requests or the room left, whichever is less.  The
    requests lie between the credit less one and the credit.  Over a run
    from the mount at a constant rate above the threshold, with a clock
    that never goes back, the requests made by clock reading [T] are those
    of the credit [T * (2 + 0.35 * (rate - threshold))], linear in the
    excess, and as long as they are at most [MAX_ACTIVE_PUFFS] each of them
    has made a puff.  A request that finds the pool full changes nothing:
    its unit of credit is spent and no puff is made later for it. *)
Theorem flare_puffs_gated_linear_capped (random : nat -> Q)
  (inputs : list (Q * Q * Q)) :
  let s := ThreeDashboard.frames random inputs ThreeDashboard.mounted in
  (length (ThreeDashboard.puffs s) <= ThreeDashboard.MAX_ACTIVE_PUFFS)%nat
  /\ (ThreeDashboard.puffSpawnAccum s <= 1)%Q
  /\ (forall t rate rv st,
        (rate <= ThreeDashboard.FLARE_PUFF_THRESHOLD)%Q ->
        ThreeDashboard.nextMesh (ThreeDashboard.animate random t rate rv st)
          = ThreeDashboard.nextMesh st)
  /\ (Forall (fun i : Q * Q * Q => (i.1.2 <= ThreeDashboard.FLARE_PUFF_THRESHOLD)%Q) inputs ->
        ThreeDashboard.nextMesh s = 0%nat /\ ThreeDashboard.puffs s = [])
  /\ (forall t rate rv st,
        (ThreeDashboard.FLARE_PUFF_THRESHOLD < rate)%Q ->
        (length (ThreeDashboard.puffs st) <= ThreeDashboard.MAX_ACTIVE_PUFFS)%nat ->
        let dt := (t - ThreeDashboard.lastT st)%Q in
        let credit :=
          (ThreeDashboard.puffSpawnAccum st
           + dt * (2 + (rate - ThreeDashboard.FLARE_PUFF_THRESHOLD) * (35#100)))%Q in
        let requests := spawnRequests credit in
        let made :=
          Nat.min requests
                  (ThreeDashboard.MAX_ACTIVE_PUFFS - length (ThreeDashboard.puffs st)) in
        (exists new : list ThreeDashboard.Puff,
            ThreeDashboard.puffs (ThreeDashboard.emitPuffs random dt rate st)
            = ThreeDashboard.puffs st ++ new
            /\ length new = made)
        /\ ThreeDashboard.nextMesh (ThreeDashboard.animate random t rate rv st)
           = (ThreeDashboard.nextMesh st + made)%nat
        /\ (ThreeDashboard.puffSpawnAccum (ThreeDashboard.animate random t rate rv st)
            == credit - inject_Z (Z.of_nat requests))%Q)
  /\ (forall credit : Q,
        ((credit <= 1)%Q -> spawnRequests credit = 0%nat)
        /\ ((1 < credit)%Q ->
            (credit - 1 <= inject_Z (Z.of_nat (spawnRequests credit)))%Q
            /\ (inject_Z (Z.of_nat (spawnRequests credit)) < credit)%Q))
  /\ (forall rate,
        (ThreeDashboard.FLARE_PUFF_THRESHOLD < rate)%Q ->
        ticking 0 inputs ->
        Forall (fun i : Q * Q * Q => i.1.2 = rate) inputs ->
        let credit :=
          (ThreeDashboard.lastT s
           * (2 + (rate - ThreeDashboard.FLARE_PUFF_THRESHOLD) * (35#100)))%Q in
        (ThreeDashboard.puffSpawnAccum s
         == credit - inject_Z (Z.of_nat (spawnRequests credit)))%Q
        /\ (ThreeDashboard.nextMesh s <= spawnRequests credit)%nat
        /\ ((spawnRequests credit <= ThreeDashboard.MAX_ACTIVE_PUFFS)%nat ->
            ThreeDashboard.nextMesh s = spawnRequests credit))
  /\ (forall i,
        ThreeDashboard.lastT
          (ThreeDashboard.frames random (inputs ++ [i]) ThreeDashboard.mounted)
        = i.1.1)
  /\ (forall strength st,
        (ThreeDashboard.MAX_ACTIVE_PUFFS <= length (ThreeDashboard.puffs st))%nat ->
        ThreeDashboard.spawnPuff random strength st = st).
Proof.
  intros s. pose proof (frames_inv random inputs) as [H1 _ _ _ _ H6].
  split; [exact H1|]. split; [exact H6|]. split.
  { intros t rate rv st H. apply (animate_gated random t rate rv st H). }
  split; [apply frames_gated|]. split.
  { intros t rate rv st Hrate Hcap dt credit requests made.
    destruct (animate_fields random t rate rv st) as (En & Ea & _).
    destruct (emitPuffs_exact random dt rate st Hrate Hcap) as (Hnew & Hmesh & Hacc).
    split; [exact Hnew|]. split.
    - rewrite En. exact Hmesh.
    - rewrite Ea. exact Hacc. }
  split.
  { intros credit. split; [apply spawnRequests_none | apply spawnRequests_bounds]. }
  split.
  { intros rate Hrate Ht Hconst credit.
    destruct (frames_run random rate inputs ThreeDashboard.mounted Hrate Ht Hconst
                (mounted_run rate)) as [_ Ha Hle Hm _ _].
    split; [exact Ha|]. split; [exact Hle | exact Hm]. }
  split; [intros i; apply frames_lastT|].
  intros strength st H. apply spawnPuff_full, H.
Qed.

Lemma flare_puffs_gated_linear_capped_witness :
  (ThreeDashboard.FLARE_PUFF_THRESHOLD < 19)%Q
  /\ ticking 0 [(1, 19, 8); (2, 19, 8); (3, 19, 8); (4, 19, 8); (5, 19, 8);
                (6, 19, 8); (7, 19, 8); (8, 19, 8); (9, 19, 8); (10, 19, 8)]%Q
  /\ Forall (fun i : Q * Q * Q => i.1.2 = 19%Q)
            [(1, 19, 8); (2, 19, 8); (3, 19, 8); (4, 19, 8); (5, 19, 8);
             (6, 19, 8); (7, 19, 8); (8, 19, 8); (9, 19, 8); (10, 19, 8)]%Q
  /\ ThreeDashboard.nextMesh
       (ThreeDashboard.frames (fun _ => 1#2)
          [(1, 19, 8); (2, 19, 8); (3, 19, 8); (4, 19, 8); (5, 19, 8);
           (6, 19, 8); (7, 19, 8); (8, 19, 8); (9, 19, 8); (10, 19, 8)]%Q
          ThreeDashboard.mounted) = 37%nat
  /\ length (ThreeDashboard.puffs
       (ThreeDashboard.frames (fun _ => 1#2)
          [(1, 19, 8); (2, 19, 8); (3, 19, 8); (4, 19, 8); (5, 19, 8);
           (6, 19, 8); (7, 19, 8); (8, 19, 8); (9, 19, 8); (10, 19, 8)]%Q
          ThreeDashboard.mounted)) = 4%nat.
Proof.
  set (run := [(1, 19, 8); (2, 19, 8); (3, 19, 8); (4, 19, 8); (5, 19, 8);
               (6, 19, 8); (7, 19, 8); (8, 19, 8); (9, 19, 8); (10, 19, 8)]%Q).
  assert (Hrate : (ThreeDashboard.FLARE_PUFF_THRESHOLD < 19)%Q) by reflexivity.
  assert (Ht : ticking 0 run).
  { cbn [run ticking fst]. repeat (split; [discriminate|]). exact I. }
  assert (Hconst : Forall (fun i : Q * Q * Q => i.1.2 = 19%Q) run).
  { repeat constructor. }
  split; [exact Hrate|]. split; [exact Ht|]. split; [exact Hconst|].
  split; [|vm_compute; reflexivity].
  pose proof (flare_puffs_gated_linear_capped (fun _ => 1#2)%Q run) as H.
  cbv zeta in H.
  destruct H as (_ & _ & _ & _ & _ & _ & Hrun & _).
  destruct (Hrun 19%Q Hrate Ht Hconst) as (_ & _ & Hmade).
  rewrite Hmade; vm_compute; [reflexivity | lia].
Defined.

(** C8.  After every frame, whatever the inputs so far, each puff in the
    pool is younger than its [maxLife]; the meshes attached to the emitter
    group are exactly those of the pool; and every puff ever made is either
    in the pool or has had its material disposed.  A puff whose age reaches
    its [maxLife] during a frame is, at the end of that same frame, out of
    the pool, detached from the group and disposed. *)
Theorem puff_never_outlives_maxLife (random : nat -> Q) (inputs : list (Q * Q * Q)) :
  let s := ThreeDashboard.frames random inputs ThreeDashboard.mounted in
  Forall (fun p => (ThreeDashboard.life p < ThreeDashboard.maxLife p)%Q)
         (ThreeDashboard.puffs s)
  /\ ThreeDashboard.puffGroup s = ThreeDashboard.mesh <$> ThreeDashboard.puffs s
  /\ (forall m, (m < ThreeDashboard.nextMesh s)%nat ->
        m ∈ (ThreeDashboard.mesh <$> ThreeDashboard.puffs s)
        \/ m ∈ ThreeDashboard.disposed s)
  /\ (forall t rate rv p,
        p ∈ ThreeDashboard.puffs s ->
        (ThreeDashboard.maxLife p
           <= ThreeDashboard.life p + (t - ThreeDashboard.lastT s))%Q ->
        let s' := ThreeDashboard.animate random t rate rv s in
        (ThreeDashboard.mesh p ∉ (ThreeDashboard.mesh <$> ThreeDashboard.puffs s'))
        /\ (ThreeDashboard.mesh p ∉ ThreeDashboard.puffGroup s')
        /\ (ThreeDashboard.mesh p ∈ ThreeDashboard.disposed s')).
Proof.
  intros s. pose proof (frames_inv random inputs) as Hinv. fold s in Hinv.
  split; [apply frames_young|].
  split; [apply (inv_attached _ Hinv)|].
  split; [apply (inv_accounted _ Hinv)|].
  intros t rate rv p Hp Hold s'.
  pose proof (animate_inv random t rate rv s Hinv) as Hinv'. fold s' in Hinv'.
  destruct (animate_fields random t rate rv s) as (_ & _ & Hpuffs & _ & Hdisp).
  fold s' in Hpuffs, Hdisp.
  pose proof (emitPuffs_inv random (t - ThreeDashboard.lastT s)%Q rate s Hinv) as Hinv1.
  pose proof (emitPuffs_grows random (t - ThreeDashboard.lastT s)%Q rate s p Hp) as Hp1.
  pose proof (updatePuffs_expired (t - ThreeDashboard.lastT s)%Q _ p Hp1 Hold) as Hrem.
  destruct (updatePuffs_detach random (t - ThreeDashboard.lastT s)%Q _ (inv_distinct _ Hinv1))
    as (_ & _ & Hsep).
  assert (Hout : ThreeDashboard.mesh p ∉ ThreeDashboard.mesh <$> ThreeDashboard.puffs s').
  { rewrite Hpuffs. apply Hsep, Hrem. }
  split; [exact Hout|]. split.
  - rewrite (inv_attached _ Hinv'). exact Hout.
  - rewrite Hdisp. apply elem_of_app. right. exact Hrem.
Qed.

Lemma puff_never_outlives_maxLife_witness :
  (3 < ThreeDashboard.nextMesh
         (ThreeDashboard.frames (fun _ => 1#2) [(1, 19, 8); (2, 19, 8)]%Q
            ThreeDashboard.mounted))%nat
  /\ (3%nat ∈ ThreeDashboard.mesh <$> ThreeDashboard.puffs
         (ThreeDashboard.frames (fun _ => 1#2) [(1, 19, 8); (2, 19, 8)]%Q
            ThreeDashboard.mounted)
      \/ 3%nat ∈ ThreeDashboard.disposed
         (ThreeDashboard.frames (fun _ => 1#2) [(1, 19, 8); (2, 19, 8)]%Q
            ThreeDashboard.mounted)).
Proof.
  assert (H : (3 < ThreeDashboard.nextMesh
         (ThreeDashboard.frames (fun _ => 1#2) [(1, 19, 8); (2, 19, 8)]%Q
            ThreeDashboard.mounted))%nat) by (vm_compute; lia).
  split; [exact H|].
  apply (puff_never_outlives_maxLife (fun _ => 1#2) [(1, 19, 8); (2, 19, 8)]%Q).
  exact H.
Defined.

(** ** The focus highlight *)

(** *** Colours *)

Section Colours.

Import Three.
Local Open Scope Q_scope.

Lemma Math_round_half (k : Z) : Math_round (inject_Z k) = k.
Proof.
  unfold Math_round, Qfloor, Qplus, inject_Z. simpl.
  rewrite Z.mul_1_r. replace (k * 2 + 1)%Z with (1 + k * 2)%Z by ring.
  rewrite Z.div_add by discriminate. reflexivity.
Qed.

Lemma toByte_channel (k : Z) :
  (0 <= k <= 255)%Z -> toByte (inject_Z k / 255) = k.
Proof.
  intros Hk. unfold toByte, Math_round.
  assert (E : clamp (inject_Z k / 255 * 255) 0 255 == inject_Z k).
  { assert (E1 : inject_Z k / 255 * 255 == inject_Z k) by (field; discriminate).
    unfold clamp. rewrite E1.
    rewrite Q.min_r by (change 255 with (inject_Z 255); rewrite <- Zle_Qle; lia).
    apply Q.max_r. change 0 with (inject_Z 0). rewrite <- Zle_Qle. lia. }
  rewrite E. apply Math_round_half.
Qed.

Lemma byte_range (h s : Z) : (0 <= Z.land (Z.shiftr h s) 255 <= 255)%Z.
Proof.
  change 255%Z with (Z.ones 8). rewrite Z.land_ones by lia.
  pose proof (Z.mod_pos_bound (Z.shiftr h s) (2 ^ 8) eq_refl) as H.
  change (2 ^ 8)%Z with 256%Z in *. change (Z.ones 8) with 255%Z. lia.
Qed.

(** Reading a colour that was set from a hex value and setting it again
    gives the same colour. *)
Lemma setHex_getHex_setHex (h : Z) :
  Color_setHex (Color_getHex (Color_setHex h)) = Color_setHex h.
Proof.
  unfold Color_getHex. simpl. unfold hexChannel at 1 2 3.
  rewrite !toByte_channel by apply byte_range.
  pose proof (byte_range h 16) as H16. pose proof (byte_range h 8) as H8.
  pose proof (byte_range h 0) as H0.
  set (a := Z.land (Z.shiftr h 16) 255) in *.
  set (b := Z.land (Z.shiftr h 8) 255) in *.
  set (c := Z.land (Z.shiftr h 0) 255) in *.
  assert (Ea : Z.land (Z.shiftr (a * 65536 + b * 256 + c) 16) 255 = a).
  { rewrite Z.shiftr_div_pow2 by lia. change 255%Z with (Z.ones 8).
    rewrite Z.land_ones by lia. change (2 ^ 16)%Z with 65536%Z.
    change (2 ^ 8)%Z with 256%Z. Z.div_mod_to_equations. lia. }
  assert (Eb : Z.land (Z.shiftr (a * 65536 + b * 256 + c) 8) 255 = b).
  { rewrite Z.shiftr_div_pow2 by lia. change 255%Z with (Z.ones 8).
    rewrite Z.land_ones by lia. change (2 ^ 8)%Z with 256%Z.
    Z.div_mod_to_equations. lia. }
  assert (Ec : Z.land (Z.shiftr (a * 65536 + b * 256 + c) 0) 255 = c).
  { rewrite Z.shiftr_0_r. change 255%Z with (Z.ones 8).
    rewrite Z.land_ones by lia. change (2 ^ 8)%Z with 256%Z.
    Z.div_mod_to_equations. lia. }
  unfold Color_setHex, hexChannel. rewrite Ea, Eb, Ec. reflexivity.
Qed.

End Colours.

(** *** The two-pass shape shared by both focus effects *)

Section FocusProtocol.

Import Three.

(** The look of a material: what the highlight changes and the reset
    puts back. *)
Definition look (m : Material) : Color * option Q :=
  (emissive m, emissiveIntensity m).

Definition lookAt (st : Store) (j : nat) : option (Color * option Q) :=
  match st !! j with
  | Some (Standard m) => Some (look m)
  | _ => None
  end.

(** A standard material exactly as its constructor leaves it. *)
Definition material (hex : Z) (intensity : Q) : Material :=
  {| emissive := Color_setHex hex; emissiveIntensity := Some intensity;
     origE := None; origEI := None |}.

(** A store entry as scene construction leaves it: nothing cached, a
    numeric intensity, and an emissive colour that a hex value denotes. *)
Definition Fresh (am : AnyMaterial) : Prop :=
  match am with
  | Standard m =>
      origE m = None /\ origEI m = None
      /\ Color_setHex (Color_getHex (emissive m)) = emissive m
      /\ is_Some (emissiveIntensity m)
  | Unlit => True
  end.

Lemma Fresh_material m :
  Fresh (Standard m) -> exists hex intensity, m = material hex intensity.
Proof.
  destruct m as [e ei oe oei]. simpl. intros (-> & -> & He & [i ->]).
  exists (Color_getHex e), i. unfold material. rewrite He. reflexivity.
Qed.

Lemma material_Fresh hex intensity : Fresh (Standard (material hex intensity)).
Proof.
  unfold Fresh, material. cbn [origE origEI emissive emissiveIntensity].
  split; [reflexivity|]. split; [reflexivity|].
  split; [apply setHex_getHex_setHex | eexists; reflexivity].
Qed.

(** The same, as a check that runs on a concrete store. *)
Definition sameQ (a b : Q) : bool :=
  Z.eqb (Qnum a) (Qnum b) && Pos.eqb (Qden a) (Qden b).

Definition freshb (am : AnyMaterial) : bool :=
  match am with
  | Standard m =>
      match origE m, origEI m, emissiveIntensity m with
      | None, None, Some _ =>
          let c := Color_setHex (Color_getHex (emissive m)) in
          sameQ (r c) (r (emissive m)) && sameQ (g c) (g (emissive m))
          && sameQ (b c) (b (emissive m))
      | _, _, _ => false
      end
  | Unlit => true
  end.

Lemma sameQ_eq a b : sameQ a b = true -> a = b.
Proof.
  destruct a as [an ad], b as [bn bd]. unfold sameQ. simpl.
  intros H. apply andb_true_iff in H. destruct H as [Hn Hd].
  apply Z.eqb_eq in Hn. apply Pos.eqb_eq in Hd. congruence.
Qed.

Lemma freshb_sound st : forallb freshb st = true -> Forall Fresh st.
Proof.
  intros H. apply Forall_forall. intros am Hin.
  rewrite forallb_forall in H. apply list_elem_of_In in Hin. specialize (H am Hin).
  destruct am as [m|]; [|exact I]. unfold freshb in H. unfold Fresh.
  destruct (origE m); [discriminate|]. destruct (origEI m); [discriminate|].
  destruct (emissiveIntensity m) as [i|]; [|discriminate].
  cbv zeta in H.
  apply andb_true_iff in H. destruct H as [H Hb].
  apply andb_true_iff in H. destruct H as [Hr Hg].
  apply sameQ_eq in Hr, Hg, Hb.
  split; [reflexivity|]. split; [reflexivity|]. split; [|eexists; reflexivity].
  revert Hr Hg Hb. generalize (Color_setHex (Color_getHex (emissive m))).
  intros [cr cg cb]. destruct (emissive m) as [er eg eb].
  cbn [r g b]. intros -> -> ->. reflexivity.
Qed.

(** [m] is a later state of the material built as [m0]: either untouched,
    or with the original look cached in its [userData]. *)
Definition tracks (m0 m : Material) : Prop :=
  m = m0
  \/ (origE m = Some (Color_getHex (emissive m0))
      /\ origEI m = emissiveIntensity m0).

Variables restore highlight : Material -> Material.

(** The look [highlight] gives to a material built as [m0]. *)
Variable lit : Material -> Color * option Q.

Hypothesis restore_idem : forall m, restore (restore m) = restore m.
Hypothesis highlight_idem : forall m, highlight (highlight m) = highlight m.
Hypothesis highlight_restore :
  forall m, highlight (restore (highlight m)) = highlight m.
Hypothesis restore_tracks :
  forall hex i m, tracks (material hex i) m ->
    tracks (material hex i) (restore m)
    /\ look (restore m) = look (material hex i).
Hypothesis highlight_tracks :
  forall hex i m, tracks (material hex i) m ->
    tracks (material hex i) (highlight m)
    /\ look (highlight m) = lit (material hex i).

(** Reset every material in [all], then highlight those in [target]. *)
Definition focusOn (all : list nat) (target : option (list nat)) (st : Store) : Store :=
  let st1 := forEachMaterial restore all st in
  match target with
  | Some ids => forEachMaterial highlight ids st1
  | None => st1
  end.

Lemma forEachMaterial_lookup (f : Material -> Material) ids (st : Store) j :
  (forall m, f (f m) = f m) ->
  forEachMaterial f ids st !! j
  = if decide (j ∈ ids) then onStandard f <$> st !! j else st !! j.
Proof.
  intros Hidem. unfold forEachMaterial. revert st.
  induction ids as [|i ids IH]; intros st; cbn [foldl].
  - destruct (decide (j ∈ [])) as [H|H]; [inversion H | reflexivity].
  - rewrite IH. destruct (decide (i = j)) as [->|Hne].
    + rewrite list_lookup_alter_eq.
      destruct (decide (j ∈ j :: ids)) as [_|H]; [|exfalso; apply H; left].
      destruct (decide (j ∈ ids)); [|reflexivity].
      destruct (st !! j) as [[m|]|]; simpl; [rewrite Hidem|..]; reflexivity.
    + rewrite list_lookup_alter_ne by assumption.
      destruct (decide (j ∈ ids)) as [H|H];
        destruct (decide (j ∈ i :: ids)) as [H'|H']; try reflexivity.
      * exfalso. apply H'. right. assumption.
      * exfalso. apply elem_of_cons in H'. destruct H' as [->|H']; contradiction.
Qed.

Lemma forEachMaterial_length (f : Material -> Material) ids (st : Store) :
  length (forEachMaterial f ids st) = length st.
Proof.
  unfold forEachMaterial. revert st.
  induction ids as [|i ids IH]; intros st; cbn [foldl]; [reflexivity|].
  rewrite IH. apply length_alter.
Qed.

(** Visiting the groups one after the other is one pass over all their
    materials. *)
Lemma forEachMaterial_groups {G} (f : Material -> Material) (ids : G -> list nat)
  (groups : list G) (st : Store) :
  foldl (fun s g => forEachMaterial f (ids g) s) st groups
  = forEachMaterial f (flat_map ids groups) st.
Proof.
  revert st. induction groups as [|g groups IH]; intros st; simpl; [reflexivity|].
  rewrite IH. unfold forEachMaterial. rewrite foldl_app. reflexivity.
Qed.

Lemma focusOn_lookup all target st j :
  focusOn all target st !! j
  = let o := if decide (j ∈ all) then onStandard restore <$> st !! j else st !! j in
    match target with
    | Some ids => if decide (j ∈ ids) then onStandard highlight <$> o else o
    | None => o
    end.
Proof.
  unfold focusOn. destruct target as [ids|]; simpl.
  - rewrite forEachMaterial_lookup by assumption.
    rewrite forEachMaterial_lookup by assumption. reflexivity.
  - apply forEachMaterial_lookup. assumption.
Qed.

(** Applying the same focus twice is the same as applying it once. *)
Lemma focusOn_twice all target st :
  (forall ids j, target = Some ids -> j ∈ ids -> j ∈ all) ->
  focusOn all target (focusOn all target st) = focusOn all target st.
Proof.
  intros Hsub. apply list_eq. intros j.
  rewrite !focusOn_lookup. simpl.
  destruct target as [ids|].
  - destruct (decide (j ∈ ids)) as [Hin|Hout].
    + destruct (decide (j ∈ all)) as [_|Hall]; [|exfalso; eauto].
      destruct (st !! j) as [[m|]|]; simpl; [|reflexivity..].
      rewrite highlight_restore. reflexivity.
    + destruct (decide (j ∈ all)); [|reflexivity].
      destruct (st !! j) as [[m|]|]; simpl; [|reflexivity..].
      rewrite restore_idem. reflexivity.
  - destruct (decide (j ∈ all)); [|reflexivity].
    destruct (st !! j) as [[m|]|]; simpl; [|reflexivity..].
    rewrite restore_idem. reflexivity.
Qed.

(** [st] is a later state of the store built as [st0]: same layout, each
    standard material a later state of the one built, and nothing cached
    outside the materials the effect resets. *)
Definition evolved (all : list nat) (st0 st : Store) : Prop :=
  forall j,
    match st0 !! j with
    | Some (Standard m0) =>
        exists m, st !! j = Some (Standard m) /\ tracks m0 m
                  /\ (j ∈ all \/ m = m0)
    | other => st !! j = other
    end.

Lemma evolved_refl all st0 : evolved all st0 st0.
Proof.
  intros j. destruct (st0 !! j) as [[m0|]|]; [|reflexivity..].
  exists m0. split; [reflexivity|]. split; [left; reflexivity | right; reflexivity].
Qed.

(** One focus change, from any later state of a freshly built store. *)
Lemma focusOn_step all target st0 st :
  Forall Fresh st0 -> evolved all st0 st ->
  (forall ids j, target = Some ids -> j ∈ ids -> j ∈ all) ->
  evolved all st0 (focusOn all target st)
  /\ forall j m0, st0 !! j = Some (Standard m0) ->
       lookAt (focusOn all target st) j
       = Some (match target with
               | Some ids => if decide (j ∈ ids) then lit m0 else look m0
               | None => look m0
               end).
Proof.
  intros Hfresh Hev Hsub.
  assert (Hpoint : forall j m0, st0 !! j = Some (Standard m0) ->
    exists m, focusOn all target st !! j = Some (Standard m) /\ tracks m0 m
      /\ (j ∈ all \/ m = m0)
      /\ look m = match target with
                  | Some ids => if decide (j ∈ ids) then lit m0 else look m0
                  | None => look m0
                  end).
  { intros j m0 Hj. pose proof (Hev j) as Hevj. rewrite Hj in Hevj.
    destruct Hevj as (m & Hm & Htr & Hwhere).
    assert (Hf : Fresh (Standard m0)).
    { rewrite Forall_forall in Hfresh. apply Hfresh.
      apply list_elem_of_lookup. exists j. exact Hj. }
    destruct (Fresh_material m0 Hf) as (hex & i & ->).
    rewrite focusOn_lookup, Hm. simpl.
    assert (Hbase : exists m1,
      (if decide (j ∈ all) then Some (Standard (restore m)) else Some (Standard m))
        = Some (Standard m1)
      /\ tracks (material hex i) m1 /\ (j ∈ all \/ m1 = material hex i)
      /\ look m1 = look (material hex i)).
    { destruct (decide (j ∈ all)) as [Hall|Hall].
      - exists (restore m). destruct (restore_tracks hex i m Htr) as [T L].
        repeat split; [exact T | left; exact Hall | exact L].
      - destruct Hwhere as [Hc | ->]; [contradiction|].
        exists (material hex i). repeat split; [left; reflexivity | right; reflexivity]. }
    destruct Hbase as (m1 & E1 & T1 & W1 & L1). rewrite E1.
    destruct target as [ids|]; [|exists m1; auto].
    destruct (decide (j ∈ ids)) as [Hin|Hout]; [|exists m1; auto].
    simpl. exists (highlight m1). destruct (highlight_tracks hex i m1 T1) as [T L].
    repeat split; [exact T | left; eauto | exact L]. }
  split.
  - intros j. destruct (st0 !! j) as [[m0|]|] eqn:Hj.
    + destruct (Hpoint j m0 Hj) as (m & Hm & Htr & Hw & _). exists m. auto.
    + pose proof (Hev j) as Hevj. rewrite Hj in Hevj.
      rewrite focusOn_lookup, Hevj. simpl.
      destruct (decide (j ∈ all)); destruct target as [ids|]; simpl;
        try destruct (decide (j ∈ ids)); reflexivity.
    + pose proof (Hev j) as Hevj. rewrite Hj in Hevj.
      rewrite focusOn_lookup, Hevj. simpl.
      destruct (decide (j ∈ all)); destruct target as [ids|]; simpl;
        try destruct (decide (j ∈ ids)); reflexivity.
  - intros j m0 Hj. destruct (Hpoint j m0 Hj) as (m & Hm & _ & _ & L).
    unfold lookAt. rewrite Hm, L. reflexivity.
Qed.

Lemma focusOn_sequence_evolved all (targets : list (option (list nat))) st0 :
  Forall Fresh st0 ->
  (forall t ids j, t ∈ targets -> t = Some ids -> j ∈ ids -> j ∈ all) ->
  evolved all st0 (foldl (fun s t => focusOn all t s) st0 targets).
Proof.
  intros Hfresh Hts. induction targets as [|t targets IH] using rev_ind.
  - apply evolved_refl.
  - rewrite foldl_snoc. apply focusOn_step; [exact Hfresh | |].
    + apply IH. intros t' ids k Ht'. apply Hts. apply elem_of_app. left. exact Ht'.
    + intros ids k Ht. apply (Hts t ids k); [|exact Ht].
      apply elem_of_app. right. apply list_elem_of_singleton. reflexivity.
Qed.

(** Any sequence of focus changes, seen from its last one: a material of
    the target has the highlighted look computed from its original, every
    other material has its original look. *)
Lemma focusOn_sequence all (targets : list (option (list nat)))
  (target : option (list nat)) st0 :
  Forall Fresh st0 ->
  (forall t ids j, t ∈ target :: targets -> t = Some ids -> j ∈ ids -> j ∈ all) ->
  forall j m0, st0 !! j = Some (Standard m0) ->
    lookAt (foldl (fun s t => focusOn all t s) st0 (targets ++ [target])) j
    = Some (match target with
            | Some ids => if decide (j ∈ ids) then lit m0 else look m0
            | None => look m0
            end).
Proof.
  intros Hfresh Hsub j m0 Hj. rewrite foldl_snoc.
  assert (Hev : evolved all st0 (foldl (fun s t => focusOn all t s) st0 targets)).
  { apply focusOn_sequence_evolved; [exact Hfresh|].
    intros t ids k Ht. apply Hsub. right. exact Ht. }
  assert (Hlast : forall ids k, target = Some ids -> k ∈ ids -> k ∈ all).
  { intros ids k Ht. apply (Hsub target ids k); [left | exact Ht]. }
  destruct (focusOn_step all target st0 _ Hfresh Hev Hlast) as [_ H].
  apply H, Hj.
Qed.

(** Entries that are not standard materials never change. *)
Lemma focusOn_sequence_other all (targets : list (option (list nat))) st0 j :
  Forall Fresh st0 ->
  (forall t ids j, t ∈ targets -> t = Some ids -> j ∈ ids -> j ∈ all) ->
  (forall m0, st0 !! j <> Some (Standard m0)) ->
  lookAt (foldl (fun s t => focusOn all t s) st0 targets) j = lookAt st0 j.
Proof.
  intros Hfresh Hts Hj.
  pose proof (focusOn_sequence_evolved all targets st0 Hfresh Hts j) as Hev.
  unfold lookAt. destruct (st0 !! j) as [[m0|]|].
  - exfalso. apply (Hj m0). reflexivity.
  - rewrite Hev. reflexivity.
  - rewrite Hev. reflexivity.
Qed.

(** A material outside the target has its original look. *)
Lemma focusOn_sequence_untouched all (targets : list (option (list nat)))
  (target : option (list nat)) st0 j :
  Forall Fresh st0 ->
  (forall t ids j, t ∈ target :: targets -> t = Some ids -> j ∈ ids -> j ∈ all) ->
  (forall ids, target = Some ids -> j ∉ ids) ->
  lookAt (foldl (fun s t => focusOn all t s) st0 (targets ++ [target])) j
  = lookAt st0 j.
Proof.
  intros Hfresh Hsub Hout.
  destruct (st0 !! j) as [[m0|]|] eqn:Hj.
  - rewrite (focusOn_sequence all targets target st0 Hfresh Hsub j m0 Hj).
    unfold lookAt. rewrite Hj. destruct target as [ids|]; [|reflexivity].
    destruct (decide (j ∈ ids)) as [Hin|_]; [|reflexivity].
    exfalso. apply (Hout ids); [reflexivity | exact Hin].
  - apply focusOn_sequence_other; [exact Hfresh | |].
    + intros t ids k Ht. apply Hsub. apply elem_of_app in Ht.
      destruct Ht as [Ht|Ht]; [right; exact Ht|].
      apply list_elem_of_singleton in Ht. subst t. left.
    + intros m0. rewrite Hj. discriminate.
  - apply focusOn_sequence_other; [exact Hfresh | |].
    + intros t ids k Ht. apply Hsub. apply elem_of_app in Ht.
      destruct Ht as [Ht|Ht]; [right; exact Ht|].
      apply list_elem_of_singleton in Ht. subst t. left.
    + intros m0. rewrite Hj. discriminate.
Qed.

(** *** Focus keys and the groups they resolve to *)

(** A group carries a highlight when one of its materials does not have
    its original look. *)
Definition highlighted (st0 st : Store) (ids : list nat) : Prop :=
  exists j, j ∈ ids /\ lookAt st j <> lookAt st0 j.

(** No material belongs to two groups. *)
Definition exclusive (groups : list (list nat)) : Prop :=
  forall i1 i2 g1 g2 j,
    groups !! i1 = Some g1 -> groups !! i2 = Some g2 ->
    j ∈ g1 -> j ∈ g2 -> i1 = i2.

Fixpoint exclusiveb (groups : list (list nat)) : bool :=
  match groups with
  | [] => true
  | g :: rest =>
      forallb (fun j => forallb (fun g' => negb (existsb (Nat.eqb j) g')) rest) g
      && exclusiveb rest
  end.

Lemma exclusiveb_sound groups : exclusiveb groups = true -> exclusive groups.
Proof.
  induction groups as [|g rest IH]; intros Hb i1 i2 g1 g2 j H1 H2 J1 J2.
  - inversion H1.
  - simpl in Hb. apply andb_true_iff in Hb. destruct Hb as [Hhead Hrest].
    assert (Hsep : forall n g', rest !! n = Some g' -> j ∈ g -> j ∈ g' -> False).
    { intros n g' Hn Jg Jg'. rewrite forallb_forall in Hhead.
      apply list_elem_of_In in Jg. specialize (Hhead j Jg).
      rewrite forallb_forall in Hhead.
      assert (Hg' : In g' rest).
      { apply list_elem_of_In, list_elem_of_lookup. exists n. exact Hn. }
      specialize (Hhead g' Hg'). apply negb_true_iff in Hhead.
      assert (Hex : existsb (Nat.eqb j) g' = true).
      { apply existsb_exists. exists j. split; [|apply Nat.eqb_refl].
        apply list_elem_of_In. exact Jg'. }
      congruence. }
    destruct i1 as [|i1], i2 as [|i2]; simpl in H1, H2.
    + reflexivity.
    + injection H1 as <-. exfalso. eapply Hsep; eassumption.
    + injection H2 as <-. exfalso. eapply Hsep; eassumption.
    + f_equal. eapply IH; eassumption.
Qed.

Section Groups.

Context {G : Type} (key : G -> string) (ids : G -> list nat).

(** [focus && groups.find(g => g.key === focus)], reduced to the materials
    of the group found. *)
Definition resolve (groups : list G) (focus : option string) : option (list nat) :=
  match focus with
  | Some k =>
      if String.eqb k "" then None
      else ids <$> List.find (fun g => String.eqb (key g) k) groups
  | None => None
  end.

Lemma resolve_found groups focus l :
  resolve groups focus = Some l ->
  exists t g, groups !! t = Some g /\ l = ids g /\ focus = Some (key g).
Proof.
  unfold resolve. destruct focus as [k|]; [|discriminate].
  destruct (String.eqb k ""); [discriminate|].
  destruct (List.find _ groups) as [g|] eqn:Hf; [|discriminate].
  simpl. intros [= <-]. apply find_some in Hf. destruct Hf as [Hin Hk].
  apply String.eqb_eq in Hk. subst k.
  apply list_elem_of_In, list_elem_of_lookup in Hin. destruct Hin as [t Ht].
  exists t, g. auto.
Qed.

Lemma resolve_sub groups focus l j :
  resolve groups focus = Some l -> j ∈ l -> j ∈ flat_map ids groups.
Proof.
  intros Hr Hj. destruct (resolve_found groups focus l Hr) as (t & g & Ht & -> & _).
  apply list_elem_of_In, in_flat_map. exists g. split.
  - apply list_elem_of_In, list_elem_of_lookup. exists t. exact Ht.
  - apply list_elem_of_In. exact Hj.
Qed.

(** The focus effect of a component, over its groups. *)
Definition applyFocus (groups : list G) (focus : option string) (st : Store) : Store :=
  focusOn (flat_map ids groups) (resolve groups focus) st.

Lemma applyFocus_sequence groups (ks : list (option string)) st0 :
  foldl (fun s k => applyFocus groups k s) st0 ks
  = foldl (fun s t => focusOn (flat_map ids groups) t s) st0 (resolve groups <$> ks).
Proof.
  revert st0. induction ks as [|k ks IH]; intros st0; simpl; [reflexivity|].
  rewrite IH. reflexivity.
Qed.

Lemma resolve_all_sub groups (ks : list (option string)) t l j :
  t ∈ (resolve groups <$> ks) -> t = Some l -> j ∈ l -> j ∈ flat_map ids groups.
Proof.
  intros Ht -> Hj. apply list_elem_of_fmap in Ht. destruct Ht as (k & Hk & _).
  eapply resolve_sub; [symmetry; exact Hk | exact Hj].
Qed.

(** After any sequence of focus changes, a group whose key is not the
    last focus has every material at its original look. *)
Lemma applyFocus_others_original groups (ks : list (option string)) k st0 i g j :
  Forall Fresh st0 -> exclusive (ids <$> groups) ->
  groups !! i = Some g -> k <> Some (key g) -> j ∈ ids g ->
  lookAt (foldl (fun s k => applyFocus groups k s) st0 (ks ++ [k])) j = lookAt st0 j.
Proof.
  intros Hfresh Hex Hi Hk Hj.
  rewrite applyFocus_sequence, fmap_app. simpl.
  apply focusOn_sequence_untouched; [exact Hfresh | |].
  - intros t l n Ht. apply elem_of_cons in Ht. destruct Ht as [->|Ht].
    + apply resolve_sub.
    + eapply resolve_all_sub. exact Ht.
  - intros l Hr Hin. destruct (resolve_found groups k l Hr) as (t & gt & Ht & -> & Hkey).
    assert (E : i = t).
    { apply (Hex i t (ids g) (ids gt) j); try assumption.
      - rewrite list_lookup_fmap, Hi. reflexivity.
      - rewrite list_lookup_fmap, Ht. reflexivity. }
    subst t. rewrite Hi in Ht. injection Ht as <-. contradiction.
Qed.

(** After any sequence of focus changes, at most one group is highlighted. *)
Lemma applyFocus_at_most_one groups (ks : list (option string)) k st0 i1 i2 g1 g2 :
  Forall Fresh st0 -> exclusive (ids <$> groups) ->
  groups !! i1 = Some g1 -> groups !! i2 = Some g2 ->
  highlighted st0 (foldl (fun s k => applyFocus groups k s) st0 (ks ++ [k])) (ids g1) ->
  highlighted st0 (foldl (fun s k => applyFocus groups k s) st0 (ks ++ [k])) (ids g2) ->
  i1 = i2.
Proof.
  intros Hfresh Hex H1 H2 (j1 & J1 & L1) (j2 & J2 & L2).
  destruct (resolve groups k) as [l|] eqn:Hr.
  - destruct (resolve_found groups k l Hr) as (t & gt & Ht & -> & _).
    assert (In1 : j1 ∈ ids gt).
    { destruct (decide (j1 ∈ ids gt)) as [H|H]; [exact H|]. exfalso. apply L1.
      rewrite applyFocus_sequence, fmap_app. simpl.
      apply focusOn_sequence_untouched; [exact Hfresh | |].
      - intros t' l n Ht'. apply elem_of_cons in Ht'. destruct Ht' as [->|Ht'].
        + apply resolve_sub.
        + eapply resolve_all_sub. exact Ht'.
      - intros l. rewrite Hr. intros [= <-]. exact H. }
    assert (In2 : j2 ∈ ids gt).
    { destruct (decide (j2 ∈ ids gt)) as [H|H]; [exact H|]. exfalso. apply L2.
      rewrite applyFocus_sequence, fmap_app. simpl.
      apply focusOn_sequence_untouched; [exact Hfresh | |].
      - intros t' l n Ht'. apply elem_of_cons in Ht'. destruct Ht' as [->|Ht'].
        + apply resolve_sub.
        + eapply resolve_all_sub. exact Ht'.
      - intros l. rewrite Hr. intros [= <-]. exact H. }
    transitivity t.
    + apply (Hex i1 t (ids g1) (ids gt) j1); try assumption;
        rewrite list_lookup_fmap; [rewrite H1 | rewrite Ht]; reflexivity.
    + symmetry. apply (Hex i2 t (ids g2) (ids gt) j2); try assumption;
        rewrite list_lookup_fmap; [rewrite H2 | rewrite Ht]; reflexivity.
  - exfalso. apply L1.
    rewrite applyFocus_sequence, fmap_app. simpl.
    apply focusOn_sequence_untouched; [exact Hfresh | |].
    + intros t' l n Ht'. apply elem_of_cons in Ht'. destruct Ht' as [->|Ht'].
      * apply resolve_sub.
      * eapply resolve_all_sub. exact Ht'.
    + intros l. rewrite Hr. discriminate.
Qed.

(** The look of the group the last focus resolved to. *)
Lemma applyFocus_target_lit groups (ks : list (option string)) k st0 l j m0 :
  Forall Fresh st0 -> resolve groups k = Some l -> j ∈ l ->
  st0 !! j = Some (Standard m0) ->
  lookAt (foldl (fun s k => applyFocus groups k s) st0 (ks ++ [k])) j = Some (lit m0).
Proof.
  intros Hfresh Hr Hj Hm.
  rewrite applyFocus_sequence, fmap_app. simpl.
  rewrite (focusOn_sequence (flat_map ids groups) (resolve groups <$> ks)
             (resolve groups k) st0 Hfresh) with (m0 := m0); [| |exact Hm].
  - rewrite Hr. destruct (decide (j ∈ l)); [reflexivity | contradiction].
  - intros t l' n Ht. apply elem_of_cons in Ht. destruct Ht as [->|Ht].
    + apply resolve_sub.
    + eapply resolve_all_sub. exact Ht.
Qed.

Lemma applyFocus_twice groups k st :
  applyFocus groups k (applyFocus groups k st) = applyFocus groups k st.
Proof.
  unfold applyFocus. apply focusOn_twice.
  intros l j Hr Hj. eapply resolve_sub; eassumption.
Qed.

End Groups.

End FocusProtocol.

(** *** The two components *)

Section FocusInstances.

Import Three.
Local Open Scope Q_scope.

(** The highlighted look in the assembly scene: the original colour moved
    65% of the way to the highlight hue, the original intensity plus 0.25
    but at most 0.75. *)
Definition assemblyLit (cm : ColorManagement) (m0 : Material) : Color * option Q :=
  (Color_lerp cm (emissive m0) (Color_setHex AssemblyExplodedScene.highlightHex)
     (65#100),
   Some (Qmin (default (3#10) (emissiveIntensity m0) + (25#100)) (75#100))).

(** The highlighted look in the dashboard: the fixed hue at intensity 1.2. *)
Definition dashboardLit (m0 : Material) : Color * option Q :=
  (Color_setHex 0x1d86d5, Some (12#10)).

Lemma assembly_restore_idem m :
  AssemblyExplodedScene.restore (AssemblyExplodedScene.restore m)
  = AssemblyExplodedScene.restore m.
Proof.
  unfold AssemblyExplodedScene.restore. destruct m as [e ei [oe|] oei]; reflexivity.
Qed.

Lemma assembly_highlight_idem cm m :
  AssemblyExplodedScene.highlight cm (AssemblyExplodedScene.highlight cm m)
  = AssemblyExplodedScene.highlight cm m.
Proof.
  unfold AssemblyExplodedScene.highlight, AssemblyExplodedScene.capture.
  destruct m as [e ei [oe|] oei]; reflexivity.
Qed.

Lemma assembly_highlight_restore cm m :
  AssemblyExplodedScene.highlight cm
    (AssemblyExplodedScene.restore (AssemblyExplodedScene.highlight cm m))
  = AssemblyExplodedScene.highlight cm m.
Proof.
  unfold AssemblyExplodedScene.highlight, AssemblyExplodedScene.restore,
    AssemblyExplodedScene.capture.
  destruct m as [e ei [oe|] oei]; reflexivity.
Qed.

Lemma assembly_restore_tracks hex i m :
  tracks (material hex i) m ->
  tracks (material hex i) (AssemblyExplodedScene.restore m)
  /\ look (AssemblyExplodedScene.restore m) = look (material hex i).
Proof.
  intros [->|[HE HI]].
  - split; [left|]; reflexivity.
  - unfold AssemblyExplodedScene.restore. rewrite HE. split.
    + right. simpl. split; first [reflexivity | exact HE | exact HI].
    + unfold look. simpl. rewrite setHex_getHex_setHex, HI. reflexivity.
Qed.

Lemma assembly_highlight_tracks cm hex i m :
  tracks (material hex i) m ->
  tracks (material hex i) (AssemblyExplodedScene.highlight cm m)
  /\ look (AssemblyExplodedScene.highlight cm m) = assemblyLit cm (material hex i).
Proof.
  intros [->|[HE HI]].
  - split.
    + right. simpl. split; reflexivity.
    + unfold look, assemblyLit. simpl. rewrite setHex_getHex_setHex. reflexivity.
  - unfold AssemblyExplodedScene.highlight, AssemblyExplodedScene.capture.
    rewrite HE. split.
    + right. simpl. split; first [reflexivity | exact HE | exact HI].
    + unfold look, assemblyLit. simpl. rewrite HE, HI. simpl.
      rewrite setHex_getHex_setHex. reflexivity.
Qed.

Lemma dashboard_restore_idem m :
  ThreeDashboard.restore (ThreeDashboard.restore m) = ThreeDashboard.restore m.
Proof.
  unfold ThreeDashboard.restore. destruct m as [e ei [oe|] [oei|]]; reflexivity.
Qed.

Lemma dashboard_highlight_idem m :
  ThreeDashboard.highlight (ThreeDashboard.highlight m) = ThreeDashboard.highlight m.
Proof.
  unfold ThreeDashboard.highlight, ThreeDashboard.capture.
  destruct m as [e ei [oe|] oei]; reflexivity.
Qed.

Lemma dashboard_highlight_restore m :
  ThreeDashboard.highlight (ThreeDashboard.restore (ThreeDashboard.highlight m))
  = ThreeDashboard.highlight m.
Proof.
  unfold ThreeDashboard.highlight, ThreeDashboard.restore, ThreeDashboard.capture.
  destruct m as [e ei [oe|] [oei|]]; reflexivity.
Qed.

Lemma dashboard_restore_tracks hex i m :
  tracks (material hex i) m ->
  tracks (material hex i) (ThreeDashboard.restore m)
  /\ look (ThreeDashboard.restore m) = look (material hex i).
Proof.
  intros [->|[HE HI]].
  - split; [left|]; reflexivity.
  - unfold ThreeDashboard.restore. rewrite HE. split.
    + right. simpl. split; first [reflexivity | exact HE | exact HI].
    + unfold look. simpl. rewrite setHex_getHex_setHex, HI. reflexivity.
Qed.

Lemma dashboard_highlight_tracks hex i m :
  tracks (material hex i) m ->
  tracks (material hex i) (ThreeDashboard.highlight m)
  /\ look (ThreeDashboard.highlight m) = dashboardLit (material hex i).
Proof.
  intros [->|[HE HI]].
  - split; [right; simpl; split|]; reflexivity.
  - unfold ThreeDashboard.highlight, ThreeDashboard.capture.
    rewrite HE. split; [|reflexivity].
    right. simpl. split; first [reflexivity | exact HE | exact HI].
Qed.

(** The materials a part reaches. *)
Definition partMaterials (p : AssemblyExplodedScene.Part) : list nat :=
  traverse (AssemblyExplodedScene.group p).

Lemma assembly_focusEffect_applyFocus cm parts focus st :
  AssemblyExplodedScene.focusEffect cm parts focus st
  = applyFocus AssemblyExplodedScene.restore (AssemblyExplodedScene.highlight cm)
               AssemblyExplodedScene.key partMaterials parts focus st.
Proof.
  unfold AssemblyExplodedScene.focusEffect, applyFocus, focusOn, resolve,
    AssemblyExplodedScene.truthy.
  rewrite (forEachMaterial_groups AssemblyExplodedScene.restore partMaterials).
  destruct focus as [k|]; [|reflexivity].
  destruct (String.eqb k ""); [reflexivity|].
  destruct (List.find _ parts); reflexivity.
Qed.

Lemma dashboard_focusEffect_applyFocus sets focus st :
  ThreeDashboard.focusEffect sets focus st
  = applyFocus ThreeDashboard.restore ThreeDashboard.highlight
               ThreeDashboard.key ThreeDashboard.setMaterials sets focus st.
Proof.
  unfold ThreeDashboard.focusEffect, applyFocus, focusOn, resolve,
    ThreeDashboard.truthy.
  destruct sets as [|s0 sets'] eqn:E.
  - simpl. destruct focus as [k|]; [|reflexivity].
    destruct (String.eqb k ""); reflexivity.
  - rewrite <- E.
    rewrite (forEachMaterial_groups ThreeDashboard.restore ThreeDashboard.setMaterials).
    destruct focus as [k|]; [|reflexivity].
    destruct (String.eqb k ""); [reflexivity|].
    destruct (List.find _ sets); reflexivity.
Qed.

Lemma assembly_sequence cm parts ks st :
  foldl (fun s k => AssemblyExplodedScene.focusEffect cm parts k s) st ks
  = foldl (fun s k => applyFocus AssemblyExplodedScene.restore
                        (AssemblyExplodedScene.highlight cm) AssemblyExplodedScene.key
                        partMaterials parts k s) st ks.
Proof.
  revert st. induction ks as [|k ks IH]; intros st; simpl; [reflexivity|].
  rewrite IH, assembly_focusEffect_applyFocus. reflexivity.
Qed.

Lemma dashboard_sequence sets ks st :
  foldl (fun s k => ThreeDashboard.focusEffect sets k s) st ks
  = foldl (fun s k => applyFocus ThreeDashboard.restore ThreeDashboard.highlight
                        ThreeDashboard.key ThreeDashboard.setMaterials sets k s) st ks.
Proof.
  revert st. induction ks as [|k ks IH]; intros st; simpl; [reflexivity|].
  rewrite IH, dashboard_focusEffect_applyFocus. reflexivity.
Qed.

End FocusInstances.

(** *** Focus changes on the two scenes *)

(** C2.  Take any sequence of focus changes, with known or unknown keys or
    [null], applied to a freshly built scene whose parts share no material.
    After the last change [k]: at most one part (or highlight set) has a
    material that does not look as it did when built; and every part whose
    key is not [k] has each of its materials at exactly the emissive colour
    and intensity it was built with.  So after [null], or after a key no
    part carries, nothing is highlighted, and a part highlighted earlier is
    back to its original look.  Both effects are total functions: an
    unknown key raises nothing. *)
Theorem focus_sequence_single_highlight (cm : Three.ColorManagement)
  (parts : list AssemblyExplodedScene.Part) (sets : list ThreeDashboard.HighlightSet)
  (stA stD : Three.Store) (ks : list (option string)) (k : option string) :
  Forall Fresh stA -> Forall Fresh stD ->
  exclusive (partMaterials <$> parts) ->
  exclusive (ThreeDashboard.setMaterials <$> sets) ->
  let a := foldl (fun s f => AssemblyExplodedScene.focusEffect cm parts f s) stA
                 (ks ++ [k]) in
  let d := foldl (fun s f => ThreeDashboard.focusEffect sets f s) stD (ks ++ [k]) in
  (forall i1 i2 p1 p2,
      parts !! i1 = Some p1 -> parts !! i2 = Some p2 ->
      highlighted stA a (partMaterials p1) -> highlighted stA a (partMaterials p2) ->
      i1 = i2)
  /\ (forall i p j,
      parts !! i = Some p -> k <> Some (AssemblyExplodedScene.key p) ->
      j ∈ partMaterials p -> lookAt a j = lookAt stA j)
  /\ (forall i1 i2 s1 s2,
      sets !! i1 = Some s1 -> sets !! i2 = Some s2 ->
      highlighted stD d (ThreeDashboard.setMaterials s1) ->
      highlighted stD d (ThreeDashboard.setMaterials s2) ->
      i1 = i2)
  /\ (forall i s j,
      sets !! i = Some s -> k <> Some (ThreeDashboard.key s) ->
      j ∈ ThreeDashboard.setMaterials s -> lookAt d j = lookAt stD j).
Proof.
  intros HfA HfD HxA HxD a d. subst a d.
  rewrite assembly_sequence, dashboard_sequence.
  split; [|split; [|split]].
  - intros i1 i2 p1 p2.
    apply (applyFocus_at_most_one _ _ (assemblyLit cm) assembly_restore_idem
             (assembly_highlight_idem cm) assembly_restore_tracks
             (assembly_highlight_tracks cm) _ _ parts ks k stA i1 i2 p1 p2 HfA HxA).
  - intros i p j.
    apply (applyFocus_others_original _ _ (assemblyLit cm) assembly_restore_idem
             (assembly_highlight_idem cm) assembly_restore_tracks
             (assembly_highlight_tracks cm) _ _ parts ks k stA i p j HfA HxA).
  - intros i1 i2 s1 s2.
    apply (applyFocus_at_most_one _ _ dashboardLit dashboard_restore_idem
             dashboard_highlight_idem dashboard_restore_tracks
             dashboard_highlight_tracks _ _ sets ks k stD i1 i2 s1 s2 HfD HxD).
  - intros i s j.
    apply (applyFocus_others_original _ _ dashboardLit dashboard_restore_idem
             dashboard_highlight_idem dashboard_restore_tracks
             dashboard_highlight_tracks _ _ sets ks k stD i s j HfD HxD).
Qed.

Lemma assembly_scene_fresh : Forall Fresh AssemblyExplodedScene.materials.
Proof. apply freshb_sound. vm_compute. reflexivity. Qed.

Lemma assembly_scene_exclusive :
  exclusive (partMaterials <$> AssemblyExplodedScene.parts).
Proof. apply exclusiveb_sound. vm_compute. reflexivity. Qed.

Lemma dashboard_sets_fresh : Forall Fresh ThreeDashboard.flareAndPipelinesMaterials.
Proof. apply freshb_sound. vm_compute. reflexivity. Qed.

Lemma dashboard_sets_exclusive :
  exclusive (ThreeDashboard.setMaterials <$> ThreeDashboard.flareAndPipelines).
Proof. apply exclusiveb_sound. vm_compute. reflexivity. Qed.

Lemma focus_sequence_single_highlight_witness :
  Forall Fresh AssemblyExplodedScene.materials
  /\ Forall Fresh ThreeDashboard.flareAndPipelinesMaterials
  /\ exclusive (partMaterials <$> AssemblyExplodedScene.parts)
  /\ exclusive (ThreeDashboard.setMaterials <$> ThreeDashboard.flareAndPipelines)
  /\ lookAt (foldl (fun s f => AssemblyExplodedScene.focusEffect Three.unmanaged
                                 AssemblyExplodedScene.parts f s)
                   AssemblyExplodedScene.materials
                   ([Some "motor"%string; Some "ghost"%string] ++ [None])) 9
     = lookAt AssemblyExplodedScene.materials 9.
Proof.
  split; [exact assembly_scene_fresh|]. split; [exact dashboard_sets_fresh|].
  split; [exact assembly_scene_exclusive|]. split; [exact dashboard_sets_exclusive|].
  destruct (AssemblyExplodedScene.parts !! 1%nat) as [p|] eqn:Hp;
    [|vm_compute in Hp; discriminate].
  apply (focus_sequence_single_highlight Three.unmanaged AssemblyExplodedScene.parts
           ThreeDashboard.flareAndPipelines AssemblyExplodedScene.materials
           ThreeDashboard.flareAndPipelinesMaterials
           [Some "motor"%string; Some "ghost"%string] None
           assembly_scene_fresh dashboard_sets_fresh
           assembly_scene_exclusive dashboard_sets_exclusive) with (i := 1%nat) (p := p).
  - exact Hp.
  - discriminate.
  - vm_compute in Hp. injection Hp as <-.
    apply (bool_decide_unpack _). vm_compute. exact I.
Defined.

Section HighlightLook.

Import Three.
Local Open Scope Q_scope.

Lemma Qmin_bump (i : Q) :
  Qmin (i + (25#100)) (75#100) <= 75#100
  /\ Qmin (i + (25#100)) (75#100) - i <= 25#100.
Proof.
  split; [apply Q.le_min_r|].
  apply Qle_trans with (i + (25#100) - i).
  - apply Qplus_le_l. apply Q.le_min_l.
  - apply Qle_lteq. right. ring.
Qed.

(** A channel whose 255-fold lies within half a unit of [k] reads as
    byte [k]. *)
Lemma toByte_window (v : Q) (k : Z) :
  (0 <= k <= 255)%Z ->
  inject_Z k - (1#2) <= v * 255 -> v * 255 < inject_Z k + (1#2) -> toByte v = k.
Proof.
  intros Hk Hlo Hhi. unfold toByte, Math_round, clamp.
  assert (H0 : 0 <= inject_Z k) by (change 0 with (inject_Z 0); rewrite <- Zle_Qle; lia).
  assert (H255 : inject_Z k <= 255)
    by (change 255 with (inject_Z 255); rewrite <- Zle_Qle; lia).
  set (c := Qmax 0 (Qmin 255 (v * 255))).
  assert (Hc : inject_Z k - (1#2) <= c /\ c < inject_Z k + (1#2)).
  { unfold c.
    destruct (Q.min_spec 255 (v * 255)) as [[C E]|[C E]];
      destruct (Q.max_spec 0 (Qmin 255 (v * 255))) as [[C' E']|[C' E']];
      rewrite E'; rewrite ?E; rewrite ?E in C'; split; Lqa.lra. }
  destruct Hc as [Hc1 Hc2]. apply Z.le_antisymm.
  - assert (H : (Qfloor (c + (1#2)) < k + 1)%Z).
    { rewrite Zlt_Qlt. eapply Qle_lt_trans; [apply Qfloor_le|].
      rewrite inject_Z_plus. change (inject_Z 1) with 1. Lqa.lra. }
    lia.
  - rewrite <- (Qfloor_Z k). apply Qfloor_resp_le. Lqa.lra.
Qed.

(** What is asked of the transfer functions to read the motor's highlight:
    the encoding grows with the linear value; the decoding takes, at the
    bytes of the motor's emissive 0x3e2500 and of the hue 0xffa640, the
    values of the sRGB curve to four places; and the encoding, on either
    side of each of the three blends, those of its inverse to three. *)
Record sRGBSamples (cm : ColorManagement) : Prop := {
  encode_grows : forall x y, x <= y -> LinearToSRGB cm x <= LinearToSRGB cm y;
  decode_3e : (481#10000) <= SRGBToLinear cm (hexChannel 0x3e2500 16) <= (482#10000);
  decode_25 : (184#10000) <= SRGBToLinear cm (hexChannel 0x3e2500 8) <= (186#10000);
  decode_00 : SRGBToLinear cm (hexChannel 0x3e2500 0) == 0;
  decode_ff : SRGBToLinear cm (hexChannel 0xffa640 16) == 1;
  decode_a6 : (3813#10000) <= SRGBToLinear cm (hexChannel 0xffa640 8) <= (3814#10000);
  decode_40 : (512#10000) <= SRGBToLinear cm (hexChannel 0xffa640 0) <= (513#10000);
  encode_red : (836#1000) <= LinearToSRGB cm (6668#10000)
               /\ LinearToSRGB cm (6669#10000) <= (837#1000);
  encode_green : (541#1000) <= LinearToSRGB cm (2542#10000)
                 /\ LinearToSRGB cm (2545#10000) <= (542#1000);
  encode_blue : (200#1000) <= LinearToSRGB cm (332#10000)
                /\ LinearToSRGB cm (334#10000) <= (201#1000)
}.

(** With such transfer functions the motor's emissive, 0x3e2500 as built,
    reads 0xd58a33 once highlighted. *)
Lemma motor_highlight_hex (cm : ColorManagement) (m0 : Material) :
  sRGBSamples cm ->
  AssemblyExplodedScene.accent = Standard m0 ->
  Color_getHex (emissive (AssemblyExplodedScene.highlight cm m0)) = 0xd58a33%Z.
Proof.
  intros [Hmono H3e H25 H00 Hff Ha6 H40 [Hr1 Hr2] [Hg1 Hg2] [Hb1 Hb2]] Hm.
  injection Hm as <-.
  unfold AssemblyExplodedScene.highlight, AssemblyExplodedScene.capture.
  cbn [origE emissive default from_option]. unfold Datatypes.id.
  rewrite setHex_getHex_setHex.
  unfold AssemblyExplodedScene.highlightHex, Color_getHex, Color_lerp, lerpChannel.
  cbn [r g b Color_setHex].
  set (o16 := SRGBToLinear cm (hexChannel 0x3e2500 16)) in *.
  set (o8 := SRGBToLinear cm (hexChannel 0x3e2500 8)) in *.
  set (o0 := SRGBToLinear cm (hexChannel 0x3e2500 0)) in *.
  set (h16 := SRGBToLinear cm (hexChannel 0xffa640 16)) in *.
  set (h8 := SRGBToLinear cm (hexChannel 0xffa640 8)) in *.
  set (h0 := SRGBToLinear cm (hexChannel 0xffa640 0)) in *.
  assert (Er : toByte (LinearToSRGB cm (o16 + (h16 - o16) * (65#100))) = 0xd5%Z).
  { pose proof (Hmono (6668#10000) (o16 + (h16 - o16) * (65#100))) as L1.
    pose proof (Hmono (o16 + (h16 - o16) * (65#100)) (6669#10000)) as L2.
    apply toByte_window; [lia | |].
    - assert (G : (6668#10000) <= o16 + (h16 - o16) * (65#100)) by Lqa.lra.
      specialize (L1 G). change (inject_Z 213) with 213. Lqa.lra.
    - assert (G : o16 + (h16 - o16) * (65#100) <= (6669#10000)) by Lqa.lra.
      specialize (L2 G). change (inject_Z 213) with 213. Lqa.lra. }
  assert (Eg : toByte (LinearToSRGB cm (o8 + (h8 - o8) * (65#100))) = 0x8a%Z).
  { pose proof (Hmono (2542#10000) (o8 + (h8 - o8) * (65#100))) as L1.
    pose proof (Hmono (o8 + (h8 - o8) * (65#100)) (2545#10000)) as L2.
    apply toByte_window; [lia | |].
    - assert (G : (2542#10000) <= o8 + (h8 - o8) * (65#100)) by Lqa.lra.
      specialize (L1 G). change (inject_Z 138) with 138. Lqa.lra.
    - assert (G : o8 + (h8 - o8) * (65#100) <= (2545#10000)) by Lqa.lra.
      specialize (L2 G). change (inject_Z 138) with 138. Lqa.lra. }
  assert (Eb : toByte (LinearToSRGB cm (o0 + (h0 - o0) * (65#100))) = 0x33%Z).
  { pose proof (Hmono (332#10000) (o0 + (h0 - o0) * (65#100))) as L1.
    pose proof (Hmono (o0 + (h0 - o0) * (65#100)) (334#10000)) as L2.
    apply toByte_window; [lia | |].
    - assert (G : (332#10000) <= o0 + (h0 - o0) * (65#100)) by Lqa.lra.
      specialize (L1 G). change (inject_Z 51) with 51. Lqa.lra.
    - assert (G : o0 + (h0 - o0) * (65#100) <= (334#10000)) by Lqa.lra.
      specialize (L2 G). change (inject_Z 51) with 51. Lqa.lra. }
  rewrite Er, Eg, Eb. reflexivity.
Qed.

(** C6 (amended).  After a focus change to a key that resolves to a part,
    from a freshly built scene and whatever focus changes came before:
    in the assembly scene each material of the part has its original
    emissive colour moved 65% of the way to the hue 0xffa640, the blend
    being made on the linear values of the channels (each channel of the
    result is the sRGB encoding of a linear value that is 0.35 of the
    original's plus 0.65 of the hue's), and the intensity
    [min(original + 0.25, 0.75)], which is at most 0.75 and at most 0.25
    above the original; in the dashboard each material of the set has the
    emissive colour 0x1d86d5 itself and the intensity 1.2, whatever it was
    built with.  In both scenes, applying the same focus twice gives the
    same store as applying it once. *)
Theorem highlight_look_and_idempotence (cm : ColorManagement)
  (parts : list AssemblyExplodedScene.Part) (sets : list ThreeDashboard.HighlightSet)
  (stA stD : Store) (ks : list (option string)) (focus : string) :
  Forall Fresh stA -> Forall Fresh stD ->
  let a := foldl (fun s f => AssemblyExplodedScene.focusEffect cm parts f s) stA
                 (ks ++ [Some focus]) in
  let d := foldl (fun s f => ThreeDashboard.focusEffect sets f s) stD
                 (ks ++ [Some focus]) in
  (forall p j m0 i0,
      focus <> ""%string ->
      List.find (fun p => String.eqb (AssemblyExplodedScene.key p) focus) parts = Some p ->
      j ∈ partMaterials p ->
      stA !! j = Some (Standard m0) -> emissiveIntensity m0 = Some i0 ->
      lookAt a j
      = Some (Color_lerp cm (emissive m0) (Color_setHex 0xffa640) (65#100),
              Some (Qmin (i0 + (25#100)) (75#100))))
  /\ (forall c hue, exists lr lg lb : Q,
        Color_lerp cm c hue (65#100)
        = {| r := LinearToSRGB cm lr; g := LinearToSRGB cm lg; b := LinearToSRGB cm lb |}
        /\ lr == (35#100) * SRGBToLinear cm (r c) + (65#100) * SRGBToLinear cm (r hue)
        /\ lg == (35#100) * SRGBToLinear cm (g c) + (65#100) * SRGBToLinear cm (g hue)
        /\ lb == (35#100) * SRGBToLinear cm (b c) + (65#100) * SRGBToLinear cm (b hue))
  /\ (forall i0, Qmin (i0 + (25#100)) (75#100) <= 75#100
              /\ Qmin (i0 + (25#100)) (75#100) - i0 <= 25#100)
  /\ (forall s j m0,
      focus <> ""%string ->
      List.find (fun s => String.eqb (ThreeDashboard.key s) focus) sets = Some s ->
      j ∈ ThreeDashboard.setMaterials s ->
      stD !! j = Some (Standard m0) ->
      lookAt d j = Some (Color_setHex 0x1d86d5, Some (12#10)))
  /\ (forall k st,
      AssemblyExplodedScene.focusEffect cm parts k
        (AssemblyExplodedScene.focusEffect cm parts k st)
      = AssemblyExplodedScene.focusEffect cm parts k st)
  /\ (forall k st,
      ThreeDashboard.focusEffect sets k (ThreeDashboard.focusEffect sets k st)
      = ThreeDashboard.focusEffect sets k st).
Proof.
  intros HfA HfD a d. subst a d.
  rewrite assembly_sequence, dashboard_sequence.
  split; [|split; [|split; [|split; [|split]]]].
  - intros p j m0 i0 Hne Hfind Hj Hm Hi.
    assert (Hr : resolve AssemblyExplodedScene.key partMaterials parts (Some focus)
                 = Some (partMaterials p)).
    { unfold resolve. destruct (String.eqb_spec focus ""); [contradiction|].
      rewrite Hfind. reflexivity. }
    rewrite (applyFocus_target_lit _ _ (assemblyLit cm) assembly_restore_idem
               (assembly_highlight_idem cm) assembly_restore_tracks
               (assembly_highlight_tracks cm) _ _ parts ks (Some focus) stA
               (partMaterials p) j m0 HfA Hr Hj Hm).
    unfold assemblyLit. rewrite Hi. reflexivity.
  - intros c hue. unfold Color_lerp, lerpChannel.
    eexists _, _, _. split; [reflexivity|]. repeat split; ring.
  - apply Qmin_bump.
  - intros s j m0 Hne Hfind Hj Hm.
    assert (Hr : resolve ThreeDashboard.key ThreeDashboard.setMaterials sets (Some focus)
                 = Some (ThreeDashboard.setMaterials s)).
    { unfold resolve. destruct (String.eqb_spec focus ""); [contradiction|].
      rewrite Hfind. reflexivity. }
    rewrite (applyFocus_target_lit _ _ dashboardLit dashboard_restore_idem
               dashboard_highlight_idem dashboard_restore_tracks
               dashboard_highlight_tracks _ _ sets ks (Some focus) stD
               (ThreeDashboard.setMaterials s) j m0 HfD Hr Hj Hm).
    reflexivity.
  - intros k st. rewrite !assembly_focusEffect_applyFocus.
    apply applyFocus_twice;
      [apply assembly_restore_idem | apply assembly_highlight_idem
       | apply assembly_highlight_restore].
  - intros k st. rewrite !dashboard_focusEffect_applyFocus.
    apply applyFocus_twice;
      [apply dashboard_restore_idem | apply dashboard_highlight_idem
       | apply dashboard_highlight_restore].
Qed.

End HighlightLook.

Lemma highlight_look_and_idempotence_witness :
  Forall Fresh AssemblyExplodedScene.materials
  /\ Forall Fresh ThreeDashboard.flareAndPipelinesMaterials
  /\ lookAt (ThreeDashboard.focusEffect ThreeDashboard.flareAndPipelines
               (Some "pipelines"%string)
               (ThreeDashboard.focusEffect ThreeDashboard.flareAndPipelines
                  (Some "flare"%string) ThreeDashboard.flareAndPipelinesMaterials)) 4
     = Some (Three.Color_setHex 0x1d86d5, Some (12#10)).
Proof.
  split; [exact assembly_scene_fresh|]. split; [exact dashboard_sets_fresh|].
  destruct (ThreeDashboard.flareAndPipelines !! 1%nat) as [s|] eqn:Hs;
    [|vm_compute in Hs; discriminate].
  destruct (ThreeDashboard.flareAndPipelinesMaterials !! 4%nat) as [[m0|]|] eqn:Hm;
    [|vm_compute in Hm; discriminate..].
  apply (highlight_look_and_idempotence Three.unmanaged AssemblyExplodedScene.parts
           ThreeDashboard.flareAndPipelines AssemblyExplodedScene.materials
           ThreeDashboard.flareAndPipelinesMaterials
           [Some "flare"%string] "pipelines"%string
           assembly_scene_fresh dashboard_sets_fresh) with (s := s) (m0 := m0).
  - discriminate.
  - vm_compute in Hs. injection Hs as <-. reflexivity.
  - vm_compute in Hs. injection Hs as <-.
    apply (bool_decide_unpack _). vm_compute. exact I.
  - exact Hm.
Defined.

(** C6 as stated fails on the dashboard.  Focusing the flare there gives
    the stack's material, built black at intensity 1, the highlight hue
    itself at intensity 1.2.  A blend of black toward that hue with a
    weight below 1 holds another linear red than the hue's, whatever
    transfer functions it is made through, as long as they tell the two
    reds apart. *)
Lemma dashboard_highlight_replaces_colour :
  lookAt ThreeDashboard.flareAndPipelinesMaterials 0
    = Some (Three.Color_setHex 0x000000, Some 1%Q)
  /\ lookAt (ThreeDashboard.focusEffect ThreeDashboard.flareAndPipelines
               (Some "flare"%string) ThreeDashboard.flareAndPipelinesMaterials) 0
     = Some (Three.Color_setHex 0x1d86d5, Some (12#10))
  /\ (forall (cm : Three.ColorManagement) (alpha : Q),
        (alpha < 1)%Q ->
        ~ (Three.SRGBToLinear cm (Three.r (Three.Color_setHex 0x1d86d5))
           == Three.SRGBToLinear cm (Three.r (Three.Color_setHex 0x000000)))%Q ->
        exists held : Q,
          Three.r (Three.Color_lerp cm (Three.Color_setHex 0x000000)
                     (Three.Color_setHex 0x1d86d5) alpha)
          = Three.LinearToSRGB cm held
          /\ ~ (held == Three.SRGBToLinear cm (Three.r (Three.Color_setHex 0x1d86d5)))%Q).
Proof.
  split; [vm_compute; reflexivity|]. split; [vm_compute; reflexivity|].
  intros cm alpha Hlt Hapart.
  unfold Three.Color_lerp, Three.lerpChannel. cbn [Three.r].
  set (h := Three.SRGBToLinear cm (Three.r (Three.Color_setHex 0x1d86d5))) in *.
  set (o := Three.SRGBToLinear cm (Three.r (Three.Color_setHex 0x000000))) in *.
  exists (o + (h - o) * alpha)%Q. split; [reflexivity|]. intros E.
  assert (Hz : ((h - o) * (alpha - 1) == 0)%Q).
  { setoid_replace ((h - o) * (alpha - 1))%Q with (o + (h - o) * alpha - h)%Q
      using relation Qeq by ring.
    rewrite E. ring. }
  apply Qmult_integral in Hz. destruct Hz as [Hz|Hz].
  - apply Hapart. setoid_replace h with (h - o + o)%Q using relation Qeq by ring.
    rewrite Hz. ring.
  - assert (Ha : (alpha == 1)%Q).
    { setoid_replace alpha with (alpha - 1 + 1)%Q using relation Qeq by ring.
      rewrite Hz. reflexivity. }
    rewrite Ha in Hlt. discriminate.
Qed.

(** ** Explode and assemble *)

Section Tweens.

Import Three Gsap.
Local Open Scope Q_scope.

(** What one ticker step does to a single tween and the position it
    drives. *)
Definition stepTween (dt : Q) (tw : Tween) (v : Vector3) : option Tween * Vector3 :=
  let t1 := time tw + dt in
  if Qlt_le_dec t1 (delay tw) then
    (Some {| target := target tw; to := to tw; duration := duration tw;
             delay := delay tw; time := t1; from := from tw |}, v)
  else
    let start := match from tw with Some s => s | None => v end in
    let tw1 := {| target := target tw; to := to tw; duration := duration tw;
                  delay := delay tw; time := t1; from := Some start |} in
    (if Qlt_le_dec (progress tw1) 1 then Some tw1 else None,
     interpolate start (to tw) (power3_inOut (progress tw1))).

(** The tween driving part [i], if one is alive. *)
Definition tweenOf (i : nat) (tl : Timeline) : option (nat * Tween) :=
  List.find (fun e => Nat.eqb (target e.2) i) tl.

Definition targets (tl : Timeline) : list nat := (fun e => target e.2) <$> tl.

Lemma tweenOf_none i tl : i ∉ targets tl -> tweenOf i tl = None.
Proof.
  induction tl as [|[id tw] tl IH]; intros H; [reflexivity|].
  unfold targets in H. rewrite fmap_cons in H. apply not_elem_of_cons in H.
  destruct H as [Hne Hrest]. unfold tweenOf. simpl. simpl in Hne.
  destruct (Nat.eqb_spec (target tw) i) as [E|_]; [congruence|].
  apply IH, Hrest.
Qed.

Lemma tweenOf_in i tl e : tweenOf i tl = Some e -> e ∈ tl /\ target e.2 = i.
Proof.
  unfold tweenOf. intros H. apply find_some in H. destruct H as [Hin E].
  apply Nat.eqb_eq in E. split; [apply list_elem_of_In, Hin | exact E].
Qed.

(** Tweens are only ever advanced or dropped by a step: ids, targets and
    goals stay. *)
Lemma tick_keeps dt tl pos e' :
  e' ∈ (tick dt tl pos).1 ->
  exists e, e ∈ tl /\ e.1 = e'.1 /\ target e.2 = target e'.2 /\ to e.2 = to e'.2
            /\ delay e.2 = delay e'.2 /\ duration e.2 = duration e'.2.
Proof.
  revert pos. induction tl as [|[id tw] tl IH]; intros pos H; [inversion H|].
  cbn [tick] in H.
  destruct (Qlt_le_dec (time tw + dt) (delay tw)).
  - destruct (tick dt tl pos) as [rest' pos'] eqn:E. cbn [fst] in H.
    apply elem_of_cons in H. destruct H as [->|H].
    + exists (id, tw). split; [left|]. simpl. auto.
    + specialize (IH pos). rewrite E in IH. destruct (IH H) as (e & He & Hrest).
      exists e. split; [right; exact He | exact Hrest].
  - match type of H with context [tick dt tl ?p] =>
      destruct (tick dt tl p) as [rest' pos'] eqn:E; specialize (IH p) end.
    rewrite E in IH.
    match type of H with context [Qlt_le_dec ?a 1] => destruct (Qlt_le_dec a 1) end;
      cbn [fst] in H.
    + apply elem_of_cons in H. destruct H as [->|H].
      * exists (id, tw). split; [left|]. simpl. auto.
      * destruct (IH H) as (e & He & Hrest).
        exists e. split; [right; exact He | exact Hrest].
    + destruct (IH H) as (e & He & Hrest).
      exists e. split; [right; exact He | exact Hrest].
Qed.

Lemma tick_length dt tl pos : length (tick dt tl pos).2 = length pos.
Proof.
  revert pos. induction tl as [|[id tw] tl IH]; intros pos; [reflexivity|].
  cbn [tick]. destruct (Qlt_le_dec (time tw + dt) (delay tw)).
  - specialize (IH pos). destruct (tick dt tl pos). exact IH.
  - match goal with |- context [tick dt tl ?p] =>
      specialize (IH p); destruct (tick dt tl p) end.
    cbn [snd] in IH. rewrite length_insert in IH.
    match goal with |- context [Qlt_le_dec ?a 1] => destruct (Qlt_le_dec a 1) end;
      exact IH.
Qed.

Lemma tick_targets dt tl pos i :
  i ∈ targets (tick dt tl pos).1 -> i ∈ targets tl.
Proof.
  unfold targets. intros H. apply list_elem_of_fmap in H.
  destruct H as (e' & -> & He'). destruct (tick_keeps dt tl pos e' He') as (e & He & _ & Ht & _).
  rewrite <- Ht. apply list_elem_of_fmap. exists e. split; [reflexivity | exact He].
Qed.

Lemma tick_NoDup dt tl pos : NoDup (targets tl) -> NoDup (targets (tick dt tl pos).1).
Proof.
  revert pos. induction tl as [|[id tw] tl IH]; intros pos Hnd; [constructor|].
  unfold targets in Hnd. rewrite fmap_cons in Hnd. apply NoDup_cons in Hnd.
  destruct Hnd as [Hout Hnd]. cbn [tick].
  destruct (Qlt_le_dec (time tw + dt) (delay tw)).
  - pose proof (IH pos Hnd) as IHp. pose proof (tick_targets dt tl pos) as Ht.
    destruct (tick dt tl pos) as [rest' pos']. cbn [fst] in *.
    unfold targets. rewrite fmap_cons. apply NoDup_cons. split; [|exact IHp].
    intros Hin. apply Hout. apply Ht. exact Hin.
  - match goal with |- context [tick dt tl ?p] =>
      pose proof (IH p Hnd) as IHp; pose proof (tick_targets dt tl p) as Ht;
      destruct (tick dt tl p) as [rest' pos'] end.
    cbn [fst] in *.
    match goal with |- context [Qlt_le_dec ?a 1] => destruct (Qlt_le_dec a 1) end;
      cbn [fst]; [|exact IHp].
    unfold targets. rewrite fmap_cons. apply NoDup_cons. split; [|exact IHp].
    intros Hin. apply Hout. apply Ht. exact Hin.
Qed.

(** A part no tween drives is left where it is. *)
Lemma tick_untouched dt tl pos i :
  i ∉ targets tl -> (tick dt tl pos).2 !! i = pos !! i.
Proof.
  revert pos. induction tl as [|[id tw] tl IH]; intros pos H; [reflexivity|].
  unfold targets in H. rewrite fmap_cons in H. apply not_elem_of_cons in H.
  destruct H as [Hne Hrest]. cbn [tick]. cbn [snd] in Hne.
  destruct (Qlt_le_dec (time tw + dt) (delay tw)).
  - specialize (IH pos Hrest). destruct (tick dt tl pos). exact IH.
  - match goal with |- context [tick dt tl ?p] =>
      specialize (IH p Hrest); destruct (tick dt tl p) end.
    cbn [snd] in IH. rewrite list_lookup_insert_ne in IH by congruence.
    match goal with |- context [Qlt_le_dec ?a 1] => destruct (Qlt_le_dec a 1) end;
      exact IH.
Qed.

(** With one tween per part, a ticker step acts on each part by
    [stepTween], independently of the others. *)
Lemma tick_project dt tl pos i v :
  NoDup (targets tl) -> pos !! i = Some v ->
  match tweenOf i tl with
  | Some (id, tw) =>
      tweenOf i (tick dt tl pos).1 = (fun tw' => (id, tw')) <$> (stepTween dt tw v).1
      /\ (tick dt tl pos).2 !! i = Some (stepTween dt tw v).2
  | None =>
      tweenOf i (tick dt tl pos).1 = None /\ (tick dt tl pos).2 !! i = Some v
  end.
Proof.
  revert pos. induction tl as [|[id tw] tl IH]; intros pos Hnd Hv.
  - simpl. auto.
  - unfold targets in Hnd. rewrite fmap_cons in Hnd. apply NoDup_cons in Hnd.
    destruct Hnd as [Hout Hnd]. cbn [snd] in Hout.
    unfold tweenOf at 1. cbn [List.find snd].
    destruct (Nat.eqb_spec (target tw) i) as [Ei|Ei].
    + (* this tween drives part [i]; no later one does *)
      subst i. cbn [tick]. unfold stepTween.
      destruct (Qlt_le_dec (time tw + dt) (delay tw)).
      * pose proof (tick_untouched dt tl pos (target tw) Hout) as Hu.
        destruct (tick dt tl pos) as [rest' pos']. cbn [fst snd] in *.
        split; [|rewrite Hu; exact Hv].
        unfold tweenOf. cbn [List.find snd target]. rewrite Nat.eqb_refl. reflexivity.
      * rewrite Hv. cbn [default from_option]. unfold Datatypes.id.
        match goal with |- context [tick dt tl ?p] =>
          pose proof (tick_untouched dt tl p (target tw) Hout) as Hu;
          pose proof (tick_targets dt tl p (target tw)) as Ht;
          destruct (tick dt tl p) as [rest' pos'] end.
        cbn [fst snd] in *.
        rewrite list_lookup_insert_eq in Hu
          by (apply lookup_lt_is_Some; eexists; exact Hv).
        match goal with |- context [Qlt_le_dec ?a 1] => destruct (Qlt_le_dec a 1) end;
          cbn [fst snd].
        -- split; [|exact Hu].
           unfold tweenOf. cbn [List.find snd target]. rewrite Nat.eqb_refl. reflexivity.
        -- split; [|exact Hu]. apply tweenOf_none. intros Hin. apply Hout, Ht, Hin.
    + (* another part's tween: it does not touch part [i] *)
      fold (tweenOf i tl). cbn [tick].
      destruct (Qlt_le_dec (time tw + dt) (delay tw)).
      * specialize (IH pos Hnd Hv). destruct (tick dt tl pos) as [rest' pos'].
        cbn [fst snd] in *.
        assert (Hskip : forall tw0, tweenOf i ((id, tw0) :: rest') = tweenOf i rest'
                                    \/ target tw0 = i).
        { intros tw0. unfold tweenOf. cbn [List.find snd].
          destruct (Nat.eqb_spec (target tw0) i); [right; assumption | left; reflexivity]. }
        match goal with |- context [tweenOf i ((id, ?t) :: rest')] =>
          destruct (Hskip t) as [-> | Hbad]; [exact IH | cbn [target] in Hbad; contradiction]
        end.
      * assert (Hv' : forall w, <[target tw := w]> pos !! i = Some v).
        { intros w. rewrite list_lookup_insert_ne by exact Ei. exact Hv. }
        match goal with |- context [tick dt tl (<[_ := ?w]> pos)] =>
          specialize (IH (<[target tw := w]> pos) Hnd (Hv' w));
          destruct (tick dt tl (<[target tw := w]> pos)) as [rest' pos'] end.
        cbn [fst snd] in *.
        match goal with |- context [Qlt_le_dec ?a 1] => destruct (Qlt_le_dec a 1) end;
          cbn [fst snd]; [|exact IH].
        assert (Hskip : forall tw0, target tw0 = target tw ->
                                    tweenOf i ((id, tw0) :: rest') = tweenOf i rest').
        { intros tw0 E0. unfold tweenOf. cbn [List.find snd]. rewrite E0.
          destruct (Nat.eqb_spec (target tw) i); [contradiction | reflexivity]. }
        rewrite Hskip by reflexivity. exact IH.
Qed.

End Tweens.

Section OnePart.

Import Three Gsap AssemblyToggle.
Local Open Scope Q_scope.

Lemma power3_inOut_end (p : Q) : p == 1 -> power3_inOut p == 1.
Proof.
  intros E. unfold power3_inOut. destruct (Qlt_le_dec p (1#2)) as [Hlt|_].
  - rewrite E in Hlt. discriminate.
  - rewrite E. reflexivity.
Qed.

Lemma interpolate_end (s e : Vector3) (ratio : Q) :
  ratio == 1 -> Vector3_eq (interpolate s e ratio) e.
Proof.
  intros E. unfold Vector3_eq, interpolate. cbn [x y z].
  rewrite E. repeat split; ring.
Qed.

Lemma progress_below (tw : Tween) :
  0 < duration tw -> progress tw < 1 -> time tw - delay tw < duration tw.
Proof.
  intros Hd Hp. unfold progress in Hp.
  destruct (Qlt_le_dec ((time tw - delay tw) / duration tw) 1) as [Hlt|Hge].
  - assert (Hne : ~ duration tw == 0).
    { intros E. rewrite E in Hd. discriminate. }
    assert (G : (time tw - delay tw) / duration tw * duration tw < 1 * duration tw)
      by (apply Qmult_lt_r; assumption).
    assert (E : (time tw - delay tw) / duration tw * duration tw == time tw - delay tw)
      by (field; exact Hne).
    rewrite E, Qmult_1_l in G. exact G.
  - rewrite Q.min_l in Hp by exact Hge. discriminate.
Qed.

Lemma progress_done (tw : Tween) : 1 <= progress tw -> progress tw == 1.
Proof.
  intros H. apply Qle_antisym; [apply Q.le_min_l | exact H].
Qed.

(** The state of one part after a toggle made at position [v0], [e]
    seconds ago: either its tween is alive, not yet played to the end, and
    starts (or started) from [v0]; or the tween is gone and the part sits
    at the goal. *)
Definition underway (v0 goal : Vector3) (d e : Q) (o : option Tween) (v : Vector3)
  : Prop :=
  match o with
  | Some tw =>
      to tw = goal /\ delay tw = d /\ duration tw = dur /\ time tw = e
      /\ e - d < dur
      /\ match from tw with Some s => s = v0 | None => v = v0 end
  | None => Vector3_eq v goal
  end.

Lemma stepTween_underway v0 goal d e dt tw v :
  underway v0 goal d e (Some tw) v ->
  underway v0 goal d (e + dt) (stepTween dt tw v).1 (stepTween dt tw v).2.
Proof.
  intros (Hto & Hdelay & Hdur & Htime & Hlive & Hfrom). unfold stepTween.
  destruct (Qlt_le_dec (time tw + dt) (delay tw)) as [Hwait|Hgo]; cbn [fst snd].
  - cbn [underway to delay duration time from].
    repeat split; try assumption; [rewrite Htime; reflexivity|].
    rewrite Htime, Hdelay in Hwait. unfold dur. Lqa.lra.
  - assert (Hstart : match from tw with Some s => s | None => v end = v0).
    { destruct (from tw); assumption. }
    rewrite Hstart.
    match goal with |- context [Qlt_le_dec (progress ?t) 1] =>
      set (tw1 := t); destruct (Qlt_le_dec (progress tw1) 1) as [Hp|Hp] end;
      cbn [fst snd underway].
    + subst tw1. cbn [to delay duration time from].
      repeat split; try assumption; [rewrite Htime; reflexivity|].
      apply progress_below in Hp; [|cbn [duration]; rewrite Hdur; reflexivity].
      cbn [duration time delay] in Hp. rewrite Hdur, Hdelay, Htime in Hp. exact Hp.
    + rewrite Hto. apply interpolate_end, power3_inOut_end, progress_done, Hp.
Qed.

(** A part followed through a run of ticker steps. *)
Definition partStep (s : option Tween * Vector3) (dt : Q) : option Tween * Vector3 :=
  match s.1 with
  | Some tw => stepTween dt tw s.2
  | None => s
  end.

Definition total (dts : list Q) : Q := foldl Qplus 0 dts.

Lemma partStep_underway v0 goal d e dt s :
  underway v0 goal d e s.1 s.2 ->
  underway v0 goal d (e + dt) (partStep s dt).1 (partStep s dt).2.
Proof.
  destruct s as [[tw|] v]; unfold partStep; cbn [fst snd].
  - apply stepTween_underway.
  - intros H. exact H.
Qed.

Lemma underway_finished v0 goal d e o v :
  underway v0 goal d e o v -> d + dur <= e -> o = None /\ Vector3_eq v goal.
Proof.
  destruct o as [tw|]; cbn [underway].
  - intros (_ & _ & _ & _ & Hlive & _) Hlate. exfalso.
    Lqa.lra.
  - intros H _. split; [reflexivity | exact H].
Qed.

End OnePart.

Section Toggle.

Import Three Gsap AssemblyExplodedScene AssemblyToggle.
Local Open Scope Q_scope.

Variable parts : list Part.

Lemma kill_in id tl e : e ∈ kill id tl <-> e ∈ tl /\ e.1 <> id.
Proof.
  unfold kill. rewrite !list_elem_of_In, filter_In, negb_true_iff, Nat.eqb_neq.
  reflexivity.
Qed.

(** Killing every tween of a list of ids leaves none of them. *)
Lemma killAll_in ids tl e :
  e ∈ foldl (fun tl id => kill id tl) tl ids -> e ∈ tl /\ e.1 ∉ ids.
Proof.
  revert tl. induction ids as [|id ids IH]; intros tl H; cbn [foldl] in H.
  - split; [exact H | apply not_elem_of_nil].
  - apply IH in H. destruct H as [H Hout]. apply kill_in in H. destruct H as [H Hne].
    split; [exact H|]. apply not_elem_of_cons. split; assumption.
Qed.

(** The tweens alive are among those [assemblingRef] remembers. *)
Definition remembered (s : State) : Prop :=
  forall e, e ∈ timeline s -> e.1 ∈ default [] (assemblingRef s).

Lemma killAll_remembered s :
  remembered s ->
  foldl (fun tl id => kill id tl) (timeline s) (default [] (assemblingRef s)) = [].
Proof.
  intros H. apply elem_of_nil_inv. intros e He.
  apply killAll_in in He. destruct He as [He Hout]. apply Hout, H, He.
Qed.

(** The tweens one toggle makes. *)
Definition tweenFor (exploded : bool) (p : Part) (i : nat) : Tween :=
  {| target := i; to := restPos (negb exploded) p; duration := dur;
     delay := inject_Z (Z.of_nat i) * (8#100); time := 0; from := None |}.

Lemma makeTweens_lookup exploded ps k id e :
  e ∈ makeTweens exploded ps k id <->
  exists j p, ps !! j = Some p
              /\ e = ((id + j)%nat, tweenFor exploded p (k + j)%nat).
Proof.
  revert k id. induction ps as [|p ps IH]; intros k id; cbn [makeTweens].
  - split; [intros H; inversion H | intros (j & q & H & _); inversion H].
  - rewrite elem_of_cons, IH. split.
    + intros [->|(j & q & Hj & ->)].
      * exists 0%nat, p. split; [reflexivity|].
        rewrite !Nat.add_0_r. unfold tweenFor, restPos. destruct exploded; reflexivity.
      * exists (S j), q. split; [exact Hj|].
        rewrite !Nat.add_succ_r. reflexivity.
    + intros (j & q & Hj & ->). destruct j as [|j].
      * left. injection Hj as <-. rewrite !Nat.add_0_r.
        unfold tweenFor, restPos. destruct exploded; reflexivity.
      * right. exists j, q. split; [exact Hj|].
        rewrite !Nat.add_succ_r. reflexivity.
Qed.

Lemma makeTweens_targets exploded ps k id :
  targets (makeTweens exploded ps k id) = seq k (length ps).
Proof.
  revert k id. induction ps as [|p ps IH]; intros k id; [reflexivity|].
  cbn [makeTweens length seq]. unfold targets in *. rewrite fmap_cons.
  cbn [snd target]. f_equal. apply IH.
Qed.

Lemma makeTweens_ids exploded ps k id :
  List.map fst (makeTweens exploded ps k id) = seq id (length ps).
Proof.
  revert k id. induction ps as [|p ps IH]; intros k id; [reflexivity|].
  cbn [makeTweens length seq List.map fst]. f_equal. apply IH.
Qed.

(** With one tween per part, a tween is found under its own target. *)
Lemma tweenOf_unique tl e :
  NoDup (targets tl) -> e ∈ tl -> tweenOf (target e.2) tl = Some e.
Proof.
  induction tl as [|[id tw] tl IH]; intros Hnd He; [inversion He|].
  unfold targets in Hnd. rewrite fmap_cons in Hnd. apply NoDup_cons in Hnd.
  destruct Hnd as [Hout Hnd]. cbn [snd] in Hout.
  unfold tweenOf. cbn [List.find snd].
  apply elem_of_cons in He. destruct He as [->|He].
  - cbn [snd]. rewrite Nat.eqb_refl. reflexivity.
  - destruct (Nat.eqb_spec (target tw) (target e.2)) as [E|_].
    + exfalso. apply Hout. rewrite E. unfold targets.
      apply list_elem_of_fmap. exists e. split; [reflexivity | exact He].
    + apply IH; assumption.
Qed.

(** *** States reachable from the mounted scene *)

Lemma toggleAssembly_remembered s :
  remembered s -> remembered (toggleAssembly parts s).
Proof.
  intros H. unfold toggleAssembly. destruct parts as [|p ps] eqn:E; [exact H|].
  rewrite <- E. intros e He. cbn [timeline assemblingRef default from_option] in *.
  rewrite killAll_remembered in He by exact H. cbn [app] in He.
  unfold Datatypes.id. apply list_elem_of_In, in_map, list_elem_of_In, He.
Qed.

Lemma advance_remembered dt s : remembered s -> remembered (advance dt s).
Proof.
  intros H e He. unfold advance in *.
  pose proof (tick_keeps dt (timeline s) (positions s) e) as Hk.
  destruct (tick dt (timeline s) (positions s)) as [tl pos].
  cbn [timeline assemblingRef fst] in *.
  destruct (Hk He) as (e0 & He0 & Hid & _). rewrite <- Hid. apply H, He0.
Qed.

Lemma run_snoc es e s : run parts (es ++ [e]) s = step parts (run parts es s) e.
Proof. unfold run. apply foldl_snoc. Qed.

Lemma run_app es1 es2 s : run parts (es1 ++ es2) s = run parts es2 (run parts es1 s).
Proof. unfold run. apply foldl_app. Qed.

Lemma reachable_remembered history :
  remembered (run parts history (mounted parts))
  /\ length (positions (run parts history (mounted parts))) = length parts.
Proof.
  induction history as [|e history [IHr IHl]] using rev_ind.
  - split; [intros e He; inversion He|].
    unfold run, mounted, initialPositions. cbn [foldl positions].
    apply length_map.
  - rewrite run_snoc. destruct e as [|dt]; cbn [step].
    + split; [apply toggleAssembly_remembered, IHr|].
      unfold toggleAssembly. destruct parts; [exact IHl|]. exact IHl.
    + split; [apply advance_remembered, IHr|].
      unfold advance.
      pose proof (tick_length dt (timeline (run parts history (mounted parts)))
                    (positions (run parts history (mounted parts)))) as Hl.
      destruct (tick dt _ _) as [tl pos]. cbn [positions snd] in *.
      rewrite Hl. exact IHl.
Qed.

(** A toggle in a reachable state cancels whatever was in flight and leaves
    exactly the tweens it makes, none started; it moves nothing itself. *)
Lemma toggleAssembly_fresh s :
  remembered s ->
  (parts <> [] \/ timeline s = []) ->
  timeline (toggleAssembly parts s) = makeTweens (isExploded s) parts 0 (nextId s)
  /\ positions (toggleAssembly parts s) = positions s.
Proof.
  intros H Hne. unfold toggleAssembly. destruct parts as [|p ps] eqn:E.
  - destruct Hne as [Hne|Hne]; [contradiction|]. split; [exact Hne | reflexivity].
  - rewrite <- E. cbn [timeline positions].
    rewrite killAll_remembered by exact H. split; reflexivity.
Qed.

Lemma no_parts_no_tweens history :
  parts = [] -> timeline (run parts history (mounted parts)) = [].
Proof.
  intros E. induction history as [|e history IH] using rev_ind; [reflexivity|].
  rewrite run_snoc. destruct e as [|dt]; cbn [step].
  - unfold toggleAssembly. rewrite E in IH |- *. exact IH.
  - unfold advance. rewrite IH. cbn [tick timeline]. reflexivity.
Qed.

End Toggle.

Section AfterToggle.

Import Three Gsap AssemblyExplodedScene AssemblyToggle.
Local Open Scope Q_scope.

Variable parts : list Part.

Definition stagger (i : nat) : Q := inject_Z (Z.of_nat i) * (8#100).

Lemma stagger_nonneg i : 0 <= stagger i.
Proof.
  unfold stagger. apply Qmult_le_0_compat; [|discriminate].
  change 0 with (inject_Z 0). rewrite <- Zle_Qle. lia.
Qed.

(** The scene [e] seconds after a toggle made in a state with flag [b],
    next tween id [base] and positions [pos0]: every tween alive is one of
    that toggle's, there is at most one per part, and each part is underway
    from where it stood to the rest position of the state toggled to. *)
Definition settling (b : bool) (base : nat) (pos0 : list Vector3) (e : Q) (s : State)
  : Prop :=
  length (positions s) = length parts
  /\ NoDup (targets (timeline s))
  /\ (forall en, en ∈ timeline s ->
        (base <= en.1)%nat /\ (target en.2 < length parts)%nat)
  /\ forall i p, parts !! i = Some p ->
       exists v v0, positions s !! i = Some v /\ pos0 !! i = Some v0
         /\ underway v0 (restPos (negb b) p) (stagger i) e
                     (snd <$> tweenOf i (timeline s)) v.

Lemma settling_start s :
  remembered s -> length (positions s) = length parts ->
  (parts <> [] \/ timeline s = []) ->
  settling (isExploded s) (nextId s) (positions s) 0 (toggleAssembly parts s).
Proof.
  intros Hrem Hlen Hne.
  destruct (toggleAssembly_fresh parts s Hrem Hne) as [Htl Hpos].
  unfold settling. rewrite Htl, Hpos.
  assert (Hnd : NoDup (targets (makeTweens (isExploded s) parts 0 (nextId s)))).
  { rewrite makeTweens_targets. apply NoDup_ListNoDup, seq_NoDup. }
  split; [exact Hlen|]. split; [exact Hnd|]. split.
  - intros en Hen. apply makeTweens_lookup in Hen.
    destruct Hen as (j & p & Hj & ->). cbn [fst snd tweenFor target].
    apply lookup_lt_Some in Hj. lia.
  - intros i p Hi.
    destruct (lookup_lt_is_Some_2 (positions s) i) as [v Hv].
    { rewrite Hlen. eapply lookup_lt_Some. exact Hi. }
    exists v, v. split; [exact Hv|]. split; [exact Hv|].
    assert (Hin : ((nextId s + i)%nat, tweenFor (isExploded s) p (0 + i))
                  ∈ makeTweens (isExploded s) parts 0 (nextId s)).
    { apply makeTweens_lookup. exists i, p. split; [exact Hi | reflexivity]. }
    pose proof (tweenOf_unique _ _ Hnd Hin) as Hfind. cbn [snd tweenFor target] in Hfind.
    cbn [Nat.add] in Hfind. rewrite Hfind. cbn [fmap option_fmap option_map snd].
    cbn [underway tweenFor to delay duration time from].
    repeat split. pose proof (stagger_nonneg i). unfold dur. Lqa.lra.
Qed.

Lemma settling_advance b base pos0 e dt s :
  settling b base pos0 e s -> settling b base pos0 (e + dt) (advance dt s).
Proof.
  intros (Hlen & Hnd & Hids & Hparts). unfold settling, advance.
  pose proof (tick_length dt (timeline s) (positions s)) as Tl.
  pose proof (tick_NoDup dt (timeline s) (positions s) Hnd) as Tn.
  pose proof (tick_keeps dt (timeline s) (positions s)) as Tk.
  pose proof (fun i v => tick_project dt (timeline s) (positions s) i v Hnd) as Tp.
  destruct (tick dt (timeline s) (positions s)) as [tl pos].
  cbn [positions timeline fst snd] in *.
  split; [rewrite Tl; exact Hlen|]. split; [exact Tn|]. split.
  - intros en Hen. destruct (Tk en Hen) as (e0 & He0 & Hid & Ht & _).
    rewrite <- Hid, <- Ht. apply Hids, He0.
  - intros i p Hi. destruct (Hparts i p Hi) as (v & v0 & Hv & Hv0 & Hu).
    specialize (Tp i v Hv).
    destruct (tweenOf i (timeline s)) as [[id tw]|].
    + destruct Tp as [Tt Tv]. exists (stepTween dt tw v).2, v0.
      split; [exact Tv|]. split; [exact Hv0|]. rewrite Tt.
      cbn [fmap option_fmap option_map snd] in Hu.
      pose proof (stepTween_underway _ _ _ _ dt _ _ Hu) as Hs.
      destruct (stepTween dt tw v).1; exact Hs.
    + destruct Tp as [Tt Tv]. exists v, v0.
      split; [exact Tv|]. split; [exact Hv0|]. rewrite Tt. exact Hu.
Qed.

Lemma run_elapse_snoc dts dt s :
  run parts (Elapse <$> (dts ++ [dt])) s = advance dt (run parts (Elapse <$> dts) s).
Proof. rewrite fmap_app. cbn [fmap list_fmap]. apply run_snoc. Qed.

Lemma total_snoc dts dt : total (dts ++ [dt]) = total dts + dt.
Proof. unfold total. apply foldl_snoc. Qed.

Lemma settling_run b base pos0 dts s :
  settling b base pos0 0 s ->
  settling b base pos0 (total dts) (run parts (Elapse <$> dts) s).
Proof.
  intros H. induction dts as [|dt dts IH] using rev_ind; [exact H|].
  rewrite run_elapse_snoc, total_snoc. apply settling_advance, IH.
Qed.

Lemma run_elapse_flag dts s :
  isExploded (run parts (Elapse <$> dts) s) = isExploded s
  /\ nextId (run parts (Elapse <$> dts) s) = nextId s.
Proof.
  induction dts as [|dt dts [IH1 IH2]] using rev_ind; [split; reflexivity|].
  rewrite run_elapse_snoc. unfold advance.
  destruct (tick dt _ _). cbn [isExploded nextId]. split; assumption.
Qed.

Lemma toggleAssembly_flag s :
  parts <> [] -> isExploded (toggleAssembly parts s) = negb (isExploded s).
Proof.
  intros H. unfold toggleAssembly. destruct parts; [contradiction | reflexivity].
Qed.

End AfterToggle.

(** C3.  Take the scene in any state reached from its mount, toggle, let
    any amount of time pass (the first toggle's tweens may be in flight),
    and toggle again.  The second toggle leaves exactly its own tweens on
    the timeline, one per part and none started, and moves nothing itself;
    from then on every tween alive is one of these, and one that has
    started has started from the position its part had at the second
    toggle.  Once the time passed since the second toggle covers a part's
    stagger delay and the tween duration, that part rests at the position
    of the state the scene was in before the first toggle. *)
Theorem double_toggle_returns (parts : list AssemblyExplodedScene.Part)
  (history : list AssemblyToggle.Event) (mid final : list Q) :
  let s0 := AssemblyToggle.run parts history (AssemblyToggle.mounted parts) in
  let s1 := AssemblyToggle.run parts (AssemblyToggle.Elapse <$> mid)
              (AssemblyToggle.toggleAssembly parts s0) in
  let s2 := AssemblyToggle.toggleAssembly parts s1 in
  let s3 := AssemblyToggle.run parts (AssemblyToggle.Elapse <$> final) s2 in
  AssemblyToggle.timeline s2
    = AssemblyToggle.makeTweens (AssemblyToggle.isExploded s1) parts 0
        (AssemblyToggle.nextId s1)
  /\ AssemblyToggle.positions s2 = AssemblyToggle.positions s1
  /\ (forall en, en ∈ AssemblyToggle.timeline s3 ->
        (AssemblyToggle.nextId s1 <= en.1)%nat
        /\ forall v, Gsap.from en.2 = Some v ->
                     AssemblyToggle.positions s1 !! Gsap.target en.2 = Some v)
  /\ (forall i p, parts !! i = Some p ->
        (stagger i + AssemblyToggle.dur <= total final)%Q ->
        exists v, AssemblyToggle.positions s3 !! i = Some v
                  /\ AssemblyToggle.Vector3_eq v
                       (AssemblyToggle.restPos (AssemblyToggle.isExploded s0) p)).
Proof.
  intros s0 s1 s2 s3.
  assert (Hreach : s1 = AssemblyToggle.run parts
            (history ++ [AssemblyToggle.Toggle] ++ (AssemblyToggle.Elapse <$> mid))
            (AssemblyToggle.mounted parts)).
  { subst s1 s0. rewrite !run_app. reflexivity. }
  destruct (reachable_remembered parts
              (history ++ [AssemblyToggle.Toggle] ++ (AssemblyToggle.Elapse <$> mid)))
    as [Hrem Hlen].
  rewrite <- Hreach in Hrem, Hlen.
  assert (Hne : parts <> [] \/ AssemblyToggle.timeline s1 = []).
  { destruct parts as [|p ps] eqn:E; [right | left; discriminate].
    rewrite Hreach. apply no_parts_no_tweens. reflexivity. }
  destruct (toggleAssembly_fresh parts s1 Hrem Hne) as [Htl Hpos].
  pose proof (settling_run parts _ _ _ final _ (settling_start parts s1 Hrem Hlen Hne))
    as (Slen & Snd & Sids & Sparts).
  fold s2 in Htl, Hpos, Slen, Snd, Sids, Sparts.
  fold s3 in Slen, Snd, Sids, Sparts.
  split; [exact Htl|]. split; [exact Hpos|]. split.
  - intros en Hen. destruct (Sids en Hen) as [Hid Ht]. split; [exact Hid|].
    intros v Hfrom.
    destruct (lookup_lt_is_Some_2 parts (Gsap.target en.2) Ht) as [p Hp].
    destruct (Sparts _ p Hp) as (w & v0 & _ & Hv0 & Hu).
    rewrite (tweenOf_unique _ _ Snd Hen) in Hu.
    cbn [fmap option_fmap option_map underway] in Hu.
    destruct Hu as (_ & _ & _ & _ & _ & Hstart). rewrite Hfrom in Hstart.
    subst v. exact Hv0.
  - intros i p Hp Hlate. destruct (Sparts i p Hp) as (v & v0 & Hv & _ & Hu).
    exists v. split; [exact Hv|].
    destruct (underway_finished _ _ _ _ _ _ Hu Hlate) as [_ Hgoal].
    assert (Hflag : AssemblyToggle.isExploded s1 = negb (AssemblyToggle.isExploded s0)).
    { subst s1. destruct (run_elapse_flag parts mid
                            (AssemblyToggle.toggleAssembly parts s0)) as [-> _].
      apply toggleAssembly_flag. intros E. rewrite E in Hp. inversion Hp. }
    rewrite Hflag, negb_involutive in Hgoal. exact Hgoal.
Qed.

Lemma double_toggle_returns_witness :
  (stagger 5 + AssemblyToggle.dur <= total [1; 1])%Q
  /\ exists v,
       AssemblyToggle.positions
         (AssemblyToggle.run AssemblyExplodedScene.parts
            (AssemblyToggle.Elapse <$> [1; 1]%Q)
            (AssemblyToggle.toggleAssembly AssemblyExplodedScene.parts
               (AssemblyToggle.run AssemblyExplodedScene.parts
                  (AssemblyToggle.Elapse <$> [1#2]%Q)
                  (AssemblyToggle.toggleAssembly AssemblyExplodedScene.parts
                     (AssemblyToggle.run AssemblyExplodedScene.parts []
                        (AssemblyToggle.mounted AssemblyExplodedScene.parts))))))
         !! 5%nat = Some v
       /\ AssemblyToggle.Vector3_eq v
            (AssemblyExplodedScene.vec (83#10) AssemblyExplodedScene.CENTERLINE_Y 0).
Proof.
  assert (Hlate : (stagger 5 + AssemblyToggle.dur <= total [1; 1])%Q)
    by (vm_compute; discriminate).
  split; [exact Hlate|].
  destruct (AssemblyExplodedScene.parts !! 5%nat) as [p|] eqn:Hp;
    [|vm_compute in Hp; discriminate].
  destruct (double_toggle_returns AssemblyExplodedScene.parts [] [1#2]%Q [1; 1]%Q)
    as (_ & _ & _ & Hrest).
  destruct (Hrest 5%nat p Hp Hlate) as (v & Hv & Hgoal).
  exists v. split; [exact Hv|].
  vm_compute in Hp. injection Hp as <-. exact Hgoal.
Defined.

(** ** The live metrics panel *)

Section Telemetry.

Import SupportPortal.
Local Open Scope R_scope.

(** *** Targets *)

Lemma flareTarget_bounds (k : nat) : 12 <= flareTarget k <= 18.
Proof.
  unfold flareTarget.
  pose proof (Rmax_l 0 (sin (INR k * 1.1))) as Hl.
  assert (Hu : Rmax 0 (sin (INR k * 1.1)) <= 1).
  { apply Rmax_lub; [lra | apply SIN_bound]. }
  lra.
Qed.

Lemma tRecovered_bounds (k : nat) : 3.5 <= tRecovered (targets k) <= 8.28.
Proof.
  cbn [targets tRecovered].
  pose proof (SIN_bound (INR k * 0.95 + 1.4)) as [Hs1 Hs2].
  pose proof (flareTarget_bounds k) as [Hf1 Hf2].
  pose proof (Rmax_l 0 (10 - flareTarget k * 0.4)) as Hl.
  assert (Hu : Rmax 0 (10 - flareTarget k * 0.4) <= 5.2).
  { apply Rmax_lub; lra. }
  lra.
Qed.

(** A smoothing step stays between the old value and the target. *)
Lemma lerp_between (lo hi a b : R) :
  lo <= a <= hi -> lo <= b <= hi -> lo <= lerp a b smoothingFactor <= hi.
Proof. unfold lerp, smoothingFactor. intros [? ?] [? ?]. split; lra. Qed.

(** *** One callback *)

(** The two smoothed values the capture-efficiency row divides by. *)
Definition inBand (p : Portal) : Prop :=
  12 <= flareRate p <= 18 /\ 3.5 <= recovRate p <= 8.28.

Lemma smooth_fields tg now p :
  flareRate (smooth tg true true now p) = lerp (flareRate p) (tFlare tg) smoothingFactor
  /\ recovRate (smooth tg true true now p)
     = lerp (recovRate p) (tRecovered tg) smoothingFactor.
Proof.
  unfold smooth. destruct (throttleOpen now (smoothAll tg p)); split; reflexivity.
Qed.

Lemma smooth_inBand k now p : inBand p -> inBand (smooth (targets k) true true now p).
Proof.
  intros [Hf Hr]. destruct (smooth_fields (targets k) now p) as [Ef Er].
  unfold inBand. rewrite Ef, Er. split.
  - apply lerp_between; [exact Hf | apply flareTarget_bounds].
  - apply lerp_between; [exact Hr | apply tRecovered_bounds].
Qed.

(** Notifications, newest first, each more than 250 ms after the one
    before it. *)
Fixpoint spaced (notes : list (R * R)) : Prop :=
  match notes with
  | a :: (b :: _) as rest => 250 < a.1 - b.1 /\ spaced rest
  | _ => True
  end.

(** What holds of the notification side of the state. *)
Definition throttled (p : Portal) : Prop :=
  spaced (flareNotes p)
  /\ lastFlareDispatch p = fst <$> head (flareNotes p)
  /\ (forall n, n ∈ flareNotes p -> exists k, n.2 = tFlare (targets k))
  /\ (forall n, n ∈ recoveredNotes p -> exists k, n.2 = tRecovered (targets k))
  /\ Forall2 (fun f r => f.1 = r.1) (flareNotes p) (recoveredNotes p).

Lemma smooth_throttled k now p :
  throttled p -> throttled (smooth (targets k) true true now p).
Proof.
  intros (Hsp & Hlast & Hf & Hr & Hpair). unfold smooth, throttleOpen.
  cbn [smoothAll lastFlareDispatch].
  destruct (lastFlareDispatch p) as [last|] eqn:El.
  - destruct (Rlt_dec 250 (now - last)) as [Hopen|Hshut].
    + unfold throttled. cbn [setRecoveredVapors setLiveFlareRate setLastFlareDispatch
        smoothAll flareNotes recoveredNotes lastFlareDispatch].
      split; [|split; [reflexivity|split; [|split]]].
      * destruct (flareNotes p) as [|[t v] rest]; [exact I|].
        cbn [head fmap option_fmap option_map fst] in Hlast. injection Hlast as ->.
        split; [exact Hopen | exact Hsp].
      * intros n Hn. apply elem_of_cons in Hn. destruct Hn as [->|Hn]; [|apply Hf, Hn].
        exists k. reflexivity.
      * intros n Hn. apply elem_of_cons in Hn. destruct Hn as [->|Hn]; [|apply Hr, Hn].
        exists k. reflexivity.
      * constructor; [reflexivity | exact Hpair].
    + unfold throttled. cbn [smoothAll flareNotes recoveredNotes lastFlareDispatch].
      rewrite El. auto.
  - unfold throttled. cbn [setRecoveredVapors setLiveFlareRate setLastFlareDispatch
      smoothAll flareNotes recoveredNotes lastFlareDispatch].
    destruct (flareNotes p) as [|n rest]; [|discriminate].
    split; [exact I|]. split; [reflexivity|]. split; [|split].
    + intros n Hn. apply list_elem_of_singleton in Hn. subst n. exists k. reflexivity.
    + intros n Hn. apply elem_of_cons in Hn. destruct Hn as [->|Hn]; [|apply Hr, Hn].
      exists k. reflexivity.
    + constructor; [reflexivity | exact Hpair].
Qed.

(** *** The component with its frame queue *)

(** Every waiting callback captured the targets of some tick. *)
Definition fromTicks (rs : list Request) : Prop :=
  forall r, r ∈ rs -> exists k, captured r = targets k.

Lemma runCallbacks_spec now rs fresh p :
  fromTicks rs -> inBand p -> throttled p ->
  inBand (runCallbacks now rs fresh p).1
  /\ throttled (runCallbacks now rs fresh p).1
  /\ fromTicks (runCallbacks now rs fresh p).2
  /\ captured <$> (runCallbacks now rs fresh p).2 = captured <$> rs.
Proof.
  revert fresh p. induction rs as [|r rs IH]; intros fresh p Hrs Hb Ht.
  - cbn [runCallbacks fst snd]. split; [exact Hb|]. split; [exact Ht|].
    split; [exact Hrs | reflexivity].
  - cbn [runCallbacks]. destruct (Hrs r) as [k Hk]; [left|].
    assert (Hrs' : fromTicks rs) by (intros r' Hr'; apply Hrs; right; exact Hr').
    rewrite Hk.
    specialize (IH (S fresh) (smooth (targets k) true true now p) Hrs'
                   (smooth_inBand k now p Hb) (smooth_throttled k now p Ht)).
    destruct (runCallbacks now rs (S fresh) (smooth (targets k) true true now p))
      as [p2 rest']. cbn [fst snd] in *.
    destruct IH as (IH1 & IH2 & IH3 & IH4).
    split; [exact IH1|]. split; [exact IH2|]. split.
    + intros r' Hr'. apply elem_of_cons in Hr'. destruct Hr' as [->|Hr'].
      * exists k. reflexivity.
      * apply IH3, Hr'.
    + rewrite !fmap_cons. cbn [captured]. rewrite IH4, Hk. reflexivity.
Qed.

Definition sound (s : Sys) : Prop :=
  inBand (portal s) /\ throttled (portal s) /\ fromTicks (pending s).

Lemma rerunEffect_sound s : sound s -> sound (rerunEffect s).
Proof.
  intros (Hb & Ht & Hp). unfold sound, rerunEffect. cbn [portal pending].
  split; [exact Hb|]. split; [exact Ht|].
  intros r Hr. apply elem_of_app in Hr. destruct Hr as [Hr|Hr].
  - apply Hp. apply list_elem_of_In in Hr. apply filter_In in Hr.
    apply list_elem_of_In. apply Hr.
  - apply list_elem_of_singleton in Hr. subst r. exists (tick s). reflexivity.
Qed.

Lemma step_sound s e : sound s -> sound (step s e).
Proof.
  intros Hs. destruct e as [now| |]; cbn [step].
  - destruct Hs as (Hb & Ht & Hp).
    pose proof (runCallbacks_spec now (pending s) (nextId s) (portal s) Hp Hb Ht)
      as (H1 & H2 & H3 & _).
    destruct (runCallbacks now (pending s) (nextId s) (portal s)) as [p rs].
    cbn [fst snd] in *.
    destruct (parentChanged (portal s) p).
    + apply rerunEffect_sound. split; [exact H1|]. split; [exact H2 | exact H3].
    + split; [exact H1|]. split; [exact H2 | exact H3].
  - destruct (sameTargets (targets (tick s)) (targets (S (tick s)))).
    + exact Hs.
    + apply rerunEffect_sound. exact Hs.
  - apply rerunEffect_sound, Hs.
Qed.

Lemma mounted_sound : sound mounted.
Proof.
  unfold sound, mounted. cbn [portal pending]. split; [|split].
  - unfold inBand. cbn [flareRate recovRate]. split.
    + apply flareTarget_bounds.
    + apply tRecovered_bounds.
  - unfold throttled. cbn [flareNotes recoveredNotes lastFlareDispatch].
    split; [exact I|]. split; [reflexivity|].
    split; [intros n Hn; inversion Hn|]. split; [intros n Hn; inversion Hn|].
    constructor.
  - intros r Hr. apply list_elem_of_singleton in Hr. subst r. exists 0%nat. reflexivity.
Qed.

Lemma run_sound es : sound (run es).
Proof.
  unfold run. induction es as [|e es IH] using rev_ind.
  - apply mounted_sound.
  - rewrite foldl_snoc. apply step_sound, IH.
Qed.

Lemma spaced_tail l1 l2 : spaced (l1 ++ l2) -> spaced l2.
Proof.
  induction l1 as [|a l1 IH]; intros H; [exact H|].
  apply IH. cbn [app] in H. destruct (l1 ++ l2) as [|b rest]; [exact I|].
  cbn [spaced] in H. apply H.
Qed.

Lemma spaced_five a b c d e l :
  spaced (a :: b :: c :: d :: e :: l) -> 1000 < a.1 - e.1.
Proof. cbn [spaced]. intros (H1 & H2 & H3 & H4 & _). lra. Qed.

(** The time spanned by every run of five consecutive notifications. *)
Fixpoint fiveSpans (notes : list (R * R)) : list R :=
  match notes with
  | a :: rest =>
      match rest with
      | _ :: _ :: _ :: e :: _ => [a.1 - e.1]
      | _ => []
      end ++ fiveSpans rest
  | [] => []
  end.

Lemma spaced_fiveSpans notes :
  spaced notes -> Forall (fun span => 1000 < span) (fiveSpans notes).
Proof.
  induction notes as [|a rest IH]; intros H; [constructor|].
  assert (Hrest : spaced rest).
  { destruct rest as [|b rest']; [exact I | apply H]. }
  cbn [fiveSpans]. apply Forall_app. split; [|apply IH, Hrest].
  destruct rest as [|b [|c [|d [|e rest']]]]; try constructor; [|constructor].
  apply (spaced_five a b c d e rest'), H.
Qed.

(** *** Particular ticks *)

Lemma sin_lower (a : R) : 0 <= a -> a <= 4 -> a - a * a * a / 6 <= sin a.
Proof.
  intros H0 H4. pose proof (pre_sin_bound a 0 H0 H4) as [H _].
  unfold sin_approx, sum_f_R0, sin_term in H. simpl in H. lra.
Qed.

Lemma flareTarget_0 : flareTarget 0 = 12.
Proof.
  unfold flareTarget. cbn [INR]. rewrite Rmult_0_l, sin_0.
  unfold Rmax. destruct (Rle_dec 0 0); lra.
Qed.

Lemma flareTarget_1 : 17.26 < flareTarget 1.
Proof.
  unfold flareTarget. cbn [INR].
  pose proof (sin_lower (1 * 1.1)) as H.
  pose proof (Rmax_r 0 (sin (1 * 1.1))) as Hm. lra.
Qed.

Lemma tRecovered_0 : 6.28 < tRecovered (targets 0).
Proof.
  cbn [targets tRecovered]. rewrite flareTarget_0. cbn [INR].
  replace (0 * 0.95 + 1.4) with 1.4 by lra.
  assert (Hs : 0 < sin 1.4).
  { apply sin_gt_0; [lra|]. pose proof PI2_1. lra. }
  pose proof (Rmax_r 0 (10 - 12 * 0.4)) as Hm. lra.
Qed.

Lemma sameNumber_refl a : sameNumber a a = true.
Proof. unfold sameNumber. destruct (Req_dec_T a a); [reflexivity | contradiction]. Qed.

Lemma sameNumber_differ a b : a <> b -> sameNumber a b = false.
Proof. unfold sameNumber. intros H. destruct (Req_dec_T a b); [contradiction | reflexivity]. Qed.

Lemma sameTargets_0_1 : sameTargets (targets 0) (targets 1) = false.
Proof.
  unfold sameTargets.
  assert (H : sameNumber (tFlare (targets 0)) (tFlare (targets 1)) = false).
  { apply sameNumber_differ. cbn [targets tFlare]. rewrite flareTarget_0.
    pose proof flareTarget_1. lra. }
  rewrite H. rewrite andb_false_r. reflexivity.
Qed.

Lemma readout_in_range (p : Portal) :
  inBand p ->
  0 < recovRate p + flareRate p
  /\ captureEfficiencyReadout p = capEff p
  /\ 0 < captureEfficiencyReadout p < 100.
Proof.
  intros [[Hf _] [Hr _]].
  assert (Hpos : 0 < recovRate p + flareRate p) by lra.
  split; [exact Hpos|]. split.
  - unfold capEff, captureEfficiencyReadout.
    destruct (Rlt_dec 0 (recovRate p + flareRate p)); [reflexivity | contradiction].
  - unfold captureEfficiencyReadout.
    assert (Hinv : 0 < / (recovRate p + flareRate p)) by (apply Rinv_0_lt_compat, Hpos).
    assert (Hq : recovRate p / (recovRate p + flareRate p) * (recovRate p + flareRate p)
                 = recovRate p) by (field; lra).
    assert (Hq0 : 0 < recovRate p / (recovRate p + flareRate p)).
    { unfold Rdiv. apply Rmult_lt_0_compat; [lra | exact Hinv]. }
    split; [lra | nra].
Qed.

End Telemetry.

(** C10: in every state the metrics panel can reach, whatever frames, ticks
    and re-renders led to it, the flare target of every tick is at least 12,
    the smoothed flare rate lies in [12, 18] and the smoothed recovered rate
    in [3.5, 8.28]; so the denominator of the Capture Efficiency readout,
    which the render site does not guard, is strictly positive, the readout
    equals the guarded [capEff] of the pulse effect, and it lies strictly
    between 0 and 100. *)
Theorem capture_efficiency_denominator_positive (es : list SupportPortal.Event) :
  let p := SupportPortal.portal (SupportPortal.run es) in
  (forall k, (12 <= SupportPortal.tFlare (SupportPortal.targets k))%R)
  /\ (12 <= SupportPortal.flareRate p <= 18)%R
  /\ (3.5 <= SupportPortal.recovRate p <= 8.28)%R
  /\ (0 < SupportPortal.recovRate p + SupportPortal.flareRate p)%R
  /\ SupportPortal.captureEfficiencyReadout p = SupportPortal.capEff p
  /\ (0 < SupportPortal.captureEfficiencyReadout p < 100)%R.
Proof.
  intros p. destruct (run_sound es) as (Hb & _ & _). fold p in Hb.
  split; [intros k; apply flareTarget_bounds|].
  split; [apply Hb|]. split; [apply Hb|]. apply readout_in_range, Hb.
Qed.

(** C5 (amended): every notification the panel has sent carries a raw
    target, [tFlare] or [tRecovered] of some tick, not a smoothed value; the
    two kinds are sent together; and each notification is sent more than
    250 ms after the one before it, so any five consecutive ones span more
    than a second. *)
Theorem notifications_raw_and_throttled (es : list SupportPortal.Event) :
  let p := SupportPortal.portal (SupportPortal.run es) in
  Forall (fun n => exists k, n.2 = SupportPortal.tFlare (SupportPortal.targets k))
         (SupportPortal.flareNotes p)
  /\ Forall (fun n => exists k, n.2 = SupportPortal.tRecovered (SupportPortal.targets k))
            (SupportPortal.recoveredNotes p)
  /\ Forall2 (fun f r => f.1 = r.1)
             (SupportPortal.flareNotes p) (SupportPortal.recoveredNotes p)
  /\ spaced (SupportPortal.flareNotes p)
  /\ Forall (fun span => (1000 < span)%R) (fiveSpans (SupportPortal.flareNotes p)).
Proof.
  intros p. destruct (run_sound es) as (_ & Ht & _). fold p in Ht.
  destruct Ht as (Hsp & _ & Hf & Hr & Hpair).
  split; [apply Forall_forall; exact Hf|].
  split; [apply Forall_forall; exact Hr|].
  split; [exact Hpair|]. split; [exact Hsp|].
  apply spaced_fiveSpans, Hsp.
Qed.

(** The tick fires once before the first frame: the first notification
    hands the 3D scene the raw target of tick 1 while the panel shows a
    smoothed value that is strictly smaller. *)
Lemma notification_differs_from_displayed :
  let p := SupportPortal.portal
             (SupportPortal.run [SupportPortal.Tick; SupportPortal.Frame 0]) in
  SupportPortal.flareNotes p = [(0%R, SupportPortal.tFlare (SupportPortal.targets 1))]
  /\ SupportPortal.liveFlareRate p = SupportPortal.tFlare (SupportPortal.targets 1)
  /\ (SupportPortal.flareRate p < SupportPortal.liveFlareRate p)%R.
Proof.
  unfold SupportPortal.run. cbn [foldl SupportPortal.step].
  cbn [SupportPortal.mounted SupportPortal.tick]. rewrite sameTargets_0_1.
  unfold SupportPortal.rerunEffect.
  cbn [SupportPortal.mounted SupportPortal.tick SupportPortal.portal
       SupportPortal.pending SupportPortal.nextId SupportPortal.effectId
       SupportPortal.id List.filter Nat.eqb negb app SupportPortal.runCallbacks
       SupportPortal.captured].
  unfold SupportPortal.smooth, SupportPortal.throttleOpen.
  cbn [SupportPortal.smoothAll SupportPortal.lastFlareDispatch].
  match goal with |- context [if ?c then _ else _] => destruct c end;
    cbn [SupportPortal.portal SupportPortal.setRecoveredVapors
         SupportPortal.setLiveFlareRate SupportPortal.setLastFlareDispatch
         SupportPortal.smoothAll SupportPortal.flareNotes
         SupportPortal.liveFlareRate SupportPortal.flareRate
         SupportPortal.targets SupportPortal.tFlare];
    (split; [reflexivity|]; split; [reflexivity|]);
    rewrite flareTarget_0; pose proof flareTarget_1;
    unfold SupportPortal.lerp, SupportPortal.smoothingFactor; lra.
Qed.

(** *** Frame loops that outlive their effect *)

Section SmoothingLeak.

Import SupportPortal.
Local Open Scope R_scope.

Lemma runCallbacks_cons now r rest fresh p :
  let p1 := smooth (captured r) true true now p in
  (runCallbacks now (r :: rest) fresh p).1 = (runCallbacks now rest (S fresh) p1).1
  /\ (runCallbacks now (r :: rest) fresh p).2
     = {| id := fresh; captured := captured r |}
       :: (runCallbacks now rest (S fresh) p1).2.
Proof.
  cbn [runCallbacks].
  destruct (runCallbacks now rest (S fresh) (smooth (captured r) true true now p)).
  split; reflexivity.
Qed.

Lemma runCallbacks_captured now rs fresh p :
  captured <$> (runCallbacks now rs fresh p).2 = captured <$> rs.
Proof.
  revert fresh p. induction rs as [|r rs IH]; intros fresh p; [reflexivity|].
  destruct (runCallbacks_cons now r rs fresh p) as [_ E]. rewrite E.
  rewrite !fmap_cons. cbn [captured]. f_equal. apply IH.
Qed.

(** All callbacks of one frame act on the smoothed flare rate in turn. *)
Definition pull (f : R) (tg : Targets) : R := lerp f (tFlare tg) smoothingFactor.

Lemma runCallbacks_flareRate now rs fresh p :
  flareRate (runCallbacks now rs fresh p).1 = foldl pull (flareRate p) (captured <$> rs).
Proof.
  revert fresh p. induction rs as [|r rs IH]; intros fresh p; [reflexivity|].
  destruct (runCallbacks_cons now r rs fresh p) as [E _]. rewrite E, IH.
  rewrite fmap_cons. cbn [foldl]. f_equal.
  apply (smooth_fields (captured r) now p).
Qed.

Lemma step_Frame s now :
  step s (Frame now)
  = let out := runCallbacks now (pending s) (nextId s) (portal s) in
    let s1 := {| tick := tick s; portal := out.1; pending := out.2;
                 nextId := (nextId s + length (pending s))%nat;
                 effectId := effectId s |} in
    if parentChanged (portal s) out.1 then rerunEffect s1 else s1.
Proof.
  cbn [step]. destruct (runCallbacks now (pending s) (nextId s) (portal s)).
  reflexivity.
Qed.

(** The parent's side of the state: the throttle stamp and its two values. *)
Definition parentSide (p : Portal) : option R * R * R :=
  (lastFlareDispatch p, liveFlareRate p, recoveredVapors p).

Lemma smooth_shut tg now p :
  throttleOpen now p = false -> smooth tg true true now p = smoothAll tg p.
Proof.
  intros H. unfold smooth.
  change (throttleOpen now (smoothAll tg p)) with (throttleOpen now p).
  rewrite H. reflexivity.
Qed.

Lemma smooth_open tg now p :
  throttleOpen now p = true ->
  parentSide (smooth tg true true now p) = (Some now, tFlare tg, tRecovered tg).
Proof.
  intros H. unfold smooth.
  change (throttleOpen now (smoothAll tg p)) with (throttleOpen now p).
  rewrite H. reflexivity.
Qed.

Lemma throttle_just_taken now p :
  lastFlareDispatch p = Some now -> throttleOpen now p = false.
Proof.
  intros H. unfold throttleOpen. rewrite H.
  destruct (Rlt_dec 250 (now - now)) as [Hlt|]; [lra | reflexivity].
Qed.

Lemma runCallbacks_shut now rs fresh p :
  throttleOpen now p = false ->
  parentSide (runCallbacks now rs fresh p).1 = parentSide p.
Proof.
  revert fresh p. induction rs as [|r rs IH]; intros fresh p H; [reflexivity|].
  destruct (runCallbacks_cons now r rs fresh p) as [E _]. rewrite E.
  rewrite (smooth_shut _ _ _ H). rewrite IH; [reflexivity | exact H].
Qed.

(** When the callback at the head of the queue captured the very values the
    parent already holds, a frame leaves the parent as it is: the head
    takes the throttle, if it is open, and the others find it shut. *)
Definition quiet (tg : Targets) (p : Portal) : Prop :=
  lastFlareDispatch p <> None
  /\ liveFlareRate p = tFlare tg /\ recoveredVapors p = tRecovered tg.

Lemma runCallbacks_quiet now r rest fresh p :
  quiet (captured r) p ->
  quiet (captured r) (runCallbacks now (r :: rest) fresh p).1.
Proof.
  intros (Hlast & Hlive & Hrec).
  destruct (runCallbacks_cons now r rest fresh p) as [E _]. rewrite E. clear E.
  set (p1 := smooth (captured r) true true now p).
  assert (H1 : throttleOpen now p1 = false /\ quiet (captured r) p1).
  { destruct (throttleOpen now p) eqn:Eo.
    - pose proof (smooth_open (captured r) now p Eo) as Hs. fold p1 in Hs.
      unfold parentSide in Hs. injection Hs as Hs1 Hs2 Hs3.
      split; [apply throttle_just_taken, Hs1|].
      unfold quiet. rewrite Hs1, Hs2, Hs3. split; [discriminate|]. split; reflexivity.
    - unfold p1. rewrite (smooth_shut _ _ _ Eo).
      split; [exact Eo|]. unfold quiet. cbn [smoothAll lastFlareDispatch
        liveFlareRate recoveredVapors]. split; [exact Hlast|]. split; assumption. }
  destruct H1 as [Hshut (H1 & H2 & H3)].
  pose proof (runCallbacks_shut now rest (S fresh) p1 Hshut) as Hs.
  unfold parentSide in Hs. injection Hs as Hs1 Hs2 Hs3.
  unfold quiet. rewrite Hs1, Hs2, Hs3. split; [exact H1|]. split; assumption.
Qed.

Lemma quiet_unchanged tg p p' : quiet tg p -> quiet tg p' -> parentChanged p p' = false.
Proof.
  intros (_ & H1 & H2) (_ & H1' & H2'). unfold parentChanged.
  rewrite H1, H1', H2, H2', !sameNumber_refl. reflexivity.
Qed.

Lemma step_Frame_quiet s now r rest :
  pending s = r :: rest -> quiet (captured r) (portal s) ->
  let out := runCallbacks now (pending s) (nextId s) (portal s) in
  step s (Frame now)
  = {| tick := tick s; portal := out.1; pending := out.2;
       nextId := (nextId s + length (pending s))%nat; effectId := effectId s |}
  /\ quiet (captured r) out.1.
Proof.
  intros Ep Hq out.
  assert (Hq' : quiet (captured r) out.1).
  { unfold out. rewrite Ep. apply runCallbacks_quiet, Hq. }
  split; [|exact Hq'].
  rewrite step_Frame. fold out. cbv zeta.
  rewrite (quiet_unchanged _ _ _ Hq Hq'). reflexivity.
Qed.

Definition stale (tgs : list Targets) : Prop := Forall (fun tg => tg = targets 0) tgs.

(** Before the first tick, once a frame has run. *)
Definition warm (s : Sys) : Prop :=
  tick s = 0%nat
  /\ quiet (targets 0) (portal s)
  /\ flareRate (portal s) = 12
  /\ stale (captured <$> pending s)
  /\ (exists r rest, pending s = r :: rest /\ id r <> effectId s)
  /\ (effectId s < nextId s)%nat.

(** After the first tick: the newest loop holds the targets of tick 1, the
    loops before it still hold those of tick 0. *)
Definition leaked (s : Sys) : Prop :=
  tick s = 1%nat
  /\ quiet (targets 0) (portal s)
  /\ (exists old, captured <$> pending s = targets 0 :: old ++ [targets 1] /\ stale old)
  /\ 12 <= flareRate (portal s) <= 12 + 0.54 * (flareTarget 1 - 12).

Lemma pull_stale f tgs : stale tgs -> 12 <= f -> 12 <= foldl pull f tgs <= f.
Proof.
  intros H. revert f. induction H as [|tg tgs -> _ IH]; intros f Hf.
  - cbn [foldl]. lra.
  - cbn [foldl].
    assert (Hp : 12 <= pull f (targets 0) <= f).
    { unfold pull, lerp, smoothingFactor. cbn [targets tFlare].
      rewrite flareTarget_0. lra. }
    specialize (IH (pull f (targets 0)) (proj1 Hp)). lra.
Qed.

Lemma pull_stale_rest tgs : stale tgs -> foldl pull 12 tgs = 12.
Proof. intros H. pose proof (pull_stale 12 tgs H) as Hb. lra. Qed.

Lemma pull_leaked f old :
  stale old -> 12 <= f <= 12 + 0.54 * (flareTarget 1 - 12) ->
  12 <= foldl pull f (targets 0 :: old ++ [targets 1])
     <= 12 + 0.54 * (flareTarget 1 - 12).
Proof.
  intros Hold Hf. cbn [foldl]. rewrite foldl_app. cbn [foldl].
  assert (Hp : 12 <= pull f (targets 0) <= 12 + 0.88 * (f - 12)).
  { unfold pull, lerp, smoothingFactor. cbn [targets tFlare].
    rewrite flareTarget_0. lra. }
  pose proof (pull_stale (pull f (targets 0)) old Hold (proj1 Hp)) as Hm.
  pose proof flareTarget_1 as H1.
  unfold pull at 1 4, lerp, smoothingFactor. cbn [targets tFlare]. lra.
Qed.

Lemma first_frame first : warm (step mounted (Frame first)).
Proof.
  rewrite step_Frame. unfold mounted at 1 2 3.
  cbn [pending nextId portal runCallbacks captured fst snd tick effectId].
  unfold smooth, throttleOpen. cbn [smoothAll lastFlareDispatch].
  cbv zeta. cbn [fst snd].
  assert (Hch : forall p p', liveFlareRate p' = tFlare (targets 0) ->
            recoveredVapors p = 6 -> recoveredVapors p' = tRecovered (targets 0) ->
            parentChanged p p' = true).
  { intros p p' _ H6 Hr. unfold parentChanged.
    rewrite (sameNumber_differ (recoveredVapors p) (recoveredVapors p')).
    - rewrite andb_false_r. reflexivity.
    - rewrite H6, Hr. pose proof tRecovered_0. lra. }
  rewrite Hch; [|reflexivity..].
  unfold rerunEffect, warm, quiet.
  cbn [tick portal pending nextId effectId id List.filter Nat.eqb negb app
       setRecoveredVapors setLiveFlareRate setLastFlareDispatch smoothAll
       lastFlareDispatch liveFlareRate recoveredVapors flareRate].
  split; [reflexivity|]. split; [split; [discriminate | split; reflexivity]|].
  split.
  { unfold lerp. cbn [targets tFlare]. rewrite flareTarget_0. lra. }
  split; [repeat constructor|]. split; [|cbn; lia].
  eexists _, _. split; [reflexivity|]. cbn [id]. cbn. lia.
Qed.

Lemma warm_Frame s now : warm s -> warm (step s (Frame now)).
Proof.
  intros (Ht & Hq & Hf & Hst & (r & rest & Ep & Hid) & Hlt).
  assert (Hr : captured r = targets 0).
  { unfold stale in Hst. rewrite Ep, fmap_cons in Hst. inversion Hst; assumption. }
  rewrite <- Hr in Hq.
  destruct (step_Frame_quiet s now r rest Ep Hq) as [E Hq']. rewrite E.
  unfold warm. cbn [tick portal pending nextId effectId].
  split; [exact Ht|]. split; [rewrite <- Hr; exact Hq'|].
  split; [rewrite runCallbacks_flareRate, Hf; apply pull_stale_rest, Hst|].
  split; [rewrite runCallbacks_captured; exact Hst|].
  split; [|lia].
  rewrite Ep. destruct (runCallbacks_cons now r rest (nextId s) (portal s)) as [_ E2].
  rewrite E2. eexists _, _. split; [reflexivity|]. cbn [id]. lia.
Qed.

Lemma warm_Tick s : warm s -> leaked (step s Tick).
Proof.
  intros (Ht & Hq & Hf & Hst & (r & rest & Ep & Hid) & Hlt).
  cbn [step]. rewrite Ht, sameTargets_0_1.
  unfold rerunEffect, leaked. cbn [tick portal pending nextId effectId].
  split; [reflexivity|]. split; [exact Hq|]. split.
  - rewrite Ep. cbn [List.filter]. apply Nat.eqb_neq in Hid. rewrite Hid.
    cbn [negb app]. unfold stale in Hst. rewrite Ep, fmap_cons in Hst.
    apply Forall_cons in Hst. destruct Hst as [Hr Hrest].
    rewrite fmap_cons, fmap_app, Hr. cbn [fmap list_fmap captured].
    eexists. split; [reflexivity|].
    unfold stale. apply Forall_fmap, Forall_forall. intros r' Hr'.
    apply list_elem_of_In, filter_In in Hr'. destruct Hr' as [Hr' _].
    apply Forall_fmap in Hrest. rewrite Forall_forall in Hrest.
    apply Hrest, list_elem_of_In, Hr'.
  - rewrite Hf. pose proof flareTarget_1. lra.
Qed.

Lemma leaked_Frame s now : leaked s -> leaked (step s (Frame now)).
Proof.
  intros (Ht & Hq & (old & Ec & Hold) & Hf).
  destruct (pending s) as [|r rest] eqn:Ep; [discriminate|].
  rewrite fmap_cons in Ec. injection Ec as Hr Erest.
  rewrite <- Hr in Hq.
  destruct (step_Frame_quiet s now r rest Ep Hq) as [E Hq']. rewrite E.
  unfold leaked. cbn [tick portal pending nextId effectId].
  split; [exact Ht|]. split; [rewrite <- Hr; exact Hq'|].
  rewrite runCallbacks_captured, runCallbacks_flareRate, Ep, fmap_cons, Hr, Erest.
  split; [exists old; split; [reflexivity | exact Hold]|].
  apply pull_leaked; assumption.
Qed.

Lemma frames_keep (P : Sys -> Prop) :
  (forall s now, P s -> P (step s (Frame now))) ->
  forall nows s, P s -> P (foldl step s (Frame <$> nows)).
Proof.
  intros Hstep nows. induction nows as [|now nows IH]; intros s Hs; [exact Hs|].
  rewrite fmap_cons. cbn [foldl]. apply IH, Hstep, Hs.
Qed.

Lemma leaked_after_tick first before after :
  leaked (run (Frame first :: (Frame <$> before) ++ Tick :: (Frame <$> after))).
Proof.
  unfold run. cbn [foldl]. rewrite foldl_app. cbn [foldl].
  apply (frames_keep leaked leaked_Frame), warm_Tick.
  apply (frames_keep warm warm_Frame), first_frame.
Qed.

(** One loop on its own, its target held at [tFlare tg]: what is left of
    the distance to the target after each callback is 0.88 of what it was,
    so the value neither overshoots nor turns back, and fifty callbacks
    leave less than 0.2 % of the distance. *)
Lemma smooth_alone tg (nows : list R) p :
  flareRate (foldl (fun p now => smooth tg true true now p) p nows)
  = tFlare tg + (1 - smoothingFactor) ^ length nows * (flareRate p - tFlare tg).
Proof.
  revert p. induction nows as [|now nows IH]; intros p.
  - cbn [foldl length pow]. ring.
  - cbn [foldl length pow]. rewrite IH.
    destruct (smooth_fields tg now p) as [E _]. rewrite E. unfold lerp. ring.
Qed.

Lemma fifty_callbacks : (1 - smoothingFactor) ^ 50 < 0.002.
Proof.
  unfold smoothingFactor. replace (1 - 0.12) with 0.88 by lra.
  assert (H10 : 0.88 ^ 10 < 0.28) by (cbn [pow]; lra).
  assert (H0 : 0 <= 0.88 ^ 10) by (apply pow_le; lra).
  change 50%nat with (10 * 5)%nat. rewrite pow_mult.
  apply Rle_lt_trans with (0.28 ^ 5).
  - apply pow_incr. lra.
  - cbn [pow]. lra.
Qed.

End SmoothingLeak.

(** C7: each [smooth] callback moves the displayed flare rate by
    (target - displayed) * 0.12.  But the loops of earlier effect runs are
    never cancelled: once a frame has run and the tick has fired, at least
    two loops are alive, the older ones still pulling toward the target of
    tick 0, and however many frames follow while the target stays at that
    of tick 1, the displayed flare rate stays at least 2.4 below it. *)
Theorem smoothing_leak_blocks_convergence (first : R) (before after : list R) :
  let s := SupportPortal.run
             (SupportPortal.Frame first :: (SupportPortal.Frame <$> before)
              ++ SupportPortal.Tick :: (SupportPortal.Frame <$> after)) in
  let T := SupportPortal.tFlare (SupportPortal.targets (SupportPortal.tick s)) in
  (forall tg now p,
     SupportPortal.flareRate (SupportPortal.smooth tg true true now p)
     = (SupportPortal.flareRate p
        + (SupportPortal.tFlare tg - SupportPortal.flareRate p) * 0.12)%R)
  /\ SupportPortal.tick s = 1%nat
  /\ (2 <= length (SupportPortal.pending s))%nat
  /\ (SupportPortal.flareRate (SupportPortal.portal s) <= T - 2.4)%R.
Proof.
  intros s T. split.
  { intros tg now p. destruct (smooth_fields tg now p) as [E _]. exact E. }
  destruct (leaked_after_tick first before after) as (Ht & _ & (old & Ec & _) & Hf).
  fold s in Ht, Ec, Hf. split; [exact Ht|]. split.
  - apply (f_equal length) in Ec. rewrite length_fmap in Ec. rewrite Ec.
    cbn [length]. rewrite length_app. cbn [length]. lia.
  - unfold T. rewrite Ht. change (SupportPortal.tFlare (SupportPortal.targets 1))
      with (SupportPortal.flareTarget 1).
    pose proof flareTarget_1 as H1. lra.
Qed.

(* ===================================================================== *)
(** * Part III: further properties of the components                      *)
(* ===================================================================== *)

(** ** The flight of a flare puff *)

Section PuffFlight.

Import Three ThreeDashboard.
Local Open Scope Q_scope.

Variable random : nat -> Q.

(** A puff has travelled along its velocity for as long as it has lived. *)
Definition onCourse (p : Puff) : Prop :=
  x (position p) == life p * x (v p)
  /\ y (position p) == life p * y (v p)
  /\ z (position p) == life p * z (v p).

(** What the update loop leaves in a puff it keeps. *)
Definition inFlight (p : Puff) : Prop :=
  onCourse p
  /\ uLife p = lifeFraction (life p) (maxLife p)
  /\ scale p = startScale p + (endScale p - startScale p) * uLife p.

(** A puff made by [spawnPuff] from non-negative draws and a non-negative
    strength, at any later age. *)
Definition wellMade (p : Puff) : Prop :=
  0 <= life p /\ 0 < maxLife p /\ startScale p <= endScale p.

Lemma spawnPuff_puffs (P : Puff -> Prop) strength s :
  (forall p, life p = 0 -> position p = vec 0 0 0 ->
             maxLife p = (9#10) + random (randoms s + 9)%nat * (6#10) ->
             startScale p = 15#100 ->
             endScale p = (75#100) + strength * (5#100)
                          + random (randoms s + 13)%nat * (15#100) ->
             P p) ->
  Forall P (puffs s) -> Forall P (puffs (spawnPuff random strength s)).
Proof.
  intros Hnew Hold. unfold spawnPuff.
  destruct (MAX_ACTIVE_PUFFS <=? length (puffs s))%nat; [exact Hold|].
  cbn [puffs]. apply Forall_app. split; [exact Hold|].
  constructor; [|constructor]. apply Hnew; reflexivity.
Qed.

Lemma spawnWhile_puffs (P : Puff -> Prop) fuel strength s :
  (forall k p, life p = 0 -> position p = vec 0 0 0 ->
               maxLife p = (9#10) + random (k + 9)%nat * (6#10) ->
               startScale p = 15#100 ->
               endScale p = (75#100) + strength * (5#100)
                            + random (k + 13)%nat * (15#100) ->
               P p) ->
  Forall P (puffs s) -> Forall P (puffs (spawnWhile random fuel strength s)).
Proof.
  intros Hnew. revert s. induction fuel as [|fuel IH]; intros s Hs; cbn [spawnWhile].
  - exact Hs.
  - destruct (Qlt_le_dec 1 (puffSpawnAccum s)); [|exact Hs].
    apply IH. cbn [setAccum puffs]. apply spawnPuff_puffs; [|exact Hs].
    intros p. apply Hnew.
Qed.

Lemma emitPuffs_puffs (P : Puff -> Prop) dt rate s :
  (forall k p, life p = 0 -> position p = vec 0 0 0 ->
               maxLife p = (9#10) + random (k + 9)%nat * (6#10) ->
               startScale p = 15#100 ->
               endScale p = (75#100) + (rate - FLARE_PUFF_THRESHOLD) * (5#100)
                            + random (k + 13)%nat * (15#100) ->
               FLARE_PUFF_THRESHOLD < rate ->
               P p) ->
  Forall P (puffs s) -> Forall P (puffs (emitPuffs random dt rate s)).
Proof.
  intros Hnew Hs. unfold emitPuffs.
  destruct (Qlt_le_dec FLARE_PUFF_THRESHOLD rate) as [Hgt|]; [|exact Hs].
  apply spawnWhile_puffs; [|exact Hs].
  intros k p H1 H2 H3 H4 H5. apply (Hnew k p); assumption.
Qed.

Lemma updatePuffs_inFlight dt ps :
  Forall onCourse ps -> Forall inFlight (updatePuffs dt ps).1.
Proof.
  induction ps as [|p rest IH]; intros H; cbn [updatePuffs]; [constructor|].
  apply Forall_cons in H. destruct H as [(Hx & Hy & Hz) Hrest].
  specialize (IH Hrest). destruct (updatePuffs dt rest) as [kept removed].
  cbn [fst] in IH.
  destruct (Qlt_le_dec (lifeFraction (life p + dt) (maxLife p)) 1); cbn [fst];
    [|exact IH].
  constructor; [|exact IH].
  unfold inFlight, onCourse.
  cbn [position life v uLife scale startScale endScale maxLife vec x y z].
  split; [|split; reflexivity].
  rewrite Hx, Hy, Hz. split; [ring|]. split; ring.
Qed.

Lemma updatePuffs_wellMade dt ps :
  0 <= dt -> Forall wellMade ps -> Forall wellMade (updatePuffs dt ps).1.
Proof.
  intros Hdt. induction ps as [|p rest IH]; intros H; cbn [updatePuffs]; [constructor|].
  apply Forall_cons in H. destruct H as [(Hl & Hm & Hs) Hrest].
  specialize (IH Hrest). destruct (updatePuffs dt rest) as [kept removed].
  cbn [fst] in IH.
  destruct (Qlt_le_dec (lifeFraction (life p + dt) (maxLife p)) 1); cbn [fst];
    [|exact IH].
  constructor; [|exact IH].
  unfold wellMade. cbn [life maxLife startScale endScale].
  split; [|split; assumption].
  rewrite <- (Qplus_0_l 0). apply Qplus_le_compat; assumption.
Qed.

Lemma inFlight_onCourse ps : Forall inFlight ps -> Forall onCourse ps.
Proof. intros H. eapply Forall_impl; [exact H|]. intros p Hp. apply Hp. Qed.

Lemma animate_inFlight t rate rv s :
  Forall inFlight (puffs s) -> Forall inFlight (puffs (animate random t rate rv s)).
Proof.
  intros Hs. unfold animate.
  pose proof (updatePuffs_inFlight (t - lastT s)
                (puffs (emitPuffs random (t - lastT s) rate s))) as H.
  destruct (updatePuffs (t - lastT s) (puffs (emitPuffs random (t - lastT s) rate s)))
    as [kept removed].
  cbn [puffs fst] in *. apply H.
  apply emitPuffs_puffs; [|apply inFlight_onCourse, Hs].
  intros k p Hl Hp _ _ _ _. unfold onCourse. rewrite Hl, Hp. cbn [vec x y z].
  split; [ring|]. split; ring.
Qed.

Lemma frames_inFlight inputs s :
  Forall inFlight (puffs s) -> Forall inFlight (puffs (frames random inputs s)).
Proof.
  unfold frames. revert s. induction inputs as [|[[t rate] rv] inputs IH]; intros s Hs.
  - exact Hs.
  - cbn [foldl]. apply IH, animate_inFlight, Hs.
Qed.

Hypothesis random_nonneg : forall k, 0 <= random k.

Lemma animate_wellMade t rate rv s :
  lastT s <= t ->
  Forall wellMade (puffs s) -> Forall wellMade (puffs (animate random t rate rv s)).
Proof.
  intros Ht Hs. destruct (animate_fields random t rate rv s) as (_ & _ & E & _).
  rewrite E. apply updatePuffs_wellMade.
  - unfold Qminus. rewrite <- (Qplus_opp_r (lastT s)).
    apply Qplus_le_compat; [exact Ht | apply Qle_refl].
  - apply emitPuffs_puffs; [|exact Hs].
    intros k p Hl _ Hm Hs0 He Hrate. unfold wellMade. rewrite Hl, Hm, Hs0, He.
    pose proof (random_nonneg (k + 9)%nat) as R1.
    pose proof (random_nonneg (k + 13)%nat) as R5.
    unfold FLARE_PUFF_THRESHOLD in *.
    split; [apply Qle_refl|]. split; Lqa.lra.
Qed.

Lemma frames_wellMade inputs s :
  ticking (lastT s) inputs ->
  Forall wellMade (puffs s) -> Forall wellMade (puffs (frames random inputs s)).
Proof.
  unfold frames. revert s. induction inputs as [|[[t rate] rv] inputs IH]; intros s Ht Hs.
  - exact Hs.
  - cbn [foldl]. destruct Ht as [Ht Hrest]. cbn [fst] in Ht, Hrest. apply IH.
    + rewrite animate_lastT. exact Hrest.
    + apply animate_wellMade; assumption.
Qed.

(** The bounds that follow for a puff the loop has kept. *)
Lemma inFlight_bounds p :
  inFlight p -> wellMade p -> life p < maxLife p ->
  uLife p == life p / maxLife p
  /\ 0 <= uLife p /\ uLife p < 1
  /\ startScale p <= scale p /\ scale p <= endScale p.
Proof.
  intros (_ & Hu & Hsc) (Hl & Hm & Hse) Hyoung.
  assert (Eu : uLife p == life p / maxLife p).
  { rewrite Hu. unfold lifeFraction.
    destruct (Qlt_le_dec 0 (maxLife p)) as [_|Hle]; [reflexivity|].
    exfalso. apply (Qlt_irrefl 0). eapply Qlt_le_trans; eassumption. }
  assert (H0 : 0 <= uLife p).
  { rewrite Eu. apply Qle_shift_div_l; [exact Hm|]. rewrite Qmult_0_l. exact Hl. }
  assert (H1 : uLife p < 1).
  { rewrite Eu. apply Qlt_shift_div_r; [exact Hm|]. rewrite Qmult_1_l. exact Hyoung. }
  split; [exact Eu|]. split; [exact H0|]. split; [exact H1|].
  rewrite Hsc.
  assert (Hd : 0 <= endScale p - startScale p) by Lqa.lra.
  assert (Hp : 0 <= (endScale p - startScale p) * uLife p)
    by (apply Qmult_le_0_compat; assumption).
  assert (Hq : (endScale p - startScale p) * uLife p <= (endScale p - startScale p) * 1).
  { rewrite !(Qmult_comm (endScale p - startScale p)).
    apply Qmult_le_compat_r; [apply Qlt_le_weak, H1 | exact Hd]. }
  split; Lqa.lra.
Qed.

End PuffFlight.

(** X1.  After any run of frames whose clock readings never go back, with
    non-negative random draws: every puff in the pool sits at its velocity
    times its age, its [uLife] uniform is its age over its [maxLife], a
    number in [0, 1), and its scale is the interpolation between its start
    and end scale at that fraction, so that it lies between the two. *)
Theorem puff_flight (random : nat -> Q) (inputs : list (Q * Q * Q)) :
  (forall k, (0 <= random k)%Q) ->
  ticking 0 inputs ->
  Forall (fun p =>
            ((Three.x (ThreeDashboard.position p)
              == ThreeDashboard.life p * Three.x (ThreeDashboard.v p))
             /\ (Three.y (ThreeDashboard.position p)
                 == ThreeDashboard.life p * Three.y (ThreeDashboard.v p))
             /\ (Three.z (ThreeDashboard.position p)
                 == ThreeDashboard.life p * Three.z (ThreeDashboard.v p))
             /\ (ThreeDashboard.uLife p
                 == ThreeDashboard.life p / ThreeDashboard.maxLife p)
             /\ (0 <= ThreeDashboard.uLife p) /\ (ThreeDashboard.uLife p < 1)
             /\ ThreeDashboard.scale p
                = ThreeDashboard.startScale p
                  + (ThreeDashboard.endScale p - ThreeDashboard.startScale p)
                    * ThreeDashboard.uLife p
             /\ (ThreeDashboard.startScale p <= ThreeDashboard.scale p)
             /\ (ThreeDashboard.scale p <= ThreeDashboard.endScale p))%Q)
         (ThreeDashboard.puffs
            (ThreeDashboard.frames random inputs ThreeDashboard.mounted)).
Proof.
  intros Hr Ht.
  pose proof (frames_inFlight random inputs ThreeDashboard.mounted) as Hf.
  pose proof (frames_wellMade random Hr inputs ThreeDashboard.mounted Ht) as Hw.
  pose proof (frames_young random inputs) as Hy.
  specialize (Hf (Forall_nil_2 _)). specialize (Hw (Forall_nil_2 _)).
  rewrite Forall_forall in *. intros p Hp.
  specialize (Hf p Hp). specialize (Hw p Hp). specialize (Hy p Hp).
  destruct (inFlight_bounds p Hf Hw Hy) as (Eu & H0 & H1 & Hlo & Hhi).
  destruct Hf as ((Hx & Hy' & Hz) & _ & Hsc).
  repeat (split; [assumption|]). assumption.
Qed.

Lemma puff_flight_witness :
  (forall k, (0 <= (fun _ : nat => 1#2) k)%Q)
  /\ ticking 0 [(1, 19, 8); (2, 19, 8)]%Q
  /\ Forall (fun p => (ThreeDashboard.startScale p <= ThreeDashboard.scale p)%Q)
            (ThreeDashboard.puffs
               (ThreeDashboard.frames (fun _ => 1#2) [(1, 19, 8); (2, 19, 8)]%Q
                  ThreeDashboard.mounted)).
Proof.
  assert (Hr : forall k, (0 <= (fun _ : nat => 1#2) k)%Q) by (intros k; discriminate).
  assert (Ht : ticking 0 [(1, 19, 8); (2, 19, 8)]%Q).
  { cbn [ticking fst]. split; [discriminate|]. split; [discriminate | exact I]. }
  split; [exact Hr|]. split; [exact Ht|].
  eapply Forall_impl;
    [exact (puff_flight (fun _ => 1#2) [(1, 19, 8); (2, 19, 8)]%Q Hr Ht)|].
  intros p H. apply H.
Defined.

(** ** Which pointer hits select something *)

Section Picking.

Import Three SceneGraph.

Lemma parent_root h i :
  parent h = Some (root i) <-> tree h = i /\ length (path h) = 1%nat.
Proof.
  destruct h as [t p]. unfold parent, root. cbn [path tree]. split.
  - destruct p as [|j [|j' p]]; [discriminate | |].
    + intros [= ->]. split; reflexivity.
    + cbn [removelast]. intros H. inversion H.
  - intros [-> H]. destruct p as [|j [|j' p]]; [discriminate | | discriminate].
    reflexivity.
Qed.

Lemma childRefs_shape h i o :
  h ∈ childRefs i o -> tree h = i /\ length (path h) = 1%nat.
Proof.
  unfold childRefs. intros H. apply elem_of_lookup_imap in H.
  destruct H as (j & c & -> & _). split; reflexivity.
Qed.

Lemma root_shape h i : h = root i -> tree h = i /\ length (path h) = 0%nat.
Proof. intros ->. split; reflexivity. Qed.

(** The paths of the meshes strictly below an object are not empty. *)
Lemma meshPaths_below (cs : list Object3D) (j : nat) p :
  p ∈ (fix below (j : nat) (cs : list Object3D) : list (list nat) :=
         match cs with
         | [] => []
         | c :: rest => (cons j <$> meshPaths c) ++ below (S j) rest
         end) j cs ->
  (1 <= length p)%nat.
Proof.
  revert j. induction cs as [|c cs IH]; intros j H; [inversion H|].
  apply elem_of_app in H. destruct H as [H|H]; [|apply (IH _ H)].
  apply list_elem_of_fmap in H. destruct H as (q & -> & _). cbn [length]. lia.
Qed.

(** The three tests of the assembly and drilling handlers come to this:
    the hit is the group of tree [i] itself or one of its children. *)
Definition near (h : Ref) (i : nat) : Prop :=
  tree h = i /\ (length (path h) <= 1)%nat.

Lemma near_tests h i g :
  h = root i \/ h ∈ childRefs i g \/ parent h = Some (root i) <-> near h i.
Proof.
  unfold near. split.
  - intros [H|[H|H]].
    + apply root_shape in H. destruct H as [-> ->]. split; [reflexivity | lia].
    + apply childRefs_shape in H. destruct H as [-> ->]. split; [reflexivity | lia].
    + apply parent_root in H. destruct H as [-> ->]. split; [reflexivity | lia].
  - intros [Ht Hl]. destruct (path h) as [|j [|j' p]] eqn:Ep.
    + left. destruct h as [t p']. cbn [tree path] in *. subst. reflexivity.
    + right. right. apply parent_root. rewrite Ep. split; [exact Ht | reflexivity].
    + cbn [length] in Hl. lia.
Qed.

#[local] Instance near_dec h i : Decision (near h i).
Proof. unfold near. apply _. Defined.

(** Looking for tree [t] from index [i] on. *)
Lemma lookup_from {A} (x : A) (rest : list A) (t i : nat) :
  t <> i -> (i <= t)%nat -> (x :: rest) !! (t - i)%nat = rest !! (t - S i)%nat.
Proof.
  intros Hne Hle. replace (t - i)%nat with (S (t - S i)) by lia. reflexivity.
Qed.

Lemma findPart_spec h i (ps : list AssemblyExplodedScene.Part) :
  AssemblyPick.findPart h i ps
  = if decide ((i <= tree h)%nat /\ (length (path h) <= 1)%nat)
    then ps !! (tree h - i)%nat else None.
Proof.
  revert i. induction ps as [|p ps IH]; intros i; cbn [AssemblyPick.findPart].
  - destruct (decide _); reflexivity.
  - destruct (decide (near h i)) as [Hn|Hn].
    + assert (Ht : bool_decide (h = root i)
                   || bool_decide (h ∈ childRefs i (AssemblyExplodedScene.group p))
                   || bool_decide (parent h = Some (root i)) = true).
      { apply (near_tests h i (AssemblyExplodedScene.group p)) in Hn.
        rewrite !orb_true_iff, !bool_decide_eq_true. tauto. }
      rewrite Ht. destruct Hn as [Hi Hl].
      destruct (decide _) as [_|Hf]; [|exfalso; apply Hf; split; lia].
      rewrite Hi, Nat.sub_diag. reflexivity.
    + assert (Ht : bool_decide (h = root i)
                   || bool_decide (h ∈ childRefs i (AssemblyExplodedScene.group p))
                   || bool_decide (parent h = Some (root i)) = false).
      { apply not_true_is_false. intros Ht. apply Hn.
        apply (near_tests h i (AssemblyExplodedScene.group p)).
        rewrite !orb_true_iff, !bool_decide_eq_true in Ht. tauto. }
      rewrite Ht, IH. unfold near in Hn.
      destruct (decide ((S i <= tree h)%nat /\ (length (path h) <= 1)%nat)) as [[H1 H2]|H1];
        destruct (decide ((i <= tree h)%nat /\ (length (path h) <= 1)%nat)) as [[H3 H4]|H3];
        try reflexivity.
      * symmetry. apply lookup_from; lia.
      * exfalso. apply H3. split; lia.
      * exfalso. apply Hn. split; [|exact H4].
        destruct (decide (tree h = i)) as [E|E]; [exact E|].
        exfalso. apply H1. split; lia.
Qed.

Lemma findSet_spec h i (ss : list DrillingRigScene.HighlightSet) :
  DrillingRigScene.findSet h i ss
  = if decide ((i <= tree h)%nat /\ (length (path h) <= 1)%nat)
    then ss !! (tree h - i)%nat else None.
Proof.
  revert i. induction ss as [|s ss IH]; intros i; cbn [DrillingRigScene.findSet].
  - destruct (decide _); reflexivity.
  - destruct (decide (near h i)) as [Hn|Hn].
    + assert (Ht : bool_decide (h = root i)
                   || bool_decide (parent h = Some (root i))
                   || bool_decide (h ∈ childRefs i (DrillingRigScene.group s)) = true).
      { apply (near_tests h i (DrillingRigScene.group s)) in Hn.
        rewrite !orb_true_iff, !bool_decide_eq_true. tauto. }
      rewrite Ht. destruct Hn as [Hi Hl].
      destruct (decide _) as [_|Hf]; [|exfalso; apply Hf; split; lia].
      rewrite Hi, Nat.sub_diag. reflexivity.
    + assert (Ht : bool_decide (h = root i)
                   || bool_decide (parent h = Some (root i))
                   || bool_decide (h ∈ childRefs i (DrillingRigScene.group s)) = false).
      { apply not_true_is_false. intros Ht. apply Hn.
        apply (near_tests h i (DrillingRigScene.group s)).
        rewrite !orb_true_iff, !bool_decide_eq_true in Ht. tauto. }
      rewrite Ht, IH. unfold near in Hn.
      destruct (decide ((S i <= tree h)%nat /\ (length (path h) <= 1)%nat)) as [[H1 H2]|H1];
        destruct (decide ((i <= tree h)%nat /\ (length (path h) <= 1)%nat)) as [[H3 H4]|H3];
        try reflexivity.
      * symmetry. apply lookup_from; lia.
      * exfalso. apply H3. split; lia.
      * exfalso. apply Hn. split; [|exact H4].
        destruct (decide (tree h = i)) as [E|E]; [exact E|].
        exfalso. apply H1. split; lia.
Qed.

(** Every mesh of the pump assembly hangs at least two levels below its
    part's group: [addPart] wraps what it is given in a group of its own,
    and what it is given is a group each time. *)
Lemma assembly_meshes_deep :
  Forall (fun h => (2 <= length (path h))%nat)
         (AssemblyPick.objs AssemblyExplodedScene.parts).
Proof.
  apply Forall_forall. intros h Hh. apply list_elem_of_In in Hh.
  assert (Hall : forallb (fun h => (2 <=? length (path h))%nat)
                         (AssemblyPick.objs AssemblyExplodedScene.parts) = true)
    by (vm_compute; reflexivity).
  rewrite forallb_forall in Hall. apply Nat.leb_le, Hall, Hh.
Qed.

(** In the drilling rig the meshes of the mud pumps, and only they, hang
    deeper than that. *)
Lemma drilling_meshes_depth :
  Forall (fun h => (length (path h) <= 1)%nat <-> tree h <> 3%nat)
         (DrillingRigScene.objs DrillingRigScene.sets).
Proof.
  apply Forall_forall. intros h Hh. apply list_elem_of_In in Hh.
  assert (Hall : forallb (fun h => Bool.eqb (length (path h) <=? 1)%nat
                                            (negb (tree h =? 3)%nat))
                         (DrillingRigScene.objs DrillingRigScene.sets) = true)
    by (vm_compute; reflexivity).
  rewrite forallb_forall in Hall. specialize (Hall h Hh).
  apply Bool.eqb_prop in Hall.
  rewrite <- Nat.leb_le, Hall, negb_true_iff, Nat.eqb_neq. reflexivity.
Qed.

Lemma parent_tree h q : parent h = Some q -> tree q = tree h.
Proof.
  unfold parent. destruct (path h); [discriminate|]. intros [= <-]. reflexivity.
Qed.

(** Every entry of [allMeshes] carries the key of the set that lists the
    tree its mesh hangs in. *)
Lemma allMeshesFrom_tree i (rs : list (string * Object3D)) m k :
  (m, k) ∈ DashboardPick.allMeshesFrom i rs ->
  (i <= tree m)%nat /\ fst <$> rs !! (tree m - i)%nat = Some k.
Proof.
  revert i. induction rs as [|r rs IH]; intros i H; cbn [DashboardPick.allMeshesFrom] in H.
  - inversion H.
  - apply elem_of_app in H. destruct H as [H|H].
    + apply list_elem_of_fmap in H. destruct H as (m' & [= -> ->] & Hm).
      unfold meshRefs in Hm. apply list_elem_of_fmap in Hm.
      destruct Hm as (p & -> & _). cbn [tree].
      split; [lia|]. rewrite Nat.sub_diag. reflexivity.
    + destruct (IH _ H) as [Hle Hk]. split; [lia|].
      rewrite lookup_from by lia. exact Hk.
Qed.

(** X2.  In the pump-assembly scene a pointer press never reports a
    selection: whatever meshes of the parts the ray meets, and whether or
    not a handler is set, [onSelect] is not called.  (The handler accepts
    a hit only when it is a part's group or a direct child of it, and every
    mesh hangs deeper.) *)
Theorem assembly_click_selects_nothing (onSelectRef : bool) (hits : list Ref) :
  Forall (fun h => h ∈ AssemblyPick.objs AssemblyExplodedScene.parts) hits ->
  AssemblyPick.handlePointerDown onSelectRef AssemblyExplodedScene.parts hits = None.
Proof.
  intros Hhits. unfold AssemblyPick.handlePointerDown.
  destruct onSelectRef; [|reflexivity]. destruct hits as [|h rest]; [reflexivity|].
  apply Forall_cons in Hhits. destruct Hhits as [Hh _].
  pose proof assembly_meshes_deep as Hdeep. rewrite Forall_forall in Hdeep.
  specialize (Hdeep h Hh). rewrite findPart_spec.
  destruct (decide _) as [[_ Hl]|_]; [lia | reflexivity].
Qed.

(** X3.  In the drilling-rig scene a pointer press whose nearest hit is a
    mesh of the derrick, the traveling block, the drill string or the BOP
    stack calls [onSelect] with that set's key; one whose nearest hit is a
    mesh of the mud pumps, whose meshes hang inside the two pump groups,
    calls nothing. *)
Theorem drilling_click_misses_mud_pumps (h : Ref) (rest : list Ref) :
  h ∈ DrillingRigScene.objs DrillingRigScene.sets ->
  DrillingRigScene.key <$> DrillingRigScene.sets
    = ["derrick"; "travelingblock"; "drillstring"; "mudpumps"; "bop"]%string
  /\ DrillingRigScene.handlePointerDown true DrillingRigScene.sets (h :: rest)
     = if (tree h =? 3)%nat then None
       else DrillingRigScene.key <$> DrillingRigScene.sets !! tree h.
Proof.
  intros Hh. split; [reflexivity|].
  pose proof drilling_meshes_depth as Hd. rewrite Forall_forall in Hd.
  specialize (Hd h Hh). unfold DrillingRigScene.handlePointerDown.
  rewrite findSet_spec, Nat.sub_0_r.
  destruct (Nat.eqb_spec (tree h) 3) as [E|E].
  - destruct (decide _) as [[_ Hl]|_]; [|reflexivity].
    apply Hd in Hl. contradiction.
  - destruct (decide _) as [_|Hf]; [reflexivity|].
    exfalso. apply Hf. split; [lia | apply Hd, E].
Qed.

(** X4.  In the dashboard a pointer press whose nearest hit is any mesh of
    the highlight sets, however deep it hangs, calls [onSelect] with the
    key of the set that lists the object the mesh belongs to. *)
Theorem dashboard_click_selects_set (sets : list ThreeDashboard.HighlightSet)
  (hitObj : Ref) (rest : list Ref) :
  hitObj ∈ (fst <$> DashboardPick.allMeshes sets) ->
  exists k,
    fst <$> DashboardPick.roots sets !! tree hitObj = Some k
    /\ DashboardPick.onPointerDown true sets (hitObj :: rest) = Some k.
Proof.
  intros Hh. apply list_elem_of_fmap in Hh. destruct Hh as ([m k] & -> & Hin).
  cbn [fst]. exists k.
  destruct (allMeshesFrom_tree 0 _ m k Hin) as [_ Hk]. rewrite Nat.sub_0_r in Hk.
  split; [exact Hk|]. unfold DashboardPick.onPointerDown.
  destruct (List.find _ (DashboardPick.allMeshes sets)) as [[m' k']|] eqn:Hf.
  - apply find_some in Hf. destruct Hf as [Hin' Ht]. cbn [fst] in Ht.
    apply list_elem_of_In in Hin'.
    destruct (allMeshesFrom_tree 0 _ m' k' Hin') as [_ Hk']. rewrite Nat.sub_0_r in Hk'.
    assert (E : tree m' = tree m).
    { apply orb_true_iff in Ht. destruct Ht as [Ht|Ht]; apply bool_decide_eq_true in Ht.
      - rewrite Ht. reflexivity.
      - apply parent_tree, Ht. }
    rewrite E, Hk in Hk'. injection Hk' as <-. reflexivity.
  - exfalso. apply list_elem_of_In in Hin.
    pose proof (find_none _ _ Hf (m, k) Hin) as Ht. cbn [fst] in Ht.
    apply orb_false_iff in Ht. destruct Ht as [Ht _].
    apply bool_decide_eq_false in Ht. apply Ht. reflexivity.
Qed.

End Picking.

Lemma assembly_click_selects_nothing_witness :
  Forall (fun h => h ∈ AssemblyPick.objs AssemblyExplodedScene.parts)
         [{| SceneGraph.tree := 5; SceneGraph.path := [0; 0; 3] |}]
  /\ AssemblyPick.handlePointerDown true AssemblyExplodedScene.parts
       [{| SceneGraph.tree := 5; SceneGraph.path := [0; 0; 3] |}] = None.
Proof.
  assert (H : Forall (fun h => h ∈ AssemblyPick.objs AssemblyExplodedScene.parts)
                     [{| SceneGraph.tree := 5; SceneGraph.path := [0; 0; 3] |}]).
  { constructor; [|constructor]. apply (bool_decide_unpack _). vm_compute. exact I. }
  split; [exact H|]. apply (assembly_click_selects_nothing true _ H).
Defined.

Lemma drilling_click_misses_mud_pumps_witness :
  {| SceneGraph.tree := 3; SceneGraph.path := [1; 0] |}
    ∈ DrillingRigScene.objs DrillingRigScene.sets
  /\ DrillingRigScene.handlePointerDown true DrillingRigScene.sets
       [{| SceneGraph.tree := 3; SceneGraph.path := [1; 0] |}] = None.
Proof.
  assert (H : {| SceneGraph.tree := 3; SceneGraph.path := [1; 0] |}
                ∈ DrillingRigScene.objs DrillingRigScene.sets).
  { apply (bool_decide_unpack _). vm_compute. exact I. }
  split; [exact H|].
  apply (drilling_click_misses_mud_pumps _ [] H).
Defined.

Lemma dashboard_click_selects_set_witness :
  {| SceneGraph.tree := 1; SceneGraph.path := [2] |}
    ∈ (fst <$> DashboardPick.allMeshes ThreeDashboard.flareAndPipelines)
  /\ exists k,
       fst <$> DashboardPick.roots ThreeDashboard.flareAndPipelines !! 1%nat = Some k
       /\ DashboardPick.onPointerDown true ThreeDashboard.flareAndPipelines
            [{| SceneGraph.tree := 1; SceneGraph.path := [2] |}] = Some k.
Proof.
  assert (H : {| SceneGraph.tree := 1; SceneGraph.path := [2] |}
                ∈ (fst <$> DashboardPick.allMeshes ThreeDashboard.flareAndPipelines)).
  { apply (bool_decide_unpack _). vm_compute. exact I. }
  split; [exact H|].
  apply (dashboard_click_selects_set ThreeDashboard.flareAndPipelines _ [] H).
Defined.

(** ** The drilling rig's focus highlight *)

Section DrillingFocus.

Import Three.
Local Open Scope Q_scope.

(** The look the drilling rig's highlight gives, whatever the material. *)
Definition drillingLit (m0 : Material) : Color * option Q :=
  (Color_setHex 0x1679c2, Some (12#10)).

Lemma drilling_restore_idem m :
  DrillingRigScene.restore (DrillingRigScene.restore m) = DrillingRigScene.restore m.
Proof.
  unfold DrillingRigScene.restore. destruct m as [e ei [oe|] [oei|]]; reflexivity.
Qed.

Lemma drilling_highlight_idem m :
  DrillingRigScene.highlight (DrillingRigScene.highlight m) = DrillingRigScene.highlight m.
Proof.
  unfold DrillingRigScene.highlight, DrillingRigScene.capture.
  destruct m as [e ei [oe|] oei]; reflexivity.
Qed.

Lemma drilling_highlight_restore m :
  DrillingRigScene.highlight (DrillingRigScene.restore (DrillingRigScene.highlight m))
  = DrillingRigScene.highlight m.
Proof.
  unfold DrillingRigScene.highlight, DrillingRigScene.restore, DrillingRigScene.capture.
  destruct m as [e ei [oe|] [oei|]]; reflexivity.
Qed.

Lemma drilling_restore_tracks hex i m :
  tracks (material hex i) m ->
  tracks (material hex i) (DrillingRigScene.restore m)
  /\ look (DrillingRigScene.restore m) = look (material hex i).
Proof.
  intros [->|[HE HI]].
  - split; [left|]; reflexivity.
  - unfold DrillingRigScene.restore. rewrite HE. split.
    + right. simpl. split; first [reflexivity | exact HE | exact HI].
    + unfold look. simpl. rewrite setHex_getHex_setHex, HI. reflexivity.
Qed.

Lemma drilling_highlight_tracks hex i m :
  tracks (material hex i) m ->
  tracks (material hex i) (DrillingRigScene.highlight m)
  /\ look (DrillingRigScene.highlight m) = drillingLit (material hex i).
Proof.
  intros [->|[HE HI]].
  - split; [right; simpl; split|]; reflexivity.
  - unfold DrillingRigScene.highlight, DrillingRigScene.capture.
    rewrite HE. split; [|reflexivity].
    right. simpl. split; first [reflexivity | exact HE | exact HI].
Qed.

Lemma drilling_focusEffect_applyFocus sets focus st :
  DrillingRigScene.focusEffect sets focus st
  = applyFocus DrillingRigScene.restore DrillingRigScene.highlight
               DrillingRigScene.key DrillingRigScene.setMaterials sets focus st.
Proof.
  unfold DrillingRigScene.focusEffect, applyFocus, focusOn, resolve,
    DrillingRigScene.truthy.
  rewrite (forEachMaterial_groups DrillingRigScene.restore DrillingRigScene.setMaterials).
  destruct focus as [k|]; [|reflexivity].
  destruct (String.eqb k ""); [reflexivity|].
  destruct (List.find _ sets); reflexivity.
Qed.

Lemma drilling_sequence sets ks st :
  foldl (fun s k => DrillingRigScene.focusEffect sets k s) st ks
  = foldl (fun s k => applyFocus DrillingRigScene.restore DrillingRigScene.highlight
                        DrillingRigScene.key DrillingRigScene.setMaterials sets k s) st ks.
Proof.
  revert st. induction ks as [|k ks IH]; intros st; cbn [foldl]; [reflexivity|].
  rewrite IH, drilling_focusEffect_applyFocus. reflexivity.
Qed.

Lemma drilling_scene_fresh : Forall Fresh DrillingRigScene.materials.
Proof. apply freshb_sound. vm_compute. reflexivity. Qed.

Lemma drilling_scene_exclusive :
  exclusive (DrillingRigScene.setMaterials <$> DrillingRigScene.sets).
Proof. apply exclusiveb_sound. vm_compute. reflexivity. Qed.

(** X5.  Take any sequence of focus changes on a freshly built drilling
    rig whose highlight sets share no material, ending in the key [focus].
    Every material of a set whose key is not [focus] looks exactly as it was
    built; when [focus] names a set, every standard material of that set
    has the emissive colour 0x1679c2 at intensity 1.2; and running the
    effect a second time with the same focus changes nothing. *)
Theorem drilling_focus_sequence
  (sets : list DrillingRigScene.HighlightSet) (st0 : Store)
  (ks : list (option string)) (focus : option string) :
  Forall Fresh st0 ->
  exclusive (DrillingRigScene.setMaterials <$> sets) ->
  let st := foldl (fun s f => DrillingRigScene.focusEffect sets f s) st0 (ks ++ [focus]) in
  (forall i s j,
      sets !! i = Some s -> focus <> Some (DrillingRigScene.key s) ->
      j ∈ DrillingRigScene.setMaterials s -> lookAt st j = lookAt st0 j)
  /\ (forall k s j m0,
      focus = Some k -> k <> ""%string ->
      List.find (fun s => String.eqb (DrillingRigScene.key s) k) sets = Some s ->
      j ∈ DrillingRigScene.setMaterials s -> st0 !! j = Some (Standard m0) ->
      lookAt st j = Some (Color_setHex 0x1679c2, Some (12#10)))
  /\ DrillingRigScene.focusEffect sets focus st = st.
Proof.
  intros Hf Hx st. subst st. rewrite drilling_sequence.
  split; [|split].
  - intros i s j.
    apply (applyFocus_others_original _ _ drillingLit drilling_restore_idem
             drilling_highlight_idem drilling_restore_tracks
             drilling_highlight_tracks _ _ sets ks focus st0 i s j Hf Hx).
  - intros k s j m0 -> Hne Hfind Hj Hm.
    assert (Hr : resolve DrillingRigScene.key DrillingRigScene.setMaterials sets (Some k)
                 = Some (DrillingRigScene.setMaterials s)).
    { unfold resolve. destruct (String.eqb_spec k ""); [contradiction|].
      rewrite Hfind. reflexivity. }
    rewrite (applyFocus_target_lit _ _ drillingLit drilling_restore_idem
               drilling_highlight_idem drilling_restore_tracks
               drilling_highlight_tracks _ _ sets ks (Some k) st0
               (DrillingRigScene.setMaterials s) j m0 Hf Hr Hj Hm).
    reflexivity.
  - rewrite foldl_snoc, drilling_focusEffect_applyFocus.
    apply applyFocus_twice;
      [apply drilling_restore_idem | apply drilling_highlight_idem
       | apply drilling_highlight_restore].
Qed.

End DrillingFocus.

Lemma drilling_focus_sequence_witness :
  Forall Fresh DrillingRigScene.materials
  /\ exclusive (DrillingRigScene.setMaterials <$> DrillingRigScene.sets)
  /\ lookAt (foldl (fun s f => DrillingRigScene.focusEffect DrillingRigScene.sets f s)
                   DrillingRigScene.materials
                   [Some "derrick"%string; Some "bop"%string]) 0
     = lookAt DrillingRigScene.materials 0.
Proof.
  split; [exact drilling_scene_fresh|]. split; [exact drilling_scene_exclusive|].
  destruct (DrillingRigScene.sets !! 0%nat) as [s|] eqn:Hs;
    [|vm_compute in Hs; discriminate].
  destruct (drilling_focus_sequence DrillingRigScene.sets DrillingRigScene.materials
              [Some "derrick"%string] (Some "bop"%string)
              drilling_scene_fresh drilling_scene_exclusive) as [Hother _].
  apply (Hother 0%nat s 0%nat Hs).
  - vm_compute in Hs. injection Hs as <-. discriminate.
  - vm_compute in Hs. injection Hs as <-.
    apply (bool_decide_unpack _). vm_compute. exact I.
Defined.

(** ** The focus a scene is mounted with *)

Section FocusAtMount.

Import Three SceneComponents.

Lemma sameFocus_refl focus : sameFocus focus focus = true.
Proof. destruct focus as [k|]; [apply String.eqb_refl | reflexivity]. Qed.

Lemma render_same {G} (effect : list G -> option string -> Store -> Store)
  (s : Scene G) (n : nat) :
  foldl (render effect) s (replicate n (focusProp s)) = s.
Proof.
  induction n as [|n IH]; [reflexivity|].
  cbn [replicate foldl]. unfold render at 2. rewrite sameFocus_refl. exact IH.
Qed.

Lemma assembly_mount cm focus :
  AssemblyExplodedScene_mount cm focus
  = {| ref := AssemblyExplodedScene.parts; store := AssemblyExplodedScene.materials;
       focusProp := focus |}.
Proof.
  unfold AssemblyExplodedScene_mount, mountFocusFirst, focusHook, firstRender.
  cbn [ref store focusProp].
  assert (E : AssemblyExplodedScene.focusEffect cm [] focus [] = []).
  { unfold AssemblyExplodedScene.focusEffect. cbn [foldl List.find].
    destruct (AssemblyExplodedScene.truthy focus); reflexivity. }
  rewrite E. unfold mountHook. cbn [store focusProp].
  unfold AssemblyExplodedScene.parts, AssemblyExplodedScene.materials.
  destruct (AssemblyExplodedScene.buildParts []). reflexivity.
Qed.

Lemma drilling_mount focus :
  DrillingRigScene_mount focus
  = {| ref := DrillingRigScene.sets; store := DrillingRigScene.materials;
       focusProp := focus |}.
Proof.
  unfold DrillingRigScene_mount, mountFocusFirst, focusHook, firstRender.
  cbn [ref store focusProp].
  assert (E : DrillingRigScene.focusEffect [] focus [] = []).
  { unfold DrillingRigScene.focusEffect. cbn [foldl List.find].
    destruct (DrillingRigScene.truthy focus); reflexivity. }
  rewrite E. unfold mountHook. cbn [store focusProp].
  unfold DrillingRigScene.sets, DrillingRigScene.materials.
  destruct (DrillingRigScene.buildSets []). reflexivity.
Qed.

(** X6.  The pump-assembly and drilling-rig components run their focus
    effect before the effect that builds the scene, so the focus they are
    mounted with highlights nothing: after the mount, and after any number
    of further renders with that same focus, every material is as it was
    built.  The highlight appears only once the focus prop has changed,
    and is then what the focus effect makes of the built scene.  The
    dashboard builds its scene first and highlights the focus it is mounted
    with at once. *)
Theorem mount_focus_not_highlighted (cm : ColorManagement)
  (focus : option string) (n : nat) :
  let a := foldl (AssemblyExplodedScene_render cm) (AssemblyExplodedScene_mount cm focus)
                 (replicate n focus) in
  let d := foldl DrillingRigScene_render (DrillingRigScene_mount focus)
                 (replicate n focus) in
  (ref a = AssemblyExplodedScene.parts /\ store a = AssemblyExplodedScene.materials)
  /\ (ref d = DrillingRigScene.sets /\ store d = DrillingRigScene.materials)
  /\ (forall focus',
        sameFocus focus focus' = false ->
        store (AssemblyExplodedScene_render cm a focus')
          = AssemblyExplodedScene.focusEffect cm AssemblyExplodedScene.parts focus'
              AssemblyExplodedScene.materials
        /\ store (DrillingRigScene_render d focus')
           = DrillingRigScene.focusEffect DrillingRigScene.sets focus'
               DrillingRigScene.materials)
  /\ store (ThreeDashboard_mount focus)
     = ThreeDashboard.focusEffect ThreeDashboard.flareAndPipelines focus
         ThreeDashboard.flareAndPipelinesMaterials.
Proof.
  intros a d.
  assert (Ea : a = {| ref := AssemblyExplodedScene.parts;
                      store := AssemblyExplodedScene.materials; focusProp := focus |}).
  { subst a. unfold AssemblyExplodedScene_render. rewrite assembly_mount.
    apply (render_same (AssemblyExplodedScene.focusEffect cm)
             {| ref := AssemblyExplodedScene.parts;
                store := AssemblyExplodedScene.materials; focusProp := focus |}). }
  assert (Ed : d = {| ref := DrillingRigScene.sets;
                      store := DrillingRigScene.materials; focusProp := focus |}).
  { subst d. unfold DrillingRigScene_render. rewrite drilling_mount.
    apply (render_same DrillingRigScene.focusEffect
             {| ref := DrillingRigScene.sets;
                store := DrillingRigScene.materials; focusProp := focus |}). }
  rewrite Ea, Ed. cbn [ref store].
  split; [split; reflexivity|]. split; [split; reflexivity|]. split.
  - intros focus' Hne.
    unfold AssemblyExplodedScene_render, DrillingRigScene_render, render.
    cbn [focusProp]. rewrite Hne. split; reflexivity.
  - unfold ThreeDashboard_mount, mountBuildFirst, mountHook, firstRender.
    cbn [store focusProp].
    unfold ThreeDashboard.flareAndPipelines, ThreeDashboard.flareAndPipelinesMaterials.
    destruct (ThreeDashboard.buildSets []). reflexivity.
Qed.

End FocusAtMount.

(** ** Brightness and the fill light *)

Section Lights.

Import DashboardLights.
Local Open Scope R_scope.

Lemma flicker_bounds t : 0.52 <= flicker t <= 1.48.
Proof.
  unfold flicker.
  pose proof (SIN_bound (t * 15.0)) as [H1 H1'].
  pose proof (SIN_bound (t * 7.3 + 1.0)) as [H2 H2'].
  pose proof (SIN_bound (t * 23.7)) as [H3 H3'].
  split; lra.
Qed.

(** The brightness the parent rendered with last. *)
Definition lastBrightness (b0 : R) (es : list Event) : R :=
  foldl (fun b e => match e with Render b' => b' | Frame _ => b end) b0 es.

(** What holds of the scene whatever has happened since the mount with
    brightness [b0]. *)
Definition lit (b0 : R) (s : Scene) : Prop :=
  baseFillIntensity s = 1.35 * b0
  /\ toneMappingExposure (lights s) = 1.15 * brightness s
  /\ hemi (lights s) = 0.7 * brightness s
  /\ key (lights s) = 1.25 * brightness s
  /\ rim (lights s) = 0.55 * brightness s.

Lemma mount_lit b0 : lit b0 (mount b0) /\ brightness (mount b0) = b0.
Proof. unfold lit, mount. cbn. repeat split; reflexivity. Qed.

Lemma step_lit b0 s e : lit b0 s -> lit b0 (step s e).
Proof.
  intros (Hb & He & Hh & Hk & Hr). destruct e as [b|t]; cbn [step].
  - destruct (Req_dec_T (brightness s) b) as [E|E].
    + unfold lit. repeat split; assumption.
    + unfold lit. cbn. repeat split; try reflexivity. exact Hb.
  - unfold lit. cbn. repeat split; assumption.
Qed.

Lemma step_brightness s e :
  brightness (step s e)
  = match e with Render b' => b' | Frame _ => brightness s end.
Proof.
  destruct e as [b|t]; cbn [step]; [|reflexivity].
  destruct (Req_dec_T (brightness s) b) as [E|E]; [exact E | reflexivity].
Qed.

Lemma run_lit b0 es :
  lit b0 (run b0 es) /\ brightness (run b0 es) = lastBrightness b0 es.
Proof.
  unfold run, lastBrightness. induction es as [|e es IH] using rev_ind.
  - apply mount_lit.
  - rewrite !foldl_snoc. destruct IH as [IH1 IH2]. split.
    + apply step_lit, IH1.
    + rewrite step_brightness, IH2. reflexivity.
Qed.

(** X7.  Whatever brightness changes and frames have followed the mount
    with brightness [b0]: the tone-mapping exposure and the hemisphere,
    key and rim lights are 1.15, 0.7, 1.25 and 0.55 times the brightness
    rendered last; but every frame sets the fill light to
    [1.35 * b0 * flicker t], from the brightness of the mount, so a later
    brightness never outlasts a frame there.  For a non-negative [b0] the
    fill light stays between 0.702 and 1.998 times [b0]. *)
Theorem fill_light_ignores_brightness (b0 : R) (es : list Event) (t : R) :
  let s := run b0 es in
  brightness s = lastBrightness b0 es
  /\ toneMappingExposure (lights s) = 1.15 * brightness s
  /\ hemi (lights s) = 0.7 * brightness s
  /\ key (lights s) = 1.25 * brightness s
  /\ rim (lights s) = 0.55 * brightness s
  /\ fill (lights (run b0 (es ++ [Frame t]))) = 1.35 * b0 * flicker t
  /\ (0 <= b0 ->
      0.702 * b0 <= fill (lights (run b0 (es ++ [Frame t]))) <= 1.998 * b0).
Proof.
  intros s. destruct (run_lit b0 es) as [(Hb & He & Hh & Hk & Hr) Hlast].
  fold s in Hb, He, Hh, Hk, Hr, Hlast.
  assert (Hfill : fill (lights (run b0 (es ++ [Frame t]))) = 1.35 * b0 * flicker t).
  { unfold run. rewrite foldl_snoc. cbn [step animate lights fill].
    fold (run b0 es). fold s. rewrite Hb. reflexivity. }
  repeat (split; [assumption|]).
  intros Hpos. rewrite Hfill. pose proof (flicker_bounds t) as [F1 F2].
  split; nra.
Qed.

End Lights.

(** ** The markers that run along the pipelines *)

Section Flows.

Import PipelineFlows.
Local Open Scope Q_scope.

(** The remainder of a non-negative number lies in [0, 1) and differs
    from the number by a whole number. *)
Lemma mod1_nonneg (x : Q) :
  0 <= x ->
  0 <= mod1 x /\ mod1 x < 1 /\ exists k : Z, mod1 x == x - inject_Z k.
Proof.
  intros Hx. unfold mod1.
  assert (E : Z.quot (Qnum x) (Zpos (Qden x)) = Qfloor x).
  { destruct x as [n d]. cbn [Qnum Qden Qfloor].
    apply Z.quot_div_nonneg; [|reflexivity].
    unfold Qle in Hx. cbn in Hx. lia. }
  rewrite E. pose proof (Qfloor_le x) as H1. pose proof (Qlt_floor x) as H2.
  rewrite inject_Z_plus in H2. change (inject_Z 1) with 1 in H2.
  split; [Lqa.lra|]. split; [Lqa.lra|]. exists (Qfloor x). reflexivity.
Qed.

Lemma advance_iter (f : Flow) (n : nat) :
  0 <= speed f -> 0 <= progress f -> progress f < 1 ->
  let g := Nat.iter n advance f in
  speed g = speed f
  /\ 0 <= progress g /\ progress g < 1
  /\ exists k : Z,
       progress g == progress f + ofNat n * (speed f * (16#1000)) - inject_Z k.
Proof.
  intros Hs H0 H1. induction n as [|n IH]; cbn [Nat.iter].
  - split; [reflexivity|]. split; [exact H0|]. split; [exact H1|].
    exists 0%Z. unfold ofNat. cbn. ring.
  - destruct IH as (Es & G0 & G1 & k & Ek).
    set (g := Nat.iter n advance f) in *.
    change (Nat.iter (S n) advance f) with (advance g). cbn [advance speed progress].
    assert (Hx : 0 <= progress g + speed g * (16#1000)).
    { rewrite Es. apply Qle_trans with (progress g); [exact G0|].
      rewrite <- (Qplus_0_r (progress g)) at 1.
      apply Qplus_le_compat; [apply Qle_refl|].
      apply Qmult_le_0_compat; [exact Hs | discriminate]. }
    destruct (mod1_nonneg _ Hx) as (M0 & M1 & k' & Ek').
    split; [exact Es|]. split; [exact M0|]. split; [exact M1|].
    exists (k + k')%Z. rewrite Ek', Ek, Es. unfold ofNat.
    rewrite Nat2Z.inj_succ. unfold Z.succ. rewrite !inject_Z_plus. ring.
Qed.

Lemma animate_iter (flows : list Flow) (n : nat) :
  Nat.iter n animate flows = List.map (Nat.iter n advance) flows.
Proof.
  induction n as [|n IH].
  - symmetry. apply map_id.
  - change (Nat.iter (S n) animate flows) with (animate (Nat.iter n animate flows)).
    rewrite IH. unfold animate. rewrite map_map. reflexivity.
Qed.

Lemma ofNat_lt (a b : nat) : (a < b)%nat -> ofNat a / ofNat b < 1.
Proof.
  intros H. unfold ofNat.
  assert (Hb : 0 < inject_Z (Z.of_nat b)).
  { change 0 with (inject_Z 0). rewrite <- Zlt_Qlt. lia. }
  apply Qlt_shift_div_r; [exact Hb|]. rewrite Qmult_1_l. rewrite <- Zlt_Qlt. lia.
Qed.

Lemma ofNat_nonneg (a b : nat) : (0 < b)%nat -> 0 <= ofNat a / ofNat b.
Proof.
  intros H. unfold ofNat.
  assert (Hb : 0 < inject_Z (Z.of_nat b)).
  { change 0 with (inject_Z 0). rewrite <- Zlt_Qlt. lia. }
  apply Qle_shift_div_l; [exact Hb|]. rewrite Qmult_0_l.
  change 0 with (inject_Z 0). rewrite <- Zle_Qle. lia.
Qed.

Lemma buildFlows_sound (random : nat -> Q) (idx : nat) :
  (forall k, 0 <= random k) ->
  Forall (fun f => 0 <= speed f /\ 0 <= progress f /\ progress f < 1)
         (buildFlows random idx).
Proof.
  intros Hr. unfold buildFlows. apply Forall_forall. intros f Hf.
  apply list_elem_of_In, in_map_iff in Hf. destruct Hf as (i & <- & Hi).
  apply in_seq in Hi. cbn [speed progress].
  assert (Hc : (0 < flowCount idx)%nat).
  { unfold flowCount. destruct (idx =? 0)%nat; lia. }
  split; [|split].
  - pose proof (Hr i) as Hi0. destruct (idx =? 0)%nat; Lqa.lra.
  - apply ofNat_nonneg, Hc.
  - apply ofNat_lt. lia.
Qed.

Lemma Forall2_map_diag {A} (P : A -> Prop) (Q' : A -> A -> Prop) (h : A -> A) l :
  (forall a, P a -> Q' a (h a)) -> Forall P l -> Forall2 Q' l (List.map h l).
Proof.
  intros Hh Hl. induction Hl as [|a l Ha _ IH]; cbn [List.map]; constructor; auto.
Qed.

(** X8.  Each frame moves every flow marker on by [speed * 0.016] of the
    pipeline's length and wraps at 1, whatever time has passed since the
    frame before.  So after [n] frames, with non-negative random draws, a
    marker of pipeline [idx] has its speed unchanged and a progress in
    [0, 1) that differs from [i / flowCount + n * speed * 0.016] by a
    whole number. *)
Theorem pipeline_markers_wrap (random : nat -> Q) (idx n : nat) :
  (forall k, 0 <= random k) ->
  Forall2 (fun f0 f =>
             speed f = speed f0
             /\ 0 <= progress f /\ progress f < 1
             /\ exists k : Z,
                  progress f
                  == progress f0 + ofNat n * (speed f0 * (16#1000)) - inject_Z k)
          (buildFlows random idx)
          (Nat.iter n animate (buildFlows random idx)).
Proof.
  intros Hr. rewrite animate_iter.
  apply (Forall2_map_diag
           (fun f => 0 <= speed f /\ 0 <= progress f /\ progress f < 1));
    [|apply buildFlows_sound, Hr].
  intros f (Hs & H0 & H1). apply (advance_iter f n Hs H0 H1).
Qed.

End Flows.

Lemma pipeline_markers_wrap_witness :
  (forall k, (0 <= (fun _ : nat => 1#2) k)%Q)
  /\ Forall2 (fun f0 f => PipelineFlows.speed f = PipelineFlows.speed f0)
             (PipelineFlows.buildFlows (fun _ => 1#2) 0)
             (Nat.iter 100 PipelineFlows.animate
                (PipelineFlows.buildFlows (fun _ => 1#2) 0)).
Proof.
  assert (Hr : forall k, (0 <= (fun _ : nat => 1#2) k)%Q) by (intros k; discriminate).
  split; [exact Hr|].
  eapply Forall2_impl; [exact (pipeline_markers_wrap (fun _ => 1#2) 0 100 Hr)|].
  intros f0 f H. apply H.
Defined.

(** ** The level of the bulk fluid in a tank *)

Section Tanks.

Import TankLevels.
Local Open Scope R_scope.

Variable spec : TankSpec.
Hypothesis tall : 0.18 < height spec.

Lemma levelFrac_pos : 0 < levelFrac spec.
Proof. unfold levelFrac. destruct (type spec); lra. Qed.

(** The scale the bulk mesh is built with. *)
Definition builtScale : R := levelFrac spec * (height spec - 0.18).

(** What holds of the tank between frames. *)
Definition steady (g : Tank) : Prop :=
  position_x g = x spec
  /\ fluidLevel g = levelFrac spec
  /\ (fullFluidScale g = Some (height spec - 0.18)
      \/ (fullFluidScale g = None /\ bulk_scale_y g = builtScale))
  /\ 0.8 * builtScale <= bulk_scale_y g <= builtScale.

Lemma buildTank_steady : steady (buildTank spec).
Proof.
  unfold steady, buildTank, builtScale. cbn.
  pose proof levelFrac_pos as Hl.
  split; [reflexivity|]. split; [reflexivity|]. split; [right; split; reflexivity|].
  split; nra.
Qed.

Lemma animateTank_steady t g :
  steady g ->
  steady (animateTank t g)
  /\ fullFluidScale (animateTank t g) = Some (height spec - 0.18)
  /\ bulk_position_y (animateTank t g) = bulk_scale_y (animateTank t g) / 2.
Proof.
  intros (Hx & Hl & Hmemo & Hlo & Hhi).
  pose proof levelFrac_pos as Hpos.
  assert (Hfull : orElse (fullFluidScale g)
                         (bulk_scale_y g / orElse (Some (fluidLevel g)) 1)
                  = height spec - 0.18).
  { destruct Hmemo as [E|[E Es]]; rewrite E; cbn [orElse].
    - destruct (Req_dec_T (height spec - 0.18) 0); [lra | reflexivity].
    - rewrite Hl. destruct (Req_dec_T (levelFrac spec) 0); [lra|].
      rewrite Es. unfold builtScale. field. lra. }
  unfold animateTank. cbv zeta. rewrite Hfull.
  cbn [fullFluidScale bulk_position_y bulk_scale_y].
  split; [|split; reflexivity].
  unfold steady. cbn [position_x fluidLevel fullFluidScale bulk_scale_y].
  split; [exact Hx|]. split; [exact Hl|]. split; [left; reflexivity|].
  rewrite Hl. pose proof (SIN_bound (t * 0.25 + position_x g)) as [S1 S2].
  set (c := 0.9 + 0.1 * sin (t * 0.25 + position_x g)) in *.
  assert (Hc : 0.8 <= c <= 1) by (unfold c; lra).
  assert (Hb : 0 < builtScale) by (unfold builtScale; nra).
  assert (Ed : levelFrac spec * c * (height spec - 0.18) = builtScale * c)
    by (unfold builtScale; ring).
  rewrite Ed. split; nra.
Qed.

Lemma frames_steady ts : steady (frames ts (buildTank spec)).
Proof.
  unfold frames. induction ts as [|t ts IH] using rev_ind.
  - apply buildTank_steady.
  - rewrite foldl_snoc. apply animateTank_steady, IH.
Qed.

End Tanks.

(** X9.  For a tank taller than 0.18, after any run of frames: the scale
    of the bulk-fluid mesh lies between 80 % and 100 % of the scale it was
    built with, [levelFrac * (height - 0.18)]; and once a frame has run,
    the full scale remembered on the group is [height - 0.18] and the mesh
    sits at half its scale. *)
Theorem tank_level_stays_in_band (spec : TankLevels.TankSpec) (ts : list R) :
  (0.18 < TankLevels.height spec)%R ->
  let g := TankLevels.frames ts (TankLevels.buildTank spec) in
  (0.8 * builtScale spec <= TankLevels.bulk_scale_y g <= builtScale spec)%R
  /\ (ts <> [] ->
      TankLevels.fullFluidScale g = Some (TankLevels.height spec - 0.18)%R
      /\ TankLevels.bulk_position_y g = (TankLevels.bulk_scale_y g / 2)%R).
Proof.
  intros Htall g. split; [apply (frames_steady spec Htall ts)|].
  intros Hne. subst g. destruct ts as [|t ts] using rev_ind; [contradiction|].
  unfold TankLevels.frames. rewrite foldl_snoc.
  apply (animateTank_steady spec Htall), (frames_steady spec Htall ts).
Qed.

Lemma tank_level_stays_in_band_witness :
  (0.18 < TankLevels.height
            {| TankLevels.x := -5.0; TankLevels.z := -2.2; TankLevels.height := 1.18;
               TankLevels.r := 0.6; TankLevels.type := TankLevels.crude |})%R
  /\ (TankLevels.bulk_scale_y
        (TankLevels.frames [0; 0.016]%R
           (TankLevels.buildTank
              {| TankLevels.x := -5.0; TankLevels.z := -2.2; TankLevels.height := 1.18;
                 TankLevels.r := 0.6; TankLevels.type := TankLevels.crude |}))
      <= 0.62 * (1.18 - 0.18))%R.
Proof.
  assert (H : (0.18 < TankLevels.height
            {| TankLevels.x := -5.0; TankLevels.z := -2.2; TankLevels.height := 1.18;
               TankLevels.r := 0.6; TankLevels.type := TankLevels.crude |})%R)
    by (cbn; lra).
  split; [exact H|].
  apply (tank_level_stays_in_band _ [0; 0.016]%R H).
Defined.

Section PortalNavigation.

Import SupportPortalNav.

(** The effects have nothing left to do: they last ran with the
    dependencies of this state. *)
Definition settled (s : State) : Prop :=
  lastDeps s = Some (mode s, focus s, scene s) /\ prevModeRef s = mode s.

(** The focus names a concept of the scene, or is [null] with the quiz
    panel on show. *)
Definition focusOk (s : State) : Prop :=
  match focus s with
  | Some k => In k (quizSequence (scene s))
  | None => quizPanel s = true
  end.

Definition wellFormed (s : State) : Prop :=
  settled s /\ quizIndex s < length (quizSequence (scene s)) /\ focusOk s.

Definition withDeps (s : State) : State :=
  {| scene := scene s; focus := focus s; mode := mode s; quizIndex := quizIndex s;
     revealed := revealed s; show3D := show3D s; prevModeRef := mode s;
     lastDeps := Some (mode s, focus s, scene s) |}.

Lemma key_truthy v k : In k (quizSequence v) -> noFocus (Some k) = false.
Proof.
  destruct v; cbn; intros H;
    repeat (destruct H as [<-|H]; [reflexivity|]); destruct H.
Qed.

Lemma sameMode_eq a b : sameMode a b = true -> a = b.
Proof. destruct a, b; cbn; congruence. Qed.

Lemma sameScene_refl v : sameScene v v = true.
Proof. destruct v; reflexivity. Qed.

Lemma sameDeps_refl d : sameDeps d d = true.
Proof.
  destruct d as [[m f] v]. unfold sameDeps. cbn [fst snd].
  rewrite sameScene_refl, sameFocus_refl. destruct m; reflexivity.
Qed.

Lemma modeEffect_idle s :
  prevModeRef s = mode s ->
  (isQuiz (mode s) = false -> noFocus (focus s) = false) ->
  modeEffect s = [].
Proof.
  intros Hp Hf. unfold modeEffect. rewrite Hp.
  destruct (isQuiz (mode s)) eqn:Em; cbn [negb andb app]; [reflexivity|].
  rewrite (Hf eq_refl). reflexivity.
Qed.

(** A commit in which only the first effect can run, and finds nothing to
    set. *)
Lemma commit_idle s d :
  lastDeps s = Some d -> sameScene d.2 (scene s) = true ->
  prevModeRef s = mode s ->
  (isQuiz (mode s) = false -> noFocus (focus s) = false) ->
  commit s = withDeps s.
Proof.
  intros Hd Hs Hp Hf. unfold commit, withDeps.
  rewrite Hd, Hs, (modeEffect_idle s Hp Hf). cbn [negb].
  replace (if negb (sameDeps d (mode s, focus s, scene s)) then [] else [])
    with (@nil Update) by (destruct (negb _); reflexivity).
  cbn [app foldl]. rewrite Hp.
  destruct (negb _); reflexivity.
Qed.

Lemma withDeps_settled s : settled (withDeps s).
Proof. split; reflexivity. Qed.

Lemma commit_withDeps s :
  (isQuiz (mode s) = false -> noFocus (focus s) = false) ->
  commit (withDeps s) = withDeps s.
Proof.
  intros Hf.
  rewrite (commit_idle (withDeps s) (mode s, focus s, scene s));
    [reflexivity|reflexivity|apply sameScene_refl|reflexivity|exact Hf].
Qed.


Lemma apply_fixed s u :
  scene (apply s u) = scene s /\ mode (apply s u) = mode s
  /\ show3D (apply s u) = show3D s.
Proof. destruct u; repeat split. Qed.

Lemma commit_fixed s :
  scene (commit s) = scene s /\ mode (commit s) = mode s
  /\ show3D (commit s) = show3D s
  /\ lastDeps (commit s) = Some (mode s, focus s, scene s).
Proof.
  unfold commit. cbn [scene mode show3D lastDeps].
  generalize ((if match lastDeps s with
                  | Some d => negb (sameDeps d (mode s, focus s, scene s))
                  | None => true
                  end then modeEffect s else [])
              ++ (if match lastDeps s with
                     | Some d => negb (sameScene d.2 (scene s))
                     | None => true
                     end then sceneEffect s else [])).
  intros us. revert s. induction us as [|u us IH]; intros s; cbn [foldl].
  - repeat split.
  - destruct (IH (apply s u)) as (H1 & H2 & H3 & _).
    destruct (apply_fixed s u) as (A1 & A2 & A3).
    rewrite H1, H2, H3, A1, A2, A3. repeat split.
Qed.

(** After a handler, React commits until nothing changes: the first commit
    does the work, the second records its result, and the third, like any
    later one, changes nothing. *)
Lemma settle_spec s d :
  lastDeps s = Some d -> prevModeRef s = d.1.1 ->
  (isQuiz (mode s) = false -> noFocus (focus (commit s)) = false) ->
  settle s = withDeps (commit s) /\ commit (settle s) = settle s.
Proof.
  intros Hd Hp Hf.
  destruct (commit_fixed s) as (Hsc & Hmo & _ & Hl).
  assert (Hprev : prevModeRef (commit s) = mode (commit s)).
  { rewrite Hmo. unfold commit. cbn [prevModeRef]. rewrite Hd.
    destruct (sameDeps d (mode s, focus s, scene s)) eqn:E; cbn [negb];
      [|reflexivity].
    unfold sameDeps in E. cbn [fst snd] in E.
    apply andb_prop in E as [E _]. apply andb_prop in E as [E _].
    apply sameMode_eq in E. congruence. }
  assert (Hf' : isQuiz (mode (commit s)) = false ->
                noFocus (focus (commit s)) = false)
    by (rewrite Hmo; exact Hf).
  assert (H2 : commit (commit s) = withDeps (commit s)).
  { apply (commit_idle _ (mode s, focus s, scene s)); [exact Hl| |exact Hprev|exact Hf'].
    cbn [snd]. rewrite Hsc. apply sameScene_refl. }
  unfold settle. rewrite H2.
  assert (H3 : commit (withDeps (commit s)) = withDeps (commit s))
    by (apply commit_withDeps; exact Hf').
  rewrite !H3. split; reflexivity.
Qed.

Lemma focusOk_truthy s :
  focusOk s -> isQuiz (mode s) = false -> noFocus (focus s) = false.
Proof.
  unfold focusOk, quizPanel. destruct (focus s) as [k|].
  - intros H _. exact (key_truthy _ _ H).
  - intros H E. rewrite E in H. discriminate H.
Qed.

Lemma handle_refs s e :
  lastDeps (handle s e) = lastDeps s /\ prevModeRef (handle s e) = prevModeRef s.
Proof.
  destruct e; cbn [handle];
    repeat match goal with
           | |- context [if ?b then _ else _] => destruct b
           | |- context [match ?o with Some _ => _ | None => _ end] => destruct o
           end; split; reflexivity.
Qed.

(** A commit after a handler that left the scene alone and gave the first
    effect nothing to set. *)
Lemma commit_quiet s d :
  lastDeps s = Some d -> prevModeRef s = d.1.1 ->
  sameScene d.2 (scene s) = true -> modeEffect s = [] ->
  commit s = withDeps s.
Proof.
  intros Hd Hp Hs He. unfold commit, withDeps. rewrite Hd, Hs, He. cbn [negb].
  replace (if negb (sameDeps d (mode s, focus s, scene s)) then [] else [])
    with (@nil Update) by (destruct (negb _); reflexivity).
  cbn [app foldl].
  destruct (sameDeps d (mode s, focus s, scene s)) eqn:E; cbn [negb];
    [|reflexivity].
  unfold sameDeps in E. cbn [fst snd] in E.
  apply andb_prop in E as [E _]. apply andb_prop in E as [E _].
  apply sameMode_eq in E. rewrite Hp, E. reflexivity.
Qed.

Lemma step_quiet s e :
  settled s -> scene (handle s e) = scene s -> modeEffect (handle s e) = [] ->
  (isQuiz (mode (handle s e)) = false -> noFocus (focus (handle s e)) = false) ->
  step s e = withDeps (handle s e).
Proof.
  intros [Hd Hp] Hs He Hf.
  destruct (handle_refs s e) as [Hl Hr].
  assert (Hc : commit (handle s e) = withDeps (handle s e)).
  { apply (commit_quiet _ (mode s, focus s, scene s)).
    - rewrite Hl. exact Hd.
    - rewrite Hr. exact Hp.
    - cbn [snd]. rewrite Hs. apply sameScene_refl.
    - exact He. }
  unfold step.
  destruct (settle_spec (handle s e) (mode s, focus s, scene s)) as [H _].
  - rewrite Hl. exact Hd.
  - rewrite Hr. exact Hp.
  - rewrite Hc. exact Hf.
  - rewrite H, Hc. reflexivity.
Qed.

Lemma step_SelectScene s v :
  wellFormed s -> sameScene (scene s) v = false ->
  step s (SelectScene v)
  = {| scene := v; focus := Some (defaultFocus v); mode := mode s; quizIndex := 0;
       revealed := false; show3D := show3D s; prevModeRef := mode s;
       lastDeps := Some (mode s, Some (defaultFocus v), v) |}.
Proof.
  intros [[Hd Hp] [Hq Hf]] Hv.
  set (x := handle s (SelectScene v)).
  assert (He : modeEffect x = []).
  { apply modeEffect_idle; [exact Hp|]. exact (focusOk_truthy s Hf). }
  assert (Hc : commit x
               = {| scene := v; focus := Some (defaultFocus v); mode := mode s;
                    quizIndex := 0; revealed := false; show3D := show3D s;
                    prevModeRef := mode s;
                    lastDeps := Some (mode s, focus s, v) |}).
  { unfold commit. rewrite He. subst x.
    cbn [handle lastDeps mode focus scene prevModeRef]. rewrite Hd.
    cbn [snd]. rewrite Hv. unfold sameDeps. cbn [fst snd]. rewrite Hv.
    rewrite andb_false_r. cbn. reflexivity. }
  unfold step. fold x.
  destruct (settle_spec x (mode s, focus s, scene s)) as [H _].
  - exact Hd.
  - exact Hp.
  - rewrite Hc. intros _. cbn [focus]. destruct v; reflexivity.
  - rewrite H, Hc. reflexivity.
Qed.

(** Entering the quiz clears the focus and the reveal. *)
Lemma step_enterQuiz s e :
  wellFormed s -> mode s = learn -> handle s e = withMode quiz s ->
  step s e
  = {| scene := scene s; focus := None; mode := quiz; quizIndex := quizIndex s;
       revealed := false; show3D := show3D s; prevModeRef := quiz;
       lastDeps := Some (quiz, None, scene s) |}.
Proof.
  intros [[Hd Hp] [Hq Hf]] Hm Hx.
  assert (Hc : commit (withMode quiz s)
               = {| scene := scene s; focus := None; mode := quiz;
                    quizIndex := quizIndex s; revealed := false;
                    show3D := show3D s; prevModeRef := quiz;
                    lastDeps := Some (quiz, focus s, scene s) |}).
  { unfold commit, modeEffect.
    cbn [withMode lastDeps mode focus scene prevModeRef]. rewrite Hd, Hp, Hm.
    unfold sameDeps. cbn. rewrite sameScene_refl. reflexivity. }
  unfold step. rewrite Hx.
  destruct (settle_spec (withMode quiz s) (mode s, focus s, scene s)) as [H _].
  - exact Hd.
  - exact Hp.
  - cbn. discriminate.
  - rewrite H, Hc. reflexivity.
Qed.

(** Leaving the quiz keeps a revealed focus and replaces a cleared one by
    the scene's default. *)
Lemma step_leaveQuiz s e :
  wellFormed s -> quizPanel s = true -> handle s e = withMode learn s ->
  step s e
  = {| scene := scene s;
       focus := Some (default (defaultFocus (scene s)) (focus s));
       mode := learn; quizIndex := quizIndex s; revealed := revealed s;
       show3D := show3D s; prevModeRef := learn;
       lastDeps := Some (learn, Some (default (defaultFocus (scene s)) (focus s)),
                         scene s) |}.
Proof.
  intros [[Hd Hp] [Hq Hf]] Hm Hx.
  unfold quizPanel in Hm. apply andb_prop in Hm as [Hm Hb].
  assert (Hc : commit (withMode learn s)
               = {| scene := scene s;
                    focus := Some (default (defaultFocus (scene s)) (focus s));
                    mode := learn; quizIndex := quizIndex s;
                    revealed := revealed s; show3D := show3D s;
                    prevModeRef := learn;
                    lastDeps := Some (learn, focus s, scene s) |}).
  { unfold commit, modeEffect.
    cbn [withMode lastDeps mode focus scene prevModeRef]. rewrite Hd.
    unfold sameDeps. cbn [fst snd]. destruct (mode s); [discriminate Hm|].
    cbn [sameMode isQuiz Bool.eqb andb negb app]. rewrite sameScene_refl.
    unfold focusOk in Hf. destruct (focus s) as [k|] eqn:Ef.
    - rewrite (key_truthy _ _ Hf). cbn. rewrite ?Ef. reflexivity.
    - unfold headerButtons in Hb.
      destruct (scene s) eqn:Es; try discriminate Hb; cbn; rewrite ?Ef, ?Es;
        reflexivity. }
  unfold step. rewrite Hx.
  destruct (settle_spec (withMode learn s) (mode s, focus s, scene s)) as [H _].
  - exact Hd.
  - exact Hp.
  - rewrite Hc. intros _. cbn [focus]. unfold focusOk in Hf.
    destruct (focus s) as [k|]; [exact (key_truthy _ _ Hf)|].
    destruct (scene s); reflexivity.
  - rewrite H, Hc. reflexivity.
Qed.


Lemma modeEffect_after s x :
  prevModeRef x = mode s -> mode x = mode s \/ mode x = learn ->
  (isQuiz (mode x) = false -> noFocus (focus x) = false) ->
  modeEffect x = [].
Proof.
  intros Hp Hm Hf. unfold modeEffect. rewrite Hp.
  destruct (isQuiz (mode x)) eqn:E; cbn [negb andb app].
  - destruct Hm as [Hm|Hm]; rewrite Hm in E; [|discriminate E].
    rewrite E. reflexivity.
  - rewrite (Hf eq_refl). reflexivity.
Qed.

Lemma wellFormed_withDeps x :
  quizIndex x < length (quizSequence (scene x)) -> focusOk x ->
  wellFormed (withDeps x).
Proof. intros Hq Hf. split; [apply withDeps_settled|]. split; assumption. Qed.

Lemma lookup_key v i c :
  activeConcepts v !! i = Some c -> In (key c) (quizSequence v).
Proof.
  intros H. apply list_elem_of_In. unfold quizSequence.
  apply list_elem_of_fmap. exists c. split; [reflexivity|].
  exact (list_elem_of_lookup_2 _ _ _ H).
Qed.

Lemma selectable_keys s k :
  existsb (String.eqb k) (selectable s) = true -> In k (quizSequence (scene s)).
Proof.
  intros H. apply existsb_exists in H as (k' & Hin & E).
  apply String.eqb_eq in E. subst k'. revert Hin. unfold selectable.
  destruct (scene s), (show3D s); vm_compute; tauto.
Qed.

Lemma quizKey_some s :
  quizIndex s < length (quizSequence (scene s)) ->
  exists k, currentQuizKey s = Some k /\ In k (quizSequence (scene s)).
Proof.
  intros H. unfold currentQuizKey.
  destruct (lookup_lt_is_Some_2 _ _ H) as [k Hk].
  exists k. split; [exact Hk|].
  apply list_elem_of_In. exact (list_elem_of_lookup_2 _ _ _ Hk).
Qed.

Lemma defaultFocus_key v : In (defaultFocus v) (quizSequence v).
Proof. destruct v; cbn; tauto. Qed.

Lemma quizSequence_nonempty v : 0 < length (quizSequence v).
Proof. destruct v; cbn; lia. Qed.

Lemma sameScene_eq a b : sameScene a b = true -> a = b.
Proof. destruct a, b; cbn; congruence. Qed.

Lemma step_wellFormed s e : wellFormed s -> wellFormed (step s e).
Proof.
  intros Hwf. pose proof Hwf as [[Hd Hp] [Hq Hf]].
  pose proof (focusOk_truthy s Hf) as Ht.
  assert (Hsame : forall x, handle s e = x ->
            scene x = scene s -> prevModeRef x = mode s ->
            mode x = mode s \/ mode x = learn ->
            quizIndex x < length (quizSequence (scene x)) -> focusOk x ->
            wellFormed (step s e)).
  { intros x Hx Hs Hr Hm Hq' Hf'.
    rewrite step_quiet; rewrite ?Hx; try assumption.
    - apply wellFormed_withDeps; assumption.
    - split; assumption.
    - apply (modeEffect_after s); try assumption. exact (focusOk_truthy x Hf').
    - exact (focusOk_truthy x Hf'). }
  assert (Hnone : handle s e = s -> wellFormed (step s e)).
  { intros Hx. apply (Hsame s Hx); auto. }
  destruct e; cbn [handle] in Hsame, Hnone.
  - destruct (sameScene (scene s) v) eqn:Ev.
    + apply sameScene_eq in Ev. subst v.
      eapply Hsame; [reflexivity|reflexivity|exact Hp|left; reflexivity| |];
        assumption.
    + rewrite (step_SelectScene s v Hwf Ev).
      split; [split; reflexivity|]. split; cbn.
      * apply quizSequence_nonempty.
      * apply defaultFocus_key.
  - destruct (headerButtons s) eqn:Eb; [|apply Hnone; reflexivity].
    destruct (mode s) eqn:Em.
    + rewrite (step_enterQuiz s ToggleMode Hwf Em)
        by (cbn [handle]; rewrite Eb, Em; reflexivity).
      split; [split; reflexivity|]. split; [exact Hq|].
      unfold focusOk, quizPanel. cbn. exact Eb.
    + assert (Hqp : quizPanel s = true)
        by (unfold quizPanel; rewrite Em, Eb; reflexivity).
      rewrite (step_leaveQuiz s ToggleMode Hwf Hqp)
        by (cbn [handle]; rewrite Eb, Em; reflexivity).
      split; [split; reflexivity|]. split; [exact Hq|].
      unfold focusOk in *. cbn. destruct (focus s); cbn;
        [exact Hf|apply defaultFocus_key].
  - destruct (headerButtons s) eqn:Eb; [|apply Hnone; reflexivity].
    eapply Hsame; [reflexivity|reflexivity|exact Hp|left; reflexivity| |];
      assumption.
  - destruct (activeConcepts (scene s) !! i) as [c|] eqn:Ec;
      [|apply Hnone; reflexivity].
    eapply Hsame; [reflexivity|reflexivity|exact Hp|right; reflexivity|exact Hq|].
    exact (lookup_key _ _ _ Ec).
  - destruct (existsb (String.eqb k) (selectable s)) eqn:Ek;
      [|apply Hnone; reflexivity].
    eapply Hsame; [reflexivity|reflexivity|exact Hp|right; reflexivity|exact Hq|].
    exact (selectable_keys _ _ Ek).
  - destruct (quizPanel s && negb (revealed s)) eqn:Eq;
      [|apply Hnone; reflexivity].
    destruct (quizKey_some s Hq) as (k & Hk & Hin).
    eapply Hsame; [reflexivity|reflexivity|exact Hp|left; reflexivity|exact Hq|].
    unfold focusOk. cbn. rewrite Hk. exact Hin.
  - destruct (quizPanel s && revealed s) eqn:Eq; [|apply Hnone; reflexivity].
    eapply Hsame; [reflexivity|reflexivity|exact Hp|left; reflexivity| |].
    + cbn. apply Nat.mod_upper_bound. pose proof (quizSequence_nonempty (scene s)).
      lia.
    + exact Hf.
  - destruct (quizPanel s) eqn:Hqp; [|apply Hnone; reflexivity].
    rewrite (step_leaveQuiz s BackToLearn Hwf Hqp)
      by (cbn [handle]; rewrite Hqp; reflexivity).
    split; [split; reflexivity|]. split; [exact Hq|].
    unfold focusOk in *. cbn. destruct (focus s); cbn;
      [exact Hf|apply defaultFocus_key].
Qed.

Lemma mounted_wellFormed : wellFormed mounted.
Proof. split; [split; reflexivity|]. split; cbn; [lia|tauto]. Qed.

Lemma portal_run_snoc es e : run (es ++ [e]) = step (run es) e.
Proof. unfold run. rewrite foldl_app. reflexivity. Qed.

Lemma run_wellFormed es : wellFormed (run es).
Proof.
  induction es as [|e es IH] using rev_ind; [exact mounted_wellFormed|].
  rewrite portal_run_snoc. apply step_wellFormed, IH.
Qed.

Lemma wellFormed_commit s : wellFormed s -> commit s = s.
Proof.
  intros [[Hd Hp] [Hq Hf]].
  rewrite (commit_idle s (mode s, focus s, scene s) Hd (sameScene_refl _) Hp
             (focusOk_truthy s Hf)).
  destruct s; cbn in *. subst. reflexivity.
Qed.

Lemma find_key v k :
  In k (quizSequence v) ->
  exists c, In c (activeConcepts v) /\ key c = k
            /\ List.find (keyIs (Some k)) (activeConcepts v) = Some c.
Proof.
  destruct v; cbn; intros H;
    repeat (destruct H as [<-|H];
            [eexists; split; [|split; [|reflexivity]]; cbn; tauto|]);
    destruct H.
Qed.


Lemma find_quizKey v i :
  i < length (quizSequence v) ->
  List.find (keyIs (quizSequence v !! i)) (activeConcepts v) = activeConcepts v !! i.
Proof.
  destruct v; cbn [quizSequence activeConcepts List.map length productionConcepts
                   drillingConcepts lifecycleConcepts assemblyConcepts];
    intros H; do 9 (destruct i as [|i]; [reflexivity|]); lia.
Qed.

Lemma step_Reveal s :
  wellFormed s -> quizPanel s = true -> revealed s = false ->
  step s Reveal
  = {| scene := scene s; focus := currentQuizKey s; mode := mode s;
       quizIndex := quizIndex s; revealed := true; show3D := show3D s;
       prevModeRef := mode s;
       lastDeps := Some (mode s, currentQuizKey s, scene s) |}.
Proof.
  intros [[Hd Hp] [Hq Hf]] Hqp Hr.
  assert (Hx : handle s Reveal
               = apply (apply s (setRevealed true)) (setFocus (currentQuizKey s)))
    by (cbn [handle]; rewrite Hqp, Hr; reflexivity).
  assert (Hm : isQuiz (mode s) = true)
    by (unfold quizPanel in Hqp; apply andb_prop in Hqp as [H _]; exact H).
  rewrite step_quiet; rewrite ?Hx.
  - reflexivity.
  - split; assumption.
  - reflexivity.
  - apply (modeEffect_after s); [exact Hp|left; reflexivity|].
    cbn. rewrite Hm. discriminate.
  - cbn. rewrite Hm. discriminate.
Qed.

Lemma step_Next s :
  wellFormed s -> quizPanel s = true -> revealed s = true ->
  step s Next
  = {| scene := scene s; focus := focus s; mode := mode s;
       quizIndex := (quizIndex s + 1) mod length (quizSequence (scene s));
       revealed := false; show3D := show3D s; prevModeRef := mode s;
       lastDeps := Some (mode s, focus s, scene s) |}.
Proof.
  intros [[Hd Hp] [Hq Hf]] Hqp Hr.
  assert (Hx : handle s Next
               = apply (apply s (setRevealed false))
                   (setQuizIndex ((quizIndex s + 1)
                                  mod length (quizSequence (scene s)))))
    by (cbn [handle]; rewrite Hqp, Hr; reflexivity).
  rewrite step_quiet; rewrite ?Hx.
  - reflexivity.
  - split; assumption.
  - reflexivity.
  - apply (modeEffect_after s); [exact Hp|left; reflexivity|].
    exact (focusOk_truthy s Hf).
  - exact (focusOk_truthy s Hf).
Qed.

Lemma rounds_spec n : forall s,
  wellFormed s -> quizPanel s = true -> revealed s = false ->
  let s' := foldl step s (concat (replicate n [Reveal; Next])) in
  wellFormed s' /\ scene s' = scene s /\ quizPanel s' = true
  /\ revealed s' = false
  /\ quizIndex s' = (quizIndex s + n) mod length (quizSequence (scene s)).
Proof.
  induction n as [|n IH]; intros s Hwf Hqp Hr; cbn zeta.
  - cbn [replicate concat foldl]. repeat split; try assumption; try apply Hwf.
    rewrite Nat.add_0_r, Nat.mod_small; [reflexivity|apply Hwf].
  - cbn [replicate concat app foldl].
    pose proof (step_wellFormed s Reveal Hwf) as Hwf1.
    pose proof (step_wellFormed _ Next Hwf1) as Hwf2.
    pose proof (step_Next _ Hwf1) as E2.
    rewrite (step_Reveal s Hwf Hqp Hr) in Hwf1, Hwf2, E2 |- *.
    specialize (E2 Hqp eq_refl).
    cbn [scene focus mode quizIndex revealed show3D] in E2.
    rewrite E2 in Hwf2 |- *.
    destruct (IH _ Hwf2 Hqp eq_refl) as (W & Hs & Hp' & Hr' & Hi).
    cbn [scene quizIndex] in Hs, Hi.
    split; [exact W|]. split; [exact Hs|]. split; [exact Hp'|].
    split; [exact Hr'|]. rewrite Hi.
    rewrite Nat.Div0.add_mod_idemp_l. f_equal. lia.
Qed.


(** X10. Whatever the user does in the portal, once React has settled: no
    effect has anything left to set; the quiz index points into the scene's
    concept list; the focus is [null] only while the quiz panel is on
    show; and any other focus is the key of a concept of the scene on
    show, which is the concept the learn panel presents (the fallback to
    the first concept is never taken). *)
Theorem portal_focus_names_a_concept (es : list Event) :
  let s := run es in
  commit s = s
  /\ quizIndex s < length (activeConcepts (scene s))
  /\ (focus s = None -> quizPanel s = true)
  /\ (forall k, focus s = Some k ->
        exists c, In c (activeConcepts (scene s)) /\ key c = k
                  /\ (mode s = learn -> currentConcept s = Some c)).
Proof.
  cbn zeta. pose proof (run_wellFormed es) as Hwf.
  split; [exact (wellFormed_commit _ Hwf)|].
  destruct Hwf as [_ [Hq Hf]]. unfold quizSequence in Hq.
  rewrite length_map in Hq. split; [exact Hq|].
  unfold focusOk in Hf. split.
  - intros E. rewrite E in Hf. exact Hf.
  - intros k E. rewrite E in Hf.
    destruct (find_key _ _ Hf) as (c & Hin & Hk & Hfind).
    exists c. split; [exact Hin|]. split; [exact Hk|].
    intros Hm. unfold currentConcept. rewrite Hm, E. cbn [isQuiz].
    rewrite Hfind. reflexivity.
Qed.

(** X11. Choosing another scene while in quiz mode leaves the portal in
    quiz mode at the first question, unrevealed, with the focus set to the
    new scene's default element.  On the production pad and the drilling
    rig that element is the answer to the question on show, so it is
    focused before Reveal is pressed; on the lifecycle map and the pump
    assembly the quiz panel is not rendered, nor are the header's mode
    buttons. *)
Theorem scene_switch_keeps_quiz (es : list Event) (v : SceneName) :
  mode (run es) = quiz -> v <> scene (run es) ->
  let s := step (run es) (SelectScene v) in
  scene s = v /\ mode s = quiz /\ quizIndex s = 0 /\ revealed s = false
  /\ focus s = Some (defaultFocus v)
  /\ (headerButtons s = true -> quizPanel s = true /\ currentQuizKey s = focus s)
  /\ (headerButtons s = false -> quizPanel s = false).
Proof.
  intros Hm Hv. cbn zeta.
  assert (Ev : sameScene (scene (run es)) v = false).
  { destruct (sameScene (scene (run es)) v) eqn:E; [|reflexivity].
    apply sameScene_eq in E. congruence. }
  rewrite (step_SelectScene _ v (run_wellFormed es) Ev), Hm.
  unfold quizPanel, headerButtons, currentQuizKey. cbn.
  do 5 (split; [reflexivity|]). split; intros H.
  - split; [exact H|]. destruct v; try discriminate H; reflexivity.
  - exact H.
Qed.

(** X12. From an unrevealed question of the quiz, [n] rounds of Reveal and
    Next lead to the unrevealed question [n] places further round the
    scene's concept list.  Reveal then shows the concept of that question
    and focuses it, and the Next that follows leaves this focus in place
    while the following question is asked. *)
Theorem quiz_rounds_cycle (es : list Event) (n : nat) :
  quizPanel (run es) = true -> revealed (run es) = false ->
  let s := run es in
  let s' := foldl step s (concat (replicate n [Reveal; Next])) in
  let r := step s' Reveal in
  scene s' = scene s /\ quizPanel s' = true /\ revealed s' = false
  /\ quizIndex s' = (quizIndex s + n) mod length (quizSequence (scene s))
  /\ revealed r = true /\ focus r = quizSequence (scene s) !! quizIndex s'
  /\ currentConcept r = activeConcepts (scene s) !! quizIndex s'
  /\ focus (step r Next) = focus r.
Proof.
  intros Hqp Hr. cbn zeta.
  destruct (rounds_spec n (run es) (run_wellFormed es) Hqp Hr)
    as (Hwf & Hs & Hqp' & Hr' & Hi).
  set (s' := foldl step (run es) (concat (replicate n [Reveal; Next]))) in *.
  split; [exact Hs|]. split; [exact Hqp'|]. split; [exact Hr'|].
  split; [exact Hi|].
  pose proof (step_wellFormed s' Reveal Hwf) as Hwf1.
  pose proof (step_Next _ Hwf1) as E2.
  rewrite (step_Reveal s' Hwf Hqp' Hr') in E2 |- *.
  specialize (E2 Hqp' eq_refl). rewrite E2.
  assert (Hm : isQuiz (mode s') = true)
    by (unfold quizPanel in Hqp'; apply andb_prop in Hqp' as [H _]; exact H).
  unfold currentConcept, currentQuizKey. cbn. rewrite Hm, Hs.
  repeat split.
  destruct Hwf as [_ [Hq _]]. rewrite Hs in Hq.
  rewrite (find_quizKey _ _ Hq).
  destruct (lookup_lt_is_Some_2 (activeConcepts (scene (run es))) (quizIndex s'))
    as [c Hc].
  - unfold quizSequence in Hq. rewrite length_map in Hq. exact Hq.
  - rewrite Hc. reflexivity.
Qed.

End PortalNavigation.

Lemma scene_switch_keeps_quiz_witness :
  let s := SupportPortalNav.step (SupportPortalNav.run [SupportPortalNav.ToggleMode])
             (SupportPortalNav.SelectScene SupportPortalNav.drilling) in
  SupportPortalNav.mode s = SupportPortalNav.quiz
  /\ SupportPortalNav.focus s = Some "derrick"%string
  /\ SupportPortalNav.currentQuizKey s = Some "derrick"%string.
Proof.
  assert (Hm : SupportPortalNav.mode
                 (SupportPortalNav.run [SupportPortalNav.ToggleMode])
               = SupportPortalNav.quiz) by reflexivity.
  assert (Hv : SupportPortalNav.drilling
               <> SupportPortalNav.scene
                    (SupportPortalNav.run [SupportPortalNav.ToggleMode]))
    by discriminate.
  destruct (scene_switch_keeps_quiz [SupportPortalNav.ToggleMode]
              SupportPortalNav.drilling Hm Hv)
    as (_ & H2 & _ & _ & H5 & H6 & _).
  split; [exact H2|]. split; [exact H5|].
  destruct (H6 eq_refl) as [_ H]. rewrite H. exact H5.
Defined.

Lemma quiz_rounds_cycle_witness :
  SupportPortalNav.quizIndex
    (foldl SupportPortalNav.step (SupportPortalNav.run [SupportPortalNav.ToggleMode])
       (concat (replicate 9 [SupportPortalNav.Reveal; SupportPortalNav.Next])))
  = 0.
Proof.
  assert (Hq : SupportPortalNav.quizPanel
                 (SupportPortalNav.run [SupportPortalNav.ToggleMode]) = true)
    by reflexivity.
  assert (Hr : SupportPortalNav.revealed
                 (SupportPortalNav.run [SupportPortalNav.ToggleMode]) = false)
    by reflexivity.
  destruct (quiz_rounds_cycle [SupportPortalNav.ToggleMode] 9 Hq Hr)
    as (_ & _ & _ & H & _).
  rewrite H. reflexivity.
Defined.

Section PortalSnapshot.

Import SupportPortalNav SupportPortalStage.

Definition rigOrPump (s : State) (i : nat) : Prop :=
  kinds s !! i = Some rig \/ kinds s !! i = Some pump.

(** The API in [captureApiRef] is that of a rig or pump instance, and the
    instance on show is of the kind the JSX asks for. *)
Definition staged (s : State) : Prop :=
  (forall i api, captureApiRef s = Some (i, api) -> rigOrPump s i)
  /\ (forall k j, onShow s = Some (k, j) ->
        kinds s !! j = Some k /\ wanted (scene s) (show3D s) = Some k).

Lemma mountKind_staged k s :
  wanted (scene s) (show3D s) = Some k ->
  (forall i api, captureApiRef s = Some (i, api) -> rigOrPump s i) ->
  staged (mountKind k s).
Proof.
  intros Hw Hc. split.
  - intros i api. unfold rigOrPump. cbn [mountKind captureApiRef kinds].
    destruct k; cbn; intros H.
    + destruct (Hc i api H) as [E|E]; [left|right];
        apply lookup_app_l_Some; exact E.
    + injection H as <- _. left. apply list_lookup_middle. reflexivity.
    + injection H as <- _. right. apply list_lookup_middle. reflexivity.
  - intros k' j. cbn [mountKind onShow kinds scene show3D].
    intros [= <- <-]. split; [|exact Hw].
    apply list_lookup_middle. reflexivity.
Qed.

Lemma sameKind_eq a b : sameKind a b = true -> a = b.
Proof. destruct a, b; cbn; congruence. Qed.

Lemma render_staged s :
  (forall i api, captureApiRef s = Some (i, api) -> rigOrPump s i) ->
  (forall k j, onShow s = Some (k, j) -> kinds s !! j = Some k) ->
  staged (render s).
Proof.
  intros Hc Ho. unfold render.
  destruct (wanted (scene s) (show3D s)) as [k|] eqn:Ew.
  - destruct (onShow s) as [[k' j]|] eqn:Eo;
      [|exact (mountKind_staged k s Ew Hc)].
    destruct (sameKind k k') eqn:Ek; [|exact (mountKind_staged k s Ew Hc)].
    apply sameKind_eq in Ek. subst k'. split; [exact Hc|].
    intros k2 j2 H. rewrite Eo in H. injection H as <- <-.
    split; [exact (Ho k j eq_refl)|exact Ew].
  - split; [exact Hc|]. cbn. discriminate.
Qed.

Lemma handle_fixed s e :
  captureApiRef (handle s e) = captureApiRef s /\ kinds (handle s e) = kinds s
  /\ onShow (handle s e) = onShow s.
Proof.
  destruct e; cbn [handle].
  - repeat split.
  - destruct (scene s); repeat split.
  - destruct (captureApiRef s) as [[i api]|] eqn:E; cbn; rewrite ?E; repeat split.
Qed.

Lemma stage_step_staged s e : staged s -> staged (step s e).
Proof.
  intros [Hc Ho]. destruct (handle_fixed s e) as (E1 & E2 & E3).
  apply render_staged.
  - intros i api. unfold rigOrPump. rewrite E1, E2. apply Hc.
  - intros k j. rewrite E2, E3. intros H. exact (proj1 (Ho k j H)).
Qed.

Lemma stage_run_snoc es e : run (es ++ [e]) = step (run es) e.
Proof. unfold run. rewrite foldl_app. reflexivity. Qed.

Lemma stage_run_staged es : staged (run es).
Proof.
  induction es as [|e es IH] using rev_ind.
  - split; cbn.
    + discriminate.
    + intros k j [= <- <-]. split; reflexivity.
  - rewrite stage_run_snoc. apply stage_step_staged, IH.
Qed.

(** Events that never bring the rig or the pump on show. *)
Definition padOnly (e : Event) : Prop :=
  e <> SelectScene drilling /\ e <> SelectScene assembly.

Lemma render_fixed x :
  scene (render x) = scene x /\ captureUrl (render x) = captureUrl x.
Proof.
  unfold render. destruct (wanted _ _); [|split; reflexivity].
  destruct (onShow x) as [[k' j]|]; [|split; reflexivity].
  destruct (sameKind _ _); split; reflexivity.
Qed.

Lemma render_pad x :
  scene x = production \/ scene x = lifecycle ->
  captureApiRef (render x) = captureApiRef x.
Proof.
  intros Hs. unfold render.
  destruct (wanted (scene x) (show3D x)) as [k|] eqn:Ew; [|reflexivity].
  assert (k = dashboard) as ->.
  { unfold wanted in Ew. destruct (show3D x); [|discriminate].
    destruct Hs as [Hs|Hs]; rewrite Hs in Ew; congruence. }
  destruct (onShow x) as [[k' j]|]; [|reflexivity].
  destruct (sameKind dashboard k'); reflexivity.
Qed.

Lemma padOnly_run es :
  Forall padOnly es ->
  (scene (run es) = production \/ scene (run es) = lifecycle)
  /\ captureApiRef (run es) = None /\ captureUrl (run es) = None.
Proof.
  induction es as [|e es IH] using rev_ind; intros H.
  - cbn. auto.
  - apply Forall_app in H as [H He]. apply Forall_cons in He as [[He1 He2] _].
    destruct (IH H) as (Hs & Hc & Hu). rewrite stage_run_snoc.
    set (s := run es) in *. unfold step.
    destruct (render_fixed (handle s e)) as [R1 R2].
    destruct (handle_fixed s e) as (E1 & _ & _).
    assert (Hs' : scene (handle s e) = production \/ scene (handle s e) = lifecycle).
    { destruct e as [v| |canvas]; cbn [handle].
      - destruct v; cbn; auto; congruence.
      - destruct (scene s) eqn:Es; cbn; rewrite ?Es; auto.
      - rewrite Hc. exact Hs. }
    rewrite R1, R2, (render_pad _ Hs'), E1. split; [exact Hs'|].
    split; [exact Hc|].
    destruct e as [v| |canvas]; cbn [handle].
    + exact Hu.
    + destruct (scene s); exact Hu.
    + rewrite Hc. exact Hu.
Qed.

(** X13. In every state of the portal, pressing Snapshot either does
    nothing (no API was ever stored) or stores the picture of the canvas
    of a drilling-rig or pump-assembly instance: never that of a
    production pad, and, while the pad is on show, that of an instance that
    is no longer on show.  As long as neither the rig nor the pump has been
    chosen, no API is stored and no picture exists. *)
Theorem snapshot_never_shows_the_pad (es : list Event)
  (canvas : nat -> Mount.Renderer) :
  let s := run es in
  let s' := step s (Snapshot canvas) in
  match captureApiRef s with
  | None => captureUrl s' = captureUrl s
  | Some (i, api) =>
      captureUrl s' = Some (Mount.capture api (canvas i))
      /\ (kinds s !! i = Some rig \/ kinds s !! i = Some pump)
      /\ (scene s = production -> forall k j, onShow s = Some (k, j) -> j <> i)
  end
  /\ (Forall padOnly es -> captureApiRef s = None /\ captureUrl s = None).
Proof.
  cbn zeta. pose proof (stage_run_staged es) as [Hc Ho].
  set (s := run es) in *. split.
  - unfold step. rewrite (proj2 (render_fixed _)). cbn [handle].
    destruct (captureApiRef s) as [[i api]|] eqn:E; [|reflexivity].
    split; [reflexivity|]. split; [exact (Hc i api eq_refl)|].
    intros Hs k j Hj ->. destruct (Ho k i Hj) as [Hk Hw].
    unfold wanted in Hw. rewrite Hs in Hw.
    destruct (show3D s); [|discriminate]. injection Hw as <-.
    destruct (Hc i api eq_refl) as [H|H]; congruence.
  - intros H. destruct (padOnly_run es H) as (_ & H1 & H2). split; assumption.
Qed.

End PortalSnapshot.

Section PipelineHover.

Import Three ThreeDashboard DashboardHover.
Local Open Scope Q_scope.

(** The material at index [m] is a standard one with property [P]. *)
Definition holds (P : Material -> Prop) (st : Store) (m : nat) : Prop :=
  exists mat, st !! m = Some (Standard mat) /\ P mat.

Lemma alter_holds (P : Material -> Prop) f j (st : Store) m :
  (forall mat, P mat -> P (f mat)) ->
  holds P st m -> holds P (alter (onStandard f) j st) m.
Proof.
  intros Hf (mat & Hm & HP). destruct (decide (j = m)) as [->|Hne].
  - exists (f mat). rewrite list_lookup_alter_eq, Hm. split; [reflexivity|].
    apply Hf, HP.
  - exists mat. rewrite list_lookup_alter_ne by exact Hne. split; assumption.
Qed.

Lemma forEach_holds (P : Material -> Prop) f ids (st : Store) m :
  (forall mat, P mat -> P (f mat)) ->
  holds P st m -> holds P (forEachMaterial f ids st) m.
Proof.
  intros Hf. unfold forEachMaterial. revert st.
  induction ids as [|i ids IH]; intros st H; cbn [foldl]; [exact H|].
  apply IH, alter_holds; assumption.
Qed.

Lemma forEach_other f ids (st : Store) (m : nat) :
  m ∉ ids -> forEachMaterial f ids st !! m = st !! m.
Proof.
  unfold forEachMaterial. revert st.
  induction ids as [|i ids IH]; intros st H; cbn [foldl]; [reflexivity|].
  apply not_elem_of_cons in H as [Hne H].
  rewrite (IH _ H), list_lookup_alter_ne by congruence. reflexivity.
Qed.

Lemma setHighlight_holds (P : Material -> Prop) target p m :
  (forall hex mat, P mat -> P (setEmissive hex mat)) ->
  holds P (store p) m -> holds P (store (setHighlight target p)) m.
Proof.
  intros Hf H. unfold setHighlight. cbn [store].
  assert (H1 : holds P
                 match highlighted p with
                 | Some h =>
                     if otherThan h target
                     then alter (onStandard (setEmissive 0x000000)) h (store p)
                     else store p
                 | None => store p
                 end m).
  { destruct (highlighted p) as [h|]; [|exact H].
    destruct (otherThan h target); [|exact H].
    apply alter_holds; [apply Hf|exact H]. }
  destruct target as [t|]; [|exact H1].
  apply alter_holds; [apply Hf|exact H1].
Qed.

(** The focus effect over the flare and the pipelines, by material index. *)
Lemma focusEffect_pad focus (st : Store) :
  focusEffect flareAndPipelines focus st
  = let st1 := forEachMaterial restore [0; 1; 2; 3; 4; 5; 6]%nat st in
    match truthy focus with
    | Some k =>
        if String.eqb "flare" k
        then forEachMaterial highlight [0; 1; 2; 3]%nat st1
        else if String.eqb "pipelines" k
             then forEachMaterial highlight [4; 5; 6]%nat st1
             else st1
    | None => st1
    end.
Proof.
  unfold focusEffect.
  change flareAndPipelines
    with [{| key := "flare";
             objects := [Object [0%nat] [];
                         Group [Object [1%nat] []; Object [2%nat] [];
                                Object [3%nat] []]] |};
          {| key := "pipelines";
             objects := [Object [4%nat] []; Object [5%nat] []; Object [6%nat] []] |}].
  cbn zeta. rewrite forEachMaterial_groups.
  change (flat_map setMaterials _) with [0; 1; 2; 3; 4; 5; 6]%nat.
  destruct (truthy focus) as [k|]; [|reflexivity].
  cbn [List.find key].
  destruct (String.eqb "flare" k); [reflexivity|].
  destruct (String.eqb "pipelines" k); reflexivity.
Qed.

Lemma objs_cases i m :
  objs !! i = Some m -> m = 4%nat \/ m = 5%nat \/ m = 6%nat.
Proof.
  change objs with [4; 5; 6]%nat.
  destruct i as [|[|[|i]]]; cbn; intros [= <-]; auto.
Qed.

Lemma tube_not_flare m :
  m = 4%nat \/ m = 5%nat \/ m = 6%nat -> m ∉ [0; 1; 2; 3]%nat.
Proof.
  intros H Hin. rewrite !elem_of_cons, elem_of_nil in Hin. lia.
Qed.

Lemma tube_in_all m :
  m = 4%nat \/ m = 5%nat \/ m = 6%nat -> m ∈ [0; 1; 2; 3; 4; 5; 6]%nat.
Proof. intros H. rewrite !elem_of_cons. lia. Qed.

Lemma tube_in_tubes m :
  m = 4%nat \/ m = 5%nat \/ m = 6%nat -> m ∈ [4; 5; 6]%nat.
Proof. intros H. rewrite !elem_of_cons. lia. Qed.

(** A tube the pipelines focus has not reached yet. *)
Definition untouched (mat : Material) : Prop :=
  origE mat = None /\ origEI mat = None /\ emissiveIntensity mat = Some 1.

(** A tube whose cached original is the hover colour. *)
Definition tinted (mat : Material) : Prop :=
  origE mat = Some (Color_getHex (Color_setHex 0x18608f)) /\ origEI mat = Some 1.

Lemma restore_untouched mat : untouched mat -> restore mat = mat.
Proof. intros (H & _). unfold restore. rewrite H. reflexivity. Qed.

Lemma step_untouched p e m :
  m = 4%nat \/ m = 5%nat \/ m = 6%nat ->
  e <> Focus (Some "pipelines"%string) ->
  holds untouched (store p) m -> holds untouched (store (step p e)) m.
Proof.
  intros Hm He H. destruct e as [hit|focus]; cbn [step].
  - apply setHighlight_holds; [|exact H]. intros hex mat HP. exact HP.
  - cbn [store]. rewrite focusEffect_pad. cbn zeta.
    assert (H1 : holds untouched
                   (forEachMaterial restore [0; 1; 2; 3; 4; 5; 6]%nat (store p)) m).
    { apply forEach_holds; [|exact H].
      intros mat HP. rewrite (restore_untouched mat HP). exact HP. }
    destruct (truthy focus) as [k|] eqn:Ek; [|exact H1].
    destruct (String.eqb "flare" k).
    { destruct H1 as (mat & E & HP). exists mat. split; [|exact HP].
      rewrite forEach_other by (apply tube_not_flare, Hm). exact E. }
    destruct (String.eqb "pipelines" k) eqn:Ep; [|exact H1].
    exfalso. apply He. apply String.eqb_eq in Ep. subst k.
    unfold truthy in Ek. destruct focus as [k|]; [|discriminate Ek].
    destruct (String.eqb k ""); [discriminate Ek|]. congruence.
Qed.

Lemma step_tinted p e m :
  holds tinted (store p) m -> holds tinted (store (step p e)) m.
Proof.
  assert (Hr : forall mat, tinted mat -> tinted (restore mat)).
  { intros mat [H1 H2]. unfold tinted, restore. rewrite H1.
    cbn [origE origEI]. split; first [reflexivity|assumption]. }
  assert (Hh : forall mat, tinted mat -> tinted (highlight mat)).
  { intros mat [H1 H2]. unfold tinted, highlight, capture. rewrite H1.
    cbn [origE origEI]. split; first [reflexivity|assumption]. }
  intros H. destruct e as [hit|focus]; cbn [step].
  - apply setHighlight_holds; [|exact H]. intros hex mat HP. exact HP.
  - cbn [store]. rewrite focusEffect_pad. cbn zeta.
    assert (H1 : holds tinted
                   (forEachMaterial restore [0; 1; 2; 3; 4; 5; 6]%nat (store p)) m)
      by (apply forEach_holds; assumption).
    destruct (truthy focus) as [k|]; [|exact H1].
    destruct (String.eqb "flare" k); [apply forEach_holds; assumption|].
    destruct (String.eqb "pipelines" k); [apply forEach_holds; assumption|].
    exact H1.
Qed.

Lemma foldl_step_tinted es p m :
  holds tinted (store p) m -> holds tinted (store (foldl step p es)) m.
Proof.
  revert p. induction es as [|e es IH]; intros p H; cbn [foldl]; [exact H|].
  apply IH, step_tinted, H.
Qed.

Lemma foldl_step_untouched es p m :
  m = 4%nat \/ m = 5%nat \/ m = 6%nat ->
  Forall (fun e => e <> Focus (Some "pipelines"%string)) es ->
  holds untouched (store p) m -> holds untouched (store (foldl step p es)) m.
Proof.
  intros Hm. revert p. induction es as [|e es IH]; intros p Hes H; cbn [foldl];
    [exact H|].
  apply Forall_cons in Hes as [He Hes].
  apply IH; [exact Hes|]. apply step_untouched; assumption.
Qed.

Lemma mounted_untouched m :
  m = 4%nat \/ m = 5%nat \/ m = 6%nat -> holds untouched (store mounted) m.
Proof.
  intros [-> | [-> | ->]]; eexists; (split; [reflexivity|]); repeat split.
Qed.


Lemma hover_run_app es1 es2 : run (es1 ++ es2) = foldl step (run es1) es2.
Proof. unfold run. apply foldl_app. Qed.

(** The pointer reaches tube [m] and the click focuses the pipelines. *)
Lemma click_spec p i m mat :
  objs !! i = Some m -> store p !! m = Some (Standard mat) ->
  let p2 := step (step p (PointerMove (Some i))) (Focus (Some "pipelines"%string)) in
  store p2 !! m = Some (Standard (highlight (restore (setEmissive 0x18608f mat))))
  /\ highlighted p2 = Some m.
Proof.
  intros Hi Hm. pose proof (objs_cases i m Hi) as Hc. cbn zeta.
  cbn [step]. unfold onPointerMove. cbn [mbind option_bind]. rewrite Hi.
  unfold setHighlight. cbn [store highlighted]. split; [|reflexivity].
  rewrite focusEffect_pad. cbn zeta.
  change (truthy (Some "pipelines"%string)) with (Some "pipelines"%string).
  cbv beta iota.
  rewrite (eq_refl : String.eqb "flare" "pipelines" = false).
  rewrite String.eqb_refl.
  rewrite (forEachMaterial_lookup highlight _ _ _ dashboard_highlight_idem).
  rewrite decide_True by (apply tube_in_tubes, Hc).
  rewrite (forEachMaterial_lookup restore _ _ _ dashboard_restore_idem).
  rewrite decide_True by (apply tube_in_all, Hc).
  rewrite list_lookup_alter_eq.
  assert (E : match highlighted p with
              | Some h =>
                  if otherThan h (Some m)
                  then alter (onStandard (setEmissive 0x000000)) h (store p)
                  else store p
              | None => store p
              end !! m = Some (Standard mat)).
  { destruct (highlighted p) as [h|]; [|exact Hm].
    unfold otherThan. destruct (Nat.eqb h m) eqn:Eh; cbn [negb]; [exact Hm|].
    apply Nat.eqb_neq in Eh. rewrite list_lookup_alter_ne by exact Eh. exact Hm. }
  rewrite E. reflexivity.
Qed.

Lemma leave_focus_spec p k m mat :
  m = 4%nat \/ m = 5%nat \/ m = 6%nat ->
  store p !! m = Some (Standard mat) -> tinted mat ->
  k <> Some "pipelines"%string ->
  lookAt (store (step p (Focus k))) m = Some (Color_setHex 0x18608f, Some 1).
Proof.
  intros Hc Hm [H1 H2] Hk. cbn [step store]. rewrite focusEffect_pad. cbn zeta.
  assert (E : forEachMaterial restore [0; 1; 2; 3; 4; 5; 6]%nat (store p) !! m
              = Some (Standard (restore mat))).
  { rewrite (forEachMaterial_lookup restore _ _ _ dashboard_restore_idem).
    rewrite decide_True by (apply tube_in_all, Hc). rewrite Hm. reflexivity. }
  assert (L : lookAt (forEachMaterial restore [0; 1; 2; 3; 4; 5; 6]%nat (store p)) m
              = Some (Color_setHex 0x18608f, Some 1)).
  { unfold lookAt. rewrite E. unfold look, restore. rewrite H1, H2.
    cbn [emissive emissiveIntensity]. rewrite setHex_getHex_setHex. reflexivity. }
  destruct (truthy k) as [k'|] eqn:Ek; [|exact L].
  destruct (String.eqb "flare" k').
  { unfold lookAt. rewrite forEach_other by (apply tube_not_flare, Hc). exact L. }
  destruct (String.eqb "pipelines" k') eqn:Ep; [|exact L].
  exfalso. apply Hk. apply String.eqb_eq in Ep. subst k'.
  unfold truthy in Ek. destruct k as [k|]; [|discriminate Ek].
  destruct (String.eqb k ""); [discriminate Ek|]. congruence.
Qed.

(** X14. A pipeline that is clicked before the pipelines were ever
    focused has the hover colour on it when the focus effect caches its
    original look.  While the pipelines stay focused, the tube goes dark
    as soon as the pointer leaves it; and from then on, whatever else
    happens, every change of focus to something other than the pipelines
    leaves the tube glowing in the hover colour, at intensity 1. *)
Theorem clicked_pipeline_keeps_hover_colour
  (es1 es2 : list Event) (i m : nat) (k : option string) :
  Forall (fun e => e <> Focus (Some "pipelines"%string)) es1 ->
  objs !! i = Some m ->
  k <> Some "pipelines"%string ->
  let click := [PointerMove (Some i); Focus (Some "pipelines"%string)] in
  lookAt (store (run (es1 ++ click ++ [PointerMove None]))) m
  = Some (Color_setHex 0x000000, Some (12#10))
  /\ lookAt (store (run (es1 ++ click ++ es2 ++ [Focus k]))) m
     = Some (Color_setHex 0x18608f, Some 1).
Proof.
  intros Hes Hi Hk. cbn zeta. pose proof (objs_cases i m Hi) as Hc.
  destruct (foldl_step_untouched es1 mounted m Hc Hes (mounted_untouched m Hc))
    as (mat & Hm & Hu).
  fold (run es1) in Hm.
  destruct (click_spec (run es1) i m mat Hi Hm) as [Hs Hh].
  set (p2 := step (step (run es1) (PointerMove (Some i)))
               (Focus (Some "pipelines"%string))) in *.
  assert (Ht : tinted (highlight (restore (setEmissive 0x18608f mat)))).
  { rewrite (restore_untouched (setEmissive 0x18608f mat)) by exact Hu.
    destruct Hu as (U1 & U2 & U3).
    unfold tinted, highlight, capture. cbn [setEmissive origE origEI].
    rewrite U1. cbn [setEmissive origE origEI emissive emissiveIntensity].
    rewrite U3. split; reflexivity. }
  split.
  - rewrite hover_run_app. cbn [app foldl]. fold p2.
    cbn [step]. unfold onPointerMove. cbn [mbind option_bind].
    unfold setHighlight. rewrite Hh. cbn [otherThan store].
    unfold lookAt. rewrite list_lookup_alter_eq, Hs. reflexivity.
  - rewrite hover_run_app. cbn [app foldl]. fold p2.
    rewrite foldl_app. cbn [foldl].
    destruct (foldl_step_tinted es2 p2 m) as (mat2 & Hm2 & Ht2).
    { exists (highlight (restore (setEmissive 0x18608f mat))). split; assumption. }
    exact (leave_focus_spec _ k m mat2 Hc Hm2 Ht2 Hk).
Qed.

End PipelineHover.

Lemma clicked_pipeline_keeps_hover_colour_witness :
  lookAt (DashboardHover.store
            (DashboardHover.run
               [DashboardHover.Focus (Some "flare"%string);
                DashboardHover.PointerMove (Some 1%nat);
                DashboardHover.Focus (Some "pipelines"%string);
                DashboardHover.PointerMove None;
                DashboardHover.Focus (Some "flare"%string)])) 5
  = Some (Three.Color_setHex 0x18608f, Some 1%Q).
Proof.
  assert (H1 : Forall (fun e => e <> DashboardHover.Focus (Some "pipelines"%string))
                 [DashboardHover.Focus (Some "flare"%string)]).
  { apply Forall_cons. split; [discriminate|apply Forall_nil_2]. }
  assert (H2 : DashboardHover.objs !! 1%nat = Some 5%nat) by reflexivity.
  assert (H3 : Some "flare"%string <> Some "pipelines"%string) by discriminate.
  exact (proj2 (clicked_pipeline_keeps_hover_colour
                  [DashboardHover.Focus (Some "flare"%string)]
                  [DashboardHover.PointerMove None] 1 5 (Some "flare"%string)
                  H1 H2 H3)).
Defined.

Section SettingsCache.

Import CopilotSettingsLoader.

Definition importingWith (placeholder : bool) : Loader :=
  {| cached := if placeholder then Some emptySettings else None;
     inflight := Some 0; started := 1; fulfilled := [] |}.

(** The three stages of the loader's life: nothing asked yet; the import
    under way, with or without the placeholder of [getCopilotSettings] in
    [cached]; the import over. *)
Inductive Stage : Loader -> Prop :=
| idle : Stage fresh
| importing (placeholder : bool) : Stage (importingWith placeholder)
| imported (v : ConnectionSettings) :
    Stage {| cached := Some v; inflight := None; started := 1;
             fulfilled := [(0, v)] |}.

Lemma step_Stage l c : Stage l -> Stage (step l c).
Proof.
  intros [|[]|v]; destruct c as [| |r]; cbn;
    first [exact idle | exact (importing true) | exact (importing false)
          | apply imported].
Qed.

Lemma loader_run_app cs1 cs2 : run (cs1 ++ cs2) = foldl step (run cs1) cs2.
Proof. unfold run. apply foldl_app. Qed.

Lemma run_Stage cs : Stage (run cs).
Proof.
  induction cs as [|c cs IH] using rev_ind; [exact idle|].
  rewrite loader_run_app. cbn [foldl]. apply step_Stage, IH.
Qed.

Lemma imported_stays v cs :
  foldl step {| cached := Some v; inflight := None; started := 1;
                fulfilled := [(0, v)] |} cs
  = {| cached := Some v; inflight := None; started := 1; fulfilled := [(0, v)] |}.
Proof.
  induction cs as [|c cs IH]; [reflexivity|].
  cbn [foldl]. destruct c; exact IH.
Qed.

Lemma importing_stays (b : bool) cs :
  Forall (fun c => c = load \/ c = get) cs ->
  exists b' : bool, foldl step (importingWith b) cs = importingWith (b || b').
Proof.
  revert b. induction cs as [|c cs IH]; intros b H.
  - exists false. rewrite orb_false_r. reflexivity.
  - apply Forall_cons in H as [Hc H]. cbn [foldl].
    destruct Hc as [-> | ->].
    + replace (step (importingWith b) load) with (importingWith b)
        by (destruct b; reflexivity).
      exact (IH b H).
    + replace (step (importingWith b) get) with (importingWith true)
        by (destruct b; reflexivity).
      destruct (IH true H) as [b' E]. exists true. rewrite orb_true_r. exact E.
Qed.

(** X15. The loader starts the import at most once, whatever is called
    and in whatever order.  Once the import has ended, its result (the
    exported settings, or the empty settings when the module has no such
    export or could not be loaded) stays in the cache for good: every later
    [loadCopilotSettings] resolves with it and every [getCopilotSettings]
    returns it, so a failed import is never tried again, and the empty
    settings it leaves are what [CopilotChat] rejects as incomplete.  A
    load made while the import was under way resolves with the same result,
    unless the placeholder of [getCopilotSettings] was in the cache. *)
Theorem settings_imported_once (before after : list Call) (r : Import) :
  is_Some (inflight (run before)) ->
  let l0 := run before in
  let l := run (before ++ ended r :: after) in
  (forall cs, started (run cs) <= 1)
  /\ started l = 1 /\ inflight l = None /\ cached l = Some (found r)
  /\ fst (loadCopilotSettings l) = resolved (found r)
  /\ fst (getCopilotSettings l) = found r
  /\ outcome l (fst (loadCopilotSettings l0))
     = Some (if cached l0 is Some _ then emptySettings else found r)
  /\ ((r = rejected \/ r = module None) -> incomplete (found r) = true).
Proof.
  intros Hin. cbn zeta. split.
  { intros cs. destruct (run_Stage cs); cbn; lia. }
  rewrite loader_run_app. cbn [foldl].
  destruct (run_Stage before) as [|b|v].
  - destruct Hin as [p Hp]. discriminate Hp.
  - replace (step (importingWith b) (ended r))
      with {| cached := Some (found r); inflight := None; started := 1;
              fulfilled := [(0, found r)] |} by reflexivity.
    rewrite imported_stays. cbn.
    repeat split.
    + destruct b; reflexivity.
    + intros [-> | ->]; reflexivity.
  - destruct Hin as [p Hp]. discriminate Hp.
Qed.

(** X16. When [getCopilotSettings] is called with nothing in the cache,
    it leaves the empty placeholder there while the import runs.  Until the
    import ends, every [loadCopilotSettings] resolves at once with that
    placeholder, which [CopilotChat] rejects as incomplete, whatever the
    import then delivers; only calls made after the import has ended see
    its result. *)
Theorem placeholder_hides_settings (before after : list Call) (r : Import) :
  cached (run before) = None ->
  Forall (fun c => c = load \/ c = get) after ->
  let l := run (before ++ get :: after) in
  fst (loadCopilotSettings l) = resolved emptySettings
  /\ fst (getCopilotSettings l) = emptySettings
  /\ incomplete emptySettings = true
  /\ inflight l = Some 0 /\ started l = 1
  /\ fst (loadCopilotSettings (step l (ended r))) = resolved (found r).
Proof.
  intros Hc Hafter. cbn zeta. rewrite loader_run_app. cbn [foldl].
  assert (E : step (run before) get = importingWith true).
  { destruct (run_Stage before) as [|[]|v]; try discriminate Hc; reflexivity. }
  rewrite E. destruct (importing_stays true after Hafter) as [b' ->].
  cbn. repeat split.
Qed.

End SettingsCache.

Lemma settings_imported_once_witness :
  CopilotSettingsLoader.cached
    (CopilotSettingsLoader.run
       [CopilotSettingsLoader.load;
        CopilotSettingsLoader.ended CopilotSettingsLoader.rejected;
        CopilotSettingsLoader.load])
  = Some CopilotSettingsLoader.emptySettings.
Proof.
  assert (H : is_Some (CopilotSettingsLoader.inflight
                         (CopilotSettingsLoader.run [CopilotSettingsLoader.load])))
    by (exists 0; reflexivity).
  exact (proj1 (proj2 (proj2 (proj2
           (settings_imported_once [CopilotSettingsLoader.load]
              [CopilotSettingsLoader.load] CopilotSettingsLoader.rejected H))))).
Defined.

Lemma placeholder_hides_settings_witness :
  fst (CopilotSettingsLoader.loadCopilotSettings
         (CopilotSettingsLoader.run
            [CopilotSettingsLoader.get; CopilotSettingsLoader.load]))
  = CopilotSettingsLoader.resolved CopilotSettingsLoader.emptySettings.
Proof.
  assert (H1 : CopilotSettingsLoader.cached (CopilotSettingsLoader.run []) = None)
    by reflexivity.
  assert (H2 : Forall (fun c => c = CopilotSettingsLoader.load
                                \/ c = CopilotSettingsLoader.get)
                 [CopilotSettingsLoader.load]).
  { apply Forall_cons. split; [left; reflexivity|apply Forall_nil_2]. }
  exact (proj1 (placeholder_hides_settings [] [CopilotSettingsLoader.load]
                  CopilotSettingsLoader.rejected H1 H2)).
Defined.

Section ProviderOverlays.

Import PowerProvider.

(** The provider is waiting for [initialize()], showing its failure, or
    ready. *)
Inductive Phase : State -> Prop :=
| waiting (n : nat) :
    Phase {| initializing := true; ready := false; error := None; attempt := n;
             calls := S n; pending := 1 |}
| failed (message : string) (n : nat) :
    Phase {| initializing := false; ready := false; error := Some message;
             attempt := n; calls := S n; pending := 0 |}
| up (n : nat) :
    Phase {| initializing := false; ready := true; error := None; attempt := n;
             calls := S n; pending := 0 |}.

Lemma step_Phase s e : Phase s -> Phase (step s e).
Proof.
  intros [n|message n|n]; destruct e as [|m|]; cbn;
    first [apply waiting | apply failed | apply up].
Qed.

Lemma provider_run_app es1 es2 : run (es1 ++ es2) = foldl step (run es1) es2.
Proof. unfold run. apply foldl_app. Qed.

Lemma run_Phase es : Phase (run es).
Proof.
  induction es as [|e es IH] using rev_ind; [exact (waiting 0)|].
  rewrite provider_run_app. cbn [foldl]. apply step_Phase, IH.
Qed.

Lemma up_stays n es :
  foldl step {| initializing := false; ready := true; error := None; attempt := n;
                calls := S n; pending := 0 |} es
  = {| initializing := false; ready := true; error := None; attempt := n;
       calls := S n; pending := 0 |}.
Proof.
  induction es as [|e es IH]; [reflexivity|].
  cbn [foldl]. destruct e; exact IH.
Qed.

(** X17. Whatever initialisations succeed or fail and whenever Retry is
    pressed: [initialize()] has been called once more than Retry took
    effect, and at most one call is pending.  The provider is in exactly
    one of three situations: the initialising overlay is up and a call is
    pending; the error overlay with its Retry button is up and none is
    pending; or it is ready, with no overlay and no error, and then
    nothing that happens changes its state any more. *)
Theorem provider_overlays (es : list Event) :
  let s := run es in
  calls s = S (attempt s) /\ pending s <= 1
  /\ ((initOverlay s = true /\ errorOverlay s = false /\ ready s = false
       /\ pending s = 1)
      \/ (initOverlay s = false /\ errorOverlay s = true /\ ready s = false
          /\ pending s = 0)
      \/ (initOverlay s = false /\ errorOverlay s = false /\ ready s = true
          /\ pending s = 0 /\ error s = None
          /\ forall es', run (es ++ es') = s)).
Proof.
  cbn zeta. pose proof (run_Phase es) as H.
  remember (run es) as s eqn:Es. destruct H as [n|message n|n]; cbn.
  - split; [reflexivity|]. split; [lia|]. left. repeat split.
  - split; [reflexivity|]. split; [lia|]. right. left. repeat split.
  - split; [reflexivity|]. split; [lia|]. right. right. repeat split.
    intros es'. rewrite provider_run_app, <- Es. apply up_stays.
Qed.

End ProviderOverlays.

Section CameraFraming.

Import DashboardCamera.
Local Open Scope R_scope.

Lemma sqrt_ratio (a b : R) :
  a <> 0 -> sqrt (1 + (b / a)²) = sqrt (a * a + b * b) / Rabs a.
Proof.
  intros Ha.
  assert (Hp : 0 < Rabs a) by (apply Rabs_pos_lt, Ha).
  assert (Hs : 0 <= sqrt (a * a + b * b)) by apply sqrt_pos.
  apply sqrt_lem_1.
  - unfold Rsqr. nra.
  - apply Rmult_le_pos; [exact Hs|]. left. apply Rinv_0_lt_compat, Hp.
  - unfold Rsqr, Rdiv.
    replace (sqrt (a * a + b * b) * / Rabs a * (sqrt (a * a + b * b) * / Rabs a))
      with (sqrt (a * a + b * b) * sqrt (a * a + b * b) * (/ Rabs a * / Rabs a))
      by ring.
    rewrite sqrt_sqrt by nra.
    rewrite <- Rinv_mult.
    replace (Rabs a * Rabs a) with (a * a)
      by (unfold Rabs; destruct (Rcase_abs a); ring).
    field. exact Ha.
Qed.


Lemma sqrt_square_abs (b : R) : sqrt (0 * 0 + b * b) = Rabs b.
Proof.
  replace (0 * 0 + b * b) with (b²) by (unfold Rsqr; ring). apply sqrt_Rsqr_abs.
Qed.

(** [Math.atan2] gives the angle of the point it is given. *)
Lemma atan2_sin_cos (a b : R) :
  a <> 0 \/ b <> 0 ->
  sin (atan2 b a) = b / sqrt (a * a + b * b)
  /\ cos (atan2 b a) = a / sqrt (a * a + b * b).
Proof.
  intros Hab.
  assert (Hrho : 0 < sqrt (a * a + b * b)).
  { apply sqrt_lt_R0. destruct Hab as [H|H]; nra. }
  unfold atan2. destruct (Rlt_dec 0 a) as [Ha|Ha].
  - rewrite sin_atan, cos_atan, sqrt_ratio by lra.
    rewrite Rabs_right by lra. split; field; lra.
  - destruct (Rlt_dec a 0) as [Ha'|Ha'].
    + assert (E : sqrt (1 + (b / a)²) = sqrt (a * a + b * b) / - a)
        by (rewrite sqrt_ratio by lra; rewrite Rabs_left by lra; reflexivity).
      destruct (Rlt_dec b 0) as [Hb|Hb].
      * rewrite sin_minus, cos_minus, sin_PI, cos_PI, sin_atan, cos_atan, E.
        split; field; lra.
      * rewrite neg_sin, neg_cos, sin_atan, cos_atan, E. split; field; lra.
    + assert (a = 0) as -> by lra. rewrite sqrt_square_abs in *.
      destruct (Rlt_dec 0 b) as [Hb|Hb].
      * rewrite sin_PI2, cos_PI2, Rabs_right by lra. split; field; lra.
      * destruct (Rlt_dec b 0) as [Hb'|Hb'].
        -- rewrite sin_neg, cos_neg, sin_PI2, cos_PI2, Rabs_left by lra.
           split; field; lra.
        -- exfalso. destruct Hab as [H|H]; [apply H; reflexivity|lra].
Qed.

Lemma clamp_inside (v lo hi : R) : lo <= v <= hi -> clamp v lo hi = v.
Proof.
  intros [H1 H2]. unfold clamp. rewrite Rmin_right by exact H2.
  apply Rmax_right, H1.
Qed.

Lemma clamp_bounds (v lo hi : R) : lo <= hi -> lo <= clamp v lo hi <= hi.
Proof.
  intros H. unfold clamp. split; [apply Rmax_l|].
  apply Rmax_lub; [exact H|apply Rmin_l].
Qed.


Lemma length_sqr (v : Vector3) :
  length v * length v = x v * x v + y v * y v + z v * z v.
Proof. unfold length. apply sqrt_sqrt. nra. Qed.

Lemma length_nonneg (v : Vector3) : 0 <= length v.
Proof. apply sqrt_pos. Qed.

(** The spherical angles [setFromVector3] finds, put back into the
    formulas of [newOffset]. *)
Lemma newOffset_components (o : Vector3) (d : R) :
  length o <> 0 ->
  x (newOffset o d) = clamp d 2 60 / length o * z o
  /\ y (newOffset o d) = clamp d 2 60 / length o * y o
  /\ z (newOffset o d) = clamp d 2 60 / length o * x o.
Proof.
  intros Hr. pose proof (length_nonneg o) as Hr0. pose proof (length_sqr o) as Hsq.
  assert (Hpos : 0 < length o) by lra.
  unfold newOffset, setFromVector3.
  destruct (Req_dec_T (length o) 0) as [E|_]; [contradiction|].
  cbn [x y z phi theta radius].
  assert (Hy : -1 <= y o / length o <= 1).
  { split.
    - apply Rmult_le_reg_r with (length o); [exact Hpos|].
      unfold Rdiv. rewrite Rmult_assoc, Rinv_l by exact Hr. nra.
    - apply Rmult_le_reg_r with (length o); [exact Hpos|].
      unfold Rdiv. rewrite Rmult_assoc, Rinv_l by exact Hr. nra. }
  rewrite (clamp_inside (y o / length o) (-1) 1 Hy).
  rewrite cos_acos, sin_acos by exact Hy.
  assert (Hsin : sqrt (1 - (y o / length o)²)
                 = sqrt (z o * z o + x o * x o) / length o).
  { apply sqrt_lem_1.
    - unfold Rsqr. destruct Hy as [H1 H2]. nra.
    - apply Rmult_le_pos; [apply sqrt_pos|]. left. apply Rinv_0_lt_compat, Hpos.
    - unfold Rdiv.
      replace (sqrt (z o * z o + x o * x o) * / length o
               * (sqrt (z o * z o + x o * x o) * / length o))
        with (sqrt (z o * z o + x o * x o) * sqrt (z o * z o + x o * x o)
              * (/ length o * / length o)) by ring.
      rewrite sqrt_sqrt by nra.
      replace (z o * z o + x o * x o) with (length o * length o - y o * y o)
        by lra.
      unfold Rsqr. field. exact Hr. }
  rewrite Hsin.
  destruct (Req_dec_T (sqrt (z o * z o + x o * x o)) 0) as [E0|Hrho].
  - assert (Hxz : z o * z o + x o * x o = 0).
    { apply sqrt_eq_0; [nra|exact E0]. }
    assert (z o = 0) as Hz by nra. assert (x o = 0) as Hx by nra.
    rewrite E0, Hz, Hx. repeat split; field; repeat split; assumption.
  - destruct (atan2_sin_cos (z o) (x o)) as [Hs Hc].
    { destruct (Req_dec_T (z o) 0) as [Hz|Hz]; [|left; exact Hz].
      right. intros Hx. apply Hrho. rewrite Hz, Hx.
      replace (0 * 0 + 0 * 0) with 0 by ring. apply sqrt_0. }
    rewrite Hs, Hc. repeat split; field; repeat split; assumption.
Qed.

Lemma newOffset_length (o : Vector3) (d : R) :
  length o <> 0 -> length (newOffset o d) = clamp d 2 60.
Proof.
  intros Hr. destruct (newOffset_components o d Hr) as (Ex & Ey & Ez).
  pose proof (clamp_bounds d 2 60 ltac:(lra)) as [Hlo Hhi].
  pose proof (length_sqr o) as Hsq. pose proof (length_nonneg o) as Hr0.
  unfold length at 1. rewrite Ex, Ey, Ez.
  apply sqrt_lem_1; [|lra|].
  - replace (clamp d 2 60 / length o * z o * (clamp d 2 60 / length o * z o)
             + clamp d 2 60 / length o * y o * (clamp d 2 60 / length o * y o)
             + clamp d 2 60 / length o * x o * (clamp d 2 60 / length o * x o))
      with ((clamp d 2 60 / length o) * (clamp d 2 60 / length o)
            * (x o * x o + y o * y o + z o * z o)) by ring.
    apply Rmult_le_pos; nra.
  - replace (clamp d 2 60 / length o * z o * (clamp d 2 60 / length o * z o)
             + clamp d 2 60 / length o * y o * (clamp d 2 60 / length o * y o)
             + clamp d 2 60 / length o * x o * (clamp d 2 60 / length o * x o))
      with ((clamp d 2 60 / length o) * (clamp d 2 60 / length o)
            * (x o * x o + y o * y o + z o * z o)) by ring.
    rewrite <- Hsq. field. exact Hr.
Qed.

(** X18. When the focus effect frames a set, the camera is aimed at the
    point whose offset from the set's centre is the current offset from
    the orbit target with its x and z components exchanged, rescaled to
    the framing distance clamped to [2, 60]: the height above the target
    keeps its proportion, but the direction round the vertical axis is
    mirrored rather than kept.  A second framing exchanges x and z again,
    so the direction of the first view returns. *)
Theorem focus_camera_mirrors_azimuth (o : Vector3) (d d' : R) :
  length o <> 0 ->
  let n := newOffset o d in
  let n' := newOffset n d' in
  (x n = clamp d 2 60 / length o * z o
   /\ y n = clamp d 2 60 / length o * y o
   /\ z n = clamp d 2 60 / length o * x o)
  /\ 2 <= clamp d 2 60 <= 60
  /\ length n = clamp d 2 60
  /\ (x n' = clamp d' 2 60 / length o * x o
      /\ y n' = clamp d' 2 60 / length o * y o
      /\ z n' = clamp d' 2 60 / length o * z o).
Proof.
  intros Hr. cbn zeta.
  pose proof (newOffset_components o d Hr) as (Ex & Ey & Ez).
  pose proof (clamp_bounds d 2 60 ltac:(lra)) as Hb.
  pose proof (newOffset_length o d Hr) as Hl.
  split; [repeat split; assumption|]. split; [exact Hb|]. split; [exact Hl|].
  assert (Hn : length (newOffset o d) <> 0) by (rewrite Hl; lra).
  destruct (newOffset_components (newOffset o d) d' Hn) as (Ex' & Ey' & Ez').
  rewrite Ex', Ey', Ez', Hl, Ex, Ey, Ez.
  repeat split; field; repeat split; lra.
Qed.

End CameraFraming.

Lemma focus_camera_mirrors_azimuth_witness :
  DashboardCamera.x
    (DashboardCamera.newOffset
       {| DashboardCamera.x := 1; DashboardCamera.y := 0; DashboardCamera.z := 0 |}
       5)
  = (DashboardCamera.clamp 5 2 60
     / DashboardCamera.length
         {| DashboardCamera.x := 1; DashboardCamera.y := 0;
            DashboardCamera.z := 0 |} * 0)%R.
Proof.
  assert (H : DashboardCamera.length
                {| DashboardCamera.x := 1; DashboardCamera.y := 0;
                   DashboardCamera.z := 0 |} <> 0%R).
  { unfold DashboardCamera.length. cbn.
    replace (1 * 1 + 0 * 0 + 0 * 0)%R with 1%R by ring. rewrite sqrt_1. lra. }
  exact (proj1 (proj1 (focus_camera_mirrors_azimuth _ 5 5 H))).
Defined.
